(* ===== verification/_CoqProject ===== *)
-Q . S2P
Prelude.v
Text.v
Vec.v
Matrix.v
SparseMatrix.v
MatrixIO.v
MulDimArr.v
Region.v
Solver.v
Decoding.v
Heuristics.v
SolverInit.v
ResultFile.v
