(* ===== verification/Prelude.v ===== *)
(** * A verification library for MPLP (dual message passing for MAP inference)

    The program ([src/src/mplp_alg.cpp], [src/src/matrix.cpp]) computes
    approximate MAP assignments of discrete graphical models by
    block-coordinate descent on the dual of the MAP linear program.  It has
    three layers, and the library has one file per component:

    - [Text.v] (Module [Text]): what the file formats share: [std::endl],
      the decimal printing of an index ([show_nat]) and its reading back,
      splitting a text at separators and the whitespace-separated tokens
      [>>] reads ([words]).
    - [Vec.v] (Module [Vec]): the dense vector [mplpLib::Vec] of
      [matrix.cpp] (lines 13-204): fill, copy, the scalar and element-wise
      arithmetic, [Max], [Min], [MaxMin], [Sum], [SetSize], [Rand] (its
      file routines are in [MatrixIO.v]).  A vector is a [list Q].
    - [Matrix.v] (Module [Matrix]): the dense matrix [mplpLib::Matrix]
      of [matrix.cpp] (lines 235-511) and [Vec::MatMult] (206-218), a
      utility the solver does not call: a record of the dimensions, the
      row-major array and the ownership flag, with every operation that
      does not do I/O; nested [(i, j)] loops are cell updates of the
      array ([cell_upd], [nested_set]).
    - [SparseMatrix.v] (Module [SparseMatrix]): [mplpLib::SparseMatrix]
      (lines 528-592): [Read] (the parsed file given as the list of its
      triples), [SumCol], [SumRow], and the dense matrix [to_dense] a
      sparse matrix stands for.
    - [MatrixIO.v] (Module [MatrixIO]): the file and console routines
      [Vec::Read]/[Write]/[Print], [Matrix::Read]/[Write]/[Print] and the
      reading of [SparseMatrix::Read]'s file.  An input stream is its
      tokens and its [good()] flag ([istream]); one [>>] is [extract],
      with the C++11 rules (end of input leaves the variable alone, a
      failed conversion stores [0], a failed stream reads nothing); the
      library's conversions of numerals are parameters.
    - [MulDimArr.v] (Module [MulDimArr]): the potential table
      [MulDimArr], declared in the header [matrix.h], which is not part of
      [src/]; it is modelled from the specification and from its uses in
      [mplp_alg.cpp]: a record of dimension sizes and a row-major data
      list, the mixed-radix index maps [flat_ind]/[base_ind], [GetVal],
      [ExpandAndAdd]/[ExpandAndSubtract] (broadcast over the positions [P]),
      the first-found [Max] with its argmax, and the one-pass
      [max_into_multiple_subsets_special] (running maxima that start
      undefined and are replaced on a strictly greater value).
    - [Region.v] (Module [Region]): [mplpLib::Region] (lines 33-196): the
      constructor [Region_new], [AddIntersectionSet] and the message update
      [UpdateMsgs], written as its three loops [orig_loop], [lam_loop],
      [msg_loop] and the final [memcpy].  The aggregated beliefs
      [sum_into_intersects], a vector shared by all regions, are passed in
      and returned: a region's update is a function from the beliefs to the
      new region and the new beliefs.
    - [Solver.v] (Module [Solver]): [mplpLib::MPLPAlg] (lines 202-628).
      Its state is the record [MPLPAlg]; [Init], [RunMPLP], [LocalDecode],
      [UpdateResult], [IntVal], [Write], [AddIntersectionSet],
      [FindIntersectionSet], [AddRegion] and [AddAllEdgeIntersections] are
      functions on it.  [std::map] is stdpp's [gmap]; the clock is the
      field [now], set from a clock reading per iteration; the result file
      is the list of lines [out_res].  [RunMPLP] calls the global decoding
      through the argument [gd]; the typeclass [GlobalDecoder] states what
      [RunMPLP]'s theorems need of it.
    - [Decoding.v] (Module [Decoding]): the global decoding heuristic
      [RunGlobalDecoding] (lines 640-757) with [gap] (1003-1020): its
      [while] loop is [gd_loop] over the record [gd_state] of the loop's
      variables, with one round [gd_round] made of the gap loop
      [gap_loop], the fixing loop [fix_loop] and ten message-passing
      rounds [inner_loop]; the saved messages and beliefs are lists of
      cells, copied back by [restore].  It is an instance of the class
      [GlobalDecoder] that [RunMPLP]'s theorems assume.
    - [Heuristics.v] (Module [Heuristics]): the other heuristics, which
      [RunMPLP] does not call: [RunGlobalDecoding2] (lines 762-884, one
      smallest-gap variable fixed per round, [gap2_loop], [gd2_round],
      [gd2_loop] over the record [gd2_state]), [RunGlobalDecoding3]
      (lines 888-947, eleven perturbed trials [trial3] each running both
      global decodings and restoring the saved state) and [RunDecimation]
      (lines 950-1002, the permanent fixing loop [decim_loop]).  The
      draws [rand() % 2] and [rand() / RAND_MAX] are arguments [coin] and
      [noise].
    - [SolverInit.v] (Module [SolverInit]): the proofs about [Init]
      (lines 255-379): the singleton sets, the loop over the input regions
      ([init_region]), the evidence written into the decoded assignments
      ([with_evidence]) and the UAI branch that decodes and, on a CSP
      instance, perturbs the singleton beliefs ([init_uai], [perturb]).
    - [ResultFile.v] (Module [ResultFile]): the constructor
      [MPLPAlg::MPLPAlg] (lines 202-222, [MPLPAlg_ctor]: the result-file
      name [res_fname], the header, the [substr] that picks the reader and
      its [std::out_of_range]), [Init(fn)] and [Init2] (225-254,
      [Init_file], [Init2_file]) over a reader [ModelLoader], and the text
      [Write] appends (605-628, [Write_text], [write_line], [asg_line]).
      The file is a [String.string], numbers are printed in decimal
      ([show_nat]); [parse_file] reads a result file back.  The solver's
      [out_res] records what [Write] printed, and [res_file] is the text.

    The groups of theorems:
    - tables: [flat_ind]/[base_ind] are inverse bijections; the one-pass
      max-marginal equals the reference maximum over each fibre
      ([max_into_cell]); max-marginalising onto all dimensions is the
      identity and undoes an expansion exactly ([max_into_identity],
      [max_into_expand]);
    - regions: construction returns a partly built region when a shared
      set has a variable outside the region ([Region_new_error]), and
      otherwise a consistent one ([Region_new_ok]); [UpdateMsgs] keeps the
      catalogue and the region well formed, preserves the total belief at
      every full assignment (a reparameterisation) and does not increase
      the dual objective ([UpdateMsgs_correct]);
    - solver: [RunMPLP] keeps the invariant [run_inv] (well-formed
      catalogue and regions, beliefs whose total bounds every score,
      evidence decoded as given), never increases the dual objective,
      which bounds the score of every assignment; the incumbent never
      decreases; [LocalDecode] is idempotent; [AddIntersectionSet] and
      [FindIntersectionSet] round-trip; [UpdateResult] writes strictly
      improving lines;
    - global decoding: [RunGlobalDecoding] restores what it changes and
      meets the [GlobalDecoder] contract ([RunGlobalDecoding_contract]),
      and its loop ends with every variable decoded within as many rounds
      as there are variables ([RunGlobalDecoding_terminates]), because a
      gap is never negative and each round fixes the variable of largest
      gap;
    - heuristics: [RunGlobalDecoding3] gives back the model, messages,
      beliefs and evidence and never lowers the incumbent
      ([RunGlobalDecoding3_restores]); outside exhaustive mode
      [RunGlobalDecoding2] is another instance of [GlobalDecoder]
      ([RunGlobalDecoding2_decoder], through the generic
      [finish_decoder] of [Decoding.v]), ends within 100 rounds
      ([RunGlobalDecoding2_fuel]) and 1000 message-passing iterations
      ([gd2_iters_bound]); in exhaustive mode its loop runs
      for ever on a model where no undecoded gap is below [MPLP_huge]
      ([gd2_exhaustive_diverges]); when every belief of a variable is at
      or below [-MPLP_huge], [gap] leaves [max_at] as it was and reports
      a zero gap ([gap_stale_max_at]), so the variable is decoded to a
      stale value;
      [RunDecimation] fixes a node exactly when one is undecoded
      ([RunDecimation_fixes]) and keeps the dual objective a bound on
      every assignment that agrees with the new evidence
      ([RunDecimation_sound]);
    - matrices: [ScaleRowsByVec] and [DivRowsByVec] scale each cell by
      its row's factor ([ScaleRowsByVec_get]); [BackDiv]'s nested loop equals the flat
      [Vec::BackDiv] ([BackDiv_flat]); [Vec::MatMult] is [VecMult] on the
      transpose ([MatMult_VecMult_Transpose]); transposing twice and
      [GetRow] after [SetRow] give back what was stored
      ([Transpose_twice], [GetRow_SetRow]); [Sum] is the sum of the row
      sums and of the column sums ([Sum_rows_cols]); the sparse [SumRow]
      and [SumCol] are the dense ones when entries sit at distinct cells
      ([SumRow_SumCol_dense]) and [Read] normalises to total mass one
      ([Read_normalised]);
    - matrix files: [Read] of what [Write] wrote gives back the vector,
      or the matrix's dimensions and array, rounded as the stream's
      conversions round a double ([Write_Read_roundtrip]); a
      sparse-matrix file is read into the entries it lists
      ([Sparse_Read_text]); [Vec::Read] never checks its stream, so a
      missing file leaves an uninitialised size and doubles, and a short
      one leaves the unread doubles uninitialised ([Vec_Read_unchecked]);
    - initialisation: [Init] from the constructor's state establishes
      [run_inv] for any input whose regions name distinct variables and
      carry a potential, and for any non-negative CSP noise, so that after
      [Init] and [RunMPLP] the recorded objective bounds every score
      ([Init_RunMPLP_bound]), whatever global decoding satisfies the
      interface; a region without a potential, added to any catalogue,
      leaves [m_sum_into_intersects] one entry short of
      [m_all_intersects] and the region's own intersection index past
      its end ([Init_structural_misaligned]);
    - result file: reading back the file the constructor and the writes
      leave gives the assignments written, in order ([parse_file_text]);
      [Write] keeps the [begin] protocol and appends exactly what it
      prints ([Write_appends]); the constructor names the file after the
      model's base name, writes the header first, throws
      [std::out_of_range] on a name shorter than six characters and reads
      a [UAI.LG] file with [Init2] ([MPLPAlg_ctor_spec]).

    Doubles are exact rationals [Q]: the theorems hold of the exact
    arithmetic that the code approximates, and say nothing about rounding.
    Indices are [nat]; C++ out-of-range reads (UB) read [0] or an empty
    table and out-of-range writes do nothing ([set_nth]), and every theorem
    assumes the well-formedness that rules them out.  [RunMPLP]'s loop
    runs at most [niter] times, which is its own bound, not a fuel; the
    other loops are structural folds over index ranges, except the
    [while] loop of [RunGlobalDecoding], whose fuel is the number of
    variables, proved enough, and that of [RunGlobalDecoding2], whose
    fuel is a number of rounds: 100 are enough outside exhaustive mode,
    and no number is enough in exhaustive mode, which is a divergence of
    the code, proved for every fuel.  The random draws
    of [Init] ([rand() / RAND_MAX]) are an argument [noise], assumed
    non-negative, as those draws are.  [Init] pairs the input regions with
    their potentials by [combine]; the source indexes both lists by the
    same counter.

    Not modelled: the model and evidence readers [read_model_file] and
    [read_model_file2], which are not under [src/] and are the interface
    [ModelLoader] of [ResultFile.v]; the solver's console and log-file
    output ([cout] progress lines and the [fprintf] of [RunMPLP], which
    print doubles and [clock()] readings and change no state the
    solver reads back) and the timing fields the heuristics write, the
    conversions of [<<] and [>>] on doubles (six significant digits by
    default; [MatrixIO.v] takes them as parameters, since they have no
    faithful rendering over [Q]), the debug file
    [Matrix::SumRow] opens, and allocation and deallocation (a fresh
    array's contents are an argument [junk]);
    the header constants [MPLP_huge] and [MPLP_MIN_APP_TIME] are
    parameters ([Solver.consts]).

    This file is the prelude: the numeric conventions, the list and sum
    lemmas shared by every component, the notations (scope [mplp_scope]),
    the hint databases and the tactics. *)

From Stdlib Require Import ZArith QArith Lqa List Lia Arith Permutation Morphisms.
Import ListNotations.

Open Scope Q_scope.

Declare Scope mplp_scope.
Delimit Scope mplp_scope with mplp.

Create HintDb mplp.
Create Rewrite HintDb mplp_len.

(** ** Doubles

    A C [double] is modelled by an exact rational [Q]; the comparison
    [a > b] of the C code is the boolean [Qgtb a b]. *)

Definition Qgtb (a b : Q) : bool := negb (Qle_bool a b).

Notation "a >.? b" := (Qgtb a b) (at level 70, no associativity) : mplp_scope.

(** Reading an array slot, as [a[k]] in C, defaulting to [0] out of range. *)
Notation "l .[ k ]" := (nth k l 0%Q)
  (at level 1, format "l .[ k ]") : mplp_scope.

Open Scope mplp_scope.

(** Writing an array slot, as [a[k] = x] in C: no change out of range. *)
Fixpoint set_nth {A} (k : nat) (x : A) (l : list A) : list A :=
  match l, k with
  | [], _ => []
  | _ :: l', O => x :: l'
  | y :: l', S k' => y :: set_nth k' x l'
  end.

(** Sum of a list of rationals. *)
Definition qsum (l : list Q) : Q := fold_right Qplus 0 l.

(** ** Lemmas on [Qgtb] *)

Lemma Qgtb_true a b : Qgtb a b = true <-> b < a.
Proof.
  unfold Qgtb. rewrite Bool.negb_true_iff.
  split; intro H.
  - apply Qnot_le_lt. intro H'. apply Qle_bool_iff in H'. congruence.
  - destruct (Qle_bool a b) eqn:E; [|reflexivity].
    apply Qle_bool_iff in E. lra.
Qed.

Lemma Qgtb_false a b : Qgtb a b = false <-> a <= b.
Proof.
  unfold Qgtb. rewrite Bool.negb_false_iff. apply Qle_bool_iff.
Qed.

(** ** Lemmas on [set_nth] *)

Lemma length_set_nth {A} k (x : A) l : length (set_nth k x l) = length l.
Proof. revert k; induction l; intros [|k]; simpl; auto. Qed.

Lemma nth_set_nth_eq {A} k (x d : A) l :
  (k < length l)%nat -> nth k (set_nth k x l) d = x.
Proof.
  revert k; induction l; intros [|k] H; simpl in *; try lia; auto.
  apply IHl; lia.
Qed.

Lemma nth_set_nth_ne {A} k j (x d : A) l :
  k <> j -> nth j (set_nth k x l) d = nth j l d.
Proof.
  revert k j; induction l; intros [|k] [|j] H; simpl; auto; try lia.
Qed.

Lemma set_nth_ge {A} k (x : A) l : (length l <= k)%nat -> set_nth k x l = l.
Proof.
  revert k; induction l; intros [|k] H; simpl in *; try lia; auto.
  f_equal; apply IHl; lia.
Qed.

#[export] Hint Rewrite @length_set_nth : mplp_len.

(** A loop of writes [l[k] = f(k)] keeps the length. *)
Lemma length_fold_set_nth {A} (f : nat -> A) ks (e : list A) :
  length (fold_left (fun l k => set_nth k (f k) l) ks e) = length e.
Proof. revert e; induction ks as [|k ks IH]; intros e; simpl; [reflexivity|]. rewrite IH. apply length_set_nth. Qed.

(** The loop [for (k = a; k < a + m; ++k) l[k] = f(k)]. *)
Lemma nth_fold_set_nth_seq {A} (f : nat -> A) a m (e : list A) d j :
  nth j (fold_left (fun l k => set_nth k (f k) l) (seq a m) e) d =
  if Nat.leb a j && Nat.ltb j (a + m) && Nat.ltb j (length e) then f j else nth j e d.
Proof.
  revert a e; induction m as [|m IH]; intros a e; simpl.
  - destruct (Nat.leb_spec a j), (Nat.ltb_spec j (a + 0)), (Nat.ltb j (length e)); simpl; auto; lia.
  - rewrite IH, length_set_nth.
    destruct (Nat.eqb_spec j a) as [->|Hne].
    + rewrite Nat.leb_refl. destruct (Nat.ltb_spec a (length e)).
      * rewrite nth_set_nth_eq by auto. destruct (Nat.leb_spec (S a) a); [lia|].
        destruct (Nat.ltb_spec a (a + S m)); [reflexivity|lia].
      * rewrite set_nth_ge by lia. destruct (Nat.leb_spec (S a) a); [lia|].
        destruct (Nat.ltb_spec a (length e)); [lia|]. destruct (Nat.ltb a (a + S m)); reflexivity.
    + rewrite nth_set_nth_ne by auto.
      destruct (Nat.leb_spec (S a) j), (Nat.leb_spec a j), (Nat.ltb_spec j (S a + m)), (Nat.ltb_spec j (a + S m));
        simpl; auto; lia.
Qed.

(** Reading the element appended at the end of a list. *)
Lemma nth_snoc {A} (l : list A) (a d : A) n : n = length l -> nth n (l ++ [a]) d = a.
Proof. intros ->. rewrite app_nth2, Nat.sub_diag by lia. reflexivity. Qed.

(** Reading below the end of a list that has been extended. *)
Lemma nth_app_lt {A} (l l' : list A) (d : A) n : (n < length l)%nat -> nth n (l ++ l') d = nth n l d.
Proof. apply app_nth1. Qed.

Lemma nth_map_lt {A B} (f : A -> B) l (d : A) (d' : B) i :
  (i < length l)%nat -> nth i (map f l) d' = f (nth i l d).
Proof.
  intros H. rewrite nth_indep with (d' := f d) by (rewrite length_map; auto).
  apply map_nth.
Qed.

Lemma map_seq_nth {A B} (f : A -> B) (l : list A) (d : A) :
  map f l = map (fun i => f (nth i l d)) (seq 0 (length l)).
Proof.
  induction l as [|a l IH]; simpl; auto. f_equal.
  rewrite IH, <- seq_shift, map_map. reflexivity.
Qed.

Lemma fold_left_ext_in {A B} (f g : A -> B -> A) (l : list B) (a : A) :
  (forall acc x, In x l -> f acc x = g acc x) -> fold_left f l a = fold_left g l a.
Proof.
  revert a; induction l as [|x l IH]; intros a H; simpl; auto.
  rewrite H by (left; auto). apply IH. intros; apply H; right; auto.
Qed.

(** ** Boolean checks with their soundness *)

Definition leqb (a b : list nat) : bool := if list_eq_dec Nat.eq_dec a b then true else false.

Lemma leqb_true a b : leqb a b = true <-> a = b.
Proof. unfold leqb. destruct (list_eq_dec Nat.eq_dec a b); split; congruence. Qed.

Fixpoint nodupb (l : list nat) : bool :=
  match l with
  | [] => true
  | x :: l' => negb (existsb (Nat.eqb x) l') && nodupb l'
  end.

Lemma nodupb_sound l : nodupb l = true -> NoDup l.
Proof.
  induction l as [|x l IH]; simpl; intros H; constructor.
  - apply andb_prop in H as [H _]. apply Bool.negb_true_iff in H.
    intros Hin. rewrite <- Bool.not_true_iff_false in H. apply H, existsb_exists.
    exists x. split; auto. apply Nat.eqb_refl.
  - apply IH. apply andb_prop in H as [_ H]. auto.
Qed.

Lemma forallb_lt_sound (n : nat) l : forallb (fun s => Nat.ltb s n) l = true -> Forall (fun s => s < n)%nat l.
Proof.
  intros H. apply Forall_forall. intros x Hx. rewrite forallb_forall in H.
  apply Nat.ltb_lt, H, Hx.
Qed.

Lemma forallb_pos_sound l : forallb (fun s => Nat.ltb 0 s) l = true -> Forall (fun s => 0 < s)%nat l.
Proof.
  intros H. apply Forall_forall. intros x Hx. rewrite forallb_forall in H.
  apply Nat.ltb_lt, H, Hx.
Qed.

(** ** Lemmas on [qsum] *)

Lemma qsum_nil : qsum [] = 0.
Proof. reflexivity. Qed.

Lemma qsum_cons x l : qsum (x :: l) = x + qsum l.
Proof. reflexivity. Qed.

Lemma qsum_app l1 l2 : qsum (l1 ++ l2) == qsum l1 + qsum l2.
Proof. induction l1; simpl; [lra|]. rewrite IHl1. lra. Qed.

#[export] Instance qsum_proper : Proper (Forall2 Qeq ==> Qeq) qsum.
Proof. intros l1 l2 H. induction H; simpl; [reflexivity|]. rewrite H, IHForall2. reflexivity. Qed.

Lemma qsum_map_ext {A} (f g : A -> Q) l :
  (forall x, In x l -> f x == g x) -> qsum (map f l) == qsum (map g l).
Proof.
  induction l; intros H; simpl; [reflexivity|].
  rewrite (H a (or_introl eq_refl)), IHl; [reflexivity|].
  intros; apply H; right; auto.
Qed.

Lemma qsum_map_le {A} (f g : A -> Q) l :
  (forall x, In x l -> f x <= g x) -> qsum (map f l) <= qsum (map g l).
Proof.
  induction l; intros H; simpl; [lra|].
  pose proof (H a (or_introl eq_refl)).
  assert (qsum (map f l) <= qsum (map g l)) by (apply IHl; intros; apply H; right; auto).
  lra.
Qed.

Lemma qsum_map_plus {A} (f g : A -> Q) l :
  qsum (map (fun x => f x + g x) l) == qsum (map f l) + qsum (map g l).
Proof. induction l; simpl; [lra|]. rewrite IHl. lra. Qed.

Lemma qsum_map_opp {A} (f : A -> Q) l :
  qsum (map (fun x => - f x) l) == - qsum (map f l).
Proof. induction l; simpl; [lra|]. rewrite IHl. lra. Qed.

Lemma qsum_map_const {A} (c : Q) (l : list A) :
  qsum (map (fun _ => c) l) == inject_Z (Z.of_nat (length l)) * c.
Proof.
  induction l; simpl map; simpl length; [unfold inject_Z; simpl; ring|].
  rewrite qsum_cons, IHl, Nat2Z.inj_succ, <- Z.add_1_l, inject_Z_plus.
  change (inject_Z 1) with 1. ring.
Qed.

Lemma qsum_map_scale {A} (c : Q) (f : A -> Q) l :
  qsum (map (fun x => c * f x) l) == c * qsum (map f l).
Proof. induction l; simpl; [lra|]. rewrite IHl. lra. Qed.

Lemma qsum_perm l1 l2 : Permutation l1 l2 -> qsum l1 == qsum l2.
Proof.
  induction 1; simpl; lra.
Qed.

Lemma qsum_le_single {A} (f : A -> Q) l a :
  NoDup l -> In a l -> (forall x, In x l -> 0 <= f x) -> f a <= qsum (map f l).
Proof.
  induction l as [|b l IH]; intros Hnd Hin Hpos; [contradiction|].
  inversion Hnd; subst. simpl in *.
  assert (0 <= qsum (map f l)).
  { replace 0 with (qsum (map (fun _ : A => 0) l)).
    - apply qsum_map_le; auto.
    - clear. induction l; simpl; auto. rewrite IHl. reflexivity. }
  destruct Hin as [->|Hin].
  - lra.
  - pose proof (Hpos b (or_introl eq_refl)). pose proof (IH H2 Hin (fun x Hx => Hpos x (or_intror Hx))). lra.
Qed.

(** An accumulating [+=] loop computes a sum. *)
Lemma fold_left_plus {A} (f : A -> Q) l a :
  fold_left (fun o i => o + f i) l a == a + qsum (map f l).
Proof.
  revert a; induction l as [|x l IH]; intros a; simpl; [lra|]. rewrite IH. lra.
Qed.

(** An accumulating loop that skips some indices. *)
Lemma fold_left_plus_if {A} (b : A -> bool) (f : A -> Q) l a :
  fold_left (fun o i => if b i then o else o + f i) l a
  == a + qsum (map (fun i => if b i then 0 else f i) l).
Proof.
  revert a; induction l as [|x l IH]; intros a; simpl; [lra|]. rewrite IH. destruct (b x); lra.
Qed.

(** The factor [1.0/n] of a count [n]. *)
Lemma inv_nat_nonneg n : 0 <= / inject_Z (Z.of_nat n).
Proof. apply Qinv_le_0_compat. change 0 with (inject_Z 0). rewrite <- Zle_Qle. lia. Qed.

Lemma inv_nat_mul n : (0 < n)%nat -> inject_Z (Z.of_nat n) * / inject_Z (Z.of_nat n) == 1.
Proof.
  intros H. apply Qmult_inv_r.
  assert (0 < inject_Z (Z.of_nat n)) by (change 0 with (inject_Z 0); rewrite <- Zlt_Qlt; lia).
  lra.
Qed.

(** Splitting a sum over a duplicate-free index list [l] into the part on
    the indices [K] and the rest. *)
Lemma perm_split_nodup (K l : list nat) :
  NoDup K -> NoDup l -> incl K l ->
  Permutation l (K ++ filter (fun i => negb (existsb (Nat.eqb i) K)) l).
Proof.
  intros HK Hl Hinc. apply NoDup_Permutation; auto.
  - apply NoDup_app; auto.
    + apply NoDup_filter; auto.
    + intros x Hx Hx'. apply filter_In in Hx' as [_ Hf].
      apply Bool.negb_true_iff in Hf. rewrite <- Bool.not_true_iff_false in Hf.
      apply Hf. apply existsb_exists. exists x. split; auto. apply Nat.eqb_refl.
  - intros x. rewrite in_app_iff, filter_In. split.
    + intros Hx. destruct (existsb (Nat.eqb x) K) eqn:E.
      * left. apply existsb_exists in E as [y [Hy Hxy]]. apply Nat.eqb_eq in Hxy. subst; auto.
      * right. split; auto.
    + intros [Hx|[Hx _]]; auto.
Qed.

Lemma qsum_change_on (K l : list nat) (f g : nat -> Q) :
  NoDup K -> NoDup l -> incl K l ->
  (forall i, In i l -> ~ In i K -> f i = g i) ->
  qsum (map f l) == qsum (map g l) + (qsum (map f K) - qsum (map g K)).
Proof.
  intros HK Hl Hinc Hout.
  pose proof (perm_split_nodup K l HK Hl Hinc) as P.
  rewrite (qsum_perm _ _ (Permutation_map f P)), (qsum_perm _ _ (Permutation_map g P)).
  rewrite !map_app, !qsum_app.
  assert (E : map f (filter (fun i => negb (existsb (Nat.eqb i) K)) l)
            = map g (filter (fun i => negb (existsb (Nat.eqb i) K)) l)).
  { apply map_ext_in. intros i Hi. apply filter_In in Hi as [Hi Hf]. apply Hout; auto.
    intro HiK. apply Bool.negb_true_iff in Hf. rewrite <- Bool.not_true_iff_false in Hf.
    apply Hf, existsb_exists. exists i. split; auto. apply Nat.eqb_refl. }
  rewrite E. lra.
Qed.

Lemma qsum_map_zero {A} (f : A -> Q) l : (forall x, In x l -> f x == 0) -> qsum (map f l) == 0.
Proof.
  induction l as [|a l IH]; intros H; simpl; [lra|].
  rewrite (H a (or_introl eq_refl)), IH by (intros; apply H; right; auto). lra.
Qed.

(** Changing one term of a sum over [0 .. n-1]. *)
Lemma qsum_seq_update (f g : nat -> Q) n v c :
  (v < n)%nat -> (forall i, i <> v -> f i = g i) -> g v == f v + c ->
  qsum (map g (seq 0 n)) == qsum (map f (seq 0 n)) + c.
Proof.
  intros Hv Ho Hg.
  rewrite (qsum_change_on [v] (seq 0 n) g f); auto using seq_NoDup.
  - simpl. lra.
  - constructor; [intros []|constructor].
  - intros i [<-|[]]. apply in_seq. lia.
  - intros i _ Hi. symmetry. apply Ho. intros ->. apply Hi. left. auto.
Qed.

Lemma qsum_seq_snoc (f : nat -> Q) n :
  qsum (map f (seq 0 (S n))) == qsum (map f (seq 0 n)) + f n.
Proof. rewrite seq_S, map_app, qsum_app. simpl. lra. Qed.

(** ** Tactics *)

(** Rewrite with the development's length lemmas, then close by [lia]. *)
Ltac len_solve := autorewrite with mplp_len in *; simpl in *; lia.
