(* ===== verification/Text.v ===== *)
(** * Text: the characters, tokens and numerals of the program's files

    What the result file ([ResultFile.v]) and the matrix files
    ([MatrixIO.v]) share: [std::endl] and the separator, the decimal
    printing of an index by [<<] ([show_nat], Stdlib's [DecimalString])
    and its reading back ([read_nat]), the pieces of a text between
    separators ([split_by], [split_on]) and the whitespace-separated
    tokens that [>>] reads ([words], with the separators of [isspace]).
    The lemmas compute these on texts built by appending, so that a
    printed file can be read back by rewriting. *)

From Stdlib Require Import Bool List Lia Arith String Ascii Decimal DecimalString DecimalNat.
Import ListNotations.

Module Text.

Local Open Scope string_scope.
Local Open Scope bool_scope.

(** [std::endl] and the separator [" "]. *)
Definition nl_char : ascii := "010"%char.
Definition nl : string := String nl_char EmptyString.
Definition sp : string := " ".

(** [<<] on an [MPLPIndexType]: its decimal digits. *)
Definition show_nat (n : nat) : string := NilEmpty.string_of_uint (Nat.to_uint n).

(** A non-empty run of decimal digits. *)
Definition read_nat (s : string) : option nat :=
  match s with
  | EmptyString => None
  | _ => option_map Nat.of_uint (NilEmpty.uint_of_string s)
  end.

Fixpoint read_nats (ws : list string) : option (list nat) :=
  match ws with
  | [] => Some []
  | w :: ws' => match read_nat w, read_nats ws' with
                | Some k, Some ks => Some (k :: ks)
                | _, _ => None
                end
  end%list.

(** Whether a character of [s] satisfies [p]. *)
Fixpoint has (p : ascii -> bool) (s : string) : bool :=
  match s with
  | EmptyString => false
  | String a s' => p a || has p s'
  end.

(** The pieces of [s] between the characters that satisfy [p]. *)
Fixpoint split_by (p : ascii -> bool) (s : string) : list string :=
  match s with
  | EmptyString => [EmptyString]
  | String a s' =>
      if p a then EmptyString :: split_by p s'
      else match split_by p s' with
           | [] => [String a EmptyString]
           | w :: ws => String a w :: ws
           end
  end%list.

Definition has_char (c : ascii) : string -> bool := has (fun a => Ascii.eqb a c).
Definition split_on (c : ascii) : string -> list string := split_by (fun a => Ascii.eqb a c).

(** [isspace] in the C locale: space, [\t], [\n], [\v], [\f], [\r]. *)
Definition is_space (a : ascii) : bool :=
  existsb (Ascii.eqb a) [" "%char; "009"%char; nl_char; "011"%char; "012"%char; "013"%char].

(** The tokens [>>] sees: the non-empty pieces between whitespace. *)
Definition words (s : string) : list string :=
  filter (fun w => negb (String.eqb w "")) (split_by is_space s).

(** The strings [ws], each followed by [c]. *)
Definition unsep (c : ascii) (ws : list string) : string :=
  String.concat "" (map (fun w => w ++ String c EmptyString) ws).

(** ** Appending *)

Create Rewrite HintDb text.

(** [String.append] is [simpl never] under stdpp: its two equations. *)
Lemma str_app_nil_l (s : string) : "" ++ s = s.
Proof. reflexivity. Qed.

Lemma str_app_cons (a : ascii) (s t : string) : String a s ++ t = String a (s ++ t).
Proof. reflexivity. Qed.

Ltac str_simpl := rewrite ?str_app_nil_l, ?str_app_cons.

Lemma nl_app (s : string) : nl ++ s = String nl_char s.
Proof. reflexivity. Qed.

Lemma sp_app (s : string) : sp ++ s = String " " s.
Proof. reflexivity. Qed.

Lemma str_app_nil_r (s : string) : s ++ "" = s.
Proof. induction s; str_simpl; congruence. Qed.

Lemma str_app_assoc (a b d : string) : (a ++ b) ++ d = a ++ (b ++ d).
Proof. induction a; str_simpl; congruence. Qed.

Lemma str_length_app (a b : string) : String.length (a ++ b) = (String.length a + String.length b)%nat.
Proof. induction a; str_simpl; simpl; congruence. Qed.

Lemma concat_nil_cons (x : string) (xs : list string) :
  String.concat "" (x :: xs) = x ++ String.concat "" xs.
Proof. destruct xs; simpl; [now rewrite str_app_nil_r | reflexivity]. Qed.

Lemma concat_nil_app (l1 l2 : list string) :
  String.concat "" (l1 ++ l2) = String.concat "" l1 ++ String.concat "" l2.
Proof.
  induction l1 as [|x l1 IH]; [reflexivity|].
  rewrite <- app_comm_cons, !concat_nil_cons, IH. apply eq_sym, str_app_assoc.
Qed.

Lemma unsep_cons (c : ascii) (w : string) (ws : list string) :
  unsep c (w :: ws) = w ++ String c (unsep c ws).
Proof. unfold unsep. simpl map. rewrite concat_nil_cons, str_app_assoc. reflexivity. Qed.

Lemma unsep_app (c : ascii) (l1 l2 : list string) : unsep c (l1 ++ l2) = unsep c l1 ++ unsep c l2.
Proof. unfold unsep. now rewrite map_app, concat_nil_app. Qed.

Lemma concat_unsep {A} (c : ascii) (f : A -> list string) (l : list A) :
  String.concat "" (map (fun o => unsep c (f o)) l) = unsep c (flat_map f l).
Proof.
  induction l as [|o l IH]; [reflexivity|].
  simpl map. rewrite concat_nil_cons, IH. simpl flat_map. now rewrite unsep_app.
Qed.

(** ** Splitting *)

Section Split.
Variable p : ascii -> bool.

Lemma has_app (a b : string) : has p (a ++ b) = has p a || has p b.
Proof. induction a; str_simpl; simpl; [reflexivity|]. now rewrite IHa, orb_assoc. Qed.

Lemma split_by_not_nil (s : string) : split_by p s <> []%list.
Proof.
  induction s as [|a s IH]; simpl; [discriminate|].
  destruct (p a); [discriminate|]. destruct (split_by p s); discriminate.
Qed.

Lemma split_by_app (a b : string) :
  has p a = false ->
  split_by p (a ++ b) = match split_by p b with [] => [a] | w :: ws => String.append a w :: ws end%list.
Proof.
  induction a as [|x a IH]; str_simpl; simpl; intros H.
  - pose proof (split_by_not_nil b). now destruct (split_by p b).
  - apply orb_false_elim in H as [-> H]. rewrite (IH H). now destruct (split_by p b).
Qed.

Lemma split_by_none (a : string) : has p a = false -> split_by p a = [a]%list.
Proof. intros H. rewrite <- (str_app_nil_r a), (split_by_app _ _ H). reflexivity. Qed.

(** A piece, then a separator. *)
Lemma split_by_sep (a : string) (c : ascii) (b : string) :
  has p a = false -> p c = true -> split_by p (a ++ String c b) = (a :: split_by p b)%list.
Proof. intros Ha Hc. rewrite (split_by_app _ _ Ha). simpl. rewrite Hc, str_app_nil_r. reflexivity. Qed.

Lemma split_by_unsep (c : ascii) (ws : list string) (r : string) :
  p c = true -> forallb (fun w => negb (has p w)) ws = true ->
  split_by p (unsep c ws ++ r) = (ws ++ split_by p r)%list.
Proof.
  intros Hc. induction ws as [|w ws IH]; simpl; intros H; [reflexivity|].
  apply andb_prop in H as [Hw H]. apply negb_true_iff in Hw.
  rewrite unsep_cons, str_app_assoc, str_app_cons, (split_by_sep _ _ _ Hw Hc), (IH H). reflexivity.
Qed.

Lemma has_unsep (c : ascii) (ws : list string) :
  p c = false -> forallb (fun w => negb (has p w)) ws = true -> has p (unsep c ws) = false.
Proof.
  intros Hc. induction ws as [|w ws IH]; simpl; intros H; [reflexivity|].
  apply andb_prop in H as [Hw H]. apply negb_true_iff in Hw.
  rewrite unsep_cons, has_app, Hw. simpl. now rewrite Hc, IH.
Qed.

End Split.

Lemma has_char_app (c : ascii) (a b : string) : has_char c (a ++ b) = has_char c a || has_char c b.
Proof. apply has_app. Qed.

Lemma split_on_none (c : ascii) (a : string) : has_char c a = false -> split_on c a = [a]%list.
Proof. apply split_by_none. Qed.

Lemma split_on_unsep (c : ascii) (ws : list string) (r : string) :
  forallb (fun w => negb (has_char c w)) ws = true ->
  split_on c (unsep c ws ++ r) = (ws ++ split_on c r)%list.
Proof. unfold has_char, split_on. apply split_by_unsep, Ascii.eqb_refl. Qed.

Lemma has_char_unsep (c c' : ascii) (ws : list string) :
  Ascii.eqb c c' = false -> forallb (fun w => negb (has_char c' w)) ws = true ->
  has_char c' (unsep c ws) = false.
Proof. exact (has_unsep (fun a => Ascii.eqb a c') c ws). Qed.

(** ** Tokens *)

Lemma words_nil : words "" = []%list.
Proof. reflexivity. Qed.

(** Whitespace is skipped. *)
Lemma words_space (c : ascii) (s : string) : is_space c = true -> words (String c s) = words s.
Proof. intros Hc. unfold words. simpl. rewrite Hc. reflexivity. Qed.

(** A token ends at whitespace. *)
Lemma words_token (w : string) (c : ascii) (s : string) :
  w <> "" -> has is_space w = false -> is_space c = true ->
  words (w ++ String c s) = (w :: words s)%list.
Proof.
  intros Hw Hs Hc. unfold words. rewrite (split_by_sep _ _ _ _ Hs Hc). simpl.
  destruct w; [congruence|reflexivity].
Qed.

Lemma words_unsep (c : ascii) (ws : list string) (r : string) :
  is_space c = true -> Forall (fun w => w <> "" /\ has is_space w = false) ws ->
  words (unsep c ws ++ r) = (ws ++ words r)%list.
Proof.
  intros Hc. induction 1 as [|w ws [Hw Hs] _ IH]; [reflexivity|].
  rewrite unsep_cons, str_app_assoc, str_app_cons, (words_token _ _ _ Hw Hs Hc), IH. reflexivity.
Qed.

(** ** Numerals *)

(** Decimal digits are no whitespace. *)
Lemma show_nat_no_space (n : nat) : has is_space (show_nat n) = false.
Proof. unfold show_nat. generalize (Nat.to_uint n). induction u; simpl; auto. Qed.

Lemma show_nat_digits (n : nat) :
  has_char " " (show_nat n) = false /\ has_char nl_char (show_nat n) = false.
Proof. unfold show_nat, has_char. generalize (Nat.to_uint n). induction u; simpl; auto. Qed.

Lemma read_show (n : nat) : read_nat (show_nat n) = Some n.
Proof.
  unfold read_nat. destruct (show_nat n) eqn:E.
  - exfalso. unfold show_nat in E. destruct (Nat.to_uint n) eqn:E2; try discriminate.
    pose proof (DecimalNat.Unsigned.of_to n) as H. rewrite E2 in H. simpl in H. subst n.
    discriminate E2.
  - rewrite <- E. unfold show_nat. rewrite NilEmpty.usu. simpl. now rewrite DecimalNat.Unsigned.of_to.
Qed.

Lemma show_nat_nonempty (n : nat) : show_nat n <> "".
Proof. intros E. pose proof (read_show n) as H. rewrite E in H. discriminate. Qed.

Lemma read_nats_show (l : list nat) : read_nats (map show_nat l) = Some l.
Proof. induction l as [|k l IH]; simpl; [reflexivity|]. now rewrite read_show, IH. Qed.

Lemma forallb_show (c : ascii) (l : list nat) :
  c = " "%char \/ c = nl_char -> forallb (fun w => negb (has_char c w)) (map show_nat l) = true.
Proof.
  intros Hc. apply forallb_forall. intros w (k & <- & _)%in_map_iff.
  destruct (show_nat_digits k), Hc as [-> | ->]; now apply negb_true_iff.
Qed.

#[export] Hint Rewrite str_app_nil_r str_app_assoc unsep_cons unsep_app has_char_app read_show : text.

End Text.
