(* ===== verification/Vec.v ===== *)
(** * Vec: the dense vector of doubles of [src/src/matrix.cpp]

    [mplpLib::Vec] owns the array [m_dat .. m_ep]; every operation is a
    loop over that range.  A vector is modelled by the list of its
    values ([Vec.t = list Q]); the loops become [map] or [vzip].  A loop
    that walks a second vector [v] alongside ([pv++]) reads [v] only as
    far as [this] reaches: [vzip] keeps the length of [this] and reads
    [0] past the end of [v] (the C code reads out of bounds there; every
    theorem below assumes equal lengths).  [MulDimArr] inherits these
    operations, which is how the message update of [Region.v] uses them.
    [Read], [Write] and [Print] are in [MatrixIO.v]. *)

From Stdlib Require Import QArith Lqa List Lia.
From S2P Require Import Prelude.
Import ListNotations.
Open Scope Q_scope.
Open Scope mplp_scope.

Module Vec.

Definition t := list Q.

(** The element-wise loop [for (p=m_dat, pv=v.m_dat; p<m_ep; p++, pv++)]. *)
Fixpoint vzip (f : Q -> Q -> Q) (a b : list Q) : list Q :=
  match a with
  | [] => []
  | x :: a' => f x (hd 0 b) :: vzip f a' (tl b)
  end.

(** [operator=(double val)]: fill. *)
Definition fill (v : t) (val : Q) : t := map (fun _ => val) v.

(** [operator=(Vec & v)]: copy [v] into the storage of [this]. *)
Definition assign (v w : t) : t := vzip (fun _ y => y) v w.

(** [operator*=(double)], [operator/=(double)], [Inv],
    [operator+=(double)], [operator-=(double)]. *)
Definition scale (v : t) (val : Q) : t := map (fun x => x * val) v.
Definition div_scalar (v : t) (val : Q) : t := map (fun x => x / val) v.
Definition inv (v : t) : t := map (fun x => / x) v.
Definition add_scalar (v : t) (val : Q) : t := map (fun x => x + val) v.
Definition sub_scalar (v : t) (val : Q) : t := map (fun x => x - val) v.

(** [operator+=(Vec&)], [operator-=(Vec&)], [operator*=(Vec&)],
    [operator/=(Vec&)] and [BackDiv]. *)
Definition add (v w : t) : t := vzip Qplus v w.
Definition sub (v w : t) : t := vzip Qminus v w.
Definition mul (v w : t) : t := vzip Qmult v w.
Definition div (v w : t) : t := vzip Qdiv v w.
Definition back_div (v w : t) : t := vzip (fun x y => y / x) v w.

(** [Max]: [m = m_dat[0]; for (i=1; ...) if (m_dat[i] > m) m = m_dat[i];] *)
Definition Max (v : t) : Q :=
  fold_left (fun m x => if Qgtb x m then x else m) (tl v) (hd 0 v).

(** [Min]: [if (m_dat[i] < m) m = m_dat[i];] *)
Definition Min (v : t) : Q :=
  fold_left (fun m x => if Qgtb m x then x else m) (tl v) (hd 0 v).

(** [MaxMin]: both extremes in one pass. *)
Definition MaxMin (v : t) : Q * Q :=
  fold_left (fun '(mx, mn) x =>
               (if Qgtb x mx then x else mx, if Qgtb mn x then x else mn))
            (tl v) (hd 0 v, hd 0 v).

(** [Sum]: [s=0] then [s+=] every element. *)
Definition Sum (v : t) : Q := fold_left Qplus v 0.

(** [SetSize(n)]: a fresh array of [n] doubles, whose contents are
    indeterminate ([junk k] is what the [k]-th holds). *)
Definition SetSize (n : nat) (junk : nat -> Q) : t := map junk (seq 0 n).

(** [Rand()]: [m_dat[i] = 2.0 * rand() / RAND_MAX - 1]; [r i] is the draw
    [rand() / RAND_MAX] for slot [i]. *)
Definition Rand (v : t) (r : nat -> Q) : t := map (fun i => 2 * r i - 1) (seq 0 (length v)).

(** ** Shapes and element access *)

Lemma length_vzip f a b : length (vzip f a b) = length a.
Proof. revert b; induction a; intros b; simpl; auto. Qed.

Lemma nth_vzip f a b k :
  (k < length a)%nat -> (k < length b)%nat ->
  (vzip f a b).[k] = f a.[k] b.[k].
Proof.
  revert b k; induction a as [|x a IH]; intros b k Ha Hb; simpl in *; [lia|].
  destruct b as [|y b]; simpl in *; [lia|].
  destruct k; simpl; auto. apply IH; lia.
Qed.

Lemma nth_map_Q (f : Q -> Q) (v : t) k :
  (k < length v)%nat -> (map f v).[k] = f v.[k].
Proof.
  intros H. rewrite nth_indep with (d' := f 0) by (rewrite length_map; auto).
  apply map_nth.
Qed.

#[export] Hint Rewrite length_vzip length_map : mplp_len.

Lemma length_add v w : length (add v w) = length v.
Proof. apply length_vzip. Qed.
Lemma length_sub v w : length (sub v w) = length v.
Proof. apply length_vzip. Qed.
Lemma length_assign v w : length (assign v w) = length v.
Proof. apply length_vzip. Qed.
Lemma length_scale v c : length (scale v c) = length v.
Proof. apply length_map. Qed.

#[export] Hint Rewrite length_add length_sub length_assign length_scale : mplp_len.

(** Copying a vector of the same length yields that vector. *)
Lemma assign_same_length v w : length v = length w -> assign v w = w.
Proof.
  unfold assign. revert w; induction v as [|x v IH]; intros [|y w] H; simpl in *; try lia; auto.
  f_equal. apply IH. lia.
Qed.

(** ** [Max] and [Min] *)

Lemma fold_max_ge l m : m <= fold_left (fun m x => if Qgtb x m then x else m) l m.
Proof.
  revert m; induction l as [|x l IH]; intros m; simpl; [lra|].
  destruct (Qgtb x m) eqn:E; [apply Qgtb_true in E|]; eauto using Qle_trans, Qlt_le_weak.
Qed.

Lemma fold_max_upper l m x :
  In x l -> x <= fold_left (fun m x => if Qgtb x m then x else m) l m.
Proof.
  revert m; induction l as [|y l IH]; intros m Hin; simpl in *; [contradiction|].
  destruct Hin as [->|Hin]; [|auto].
  destruct (Qgtb x m) eqn:E.
  - apply fold_max_ge.
  - apply Qgtb_false in E. eapply Qle_trans; [|apply fold_max_ge]. lra.
Qed.

Lemma fold_max_in l m :
  fold_left (fun m x => if Qgtb x m then x else m) l m = m \/
  In (fold_left (fun m x => if Qgtb x m then x else m) l m) l.
Proof.
  revert m; induction l as [|y l IH]; intros m; simpl; auto.
  destruct (Qgtb y m); destruct (IH y) as [->|H] || destruct (IH m) as [->|H]; auto.
Qed.

Lemma Max_upper v x : In x v -> x <= Max v.
Proof.
  destruct v as [|y v]; simpl; [contradiction|].
  intros [->|Hin]; [apply fold_max_ge | apply fold_max_upper; auto].
Qed.

Lemma Max_in v : v <> [] -> In (Max v) v.
Proof.
  destruct v as [|y v]; [congruence|]. intros _. unfold Max; simpl.
  destruct (fold_max_in v y) as [->|H]; auto.
Qed.

Lemma Max_le v b : v <> [] -> (forall x, In x v -> x <= b) -> Max v <= b.
Proof. intros Hne H. apply H, Max_in, Hne. Qed.

Lemma Max_ge_nth v k : (k < length v)%nat -> v.[k] <= Max v.
Proof. intros H. apply Max_upper, nth_In, H. Qed.

(** C29.  [MaxMin] computes in one pass exactly what [Max] and [Min]
    compute in two. *)
Theorem MaxMin_Max_Min v : MaxMin v = (Max v, Min v).
Proof.
  unfold MaxMin, Max, Min. generalize (hd 0 v) at 1 3. generalize (hd 0 v).
  induction (tl v) as [|x l IH]; intros a b; simpl; auto.
Qed.

(** ** [Sum] *)

(** The accumulating loop of [Sum] computes the sum of the vector. *)
Theorem Sum_qsum v : Sum v == qsum v.
Proof.
  unfold Sum. enough (forall a, fold_left Qplus v a == a + qsum v) by (rewrite H; lra).
  induction v as [|x v IH]; intros a; simpl; [lra|]. rewrite IH. lra.
Qed.

End Vec.
