(* ===== verification/Matrix.v ===== *)
(** * Matrix: the dense matrix of doubles of [src/src/matrix.cpp]

    [mplpLib::Matrix] (lines 235-502) owns, or borrows, the row-major
    array [m_raw_dat .. m_ep] of [m_nrows * m_ncols] doubles, with
    [m_rows[i] = &m_raw_dat[i * m_ncols]].  A matrix is modelled by the
    record [t] of its dimensions, the list of its values and the flag
    [m_bDelete]; [get m i j] is [( *this)(i, j)], that is
    [m_rows[i][j]] (the accessor of [matrix.h]).  The loops of the
    source become folds over index ranges ([seq]); a loop that walks the
    raw array with a pointer is a [Vec] operation on the list.  Writes
    past the array, which the C code would make for a row index
    [i >= m_nrows] or a target vector that is too short, change nothing
    ([set_nth]); the theorems assume the sizes that rule them out.  The
    vector routine [Vec::MatMult] (lines 205-218), which takes a
    [Matrix], is here too.  [Read], [Write] and [Print] are in
    [MatrixIO.v]. *)

From Stdlib Require Import QArith Lqa List Lia Arith.
From S2P Require Import Prelude Vec.
Import ListNotations.
Open Scope Q_scope.
Open Scope mplp_scope.

Module Matrix.

Record t := mk {
  m_nrows : nat;
  m_ncols : nat;
  m_raw_dat : list Q;
  m_bDelete : bool
}.

(** [( *this)(i, j)]: [m_rows[i][j]]. *)
Definition get (m : t) (i j : nat) : Q := (m_raw_dat m).[i * m_ncols m + j].

Definition with_raw (m : t) (d : list Q) : t := mk (m_nrows m) (m_ncols m) d (m_bDelete m).

(** [( *this)(i, j) = x]. *)
Definition set (m : t) (i j : nat) (x : Q) : t :=
  with_raw m (set_nth (i * m_ncols m + j) x (m_raw_dat m)).

(** ** Construction *)

(** [Matrix(rows, cols)]: a fresh array [new double[rows*cols]], whose
    contents are indeterminate: [junk k] is whatever the [k]-th double
    holds. *)
Definition Matrix_new (rows cols : nat) (junk : nat -> Q) : t :=
  mk rows cols (map junk (seq 0 (rows * cols))) true.

(** [Matrix(rows, cols, p_dat)]: a view of the first [rows*cols] doubles
    of the caller's array, which the destructor does not free. *)
Definition Matrix_wrap (rows cols : nat) (p_dat : list Q) : t :=
  mk rows cols (firstn (rows * cols) p_dat) false.

(** [SetSize(rows, cols)]: the destructor, then a fresh array; the flag
    [m_bDelete] is left as it was. *)
Definition SetSize (m : t) (rows cols : nat) (junk : nat -> Q) : t :=
  mk rows cols (map junk (seq 0 (rows * cols))) (m_bDelete m).

(** ** Rows and columns *)

(** [SetRow(i, v)]: [memcpy(m_rows[i], v.m_dat, m_ncols*sizeof(double))]. *)
Definition SetRow (m : t) (i : nat) (v : Vec.t) : t :=
  with_raw m (fold_left (fun d j => set_nth (i * m_ncols m + j) v.[j] d) (seq 0 (m_ncols m)) (m_raw_dat m)).

(** [GetRow(i, v)]: [memcpy(v.m_dat, m_rows[i], m_ncols*sizeof(double))]. *)
Definition GetRow (m : t) (i : nat) (v : Vec.t) : Vec.t :=
  fold_left (fun w j => set_nth j (get m i j) w) (seq 0 (m_ncols m)) v.

(** [GetCol(i, v)]: [v[j] = ( *this)(j, i)] for every row [j]. *)
Definition GetCol (m : t) (i : nat) (v : Vec.t) : Vec.t :=
  fold_left (fun w j => set_nth j (get m j i) w) (seq 0 (m_nrows m)) v.

(** [ScaleRow(i, s)]: [( *p) *= s] along row [i]. *)
Definition ScaleRow (m : t) (i : nat) (s : Q) : t :=
  with_raw m (fold_left (fun d p => set_nth (i * m_ncols m + p) (d.[i * m_ncols m + p] * s) d)
                        (seq 0 (m_ncols m)) (m_raw_dat m)).

(** [ScaleRowsByVec(v)] and [DivRowsByVec(v)]: [ScaleRow(i, v[i])] and
    [ScaleRow(i, 1/v[i])] for every row. *)
Definition ScaleRowsByVec (m : t) (v : Vec.t) : t :=
  fold_left (fun m' i => ScaleRow m' i v.[i]) (seq 0 (m_nrows m)) m.

Definition DivRowsByVec (m : t) (v : Vec.t) : t :=
  fold_left (fun m' i => ScaleRow m' i (1 / v.[i])) (seq 0 (m_nrows m)) m.

(** ** Whole-matrix loops over the raw array *)

(** [operator+=], [operator-=], [operator/=], [operator*=] with a matrix:
    the pointer loop over [m_raw_dat .. m_ep] reading [m] alongside. *)
Definition add (m m' : t) : t := with_raw m (Vec.add (m_raw_dat m) (m_raw_dat m')).
Definition sub (m m' : t) : t := with_raw m (Vec.sub (m_raw_dat m) (m_raw_dat m')).
Definition div (m m' : t) : t := with_raw m (Vec.div (m_raw_dat m) (m_raw_dat m')).
Definition mul (m m' : t) : t := with_raw m (Vec.mul (m_raw_dat m) (m_raw_dat m')).

(** [operator+=(double)], [operator*=(double)], [operator/=(double)],
    [operator=(double)] and [operator=(Matrix&)]. *)
Definition add_scalar (m : t) (val : Q) : t := with_raw m (Vec.add_scalar (m_raw_dat m) val).
Definition scale (m : t) (val : Q) : t := with_raw m (Vec.scale (m_raw_dat m) val).
Definition div_scalar (m : t) (val : Q) : t := with_raw m (Vec.div_scalar (m_raw_dat m) val).
Definition fill (m : t) (val : Q) : t := with_raw m (Vec.fill (m_raw_dat m) val).
Definition assign (m m' : t) : t := with_raw m (Vec.assign (m_raw_dat m) (m_raw_dat m')).

(** [BackDiv(m)]: [( *this)(i,j) = m(i,j) / ( *this)(i,j)], row by row. *)
Definition BackDiv (m m' : t) : t :=
  fold_left (fun a i => fold_left (fun b j => set b i j (get m' i j / get b i j)) (seq 0 (m_ncols m)) a)
            (seq 0 (m_nrows m)) m.

(** [Rand()]: [( *this)(i,j) = 2.0 * rand() / RAND_MAX - 1]; [r i j] is
    the draw [rand() / RAND_MAX] for cell [(i, j)]. *)
Definition Rand (m : t) (r : nat -> nat -> Q) : t :=
  fold_left (fun a i => fold_left (fun b j => set b i j (2 * r i j - 1)) (seq 0 (m_ncols m)) a)
            (seq 0 (m_nrows m)) m.

(** [Transpose(dst)]: [dst(j,i) = ( *this)(i,j)]; [dst] is indexed with
    its own column count. *)
Definition Transpose (m dst : t) : t :=
  fold_left (fun a i => fold_left (fun b j => set b j i (get m i j)) (seq 0 (m_ncols m)) a)
            (seq 0 (m_nrows m)) dst.

(** ** Sums and products *)

(** [dot(a, b, n)] of [matrix.h]: [sum_{k<n} a[k] * b[k]], left to right. *)
Definition dot (a b : list Q) (n : nat) : Q :=
  fold_left (fun s k => s + a.[k] * b.[k]) (seq 0 n) 0.

(** [Sum()]: [s += *p] over the raw array. *)
Definition Sum (m : t) : Q := fold_left Qplus (m_raw_dat m) 0.

(** [SumRow(i)]: [s += *p] from [m_rows[i]] to [&m_rows[i][m_ncols]].
    (The debug [ofstream] the source opens there is file output.) *)
Definition SumRow (m : t) (i : nat) : Q :=
  fold_left (fun s p => s + (m_raw_dat m).[i * m_ncols m + p]) (seq 0 (m_ncols m)) 0.

(** [SumCol(i)]: [sum += ( *this)(j, i)] over the rows. *)
Definition SumCol (m : t) (i : nat) : Q :=
  fold_left (fun s j => s + get m j i) (seq 0 (m_nrows m)) 0.

(** [SumRows(v)] and [SumCols(v)]. *)
Definition SumRows (m : t) (v : Vec.t) : Vec.t :=
  fold_left (fun w i => set_nth i (SumRow m i) w) (seq 0 (m_nrows m)) v.

Definition SumCols (m : t) (v : Vec.t) : Vec.t :=
  fold_left (fun w i => set_nth i (SumCol m i) w) (seq 0 (m_ncols m)) v.

(** [VecMult(x, v)]: [v[i] = dot(x.m_dat, m_rows[i], m_ncols)], the
    product [M x]. *)
Definition VecMult (m : t) (x v : Vec.t) : Vec.t :=
  fold_left (fun w i => set_nth i (dot x (skipn (i * m_ncols m) (m_raw_dat m)) (m_ncols m)) w)
            (seq 0 (m_nrows m)) v.

(** [Vec::MatMult(m, v)]: [v[i] = sum_j this[j] * m(j, i)], the product
    [x^T M] of the vector [x = this]. *)
Definition MatMult (x : Vec.t) (m : t) (v : Vec.t) : Vec.t :=
  fold_left (fun w i => set_nth i (fold_left (fun s j => s + x.[j] * get m j i) (seq 0 (m_nrows m)) 0) w)
            (seq 0 (m_ncols m)) v.

(** ** Well-formedness: the array holds [m_nrows * m_ncols] doubles *)

Definition wf (m : t) : Prop := length (m_raw_dat m) = (m_nrows m * m_ncols m)%nat.

(** What an in-place operation keeps: the dimensions, the length of the
    array and the ownership flag. *)
Definition shape (m : t) : nat * nat * nat * bool :=
  (m_nrows m, m_ncols m, length (m_raw_dat m), m_bDelete m).

(** ** Cell updates

    A loop that writes cell [pos k] with a function [h k] of its current
    value, for the keys [k] of a list whose positions are distinct. *)

Section Cells.

Context {K : Type} (pos : K -> nat) (h : K -> Q -> Q).

Definition cell_upd (d : list Q) (k : K) : list Q := set_nth (pos k) (h k d.[pos k]) d.

Lemma length_fold_cell_upd ks d : length (fold_left cell_upd ks d) = length d.
Proof. revert d; induction ks as [|k ks IH]; intros d; simpl; [reflexivity|]. rewrite IH. apply length_set_nth. Qed.

Lemma fold_cell_upd_out ks d p : ~ In p (map pos ks) -> (fold_left cell_upd ks d).[p] = d.[p].
Proof.
  revert d; induction ks as [|k ks IH]; intros d Hp; simpl in *; [reflexivity|].
  rewrite IH by tauto. unfold cell_upd. apply nth_set_nth_ne. intros E. apply Hp. left. exact E.
Qed.

Lemma fold_cell_upd_in ks d k :
  NoDup (map pos ks) -> In k ks -> (pos k < length d)%nat ->
  (fold_left cell_upd ks d).[pos k] = h k d.[pos k].
Proof.
  revert d; induction ks as [|k' ks IH]; intros d Hn Hk Hl; [contradiction|].
  simpl in Hn. inversion Hn as [|? ? Hout Hn']; subst. cbn [fold_left].
  destruct (in_dec Nat.eq_dec (pos k) (map pos ks)) as [Hin|Hnin].
  - assert (Hne : pos k <> pos k') by (intros E; rewrite E in Hin; contradiction).
    destruct Hk as [->|Hk]; [contradiction|].
    rewrite IH by (auto; unfold cell_upd; rewrite length_set_nth; exact Hl).
    unfold cell_upd. rewrite nth_set_nth_ne by auto. reflexivity.
  - rewrite fold_cell_upd_out by exact Hnin.
    destruct Hk as [->|Hk]; [unfold cell_upd; apply nth_set_nth_eq; exact Hl|].
    exfalso. apply Hnin, in_map, Hk.
Qed.

Lemma fold_cell_upd_at ks d k p :
  NoDup (map pos ks) -> In k ks -> p = pos k -> (p < length d)%nat ->
  (fold_left cell_upd ks d).[p] = h k d.[p].
Proof. intros N I -> L. apply fold_cell_upd_in; assumption. Qed.

End Cells.

Lemma map_add_seq (k n : nat) : map (fun j => k + j)%nat (seq 0 n) = seq k n.
Proof.
  induction n as [|n IH]; [reflexivity|]. rewrite !seq_S, map_app, IH. reflexivity.
Qed.

(** The cells [(i, j)] of a [rows x cols] loop, in the loop's order, sit
    at the consecutive positions of the row-major array. *)
Lemma map_rowmajor (rows cols : nat) :
  map (fun ij => fst ij * cols + snd ij)%nat (list_prod (seq 0 rows) (seq 0 cols)) = seq 0 (rows * cols).
Proof.
  induction rows as [|r IH]; [reflexivity|].
  rewrite seq_S, list_prod_as_flat_map, flat_map_app, map_app, <- list_prod_as_flat_map, IH.
  replace (S r * cols)%nat with (r * cols + cols)%nat by lia. rewrite seq_app. f_equal.
  cbn [flat_map]. rewrite app_nil_r, map_map. cbn [fst snd]. rewrite Nat.add_0_l. apply map_add_seq.
Qed.

Lemma NoDup_rowmajor (rows cols : nat) : NoDup (list_prod (seq 0 rows) (seq 0 cols)).
Proof. apply (NoDup_map_inv (fun ij => fst ij * cols + snd ij)%nat). rewrite map_rowmajor. apply seq_NoDup. Qed.

(** A nested [(i, j)] loop that writes cell [(fi i j, fj i j)] of the
    matrix it updates is a cell-update loop on the array. *)
Lemma nested_set (fi fj : nat -> nat -> nat) (h : nat -> nat -> Q -> Q) (rows cols : nat) (a : t) :
  fold_left (fun a i => fold_left (fun b j => set b (fi i j) (fj i j) (h i j (get b (fi i j) (fj i j))))
                                  (seq 0 cols) a) (seq 0 rows) a
  = with_raw a (fold_left (cell_upd (fun ij => fi (fst ij) (snd ij) * m_ncols a + fj (fst ij) (snd ij))%nat
                                    (fun ij => h (fst ij) (snd ij)))
                          (list_prod (seq 0 rows) (seq 0 cols)) (m_raw_dat a)).
Proof.
  rewrite list_prod_as_flat_map.
  assert (E : forall l (b : t) d, m_ncols b = m_ncols a ->
            fold_left (fun a i => fold_left (fun b j => set b (fi i j) (fj i j) (h i j (get b (fi i j) (fj i j))))
                                            (seq 0 cols) a) l (with_raw b d)
            = with_raw b (fold_left (cell_upd (fun ij => fi (fst ij) (snd ij) * m_ncols a + fj (fst ij) (snd ij))%nat
                                              (fun ij => h (fst ij) (snd ij)))
                                    (flat_map (fun i => map (pair i) (seq 0 cols)) l) d)).
  { induction l as [|i l IH]; intros b d Hb; [reflexivity|].
    cbn [flat_map]. rewrite fold_left_app. cbn [fold_left]. rewrite <- IH by exact Hb. f_equal.
    generalize (seq 0 cols). intros js. revert d; induction js as [|j js IHj]; intros d; [reflexivity|].
    cbn [fold_left map]. rewrite <- IHj. f_equal. unfold set, get, cell_upd. cbn. rewrite Hb. reflexivity. }
  destruct a as [r c d o]. apply (E _ (mk r c d o) d eq_refl).
Qed.

(** ** Shapes *)

Lemma length_fold_set {B} (p : B -> nat) (v : B -> list Q -> Q) ks (d : list Q) :
  length (fold_left (fun d k => set_nth (p k) (v k d) d) ks d) = length d.
Proof. revert d; induction ks as [|k ks IH]; intros d; simpl; [reflexivity|]. rewrite IH. apply length_set_nth. Qed.

Lemma shape_with_raw m d : length d = length (m_raw_dat m) -> shape (with_raw m d) = shape m.
Proof. intros H. unfold shape. cbn. rewrite H. reflexivity. Qed.

Lemma fold_shape {A} (f : t -> A -> t) l m :
  (forall a x, shape (f a x) = shape a) -> shape (fold_left f l m) = shape m.
Proof. intros H. revert m; induction l as [|x l IH]; intros m; simpl; [reflexivity|]. rewrite IH. apply H. Qed.

Lemma shape_set m i j x : shape (set m i j x) = shape m.
Proof. apply shape_with_raw, length_set_nth. Qed.

Lemma shape_ScaleRow m i s : shape (ScaleRow m i s) = shape m.
Proof. apply shape_with_raw, length_fold_set. Qed.

Lemma shape_nested (f : t -> nat -> nat -> t) rows cols a :
  (forall b i j, shape (f b i j) = shape b) ->
  shape (fold_left (fun a i => fold_left (fun b j => f b i j) (seq 0 cols) a) (seq 0 rows) a) = shape a.
Proof. intros H. apply fold_shape. intros b i. apply fold_shape. intros. apply H. Qed.

Lemma shape_Transpose m d : shape (Transpose m d) = shape d.
Proof. apply shape_nested. intros; apply shape_set. Qed.

Lemma wf_shape m m' : shape m' = shape m -> wf m -> wf m'.
Proof. unfold shape, wf. intros E. inversion E. congruence. Qed.

Lemma nrows_shape m m' : shape m' = shape m -> m_nrows m' = m_nrows m /\ m_ncols m' = m_ncols m.
Proof. unfold shape. intros E. inversion E. auto. Qed.

(** ** The row-major layout *)

(** Position [k] of an [r x c] array is cell [(k / c, k mod c)]. *)
Lemma rowmajor_cell (r c k : nat) :
  (k < r * c)%nat -> In (k / c, k mod c)%nat (list_prod (seq 0 r) (seq 0 c)) /\ k = (k / c * c + k mod c)%nat.
Proof.
  intros Hk. assert (Hc : c <> 0%nat) by (intros ->; lia).
  split; [apply in_prod; apply in_seq; split; try lia|].
  - apply Nat.Div0.div_lt_upper_bound. lia.
  - apply Nat.mod_upper_bound, Hc.
  - rewrite (Nat.div_mod_eq k c) at 1. lia.
Qed.

Lemma rowmajor_inj (c i j i' j' : nat) : (j < c)%nat -> (j' < c)%nat -> (i * c + j = i' * c + j')%nat -> i = i' /\ j = j'.
Proof. intros H H' E. apply (Nat.div_mod_unique c); [exact H|exact H'|lia]. Qed.

(** The transposed layout: cell [(i, j)] at [j * r + i]. *)
Lemma NoDup_colmajor (r c : nat) :
  NoDup (map (fun ij => snd ij * r + fst ij)%nat (list_prod (seq 0 r) (seq 0 c))).
Proof.
  apply NoDup_map_NoDup_ForallPairs; [|apply NoDup_rowmajor].
  intros [i j] [i' j'] H H' E. apply in_prod_iff in H as [Hi _], H' as [Hi' _]. apply in_seq in Hi, Hi'.
  cbn in E. destruct (rowmajor_inj r j i j' i'); [lia|lia|lia|]. subst. reflexivity.
Qed.

(** ** The nested loops as cell updates *)

Lemma BackDiv_cells m m' :
  BackDiv m m' = with_raw m (fold_left (cell_upd (fun ij => fst ij * m_ncols m + snd ij)%nat
                                                 (fun ij x => get m' (fst ij) (snd ij) / x))
                                       (list_prod (seq 0 (m_nrows m)) (seq 0 (m_ncols m))) (m_raw_dat m)).
Proof. exact (nested_set (fun i _ => i) (fun _ j => j) (fun i j x => get m' i j / x) _ _ m). Qed.

Lemma Rand_cells m r :
  Rand m r = with_raw m (fold_left (cell_upd (fun ij => fst ij * m_ncols m + snd ij)%nat
                                             (fun ij _ => 2 * r (fst ij) (snd ij) - 1))
                                   (list_prod (seq 0 (m_nrows m)) (seq 0 (m_ncols m))) (m_raw_dat m)).
Proof. exact (nested_set (fun i _ => i) (fun _ j => j) (fun i j _ => 2 * r i j - 1) _ _ m). Qed.

Lemma Transpose_cells m d :
  Transpose m d = with_raw d (fold_left (cell_upd (fun ij => snd ij * m_ncols d + fst ij)%nat
                                                  (fun ij _ => get m (fst ij) (snd ij)))
                                        (list_prod (seq 0 (m_nrows m)) (seq 0 (m_ncols m))) (m_raw_dat d)).
Proof. exact (nested_set (fun _ j => j) (fun i _ => i) (fun i j _ => get m i j) _ _ d). Qed.

(** ** Reading the cells after a nested loop *)

Lemma BackDiv_at m m' k :
  wf m -> wf m' -> m_nrows m' = m_nrows m -> m_ncols m' = m_ncols m -> (k < length (m_raw_dat m))%nat ->
  (m_raw_dat (BackDiv m m')).[k] = (m_raw_dat m').[k] / (m_raw_dat m).[k].
Proof.
  intros W W' Hr Hc Hk. rewrite BackDiv_cells. cbn [with_raw m_raw_dat]. rewrite W in Hk.
  destruct (rowmajor_cell _ _ _ Hk) as [Hin Ek].
  rewrite (fold_cell_upd_at _ _ _ _ (k / m_ncols m, k mod m_ncols m)%nat k); [|rewrite map_rowmajor; apply seq_NoDup|exact Hin|exact Ek|rewrite W; exact Hk].
  cbn [fst snd]. unfold get. rewrite Hc, <- Ek. reflexivity.
Qed.

Lemma Transpose_get m d i j :
  wf d -> m_nrows d = m_ncols m -> m_ncols d = m_nrows m -> (i < m_nrows m)%nat -> (j < m_ncols m)%nat ->
  get (Transpose m d) j i = get m i j.
Proof.
  intros W Hr Hc Hi Hj. rewrite Transpose_cells. unfold get at 1. cbn [with_raw m_raw_dat m_ncols]. rewrite Hc.
  unfold wf in W. rewrite Hr, Hc in W.
  rewrite (fold_cell_upd_at _ _ _ _ (i, j)); [reflexivity|apply NoDup_colmajor|apply in_prod; apply in_seq; lia|reflexivity|nia].
Qed.

(** ** Sums *)

Lemma fold_Qplus l a : fold_left Qplus l a == a + qsum l.
Proof. pose proof (fold_left_plus (fun x => x) l a) as H. rewrite map_id in H. exact H. Qed.

Lemma qsum_flat_map {A B} (g : B -> Q) (F : A -> list B) l :
  qsum (map g (flat_map F l)) == qsum (map (fun x => qsum (map g (F x))) l).
Proof. induction l as [|x l IH]; [reflexivity|]. cbn [flat_map map]. rewrite map_app, qsum_app, IH. reflexivity. Qed.

(** Summing a table by rows or by columns gives the same. *)
Lemma qsum_swap {A B} (f : A -> B -> Q) (I : list A) (J : list B) :
  qsum (map (fun i => qsum (map (fun j => f i j) J)) I) == qsum (map (fun j => qsum (map (fun i => f i j) I)) J).
Proof.
  induction I as [|i I IH]; cbn [map qsum fold_right].
  - symmetry. apply qsum_map_zero. intros; reflexivity.
  - rewrite IH. fold qsum. rewrite <- qsum_map_plus. reflexivity.
Qed.

(** The whole array is the sum over the cells of the row-major loop. *)
Lemma qsum_rowmajor m :
  wf m -> qsum (m_raw_dat m) ==
          qsum (map (fun i => qsum (map (fun j => (m_raw_dat m).[i * m_ncols m + j]) (seq 0 (m_ncols m))))
                    (seq 0 (m_nrows m))).
Proof.
  intros W. transitivity (qsum (map (fun k => (m_raw_dat m).[k]) (seq 0 (length (m_raw_dat m))))).
  { rewrite <- (map_seq_nth (fun x => x)), map_id. reflexivity. }
  rewrite W, <- map_rowmajor, map_map.
  rewrite list_prod_as_flat_map, qsum_flat_map. apply qsum_map_ext. intros i _. rewrite map_map. reflexivity.
Qed.

(** A loop that writes [f i] into every slot of a vector of length [n]. *)
Lemma fold_set_seq_full (f : nat -> Q) n (v : Vec.t) :
  length v = n -> fold_left (fun w i => set_nth i (f i) w) (seq 0 n) v = map f (seq 0 n).
Proof.
  intros L. apply nth_ext with (d := 0) (d' := 0); [rewrite length_fold_set_nth, length_map, length_seq; exact L|].
  intros k Hk. rewrite length_fold_set_nth in Hk. rewrite nth_fold_set_nth_seq, (nth_map_lt _ _ 0%nat) by (rewrite length_seq; lia).
  rewrite seq_nth by lia. destruct (Nat.leb_spec 0 k), (Nat.ltb_spec k (0 + n)), (Nat.ltb_spec k (length v)); cbn; lia || reflexivity.
Qed.

Lemma SumRow_qsum m i : SumRow m i == qsum (map (fun p => (m_raw_dat m).[i * m_ncols m + p]) (seq 0 (m_ncols m))).
Proof. unfold SumRow. rewrite fold_left_plus. lra. Qed.

Lemma SumCol_qsum m i : SumCol m i == qsum (map (fun j => get m j i) (seq 0 (m_nrows m))).
Proof. unfold SumCol. rewrite fold_left_plus. lra. Qed.

Lemma SetRow_cells m i v :
  SetRow m i v = with_raw m (fold_left (cell_upd (fun j => i * m_ncols m + j)%nat (fun j _ => v.[j]))
                                       (seq 0 (m_ncols m)) (m_raw_dat m)).
Proof. reflexivity. Qed.

Lemma SetRow_get m i v j :
  wf m -> (i < m_nrows m)%nat -> (j < m_ncols m)%nat -> get (SetRow m i v) i j = v.[j].
Proof.
  intros W Hi Hj. rewrite SetRow_cells. unfold get. cbn [with_raw m_raw_dat m_ncols]. unfold wf in W.
  rewrite (fold_cell_upd_at _ _ _ _ j); [reflexivity| |apply in_seq; lia|reflexivity|nia].
  rewrite map_add_seq. apply seq_NoDup.
Qed.

(** ** Scaling rows *)

Lemma ScaleRow_cells m i s :
  ScaleRow m i s = with_raw m (fold_left (cell_upd (fun p => i * m_ncols m + p)%nat (fun _ x => x * s))
                                         (seq 0 (m_ncols m)) (m_raw_dat m)).
Proof. reflexivity. Qed.

(** [ScaleRow(i, s)] scales the cells of row [i] and no other. *)
Lemma get_ScaleRow m i s i' j :
  wf m -> (i < m_nrows m)%nat -> (i' < m_nrows m)%nat -> (j < m_ncols m)%nat ->
  get (ScaleRow m i s) i' j = if Nat.eqb i' i then get m i' j * s else get m i' j.
Proof.
  intros W Hi Hi' Hj. unfold get. rewrite ScaleRow_cells. cbn [with_raw m_raw_dat m_ncols].
  unfold wf in W. destruct (Nat.eqb_spec i' i) as [->|Hne].
  - rewrite (fold_cell_upd_at _ _ _ _ j); [reflexivity| |apply in_seq; lia|reflexivity|rewrite W; nia].
    rewrite map_add_seq. apply seq_NoDup.
  - apply fold_cell_upd_out. rewrite map_add_seq. intros Hin%in_seq.
    apply Hne. destruct (Nat.lt_total i' i) as [H|[H|H]]; [exfalso; nia|exact H|exfalso; nia].
Qed.

(** A loop of [ScaleRow]s over distinct rows. *)
Lemma get_fold_ScaleRow (f : nat -> Q) (L : list nat) m i j :
  wf m -> NoDup L -> Forall (fun r => r < m_nrows m)%nat L -> (i < m_nrows m)%nat -> (j < m_ncols m)%nat ->
  get (fold_left (fun m' r => ScaleRow m' r (f r)) L m) i j
  = if existsb (Nat.eqb i) L then get m i j * f i else get m i j.
Proof.
  revert m. induction L as [|r L IH]; intros m W N F Hi Hj; [reflexivity|].
  inversion N as [|? ? Hr N']; subst. inversion F as [|? ? Hr' F']; subst. simpl.
  destruct (nrows_shape _ _ (shape_ScaleRow m r (f r))) as [Er Ec].
  assert (W' : wf (ScaleRow m r (f r))) by (apply (wf_shape m); [apply shape_ScaleRow|exact W]).
  rewrite IH by (rewrite ?Er, ?Ec; assumption). rewrite !get_ScaleRow by assumption.
  destruct (Nat.eqb_spec i r) as [->|Hne]; simpl.
  - replace (existsb (Nat.eqb r) L) with false; [reflexivity|].
    symmetry. apply Bool.not_true_iff_false. intros (x & Hx & E)%existsb_exists.
    apply Nat.eqb_eq in E. subst. contradiction.
  - reflexivity.
Qed.

(** ** Properties *)

(** C21.  [Matrix::BackDiv], a loop over rows and columns through
    [( *this)(i, j)], computes on a well-formed matrix the same array as
    the flat pointer loop of [Vec::BackDiv]: every cell becomes
    [m(i, j) / ( *this)(i, j)]. *)
Theorem BackDiv_flat m m' :
  wf m -> wf m' -> m_nrows m' = m_nrows m -> m_ncols m' = m_ncols m ->
  BackDiv m m' = with_raw m (Vec.back_div (m_raw_dat m) (m_raw_dat m')).
Proof.
  intros W W' Hr Hc. transitivity (with_raw m (m_raw_dat (BackDiv m m'))); [rewrite BackDiv_cells; reflexivity|].
  assert (L : length (m_raw_dat m') = length (m_raw_dat m)) by (unfold wf in *; congruence).
  f_equal. apply nth_ext with (d := 0) (d' := 0).
  - rewrite BackDiv_cells. cbn. rewrite length_fold_cell_upd. unfold Vec.back_div. rewrite Vec.length_vzip. reflexivity.
  - intros k Hk. rewrite BackDiv_cells in Hk. cbn in Hk. rewrite length_fold_cell_upd in Hk.
    unfold Vec.back_div. rewrite BackDiv_at, Vec.nth_vzip by (auto; lia). reflexivity.
Qed.

Lemma BackDiv_flat_witness :
  let m := Matrix_wrap 2 2 [1; 2; 4; 8] in let m' := Matrix_wrap 2 2 [3; 3; 3; 3] in
  (wf m /\ wf m' /\ m_nrows m' = m_nrows m /\ m_ncols m' = m_ncols m) /\
  BackDiv m m' = with_raw m (Vec.back_div (m_raw_dat m) (m_raw_dat m')).
Proof. cbv zeta. split; [repeat split|apply BackDiv_flat; reflexivity]. Defined.

(** C23.  Transposing twice gives the matrix back: [m.Transpose(d)]
    followed by [d.Transpose(e)], with [d] of the transposed shape and
    [e] of the shape of [m], leaves in [e] the array of [m]. *)
Theorem Transpose_twice m d e :
  wf m -> wf d -> wf e -> m_nrows d = m_ncols m -> m_ncols d = m_nrows m ->
  m_nrows e = m_nrows m -> m_ncols e = m_ncols m ->
  m_raw_dat (Transpose (Transpose m d) e) = m_raw_dat m.
Proof.
  intros W Wd We Hr Hc Er Ec.
  destruct (nrows_shape _ _ (shape_Transpose m d)) as [Tr Tc].
  assert (Ls : shape (Transpose (Transpose m d) e) = shape e) by apply shape_Transpose.
  assert (L : length (m_raw_dat (Transpose (Transpose m d) e)) = length (m_raw_dat m))
    by (unfold shape in Ls; injection Ls as _ _ HL _; rewrite HL; unfold wf in We, W; rewrite We, W, Er, Ec; reflexivity).
  apply nth_ext with (d := 0) (d' := 0); [exact L|]. intros k Hk. rewrite L, W in Hk.
  destruct (rowmajor_cell _ _ _ Hk) as [Hin Ek]. apply in_prod_iff in Hin as [Hi Hj]. apply in_seq in Hi, Hj.
  destruct (nrows_shape _ _ Ls) as [_ Hce].
  transitivity (get (Transpose (Transpose m d) e) (k / m_ncols m) (k mod m_ncols m)); [unfold get; rewrite Hce, Ec, <- Ek; reflexivity|].
  rewrite Transpose_get, Transpose_get by (auto; lia). unfold get. rewrite <- Ek. reflexivity.
Qed.

Lemma Transpose_twice_witness :
  let m := Matrix_wrap 2 3 [1; 2; 3; 4; 5; 6] in let d := Matrix_new 3 2 (fun _ => 0) in
  let e := Matrix_new 2 3 (fun _ => 0) in
  (wf m /\ wf d /\ wf e /\ m_nrows d = m_ncols m /\ m_ncols d = m_nrows m /\
   m_nrows e = m_nrows m /\ m_ncols e = m_ncols m) /\
  m_raw_dat (Transpose (Transpose m d) e) = m_raw_dat m.
Proof. cbv zeta. split; [repeat split|apply Transpose_twice; reflexivity]. Defined.

(** C24.  [Sum()] of a well-formed matrix is the sum of the row sums that
    [SumRows] writes, and the sum of the column sums that [SumCols]
    writes, into vectors of the right length. *)
Theorem Sum_rows_cols m v w :
  wf m -> length v = m_nrows m -> length w = m_ncols m ->
  Vec.Sum (SumRows m v) == Sum m /\ Vec.Sum (SumCols m w) == Sum m.
Proof.
  intros W Lv Lw. unfold SumRows, SumCols, Vec.Sum, Sum.
  rewrite !fold_set_seq_full by assumption. rewrite !fold_Qplus, (qsum_rowmajor m W). split.
  - apply Qplus_inj_l, qsum_map_ext. intros i _. apply SumRow_qsum.
  - apply Qplus_inj_l. rewrite qsum_swap. apply qsum_map_ext. intros j _. rewrite SumCol_qsum. reflexivity.
Qed.

Lemma Sum_rows_cols_witness :
  let m := Matrix_wrap 2 3 [1; 2; 3; 4; 5; 6] in
  (wf m /\ length [0; 0] = m_nrows m /\ length [0; 0; 0] = m_ncols m) /\
  Vec.Sum (SumRows m [0; 0]) == Sum m /\ Vec.Sum (SumCols m [0; 0; 0]) == Sum m.
Proof. cbv zeta. split; [repeat split|apply Sum_rows_cols; reflexivity]. Defined.

(** C25.  [GetRow(i)] after [SetRow(i, v)] reads back the first [m_ncols]
    values of [v], for a row inside the matrix. *)
Theorem GetRow_SetRow m i v w :
  wf m -> (i < m_nrows m)%nat -> length w = m_ncols m ->
  GetRow (SetRow m i v) i w = map (fun j => v.[j]) (seq 0 (m_ncols m)).
Proof.
  intros W Hi Lw. unfold GetRow. cbn [SetRow with_raw m_ncols].
  rewrite fold_set_seq_full by exact Lw. apply map_ext_in. intros j Hj. apply in_seq in Hj.
  apply SetRow_get; auto; lia.
Qed.

Lemma GetRow_SetRow_witness :
  let m := Matrix_new 2 2 (fun _ => 0) in
  (wf m /\ (1 < m_nrows m)%nat /\ length [0; 0] = m_ncols m) /\
  GetRow (SetRow m 1 [7; 9; 11]) 1 [0; 0] = map (fun j => [7; 9; 11].[j]) (seq 0 (m_ncols m)).
Proof. cbv zeta. split; [repeat split; cbn; lia|apply GetRow_SetRow; cbn; (reflexivity || lia)]. Defined.

(** C22.  [Vec::MatMult] computes [x^T M] exactly as [Matrix::VecMult]
    computes [M^T x] on the transpose: [x.MatMult(m, v)] and
    [d.VecMult(x, v)] after [m.Transpose(d)] write the same values, each
    summed in the same order. *)
Theorem MatMult_VecMult_Transpose x m d v :
  wf d -> m_nrows d = m_ncols m -> m_ncols d = m_nrows m ->
  MatMult x m v = VecMult (Transpose m d) x v.
Proof.
  intros Wd Hr Hc. destruct (nrows_shape _ _ (shape_Transpose m d)) as [Tr Tc].
  unfold MatMult, VecMult. rewrite Tr, Tc, Hr, Hc. apply fold_left_ext_in. intros w i Hi. apply in_seq in Hi.
  f_equal. unfold dot. apply fold_left_ext_in. intros q k Hk. apply in_seq in Hk.
  rewrite nth_skipn. f_equal. f_equal.
  replace (i * m_nrows m + k)%nat with (i * m_ncols (Transpose m d) + k)%nat by (rewrite Tc, Hc; reflexivity).
  change (nth (i * m_ncols (Transpose m d) + k) (m_raw_dat (Transpose m d)) 0) with (get (Transpose m d) i k).
  rewrite Transpose_get by (auto; lia). reflexivity.
Qed.

Lemma MatMult_VecMult_Transpose_witness :
  let m := Matrix_wrap 2 3 [1; 2; 3; 4; 5; 6] in let d := Matrix_new 3 2 (fun _ => 0) in
  (wf d /\ m_nrows d = m_ncols m /\ m_ncols d = m_nrows m) /\
  MatMult [1; -1] m [0; 0; 0] = VecMult (Transpose m d) [1; -1] [0; 0; 0].
Proof. cbv zeta. split; [repeat split|apply MatMult_VecMult_Transpose; reflexivity]. Defined.

(** C26.  [ScaleRowsByVec(v)] multiplies every cell of row [i] by [v[i]],
    and [DivRowsByVec(v)] by [1 / v[i]], for a well-formed matrix: each
    pass of [ScaleRow] touches exactly its own row. *)
Theorem ScaleRowsByVec_get m v i j :
  wf m -> (i < m_nrows m)%nat -> (j < m_ncols m)%nat ->
  get (ScaleRowsByVec m v) i j = get m i j * v.[i] /\ get (DivRowsByVec m v) i j = get m i j * (1 / v.[i]).
Proof.
  intros W Hi Hj. unfold ScaleRowsByVec, DivRowsByVec.
  assert (Hin : existsb (Nat.eqb i) (seq 0 (m_nrows m)) = true)
    by (apply existsb_exists; exists i; split; [apply in_seq; lia|apply Nat.eqb_refl]).
  assert (F : Forall (fun r => r < m_nrows m)%nat (seq 0 (m_nrows m)))
    by (apply Forall_forall; intros r Hr%in_seq; lia).
  split; [rewrite (get_fold_ScaleRow (fun r => v.[r])) | rewrite (get_fold_ScaleRow (fun r => 1 / v.[r]))];
    rewrite ?Hin; auto using seq_NoDup.
Qed.

Lemma ScaleRowsByVec_get_witness :
  let m := Matrix_wrap 2 3 [1; 2; 3; 4; 5; 6] in
  (wf m /\ (1 < m_nrows m)%nat /\ (2 < m_ncols m)%nat) /\
  get (ScaleRowsByVec m [2; 10]) 1 2 = get m 1 2 * [2; 10].[1] /\
  get (DivRowsByVec m [2; 10]) 1 2 = get m 1 2 * (1 / [2; 10].[1]).
Proof.
  cbv zeta. assert (W : wf (Matrix_wrap 2 3 [1; 2; 3; 4; 5; 6])) by reflexivity.
  split; [split; [exact W|split; cbn; lia]|].
  apply ScaleRowsByVec_get; [exact W|cbn; lia|cbn; lia].
Defined.

End Matrix.
