(* ===== verification/SparseMatrix.v ===== *)
(** * SparseMatrix: the sparse matrix of [src/src/matrix.cpp]

    [mplpLib::SparseMatrix] (lines 518-593) stores [m_nelem] explicit
    entries, the value [m_dat[el]] at row [m_rind[el]] and column
    [m_cind[el]], and one value [m_thr] for every other cell.  [Read]
    takes from a file the dimensions, the entries (1-based) and [thr] and
    normalises the whole so that it sums to one; [SumRow] and [SumCol]
    add the entries of a row or column and [m_thr] once per missing cell,
    counting the entries they meet.

    The model keeps the fields of the source.  Here the file [Read] parses
    is the argument [entries], the list of the [(row, col, val)] triples
    it holds; [MatrixIO.Sparse_Read] reads them from the file's text and
    prints [thr].  Indices
    ([MPLPIndexType]) are [nat]: [row - 1] and [rows*cols - nelem] are
    truncated at [0] where the unsigned C arithmetic would wrap, so the
    theorems assume 1-based indices and at most [rows*cols] entries.

    The meaning of a sparse matrix is the dense [Matrix.t] [to_dense s],
    whose cell [(r, c)] is the entry at [(r, c)], or [m_thr]; [SumRow] and
    [SumCol] are proved to be the row and column sums of that matrix when
    no two entries share a cell. *)

From Stdlib Require Import QArith Lqa List Lia Arith ZArith.
From S2P Require Import Prelude Vec Matrix.
Import ListNotations.
Open Scope Q_scope.
Open Scope mplp_scope.

Module SparseMatrix.

Record t := mk {
  m_nrows : nat;
  m_ncols : nat;
  m_nelem : nat;
  m_dat : list Q;
  m_rind : list nat;
  m_cind : list nat;
  m_thr : Q
}.

(** A [MPLPIndexType] count converted to [double]. *)
Definition qnat (n : nat) : Q := inject_Z (Z.of_nat n).

(** [Read(fname, thr)]: the entries as read, with [m_rind[i] = row-1]
    and [m_cind[i] = col-1]; [Z] is the sum of the values plus [thr] for
    each of the [rows*cols - nelem] missing cells; every value and
    [m_thr] are then divided by [Z]. *)
Definition Read_Z (rows cols : nat) (entries : list (nat * nat * Q)) (thr : Q) : Q :=
  fold_left (fun z '(_, _, v) => z + v) entries 0 + thr * qnat (rows * cols - length entries).

Definition Read (rows cols : nat) (entries : list (nat * nat * Q)) (thr : Q) : t :=
  let nelem := length entries in
  let z := Read_Z rows cols entries thr in
  mk rows cols nelem (map (fun '(_, _, v) => v / z) entries)
     (map (fun '(r, _, _) => r - 1)%nat entries) (map (fun '(_, c, _) => c - 1)%nat entries) (thr / z).

(** The loop of [SumCol] and [SumRow]: over the entries, the sum of the
    values and the count of those whose index in [ind] is [i]. *)
Definition sum_count (ind : list nat) (dat : list Q) (nelem i : nat) : Q * nat :=
  fold_left (fun '(sum, count) el =>
               if Nat.eqb (nth el ind 0%nat) i then (sum + dat.[el], S count) else (sum, count))
            (seq 0 nelem) (0, 0%nat).

(** [SumCol(i)]: [sum += (m_nrows - count) * m_thr] after the loop. *)
Definition SumCol (s : t) (i : nat) : Q :=
  let '(sum, count) := sum_count (m_cind s) (m_dat s) (m_nelem s) i in
  sum + qnat (m_nrows s - count) * m_thr s.

(** [SumRow(i)]: [sum += (m_ncols - count) * m_thr] after the loop. *)
Definition SumRow (s : t) (i : nat) : Q :=
  let '(sum, count) := sum_count (m_rind s) (m_dat s) (m_nelem s) i in
  sum + qnat (m_ncols s - count) * m_thr s.

(** ** The dense matrix a sparse matrix stands for *)

(** The first entry at cell [(r, c)]. *)
Definition entry_at (s : t) (r c : nat) : option nat :=
  find (fun el => Nat.eqb (nth el (m_rind s) 0%nat) r && Nat.eqb (nth el (m_cind s) 0%nat) c)
       (seq 0 (m_nelem s)).

Definition cell (s : t) (r c : nat) : Q :=
  match entry_at s r c with Some el => (m_dat s).[el] | None => m_thr s end.

Definition to_dense (s : t) : Matrix.t :=
  Matrix.mk (m_nrows s) (m_ncols s)
            (map (fun k => cell s (k / m_ncols s) (k mod m_ncols s)) (seq 0 (m_nrows s * m_ncols s))) true.

(** The same entries with rows and columns exchanged. *)
Definition swap (s : t) : t := mk (m_ncols s) (m_nrows s) (m_nelem s) (m_dat s) (m_cind s) (m_rind s) (m_thr s).

(** Well-formed: one row, column and value per entry, inside the matrix,
    and no two entries at the same cell. *)
Definition sparse_ok (s : t) : Prop :=
  length (m_dat s) = m_nelem s /\ length (m_rind s) = m_nelem s /\ length (m_cind s) = m_nelem s /\
  (forall el, (el < m_nelem s)%nat -> (nth el (m_rind s) 0 < m_nrows s)%nat /\ (nth el (m_cind s) 0 < m_ncols s)%nat) /\
  NoDup (map (fun el => (nth el (m_rind s) 0%nat, nth el (m_cind s) 0%nat)) (seq 0 (m_nelem s))).

(** ** The counting loop *)

Lemma sum_count_spec ind dat n i :
  fst (sum_count ind dat n i) == qsum (map (fun el => dat.[el]) (List.filter (fun el => Nat.eqb (nth el ind 0%nat) i) (seq 0 n))) /\
  snd (sum_count ind dat n i) = length (List.filter (fun el => Nat.eqb (nth el ind 0%nat) i) (seq 0 n)).
Proof.
  unfold sum_count. generalize (seq 0 n) as l. intros l.
  assert (G : forall s0 c0, let r := fold_left (fun '(sum, count) el =>
               if Nat.eqb (nth el ind 0%nat) i then (sum + dat.[el], S count) else (sum, count)) l (s0, c0) in
            fst r == s0 + qsum (map (fun el => dat.[el]) (List.filter (fun el => Nat.eqb (nth el ind 0%nat) i) l)) /\
            snd r = (c0 + length (List.filter (fun el => Nat.eqb (nth el ind 0%nat) i) l))%nat).
  { induction l as [|el l IH]; intros s0 c0; cbn [fold_left List.filter]; [cbn; split; [lra|lia]|].
    destruct (Nat.eqb (nth el ind 0%nat) i).
    - destruct (IH (s0 + dat.[el]) (S c0)) as [H1 H2]. cbn [map length]. rewrite qsum_cons.
      split; [rewrite H1; lra|rewrite H2; lia].
    - exact (IH s0 c0). }
  destruct (G 0 0%nat) as [H1 H2]. split; [rewrite H1; lra|exact H2].
Qed.

Lemma qnat_sub a b : (b <= a)%nat -> qnat (a - b) == qnat a - qnat b.
Proof. intros H. unfold qnat. rewrite Nat2Z.inj_sub, <- Z.add_opp_r, inject_Z_plus, inject_Z_opp by exact H. reflexivity. Qed.

(** Keys with distinct images are determined by their image. *)
Lemma nodup_map_inj {A B} (f : A -> B) l x y : NoDup (map f l) -> In x l -> In y l -> f x = f y -> x = y.
Proof.
  induction l as [|a l IH]; intros N Hx Hy E; [contradiction|]. cbn in N. inversion N as [|? ? Ha N']; subst.
  destruct Hx as [<-|Hx], Hy as [<-|Hy]; auto.
  - exfalso. apply Ha. rewrite E. apply in_map, Hy.
  - exfalso. apply Ha. rewrite <- E. apply in_map, Hx.
Qed.

(** ** Cells *)

Section Cells.

Variable s : t.
Hypothesis OK : sparse_ok s.

Lemma entry_at_some r c el :
  entry_at s r c = Some el -> (el < m_nelem s)%nat /\ nth el (m_rind s) 0%nat = r /\ nth el (m_cind s) 0%nat = c.
Proof.
  intros H. apply find_some in H as [Hin H]. apply in_seq in Hin. apply andb_prop in H as [H1 H2].
  apply Nat.eqb_eq in H1, H2. repeat split; auto; lia.
Qed.

Lemma cell_entry el : (el < m_nelem s)%nat -> cell s (nth el (m_rind s) 0%nat) (nth el (m_cind s) 0%nat) = (m_dat s).[el].
Proof.
  intros Hel. unfold cell. destruct (entry_at s _ _) as [el'|] eqn:E.
  - destruct (entry_at_some _ _ _ E) as (H' & R & C). f_equal.
    destruct OK as (_ & _ & _ & _ & N). apply (nodup_map_inj _ _ _ _ N); try (apply in_seq; lia). rewrite R, C. reflexivity.
  - exfalso. unfold entry_at in E. pose proof (find_none _ _ E el ltac:(apply in_seq; lia)) as H.
    cbv beta in H. rewrite !Nat.eqb_refl in H. discriminate.
Qed.

Lemma cell_missing r c :
  (forall el, (el < m_nelem s)%nat -> nth el (m_rind s) 0%nat = r -> nth el (m_cind s) 0%nat <> c) -> cell s r c = m_thr s.
Proof.
  intros H. unfold cell. destruct (entry_at s r c) as [el|] eqn:E; [|reflexivity].
  destruct (entry_at_some _ _ _ E) as (H' & R & C). exfalso. exact (H el H' R C).
Qed.

(** The entries of row [i]. *)
Let E i := List.filter (fun el => Nat.eqb (nth el (m_rind s) 0%nat) i) (seq 0 (m_nelem s)).

Lemma row_entries i el : In el (E i) <-> (el < m_nelem s)%nat /\ nth el (m_rind s) 0%nat = i.
Proof. unfold E. rewrite filter_In, in_seq, Nat.eqb_eq. lia. Qed.

Lemma row_cols_nodup i : NoDup (map (fun el => nth el (m_cind s) 0%nat) (E i)).
Proof.
  apply NoDup_map_NoDup_ForallPairs; [|apply NoDup_filter, seq_NoDup].
  intros x y Hx Hy Exy. apply row_entries in Hx as [Hx Rx], Hy as [Hy Ry].
  destruct OK as (_ & _ & _ & _ & N). apply (nodup_map_inj _ _ _ _ N); try (apply in_seq; lia). congruence.
Qed.

(** The sum over a row of the dense matrix is what [SumRow] computes. *)
Lemma row_sum i :
  qsum (map (cell s i) (seq 0 (m_ncols s))) == SumRow s i.
Proof.
  destruct OK as (Ld & Lr & Lc & Rg & N).
  set (K := map (fun el => nth el (m_cind s) 0%nat) (E i)).
  assert (HK : incl K (seq 0 (m_ncols s))).
  { intros c Hc. apply in_map_iff in Hc as (el & <- & Hel). apply row_entries in Hel as [Hel _].
    apply in_seq. destruct (Rg el Hel). lia. }
  assert (LK : (length K <= m_ncols s)%nat).
  { rewrite <- (length_seq (m_ncols s) 0). apply NoDup_incl_length; [apply row_cols_nodup|exact HK]. }
  rewrite (qsum_change_on K _ (cell s i) (fun _ => m_thr s) (row_cols_nodup i) (seq_NoDup _ _) HK).
  2:{ intros c _ Hc. apply cell_missing. intros el Hel R C. apply Hc. subst c. unfold K.
       apply (in_map (fun el => nth el (m_cind s) 0%nat)), row_entries. auto. }
  assert (EK : qsum (map (cell s i) K) == qsum (map (fun el => (m_dat s).[el]) (E i))).
  { unfold K. rewrite map_map. apply qsum_map_ext. intros el Hel. apply row_entries in Hel as [Hel R].
    rewrite <- R at 1. rewrite cell_entry by exact Hel. reflexivity. }
  unfold SumRow. destruct (sum_count_spec (m_rind s) (m_dat s) (m_nelem s) i) as [S1 S2].
  destruct (sum_count _ _ _ _) as [sum count]. cbn [fst snd] in S1, S2. fold (E i) in S1, S2.
  assert (Lc' : length K = count) by (unfold K; rewrite length_map; congruence).
  rewrite EK, S1, !qsum_map_const, length_seq, qnat_sub by lia. rewrite <- Lc'. unfold qnat. ring.
Qed.

End Cells.

Lemma dense_get s r c :
  (r < m_nrows s)%nat -> (c < m_ncols s)%nat -> Matrix.get (to_dense s) r c = cell s r c.
Proof.
  intros Hr Hc. unfold Matrix.get, to_dense. cbn [Matrix.m_raw_dat Matrix.m_ncols].
  rewrite (nth_map_lt _ _ 0%nat) by (rewrite length_seq; nia). rewrite seq_nth by nia. cbn [Nat.add].
  assert (Hc0 : m_ncols s <> 0%nat) by lia.
  destruct (Matrix.rowmajor_inj (m_ncols s) r c ((r * m_ncols s + c) / m_ncols s) ((r * m_ncols s + c) mod m_ncols s))
    as [<- <-]; [exact Hc|apply Nat.mod_upper_bound, Hc0| |reflexivity].
  set (X := (r * m_ncols s + c)%nat). rewrite (Nat.div_mod_eq X (m_ncols s)) at 1. ring.
Qed.

Lemma sparse_ok_swap s : sparse_ok s -> sparse_ok (swap s).
Proof.
  intros (Ld & Lr & Lc & Rg & N). unfold swap. repeat split; cbn; auto; try apply Rg; auto.
  replace (map _ _) with (map (fun p => (snd p, fst p)) (map (fun el => (nth el (m_rind s) 0%nat, nth el (m_cind s) 0%nat))
                                                           (seq 0 (m_nelem s)))) by (rewrite map_map; reflexivity).
  apply NoDup_map_NoDup_ForallPairs; [|exact N]. intros [a b] [a' b'] _ _ E. cbn in E. congruence.
Qed.

Lemma find_ext {A} (f g : A -> bool) l : (forall x, f x = g x) -> find f l = find g l.
Proof. intros H. induction l as [|x l IH]; cbn; [reflexivity|]. rewrite H, IH. reflexivity. Qed.

Lemma cell_swap s r c : cell (swap s) c r = cell s r c.
Proof.
  unfold cell, entry_at. cbn [swap m_rind m_cind m_nelem m_dat m_thr].
  rewrite (find_ext _ (fun el => Nat.eqb (nth el (m_rind s) 0%nat) r && Nat.eqb (nth el (m_cind s) 0%nat) c));
    [reflexivity|intros; apply andb_comm].
Qed.

(** A [Read] loop's running sum of the values. *)
Lemma fold_entries (entries : list (nat * nat * Q)) a :
  fold_left (fun z '(_, _, v) => z + v) entries a == a + qsum (map (fun '(_, _, v) => v) entries).
Proof.
  revert a; induction entries as [|[[r c] v] l IH]; intros a; [cbn; lra|].
  cbn [fold_left map]. rewrite IH, qsum_cons. lra.
Qed.

(** ** Properties *)

(** C27.  [SumRow(i)] and [SumCol(j)] of a sparse matrix whose entries
    lie inside it, at distinct cells, are the row and column sums of the
    dense matrix it stands for: the entries of the row or column plus
    [m_thr] for each of its other cells. *)
Theorem SumRow_SumCol_dense s i j :
  sparse_ok s -> (i < m_nrows s)%nat -> (j < m_ncols s)%nat ->
  SumRow s i == Matrix.SumRow (to_dense s) i /\ SumCol s j == Matrix.SumCol (to_dense s) j.
Proof.
  intros OK Hi Hj. rewrite Matrix.SumRow_qsum, Matrix.SumCol_qsum. cbn [to_dense Matrix.m_ncols Matrix.m_nrows]. split.
  - rewrite <- (row_sum s OK i). apply qsum_map_ext. intros p Hp. apply in_seq in Hp.
    rewrite <- dense_get by (auto; lia). reflexivity.
  - change (SumCol s j) with (SumRow (swap s) j). rewrite <- (row_sum (swap s) (sparse_ok_swap s OK) j).
    apply qsum_map_ext. intros r Hr. apply in_seq in Hr. cbn [swap m_ncols] in Hr |- *.
    rewrite dense_get, cell_swap by (auto; lia). reflexivity.
Qed.

Definition ex_sparse : t := Read 2 3 [(1%nat, 1%nat, 4); (2%nat, 3%nat, 2)] 1.

Lemma ex_sparse_ok : sparse_ok ex_sparse.
Proof.
  unfold sparse_ok; cbn. split; [reflexivity|split; [reflexivity|split; [reflexivity|split]]].
  - intros el Hel; destruct el as [|[|el]]; cbn; lia.
  - apply NoDup_cons; [intros [H|[]]; discriminate|apply NoDup_cons; [intros []|constructor]].
Qed.

Lemma SumRow_SumCol_dense_witness :
  (sparse_ok ex_sparse /\ (1 < m_nrows ex_sparse)%nat /\ (2 < m_ncols ex_sparse)%nat) /\
  SumRow ex_sparse 1 == Matrix.SumRow (to_dense ex_sparse) 1 /\ SumCol ex_sparse 2 == Matrix.SumCol (to_dense ex_sparse) 2.
Proof.
  split; [split; [exact ex_sparse_ok|cbn; lia]|].
  apply SumRow_SumCol_dense; [exact ex_sparse_ok|cbn; lia|cbn; lia].
Defined.

(** C28.  After [Read] the sparse matrix sums to one: its entries plus
    [m_thr] for each of the [m_nrows * m_ncols - m_nelem] other cells, as
    long as the file has at most [rows * cols] entries (below that the
    unsigned count wraps) and the normaliser [Z] is not zero. *)
Theorem Read_normalised rows cols entries thr :
  (length entries <= rows * cols)%nat -> ~ Read_Z rows cols entries thr == 0 ->
  let s := Read rows cols entries thr in
  qsum (m_dat s) + qnat (m_nrows s * m_ncols s - m_nelem s) * m_thr s == 1.
Proof.
  intros _ Hz s. subst s. unfold Read. cbn [m_dat m_nrows m_ncols m_nelem m_thr].
  set (z := Read_Z rows cols entries thr) in *.
  assert (Ez : z == qsum (map (fun '(_, _, v) => v) entries) + thr * qnat (rows * cols - length entries)).
  { subst z. unfold Read_Z. rewrite fold_entries. lra. }
  rewrite (qsum_map_ext _ (fun e => / z * (let '(_, _, v) := e in v))) by (intros [[r c] v] _; unfold Qdiv; ring).
  rewrite qsum_map_scale. rewrite Ez in Hz |- *. field. exact Hz.
Qed.

Lemma Read_normalised_witness :
  ((length [(1%nat, 1%nat, 4); (2%nat, 3%nat, 2)] <= 2 * 3)%nat /\ ~ Read_Z 2 3 [(1%nat, 1%nat, 4); (2%nat, 3%nat, 2)] 1 == 0) /\
  qsum (m_dat ex_sparse) + qnat (m_nrows ex_sparse * m_ncols ex_sparse - m_nelem ex_sparse) * m_thr ex_sparse == 1.
Proof.
  split; [split; [cbn; lia|vm_compute; discriminate]|].
  apply Read_normalised; [cbn; lia|vm_compute; discriminate].
Defined.

End SparseMatrix.
