(* ===== verification/MatrixIO.v ===== *)
(** * MatrixIO: the file and console routines of [Vec] and [Matrix]

    [Vec::Read], [Vec::Write], [Vec::Print] (lines 28-50 and 109-114 of
    [src/src/matrix.cpp]), [Matrix::Read], [Matrix::Write] (306-331) and
    [Matrix::Print] (496-504).  A file is its text ([option string]:
    [None] when [ifstream] cannot open it); what is written to a file or
    to [cout] is a text.  An input stream is the list of tokens [>>] has
    still to see ([Text.words]) and its [good()] state ([istream]);
    [extract] is one [>>] into a variable, with the C++11 rules: at end
    of input the sentry fails and the variable keeps its value, a token
    that does not start with a number stores [0], and after a failure
    every [>>] leaves its variable alone.  A fresh array's doubles are
    an argument [junk], as in [Vec.SetSize] and [Matrix.SetSize].

    The conversions of the standard library are parameters: [rd_idx]
    and [rd_dbl] parse the longest numeral at the start of a token and
    return the rest of it ([num_get]), and [fmt] prints a double the way
    [<<] does.  The round trip [Write_Read_roundtrip] reads back what was
    written, rounded by [fmt]: [rnd] is what [rd_dbl] makes of [fmt x].
    With the default precision of six significant digits [rnd] is not
    the identity, so [Read] after [Write] loses precision. *)

From Stdlib Require Import String Ascii QArith Qround List Lia Arith.
From S2P Require Import Prelude Text Vec Matrix SparseMatrix.
Import ListNotations.
Open Scope mplp_scope.

Module MatrixIO.

Import Text.Text.

Local Open Scope string_scope.

(** ** Streams *)

(** The tokens an [ifstream] has still to read, and [good()]. *)
Record istream := mkIs { is_toks : list string; is_good : bool }.

(** [ifstream ifs(fname)]: the file's tokens, or a failed stream when
    the file cannot be opened. *)
Definition open_ifstream (file : option string) : istream :=
  match file with
  | Some s => mkIs (words s) true
  | None => mkIs [] false
  end.

(** [ifs >> x] where [x] holds [old], with the conversion [rd]. *)
Definition extract {A} (rd : string -> option (A * string)) (zero old : A) (ifs : istream) : A * istream :=
  if is_good ifs then
    match is_toks ifs with
    | [] => (old, mkIs [] false)
    | w :: ws =>
        match rd w with
        | Some (x, r) => (x, mkIs (if String.eqb r "" then ws else r :: ws) true)
        | None => (zero, mkIs ws false)
        end
    end%list
  else (old, ifs).

Section Routines.

Variable rd_idx : string -> option (nat * string).
Variable rd_dbl : string -> option (Q * string).
Variable fmt : Q -> string.

(** ** [Vec] *)

(** [ifs >> m_dat[i]]. *)
Definition read_into (acc : Vec.t * istream) (i : nat) : Vec.t * istream :=
  let '(v, ifs) := acc in
  let '(x, ifs') := extract rd_dbl 0 v.[i] ifs in
  (set_nth i x v, ifs').

(** [Vec::Read(fname)] (lines 28-41): the size [s] (an uninitialised
    local: [junk_s] if nothing is read), a fresh array of [s] doubles
    ([delete [] m_dat; m_dat = new double[m_size]]), and [s] reads. *)
Definition Vec_Read (file : option string) (junk_s : nat) (junk : nat -> Q) : Vec.t :=
  let '(s, ifs) := extract rd_idx 0%nat junk_s (open_ifstream file) in
  fst (fold_left read_into (seq 0 s) (Vec.SetSize s junk, ifs)).

(** [m_dat[i] << " "] for every element. *)
Definition vals_text (v : Vec.t) : string := String.concat "" (map (fun x => fmt x ++ sp) v).

(** [Vec::Write(fname)] (lines 43-50): the size and [endl], then every
    element followed by a space. *)
Definition Vec_Write (v : Vec.t) : string := show_nat (List.length v) ++ nl ++ vals_text v.

(** [Vec::Print()] (lines 109-114): what it writes to [cout]. *)
Definition Vec_Print (v : Vec.t) : string := vals_text v ++ nl.

(** ** [Matrix] *)

(** [Matrix::Read(fname)] (lines 306-317): [rows] and [cols] (locals,
    [junk_r], [junk_c] if nothing is read), [SetSize(rows, cols)], then
    [ifs >> ( *this)(i, j)] row by row. *)
Definition Matrix_Read (file : option string) (junk_r junk_c : nat) (junk : nat -> Q) (m : Matrix.t) : Matrix.t :=
  let '(rows, ifs1) := extract rd_idx 0%nat junk_r (open_ifstream file) in
  let '(cols, ifs2) := extract rd_idx 0%nat junk_c ifs1 in
  let m1 := Matrix.SetSize m rows cols junk in
  fst (fold_left (fun acc i =>
         fold_left (fun acc j =>
           let '(m, ifs) := acc in
           let '(x, ifs') := extract rd_dbl 0 (Matrix.get m i j) ifs in
           (Matrix.set m i j x, ifs'))
         (seq 0 (Matrix.m_ncols m1)) acc)
       (seq 0 (Matrix.m_nrows m1)) (m1, ifs2)).

(** The rows: every [( *this)(i, j)] followed by a space, and [endl]
    after each row. *)
Definition rows_text (m : Matrix.t) : string :=
  String.concat "" (map (fun i => String.concat "" (map (fun j => fmt (Matrix.get m i j) ++ sp)
                                                         (seq 0 (Matrix.m_ncols m))) ++ nl)
                        (seq 0 (Matrix.m_nrows m))).

(** [Matrix::Write(fname)] (lines 320-331): [m_nrows], [m_ncols], each
    followed by a space, [endl], then the rows. *)
Definition Matrix_Write (m : Matrix.t) : string :=
  show_nat (Matrix.m_nrows m) ++ sp ++ show_nat (Matrix.m_ncols m) ++ sp ++ nl ++ rows_text m.

(** [Matrix::Print()] (lines 496-504): the rows, to [cout]. *)
Definition Matrix_Print (m : Matrix.t) : string := rows_text m.

(** ** [SparseMatrix] *)

(** One entry of [SparseMatrix::Read]'s loop (lines 550-554): [row],
    [col] and [val] are locals of the loop body, [junk_row i],
    [junk_col i] and [junk_val i] when nothing is read into them. *)
Definition read_entry (junk_row junk_col : nat -> nat) (junk_val : nat -> Q)
    (acc : list (nat * nat * Q) * istream) (i : nat) : list (nat * nat * Q) * istream :=
  let '(es, ifs) := acc in
  let '(row, ifs1) := extract rd_idx 0%nat (junk_row i) ifs in
  let '(col, ifs2) := extract rd_idx 0%nat (junk_col i) ifs1 in
  let '(val, ifs3) := extract rd_dbl 0 (junk_val i) ifs2 in
  ((es ++ [(row, col, val)])%list, ifs3).

(** [SparseMatrix::Read(fname, thr)] (lines 528-564): [rows], [cols] and
    [nelem] from the file, then [nelem] entries; the storage and the
    normalisation are [SparseMatrix.Read] on the entries read, and the
    text is what [cout << thr << endl] prints. *)
Definition Sparse_Read (file : option string) (thr : Q) (junk_r junk_c junk_n : nat)
    (junk_row junk_col : nat -> nat) (junk_val : nat -> Q) : SparseMatrix.t * string :=
  let '(rows, ifs1) := extract rd_idx 0%nat junk_r (open_ifstream file) in
  let '(cols, ifs2) := extract rd_idx 0%nat junk_c ifs1 in
  let '(nelem, ifs3) := extract rd_idx 0%nat junk_n ifs2 in
  let entries := fst (fold_left (read_entry junk_row junk_col junk_val) (seq 0 nelem) ([], ifs3)) in
  (SparseMatrix.Read rows cols entries thr, fmt thr ++ nl).

End Routines.

(** ** Reading back what was written *)

Lemma with_raw_raw (m : Matrix.t) : Matrix.with_raw m (Matrix.m_raw_dat m) = m.
Proof. destruct m; reflexivity. Qed.

Lemma firstn_set_nth (k : nat) (y : Q) (v : Vec.t) :
  (k < length v)%nat -> firstn (S k) (set_nth k y v) = (firstn k v ++ [y])%list.
Proof.
  revert k; induction v as [|a v IH]; intros [|k] Hk; simpl in *; try lia; [reflexivity|].
  rewrite IH by lia. reflexivity.
Qed.

Lemma set_nth_same (k : nat) (v : Vec.t) : set_nth k v.[k] v = v.
Proof. revert k; induction v as [|a v IH]; intros [|k]; simpl; congruence. Qed.

Lemma skipn_set_nth (k j : nat) (y : Q) (v : Vec.t) : (k < j)%nat -> skipn j (set_nth k y v) = skipn j v.
Proof.
  revert k j; induction v as [|a v IH]; intros k j H; [destruct k; reflexivity|].
  destruct j as [|j]; [lia|]. destruct k as [|k]; simpl; [reflexivity|]. apply IH. lia.
Qed.

(** On a failed stream every [>>] leaves its variable alone. *)
Lemma read_failed (rd : string -> option (Q * string)) (ks : list nat) (v : Vec.t) (ifs : istream) :
  is_good ifs = false -> fold_left (read_into rd) ks (v, ifs) = (v, ifs).
Proof.
  intros Hg. revert v. induction ks as [|k ks IH]; intros v; [reflexivity|].
  simpl. unfold extract. rewrite Hg, set_nth_same. apply IH.
Qed.

(** At the end of the input the first [>>] fails and leaves its variable
    alone, and so does every later one. *)
Lemma read_eof (rd : string -> option (Q * string)) (ks : list nat) (v : Vec.t) :
  fst (fold_left (read_into rd) ks (v, mkIs [] true)) = v.
Proof.
  destruct ks as [|k ks]; [reflexivity|]. simpl. unfold extract. simpl.
  rewrite set_nth_same, read_failed by reflexivity. reflexivity.
Qed.

Lemma skipn_map_seq {B} (f : nat -> B) (k n : nat) :
  (k <= n)%nat -> skipn k (map f (seq 0 n)) = map f (seq k (n - k)).
Proof.
  intros H. replace (seq 0 n) with (seq 0 k ++ seq k (n - k))%list by (rewrite <- seq_app; f_equal; lia).
  rewrite map_app, skipn_app, skipn_all2, length_map, length_seq, Nat.sub_diag by (rewrite length_map, length_seq; lia).
  reflexivity.
Qed.

(** A good stream whose next token converts completely. *)
Lemma extract_tok {A} (rd : string -> option (A * string)) (zero old x : A) (w : string) (ws : list string) :
  rd w = Some (x, "") -> extract rd zero old (mkIs (w :: ws) true) = (x, mkIs ws true).
Proof. intros H. unfold extract. simpl. rewrite H. reflexivity. Qed.

Lemma flat_map_rowmajor {B} (f : nat -> nat -> B) (I J : list nat) :
  flat_map (fun i => map (f i) J) I = map (fun ij => f (fst ij) (snd ij)) (list_prod I J).
Proof.
  induction I as [|i I IH]; [reflexivity|]. simpl. rewrite map_app, map_map, IH. reflexivity.
Qed.

Section Roundtrip.

Variable rd_idx : string -> option (nat * string).
Variable rd_dbl : string -> option (Q * string).
Variable fmt : Q -> string.
Variable rnd : Q -> Q.
Hypothesis H_idx : forall n, rd_idx (show_nat n) = Some (n, "").
Hypothesis H_dbl : forall x, rd_dbl (fmt x) = Some (rnd x, "").
Hypothesis H_fmt : forall x, fmt x <> "" /\ has is_space (fmt x) = false.

Lemma fmt_tokens (v : Vec.t) : Forall (fun w => w <> "" /\ has is_space w = false) (map fmt v).
Proof. apply Forall_forall. intros w (x & <- & _)%in_map_iff. apply H_fmt. Qed.

Lemma vals_text_unsep (v : Vec.t) : vals_text fmt v = unsep " " (map fmt v).
Proof. unfold vals_text, unsep. now rewrite map_map. Qed.

Lemma words_vals (v : Vec.t) (r : string) : words (vals_text fmt v ++ r) = (map fmt v ++ words r)%list.
Proof. rewrite vals_text_unsep. apply words_unsep; [reflexivity | apply fmt_tokens]. Qed.

Lemma words_index (n : nat) (c : ascii) (s : string) :
  is_space c = true -> words (show_nat n ++ String c s) = (show_nat n :: words s)%list.
Proof. apply words_token; [apply show_nat_nonempty | apply show_nat_no_space]. Qed.

(** The text of a vector file: the announced size and the values. *)
Lemma words_vec_text (n : nat) (xs : Vec.t) :
  words (show_nat n ++ nl ++ vals_text fmt xs) = (show_nat n :: map fmt xs)%list.
Proof.
  rewrite nl_app, words_index by reflexivity.
  rewrite <- (str_app_nil_r (vals_text fmt xs)), words_vals, app_nil_r. reflexivity.
Qed.

(** The reading loop over positions [k, k+1, ...] of a stream holding
    the printed values [xs]: they land, rounded, at those positions. *)
Lemma read_loop (xs : list Q) (k : nat) (v : Vec.t) (rest : list string) :
  (k + length xs <= length v)%nat ->
  fold_left (read_into rd_dbl) (seq k (length xs)) (v, mkIs (map fmt xs ++ rest) true)
  = ((firstn k v ++ map rnd xs ++ skipn (k + length xs) v)%list, mkIs rest true).
Proof.
  revert k v. induction xs as [|x xs IH]; intros k v Hl; simpl in *.
  - rewrite Nat.add_0_r, firstn_skipn. reflexivity.
  - rewrite (extract_tok _ _ _ (rnd x)) by apply H_dbl.
    rewrite IH by (rewrite length_set_nth; lia).
    rewrite firstn_set_nth, skipn_set_nth, <- app_assoc, Nat.add_succ_r by lia. reflexivity.
Qed.

(** The whole array read from a stream holding exactly its values. *)
Lemma read_all (xs : list Q) (v : Vec.t) :
  length v = length xs ->
  fst (fold_left (read_into rd_dbl) (seq 0 (length xs)) (v, mkIs (map fmt xs) true)) = map rnd xs.
Proof.
  intros Hl. rewrite <- (app_nil_r (map fmt xs)), read_loop by lia. simpl.
  rewrite skipn_all2, app_nil_r by lia. reflexivity.
Qed.

Theorem Vec_Write_Read (v : Vec.t) (junk_s : nat) (junk : nat -> Q) :
  Vec_Read rd_idx rd_dbl (Some (Vec_Write fmt v)) junk_s junk = map rnd v.
Proof.
  unfold Vec_Read, open_ifstream, Vec_Write. rewrite words_vec_text, (extract_tok _ _ _ (length v)) by apply H_idx.
  apply read_all. unfold Vec.SetSize. now rewrite length_map, length_seq.
Qed.

(** A file announcing [n] values and holding the first [length xs] of
    them: those are read, rounded, and the rest of the fresh array is
    left as it was. *)
Lemma Vec_Read_prefix (n : nat) (xs : Vec.t) (junk_s : nat) (junk : nat -> Q) :
  (length xs <= n)%nat ->
  Vec_Read rd_idx rd_dbl (Some (show_nat n ++ nl ++ vals_text fmt xs)) junk_s junk
  = (map rnd xs ++ map junk (seq (length xs) (n - length xs)))%list.
Proof.
  intros Hn. unfold Vec_Read, open_ifstream. rewrite words_vec_text, (extract_tok _ _ _ n) by apply H_idx.
  replace (seq 0 n) with (seq 0 (length xs) ++ seq (length xs) (n - length xs))%list
    by (rewrite <- seq_app; f_equal; lia).
  rewrite fold_left_app, <- (app_nil_r (map fmt xs)), read_loop, read_eof
    by (unfold Vec.SetSize; rewrite length_map, length_seq; lia).
  unfold Vec.SetSize. simpl. f_equal. apply skipn_map_seq. exact Hn.
Qed.

Lemma words_rows (g : nat -> nat -> Q) (I J : list nat) :
  words (String.concat "" (map (fun i => String.concat "" (map (fun j => fmt (g i j) ++ sp) J) ++ nl) I))
  = flat_map (fun i => map (fun j => fmt (g i j)) J) I.
Proof.
  induction I as [|i I IH]; [reflexivity|]. simpl map. rewrite concat_nil_cons, str_app_assoc.
  replace (String.concat "" (map (fun j => fmt (g i j) ++ sp) J)) with (vals_text fmt (map (g i) J))
    by (unfold vals_text; now rewrite map_map).
  rewrite nl_app, words_vals, words_space, IH, map_map by reflexivity.
  reflexivity.
Qed.

(** The cells in row-major order are the array. *)
Lemma cells_rowmajor (m : Matrix.t) :
  Matrix.wf m ->
  map (fun ij => Matrix.get m (fst ij) (snd ij)) (list_prod (seq 0 (Matrix.m_nrows m)) (seq 0 (Matrix.m_ncols m)))
  = Matrix.m_raw_dat m.
Proof.
  intros Hw. unfold Matrix.wf in Hw.
  transitivity (map (fun k => (Matrix.m_raw_dat m).[k])
                    (map (fun ij => (fst ij * Matrix.m_ncols m + snd ij)%nat)
                         (list_prod (seq 0 (Matrix.m_nrows m)) (seq 0 (Matrix.m_ncols m))))).
  { rewrite map_map. reflexivity. }
  rewrite Matrix.map_rowmajor, <- Hw.
  transitivity (map id (Matrix.m_raw_dat m)); [symmetry; exact (map_seq_nth id _ 0) | apply map_id].
Qed.

Lemma words_Matrix_Write (m : Matrix.t) :
  Matrix.wf m ->
  words (Matrix_Write fmt m)
  = (show_nat (Matrix.m_nrows m) :: show_nat (Matrix.m_ncols m) :: map fmt (Matrix.m_raw_dat m))%list.
Proof.
  intros Hw. unfold Matrix_Write. rewrite !sp_app, nl_app.
  rewrite !words_index, words_space by reflexivity. unfold rows_text.
  rewrite (words_rows (Matrix.get m)), flat_map_rowmajor, <- (cells_rowmajor m Hw), map_map by exact Hw.
  reflexivity.
Qed.

Lemma read_cells_inner (m0 : Matrix.t) (i : nat) (J : list nat) (d : Vec.t) (ifs : istream) :
  fold_left (fun acc j =>
    let '(m, ifs) := acc in
    let '(x, ifs') := extract rd_dbl 0 (Matrix.get m i j) ifs in
    (Matrix.set m i j x, ifs')) J (Matrix.with_raw m0 d, ifs)
  = let R := fold_left (read_into rd_dbl) (map (fun j => i * Matrix.m_ncols m0 + j)%nat J) (d, ifs) in
    (Matrix.with_raw m0 (fst R), snd R).
Proof.
  revert d ifs. induction J as [|j J IH]; intros d ifs; [reflexivity|]. simpl.
  change (Matrix.get (Matrix.with_raw m0 d) i j) with (nth (i * Matrix.m_ncols m0 + j) d 0).
  destruct (extract rd_dbl 0 (nth (i * Matrix.m_ncols m0 + j) d 0) ifs) as [x ifs'].
  exact (IH _ _).
Qed.

(** The nested loop of [Matrix::Read] is the reading loop over the
    row-major positions. *)
Lemma read_cells (m0 : Matrix.t) (I J : list nat) (ifs : istream) :
  fold_left (fun acc i =>
    fold_left (fun acc j =>
      let '(m, ifs) := acc in
      let '(x, ifs') := extract rd_dbl 0 (Matrix.get m i j) ifs in
      (Matrix.set m i j x, ifs')) J acc) I (m0, ifs)
  = let R := fold_left (read_into rd_dbl)
               (flat_map (fun i => map (fun j => i * Matrix.m_ncols m0 + j)%nat J) I)
               (Matrix.m_raw_dat m0, ifs) in
    (Matrix.with_raw m0 (fst R), snd R).
Proof.
  rewrite <- (with_raw_raw m0) at 1. generalize (Matrix.m_raw_dat m0) as d.
  revert ifs. induction I as [|i I IH]; intros ifs d; [reflexivity|].
  simpl. rewrite read_cells_inner, IH, fold_left_app, <- surjective_pairing. reflexivity.
Qed.

Theorem Matrix_Write_Read (m : Matrix.t) (junk_r junk_c : nat) (junk : nat -> Q) (m' : Matrix.t) :
  Matrix.wf m ->
  Matrix_Read rd_idx rd_dbl (Some (Matrix_Write fmt m)) junk_r junk_c junk m'
  = Matrix.mk (Matrix.m_nrows m) (Matrix.m_ncols m) (map rnd (Matrix.m_raw_dat m)) (Matrix.m_bDelete m').
Proof.
  intros Hw. unfold Matrix_Read, open_ifstream.
  rewrite (words_Matrix_Write m Hw), (extract_tok _ _ _ (Matrix.m_nrows m)), (extract_tok _ _ _ (Matrix.m_ncols m))
    by apply H_idx.
  rewrite read_cells. cbn [fst snd Matrix.m_nrows Matrix.m_ncols Matrix.m_raw_dat Matrix.SetSize].
  rewrite (flat_map_rowmajor (fun i j => i * Matrix.m_ncols m + j)%nat), Matrix.map_rowmajor.
  unfold Matrix.wf in Hw. rewrite <- Hw, read_all by (rewrite length_map, length_seq; reflexivity).
  reflexivity.
Qed.

(** A sparse-matrix file in the layout [SparseMatrix::Read] expects:
    [rows cols nelem], then one line [row col val] per entry. *)
Definition entry_line (e : nat * nat * Q) : string :=
  show_nat (fst (fst e)) ++ sp ++ show_nat (snd (fst e)) ++ sp ++ fmt (snd e) ++ nl.

Definition sparse_text (rows cols : nat) (es : list (nat * nat * Q)) : string :=
  show_nat rows ++ sp ++ show_nat cols ++ sp ++ show_nat (length es) ++ nl ++
  String.concat "" (map entry_line es).

Definition round_entry (e : nat * nat * Q) : nat * nat * Q := (fst e, rnd (snd e)).

Lemma words_fmt (x : Q) (c : ascii) (r : string) :
  is_space c = true -> words (fmt x ++ String c r) = (fmt x :: words r)%list.
Proof. apply words_token; apply H_fmt. Qed.

Lemma words_entries (es : list (nat * nat * Q)) :
  words (String.concat "" (map entry_line es))
  = flat_map (fun e => [show_nat (fst (fst e)); show_nat (snd (fst e)); fmt (snd e)]) es.
Proof.
  induction es as [|e es IH]; [reflexivity|]. simpl map. rewrite concat_nil_cons.
  unfold entry_line at 1. rewrite !str_app_assoc, !sp_app, nl_app, ?str_app_cons.
  rewrite !words_index, words_fmt, IH by reflexivity. reflexivity.
Qed.

Lemma read_entries (jr jc : nat -> nat) (jv : nat -> Q) (es acc : list (nat * nat * Q)) (k : nat) (rest : list string) :
  fold_left (read_entry rd_idx rd_dbl jr jc jv) (seq k (length es))
    (acc, mkIs (flat_map (fun e => [show_nat (fst (fst e)); show_nat (snd (fst e)); fmt (snd e)]) es ++ rest) true)
  = ((acc ++ map round_entry es)%list, mkIs rest true).
Proof.
  revert acc k. induction es as [|[[r c] v] es IH]; intros acc k; simpl.
  - now rewrite app_nil_r.
  - rewrite (extract_tok _ _ _ r), (extract_tok _ _ _ c), (extract_tok _ _ _ (rnd v)) by auto.
    rewrite IH, <- app_assoc. reflexivity.
Qed.

End Roundtrip.

(** ** Concrete conversions

    Conversions that satisfy the hypotheses of the round trip: indices
    and doubles printed as decimal integers (a double rounded down to a
    natural number, so that [rnd] is not the identity) and read back by
    [Text.read_nat]. *)
Definition tok_nat (w : string) : option (nat * string) := option_map (fun n => (n, "")) (read_nat w).
Definition fmt_floor (x : Q) : string := show_nat (Z.to_nat (Qfloor x)).
Definition tok_floor (w : string) : option (Q * string) :=
  option_map (fun n => (inject_Z (Z.of_nat n), "")) (read_nat w).
Definition rnd_floor (x : Q) : Q := inject_Z (Z.of_nat (Z.to_nat (Qfloor x))).

Lemma floor_conversions :
  (forall n, tok_nat (show_nat n) = Some (n, "")) /\
  (forall x, tok_floor (fmt_floor x) = Some (rnd_floor x, "")) /\
  (forall x, fmt_floor x <> "" /\ has is_space (fmt_floor x) = false).
Proof.
  unfold tok_nat, tok_floor, fmt_floor, rnd_floor.
  split; [|split]; intros; rewrite ?read_show; [reflexivity | reflexivity|].
  split; [apply show_nat_nonempty | apply show_nat_no_space].
Qed.

(** ** Theorems *)

(** C30. Round trip of the matrix files: for conversions [<<]/[>>] that
    read back an index exactly and a double [x] as [rnd x], [Vec::Read]
    of the file [Vec::Write] writes gives the vector rounded by [rnd],
    and [Matrix::Read] of the file [Matrix::Write] writes gives a matrix
    of the same dimensions holding the rounded array (keeping the reading
    object's ownership flag). *)
Theorem Write_Read_roundtrip (rd_idx : string -> option (nat * string)) (rd_dbl : string -> option (Q * string))
    (fmt : Q -> string) (rnd : Q -> Q) :
  (forall n, rd_idx (show_nat n) = Some (n, "")) ->
  (forall x, rd_dbl (fmt x) = Some (rnd x, "")) ->
  (forall x, fmt x <> "" /\ has is_space (fmt x) = false) ->
  (forall v junk_s junk, Vec_Read rd_idx rd_dbl (Some (Vec_Write fmt v)) junk_s junk = map rnd v) /\
  (forall m junk_r junk_c junk m', Matrix.wf m ->
     Matrix_Read rd_idx rd_dbl (Some (Matrix_Write fmt m)) junk_r junk_c junk m'
     = Matrix.mk (Matrix.m_nrows m) (Matrix.m_ncols m) (map rnd (Matrix.m_raw_dat m)) (Matrix.m_bDelete m')).
Proof.
  intros Hi Hd Hf. split; intros; [apply Vec_Write_Read | apply Matrix_Write_Read]; assumption.
Qed.

Lemma Write_Read_roundtrip_witness :
  let m := Matrix.Matrix_wrap 2 2 [1; 5 # 2; 0; 7] in
  ((forall n, tok_nat (show_nat n) = Some (n, "")) /\
   (forall x, tok_floor (fmt_floor x) = Some (rnd_floor x, "")) /\
   (forall x, fmt_floor x <> "" /\ has is_space (fmt_floor x) = false) /\ Matrix.wf m) /\
  Vec_Read tok_nat tok_floor (Some (Vec_Write fmt_floor [3 # 2; 4])) 0 (fun _ => 0) = map rnd_floor [3 # 2; 4] /\
  Matrix_Read tok_nat tok_floor (Some (Matrix_Write fmt_floor m)) 0 0 (fun _ => 0) m
  = Matrix.mk 2 2 (map rnd_floor [1; 5 # 2; 0; 7]) false.
Proof.
  cbv zeta. destruct floor_conversions as (H1 & H2 & H3).
  assert (Hw : Matrix.wf (Matrix.Matrix_wrap 2 2 [1; 5 # 2; 0; 7])) by reflexivity.
  split; [tauto|].
  destruct (Write_Read_roundtrip tok_nat tok_floor fmt_floor rnd_floor H1 H2 H3) as [Hv Hm].
  split; [apply Hv | exact (Hm _ 0%nat 0%nat (fun _ => 0) (Matrix.Matrix_wrap 2 2 [1; 5 # 2; 0; 7]) Hw)].
Defined.

(** C31.  [Vec::Read] never checks its stream.  When [ifstream] cannot
    open the file, the size is the uninitialised local and every double
    is uninitialised; when the file announces [n] values and holds only
    the first [length xs], those are read (rounded as [>>] rounds them)
    and the rest of the fresh array keeps whatever it held. *)
Theorem Vec_Read_unchecked (rd_idx : string -> option (nat * string)) (rd_dbl : string -> option (Q * string))
    (fmt : Q -> string) (rnd : Q -> Q) :
  (forall n, rd_idx (show_nat n) = Some (n, "")) ->
  (forall x, rd_dbl (fmt x) = Some (rnd x, "")) ->
  (forall x, fmt x <> "" /\ has is_space (fmt x) = false) ->
  (forall junk_s junk, Vec_Read rd_idx rd_dbl None junk_s junk = Vec.SetSize junk_s junk) /\
  (forall n xs junk_s junk, (length xs <= n)%nat ->
     Vec_Read rd_idx rd_dbl (Some (show_nat n ++ nl ++ vals_text fmt xs)) junk_s junk
     = (map rnd xs ++ map junk (seq (length xs) (n - length xs)))%list).
Proof.
  intros Hi Hd Hf. split.
  - intros junk_s junk. unfold Vec_Read. simpl. now rewrite read_failed.
  - intros. apply Vec_Read_prefix; assumption.
Qed.

Lemma Vec_Read_unchecked_witness :
  ((forall n, tok_nat (show_nat n) = Some (n, "")) /\
   (forall x, tok_floor (fmt_floor x) = Some (rnd_floor x, "")) /\
   (forall x, fmt_floor x <> "" /\ has is_space (fmt_floor x) = false) /\ (length [1; 2] <= 3)%nat) /\
  Vec_Read tok_nat tok_floor None 4 (fun k => inject_Z (Z.of_nat k)) = Vec.SetSize 4 (fun k => inject_Z (Z.of_nat k)) /\
  Vec_Read tok_nat tok_floor (Some (show_nat 3 ++ nl ++ vals_text fmt_floor [1; 2])) 0 (fun _ => 9)
  = (map rnd_floor [1; 2] ++ map (fun _ => 9) (seq (length [1; 2]) (3 - length [1; 2])))%list.
Proof.
  destruct floor_conversions as (H1 & H2 & H3).
  assert (Hl : (length [1; 2] <= 3)%nat) by (simpl; lia).
  split; [tauto|].
  destruct (Vec_Read_unchecked tok_nat tok_floor fmt_floor rnd_floor H1 H2 H3) as [Hm Hp].
  split; [apply Hm | exact (Hp 3%nat [1; 2] 0%nat (fun _ => 9) Hl)].
Defined.

(** C32.  Reading a file in the layout [SparseMatrix::Read] expects
    ([rows cols nelem], then a line [row col val] per entry) stores the
    entries as listed, each value rounded as [>>] rounds it, before the
    normalisation of [SparseMatrix.Read], and prints [thr] to [cout]. *)
Theorem Sparse_Read_text (rd_idx : string -> option (nat * string)) (rd_dbl : string -> option (Q * string))
    (fmt : Q -> string) (rnd : Q -> Q) :
  (forall n, rd_idx (show_nat n) = Some (n, "")) ->
  (forall x, rd_dbl (fmt x) = Some (rnd x, "")) ->
  (forall x, fmt x <> "" /\ has is_space (fmt x) = false) ->
  forall rows cols es thr jr jc jn jrow jcol jval,
  Sparse_Read rd_idx rd_dbl fmt (Some (sparse_text fmt rows cols es)) thr jr jc jn jrow jcol jval
  = (SparseMatrix.Read rows cols (map (round_entry rnd) es) thr, fmt thr ++ nl).
Proof.
  intros Hi Hd Hf *. unfold Sparse_Read, open_ifstream, sparse_text. rewrite !sp_app, nl_app.
  rewrite !words_index, (words_entries fmt Hf) by reflexivity.
  rewrite (extract_tok _ _ _ rows), (extract_tok _ _ _ cols), (extract_tok _ _ _ (length es)) by auto.
  rewrite <- (app_nil_r (flat_map _ es)), (read_entries rd_idx rd_dbl fmt rnd Hi Hd). reflexivity.
Qed.

Lemma Sparse_Read_text_witness :
  ((forall n, tok_nat (show_nat n) = Some (n, "")) /\
   (forall x, tok_floor (fmt_floor x) = Some (rnd_floor x, "")) /\
   (forall x, fmt_floor x <> "" /\ has is_space (fmt_floor x) = false)) /\
  Sparse_Read tok_nat tok_floor fmt_floor (Some (sparse_text fmt_floor 2 3 [(1%nat, 1%nat, 4); (2%nat, 3%nat, 5 # 2)])) 1
    0 0 0 (fun _ => 0%nat) (fun _ => 0%nat) (fun _ => 0)
  = (SparseMatrix.Read 2 3 (map (round_entry rnd_floor) [(1%nat, 1%nat, 4); (2%nat, 3%nat, 5 # 2)]) 1,
     fmt_floor 1 ++ nl).
Proof.
  destruct floor_conversions as (H1 & H2 & H3). split; [tauto|].
  apply (Sparse_Read_text tok_nat tok_floor fmt_floor rnd_floor H1 H2 H3).
Defined.

End MatrixIO.
