(* ===== verification/MulDimArr.v ===== *)
(** * MulDimArr: dense potential tables over a list of variable domains

    [mplpLib::MulDimArr] (declared in the header [MPLP/matrix.h], which is
    not part of [src/]) is a [Vec] whose values are laid out over the
    Cartesian product of the sizes [m_base_sizes].  Its operations are
    modelled from the specification (section 4.1): construction, indexing
    ([GetVal]), the broadcast [ExpandAndAdd] / [ExpandAndSubtract], the
    one-pass max-marginalisation [max_into_multiple_subsets_special] and
    [Max] with its argmax.  The layout is row-major (last dimension
    fastest), the layout of the flat potential vectors read from model
    files.  Ties in every maximisation keep the first value met in the
    sweep order, as the specification requires.

    The file proves the mixed-radix index round trips, the element-wise
    meaning of every operation on in-bounds indices, and the refinement of
    the one-pass max-marginalisation by the per-entry reference
    [max_marginal] (an exact maximum over the fibre of that entry). *)

From Stdlib Require Import Arith QArith Lqa List Lia.
From S2P Require Import Prelude Vec.
Import ListNotations.
Open Scope Q_scope.
Open Scope mplp_scope.

Module MulDimArr.

Record t := mk { m_base_sizes : list nat; m_dat : list Q }.

(** Number of cells of a table with the given dimension sizes. *)
Definition prodsize (sizes : list nat) : nat := fold_right Nat.mul 1%nat sizes.

(** [m_n_prodsize]: the number of stored cells ([0] for [MulDimArr()]). *)
Definition m_n_prodsize (a : t) : nat := length (m_dat a).

(** [MulDimArr(sizes)] followed by [= 0]. *)
Definition zeros (sizes : list nat) : t := mk sizes (repeat 0 (prodsize sizes)).

(** The default-constructed table [MulDimArr()]: no dimensions, no cells. *)
Definition empty : t := mk [] [].

(** Row-major flat index of a multi-index ([GetFlatInd]). *)
Fixpoint flat_ind (sizes inds : list nat) : nat :=
  match sizes, inds with
  | _ :: ss, i :: ys => (i * prodsize ss + flat_ind ss ys)%nat
  | _, _ => 0%nat
  end.

(** Multi-index of a flat index ([BaseInd]). *)
Fixpoint base_ind (sizes : list nat) (k : nat) : list nat :=
  match sizes with
  | [] => []
  | _ :: ss => (k / prodsize ss)%nat :: base_ind ss (k mod prodsize ss)
  end.

(** [GetVal(inds)]: the cell at a multi-index. *)
Definition GetVal (a : t) (inds : list nat) : Q :=
  (m_dat a).[flat_ind (m_base_sizes a) inds].

(** Restriction of a multi-index to the dimensions at positions [P]. *)
Definition proj (P inds : list nat) : list nat := map (fun p => nth p inds 0%nat) P.

(** Flat index in the table of sizes [ss] over positions [P] of the cell
    of the big table (sizes [bs]) at flat index [k]. *)
Definition sub_ind (bs ss P : list nat) (k : nat) : nat :=
  flat_ind ss (proj P (base_ind bs k)).

(** A loop over the flat indices of a table, [k] counting from [k0]. *)
Fixpoint imap (f : nat -> Q -> Q) (k0 : nat) (l : list Q) : list Q :=
  match l with
  | [] => []
  | v :: l' => f k0 v :: imap f (S k0) l'
  end.

(** [small.ExpandAndAdd(big, P)]: add [small] into every cell of [big],
    broadcasting along the dimensions of [big] absent from [P]. *)
Definition ExpandAndAdd (small big : t) (P : list nat) : t :=
  mk (m_base_sizes big)
     (imap (fun k v => v + (m_dat small).[sub_ind (m_base_sizes big) (m_base_sizes small) P k])
           0 (m_dat big)).

(** [small.ExpandAndSubtract(big, P)]. *)
Definition ExpandAndSubtract (small big : t) (P : list nat) : t :=
  mk (m_base_sizes big)
     (imap (fun k v => v - (m_dat small).[sub_ind (m_base_sizes big) (m_base_sizes small) P k])
           0 (m_dat big)).

(** The [Vec] operators on a table keep its dimensions. *)
Definition lift (f : Vec.t -> Vec.t) (a : t) : t := mk (m_base_sizes a) (f (m_dat a)).

(** One step of [Max(max_at)]: [if (m_dat[k] > m) { m = m_dat[k]; max_at = k; }]. *)
Definition max_step (st : Q * nat) (kv : nat * Q) : Q * nat :=
  let '(m, at_) := st in let '(k, v) := kv in if Qgtb v m then (v, k) else (m, at_).

(** [Max(max_at)]: the largest cell and the first flat index holding it. *)
Definition Max (a : t) : Q * nat :=
  fold_left max_step
            (combine (seq 1 (length (tl (m_dat a)))) (tl (m_dat a)))
            (hd 0 (m_dat a), 0%nat).

(** ** Well-formed tables and in-bounds indices *)

Definition wf (a : t) : Prop := length (m_dat a) = prodsize (m_base_sizes a).

Definition in_bounds (sizes inds : list nat) : Prop := Forall2 lt inds sizes.

Fixpoint in_boundsb (sizes inds : list nat) : bool :=
  match sizes, inds with
  | [], [] => true
  | s :: ss, i :: ys => Nat.ltb i s && in_boundsb ss ys
  | _, _ => false
  end.

Lemma in_boundsb_sound sizes inds : in_boundsb sizes inds = true -> in_bounds sizes inds.
Proof.
  revert inds; induction sizes as [|s ss IH]; intros [|i ys] H; simpl in H; try discriminate;
    constructor.
  - apply andb_prop in H as [H _]. apply Nat.ltb_lt, H.
  - apply IH. apply andb_prop in H as [_ H]. auto.
Qed.

Definition wfb (a : t) : bool := Nat.eqb (length (m_dat a)) (prodsize (m_base_sizes a)).

Lemma wfb_sound a : wfb a = true -> wf a.
Proof. apply Nat.eqb_eq. Qed.

(** ** Index round trips *)

Lemma flat_ind_lt ss y : in_bounds ss y -> (flat_ind ss y < prodsize ss)%nat.
Proof.
  intros H; induction H as [|i s y ss Hi H IH]; simpl; [lia|]. nia.
Qed.

Lemma base_flat ss y : in_bounds ss y -> base_ind ss (flat_ind ss y) = y.
Proof.
  intros H; induction H as [|i s y ss Hi H IH]; simpl; [reflexivity|].
  pose proof (flat_ind_lt _ _ H) as Hlt.
  rewrite <- (Nat.div_unique (i * prodsize ss + flat_ind ss y) (prodsize ss) i (flat_ind ss y)) by lia.
  rewrite <- (Nat.mod_unique (i * prodsize ss + flat_ind ss y) (prodsize ss) i (flat_ind ss y)) by lia.
  rewrite IH. reflexivity.
Qed.

Lemma base_ind_bounds ss k : (k < prodsize ss)%nat -> in_bounds ss (base_ind ss k).
Proof.
  revert k; induction ss as [|s ss IH]; intros k Hk; simpl in *; constructor.
  - apply Nat.Div0.div_lt_upper_bound. lia.
  - apply IH, Nat.mod_upper_bound. intro E. rewrite E in Hk. lia.
Qed.

Lemma flat_base ss k : (k < prodsize ss)%nat -> flat_ind ss (base_ind ss k) = k.
Proof.
  revert k; induction ss as [|s ss IH]; intros k Hk; simpl in *; [lia|].
  assert (prodsize ss <> 0%nat) by (intro E; rewrite E in Hk; lia).
  rewrite IH by (apply Nat.mod_upper_bound; auto).
  pose proof (Nat.div_mod_eq k (prodsize ss)). lia.
Qed.

Lemma flat_ind_inj ss y z :
  in_bounds ss y -> in_bounds ss z -> flat_ind ss y = flat_ind ss z -> y = z.
Proof. intros Hy Hz E. rewrite <- (base_flat ss y), <- (base_flat ss z), E; auto. Qed.

Lemma in_bounds_length ss y : in_bounds ss y -> length y = length ss.
Proof. apply Forall2_length. Qed.

Lemma in_bounds_nth ss y p : in_bounds ss y -> (p < length ss)%nat -> (nth p y 0 < nth p ss 0)%nat.
Proof.
  intros H; revert p; induction H; intros [|p] Hp; simpl in *; try lia; auto.
  apply IHForall2; lia.
Qed.

(** Restricting an in-bounds index to positions [P] gives an in-bounds
    index of the table over those positions. *)
Lemma proj_bounds bs P y :
  in_bounds bs y -> Forall (fun p => p < length bs)%nat P ->
  in_bounds (map (fun p => nth p bs 0%nat) P) (proj P y).
Proof.
  intros Hy HP. unfold proj. induction HP; simpl; constructor; auto.
  apply in_bounds_nth; auto.
Qed.

Lemma proj_seq y : proj (seq 0 (length y)) y = y.
Proof.
  unfold proj. apply nth_ext with (d := 0%nat) (d' := 0%nat); rewrite length_map, length_seq; auto.
  intros n Hn. rewrite (nth_map_lt _ _ 0%nat) by (rewrite length_seq; auto).
  rewrite seq_nth by auto. reflexivity.
Qed.

(** Restricting twice is restricting to the composed positions. *)
Lemma proj_proj P V x :
  Forall (fun p => p < length V)%nat P -> proj P (proj V x) = proj (proj P V) x.
Proof.
  intros H. unfold proj. rewrite map_map. apply map_ext_in. intros p Hp.
  rewrite Forall_forall in H. rewrite (nth_map_lt _ _ 0%nat); auto.
Qed.

Lemma proj_pos l P :
  Forall (fun s => 0 < s)%nat l -> Forall (fun p => p < length l)%nat P ->
  Forall (fun s => 0 < s)%nat (proj P l).
Proof.
  intros Hl HP. unfold proj. apply Forall_map. eapply Forall_impl; [|exact HP].
  intros p Hp. rewrite Forall_forall in Hl. apply Hl, nth_In, Hp.
Qed.

Lemma sub_ind_flat bs ss P y :
  in_bounds bs y -> sub_ind bs ss P (flat_ind bs y) = flat_ind ss (proj P y).
Proof. intros H. unfold sub_ind. rewrite base_flat; auto. Qed.

(** ** Element-wise meaning of the operations *)

Lemma length_imap f k0 l : length (imap f k0 l) = length l.
Proof. revert k0; induction l; intros; simpl; auto. Qed.

Lemma nth_imap f k0 l k :
  (k < length l)%nat -> (imap f k0 l).[k] = f (k0 + k)%nat l.[k].
Proof.
  revert k0 k; induction l as [|v l IH]; intros k0 [|k] Hk; simpl in *; try lia.
  - rewrite Nat.add_0_r. reflexivity.
  - rewrite IH by lia. f_equal. lia.
Qed.

#[export] Hint Rewrite length_imap : mplp_len.

Lemma wf_flat_lt a y :
  wf a -> in_bounds (m_base_sizes a) y -> (flat_ind (m_base_sizes a) y < length (m_dat a))%nat.
Proof. intros W H. rewrite W. apply flat_ind_lt, H. Qed.

Lemma wf_ExpandAndAdd small big P : wf big -> wf (ExpandAndAdd small big P).
Proof. unfold wf, ExpandAndAdd; simpl. rewrite length_imap. auto. Qed.

Lemma wf_ExpandAndSubtract small big P : wf big -> wf (ExpandAndSubtract small big P).
Proof. unfold wf, ExpandAndSubtract; simpl. rewrite length_imap. auto. Qed.

Lemma wf_lift_vzip f a v : wf a -> wf (lift (fun d => Vec.vzip f d v) a).
Proof. unfold wf, lift; simpl. rewrite Vec.length_vzip. auto. Qed.

Lemma wf_lift_map f a : wf a -> wf (lift (map f) a).
Proof. unfold wf, lift; simpl. rewrite length_map. auto. Qed.

#[export] Hint Resolve wf_ExpandAndAdd wf_ExpandAndSubtract wf_lift_vzip wf_lift_map : mplp.

(** Broadcast addition: the cell at [y] gains the cell of [small] at the
    restriction of [y]. *)
Lemma GetVal_ExpandAndAdd small big P y :
  wf big -> in_bounds (m_base_sizes big) y ->
  GetVal (ExpandAndAdd small big P) y = GetVal big y + GetVal small (proj P y).
Proof.
  intros W H. unfold GetVal, ExpandAndAdd; simpl.
  rewrite nth_imap by (apply wf_flat_lt; auto). simpl.
  rewrite sub_ind_flat; auto.
Qed.

Lemma GetVal_ExpandAndSubtract small big P y :
  wf big -> in_bounds (m_base_sizes big) y ->
  GetVal (ExpandAndSubtract small big P) y = GetVal big y - GetVal small (proj P y).
Proof.
  intros W H. unfold GetVal, ExpandAndSubtract; simpl.
  rewrite nth_imap by (apply wf_flat_lt; auto). simpl.
  rewrite sub_ind_flat; auto.
Qed.

(** A [Vec] element-wise operator with a table of the same length. *)
Lemma GetVal_lift_vzip f a b y :
  wf a -> length (m_dat b) = length (m_dat a) -> in_bounds (m_base_sizes a) y ->
  GetVal (lift (fun d => Vec.vzip f d (m_dat b)) a) y
  = f (GetVal a y) (m_dat b).[flat_ind (m_base_sizes a) y].
Proof.
  intros W L H. unfold GetVal, lift; simpl.
  apply Vec.nth_vzip; [|rewrite L]; apply wf_flat_lt; auto.
Qed.

Lemma GetVal_lift_map f a y :
  wf a -> in_bounds (m_base_sizes a) y ->
  GetVal (lift (map f) a) y = f (GetVal a y).
Proof. intros W H. unfold GetVal, lift; simpl. apply Vec.nth_map_Q, wf_flat_lt; auto. Qed.

(** Every cell of a well-formed table is read by [GetVal] at its own
    multi-index. *)
Lemma GetVal_base a k :
  wf a -> (k < length (m_dat a))%nat -> GetVal a (base_ind (m_base_sizes a) k) = (m_dat a).[k].
Proof. intros W H. unfold GetVal. rewrite flat_base; auto. rewrite <- W; auto. Qed.

Lemma GetVal_zeros ss y : GetVal (zeros ss) y = 0.
Proof.
  unfold GetVal, zeros; simpl. destruct (Nat.lt_ge_cases (flat_ind ss y) (prodsize ss)).
  - apply nth_repeat.
  - apply nth_overflow. rewrite repeat_length. auto.
Qed.

Lemma wf_zeros ss : wf (zeros ss).
Proof. unfold wf, zeros; simpl. apply repeat_length. Qed.

(** ** [Max] *)

Lemma Max_unfold a :
  Max a = fold_left max_step (combine (seq 1 (length (tl (m_dat a)))) (tl (m_dat a)))
                    (hd 0 (m_dat a), 0%nat).
Proof. reflexivity. Qed.

Lemma max_step_fold_mono l s st :
  fst st <= fst (fold_left max_step (combine (seq s (length l)) l) st).
Proof.
  revert s st; induction l as [|v l IH]; intros s [m at_]; simpl; [lra|].
  destruct (Qgtb v m) eqn:E; eapply Qle_trans; try apply IH; simpl; try lra.
  apply Qgtb_true in E. lra.
Qed.

Lemma max_step_fold_ge l s st x :
  In x l -> x <= fst (fold_left max_step (combine (seq s (length l)) l) st).
Proof.
  revert s st; induction l as [|v l IH]; intros s [m at_] Hin; simpl in *; [contradiction|].
  destruct Hin as [->|Hin].
  - destruct (Qgtb x m) eqn:E.
    + apply (max_step_fold_mono l (S s) (x, s)).
    + apply Qgtb_false in E. eapply Qle_trans; [exact E|apply (max_step_fold_mono l (S s) (m, at_))].
  - destruct (Qgtb v m); apply IH; auto.
Qed.

Lemma max_step_fold_at l s st :
  fold_left max_step (combine (seq s (length l)) l) st = st \/
  exists i, (i < length l)%nat /\
    fold_left max_step (combine (seq s (length l)) l) st = (l.[i], (s + i)%nat).
Proof.
  revert s st; induction l as [|v l IH]; intros s [m at_]; simpl; auto.
  destruct (Qgtb v m).
  - right. destruct (IH (S s) (v, s)) as [->|[i [Hi ->]]].
    + exists 0%nat. split; [lia|]. simpl. rewrite Nat.add_0_r. reflexivity.
    + exists (S i). split; [lia|]. simpl. f_equal. lia.
  - destruct (IH (S s) (m, at_)) as [->|[i [Hi ->]]]; auto.
    right. exists (S i). split; [lia|]. simpl. f_equal. lia.
Qed.

(** [Max] returns a cell value that bounds every cell, and the flat index
    of a cell holding it. *)
Lemma Max_dat_upper a k : (k < length (m_dat a))%nat -> (m_dat a).[k] <= fst (Max a).
Proof.
  rewrite Max_unfold. destruct (m_dat a) as [|d l]; simpl; intros Hk; [lia|].
  destruct k as [|k].
  - apply (max_step_fold_mono l 1 (d, 0%nat)).
  - apply max_step_fold_ge, nth_In. lia.
Qed.

Lemma Max_at a :
  m_dat a <> [] ->
  (snd (Max a) < length (m_dat a))%nat /\ fst (Max a) = (m_dat a).[snd (Max a)].
Proof.
  rewrite Max_unfold. destruct (m_dat a) as [|d l]; simpl; intros Hne; [congruence|].
  destruct (max_step_fold_at l 1 (d, 0%nat)) as [->|[i [Hi ->]]]; simpl; split; auto; lia.
Qed.

Lemma prodsize_pos ss : Forall (fun s => 0 < s)%nat ss -> (0 < prodsize ss)%nat.
Proof. induction 1; simpl; [lia|]. nia. Qed.

Lemma wf_nonempty a : wf a -> Forall (fun s => 0 < s)%nat (m_base_sizes a) -> m_dat a <> [].
Proof.
  intros W P E. pose proof (prodsize_pos _ P). unfold wf in W. rewrite E in W. simpl in W. lia.
Qed.

(** Every in-bounds cell is at most [Max]. *)
Lemma Max_cell_upper a y :
  wf a -> in_bounds (m_base_sizes a) y -> GetVal a y <= fst (Max a).
Proof. intros W H. apply Max_dat_upper, wf_flat_lt; auto. Qed.

(** [Max] is at most any bound on the in-bounds cells. *)
Lemma Max_le_cells a B :
  wf a -> m_dat a <> [] ->
  (forall y, in_bounds (m_base_sizes a) y -> GetVal a y <= B) -> fst (Max a) <= B.
Proof.
  intros W Hne H. destruct (Max_at a Hne) as [Hk ->].
  rewrite <- GetVal_base by auto. apply H, base_ind_bounds. rewrite <- W. auto.
Qed.

(** ** Surjectivity of the restriction to distinct positions *)

Fixpoint extend (bs P z : list nat) : list nat :=
  match P, z with
  | p :: P', zi :: z' => set_nth p zi (extend bs P' z')
  | _, _ => repeat 0%nat (length bs)
  end.

Lemma in_bounds_set_nth bs y p v :
  in_bounds bs y -> (v < nth p bs 0)%nat -> in_bounds bs (set_nth p v y).
Proof.
  unfold in_bounds.
  intros H; revert p; induction H as [|i s y ss Hi H IH]; intros [|p] Hv; simpl in *;
    constructor; auto; apply IH; auto.
Qed.

Lemma in_bounds_zeros bs : Forall (fun s => 0 < s)%nat bs -> in_bounds bs (repeat 0%nat (length bs)).
Proof. induction 1; simpl; constructor; auto. Qed.

Lemma extend_bounds bs P z :
  Forall (fun s => 0 < s)%nat bs -> in_bounds (map (fun p => nth p bs 0%nat) P) z ->
  in_bounds bs (extend bs P z).
Proof.
  intros Hpos; revert z; induction P as [|p P IH]; intros z Hz; inversion Hz; subst; simpl.
  - apply in_bounds_zeros; auto.
  - apply in_bounds_set_nth; auto.
Qed.

Lemma proj_extend bs P z :
  NoDup P -> Forall (fun p => p < length bs)%nat P ->
  length z = length P -> proj P (extend bs P z) = z.
Proof.
  revert z; induction P as [|p P IH]; intros [|zi z] Hnd HP Hl; simpl in *; try lia; auto.
  inversion Hnd; inversion HP; subst. unfold proj; simpl. f_equal.
  - apply nth_set_nth_eq.
    assert (length (extend bs P z) = length bs).
    { clear -Hl. revert z Hl; induction P; intros [|zi z] Hl; simpl in *; try lia;
        rewrite ?repeat_length, ?length_set_nth; auto. }
    lia.
  - transitivity (proj P (extend bs P z)); [|apply IH; auto; lia].
    unfold proj. apply map_ext_in.
    intros q Hq. apply nth_set_nth_ne. intro; subst; contradiction.
Qed.

Lemma proj_surj bs P z :
  NoDup P -> Forall (fun p => p < length bs)%nat P -> Forall (fun s => 0 < s)%nat bs ->
  in_bounds (map (fun p => nth p bs 0%nat) P) z ->
  exists y, in_bounds bs y /\ proj P y = z.
Proof.
  intros Hnd HP Hpos Hz. exists (extend bs P z). split.
  - apply extend_bounds; auto.
  - apply proj_extend; auto. apply in_bounds_length in Hz. rewrite Hz, length_map. auto.
Qed.

(** ** Max-marginalisation onto several sub-tables in one sweep *)

(** Running maximum of one output cell: [None] until the sweep first meets
    a cell of its fibre; afterwards [if (v > cur) cur = v]. *)
Definition omax_step (acc : option Q) (v : Q) : option Q :=
  match acc with
  | None => Some v
  | Some m => if Qgtb v m then Some v else Some m
  end.

Definition unwrap (o : option Q) : Q := match o with Some v => v | None => 0 end.

(** Update the running maximum of output cell [j] with the value [v]. *)
Definition max_cell (acc : list (option Q)) (j : nat) (v : Q) : list (option Q) :=
  set_nth j (omax_step (nth j acc None) v) acc.

(** One step of the sweep: cell [k] (value [v]) of the big table updates,
    for every target (positions [P], sizes [ss]), its sub-cell. *)
Definition mm_update (bs : list nat) (v : Q) (k : nat)
    (PS : list (list nat * list nat)) (accs : list (list (option Q))) :=
  map (fun '(Pss, acc) => max_cell acc (sub_ind bs (snd Pss) (fst Pss) k) v) (combine PS accs).

Definition mm_sweep (a : t) (PS : list (list nat * list nat)) (ks : list nat)
    (accs : list (list (option Q))) : list (list (option Q)) :=
  fold_left (fun accs k => mm_update (m_base_sizes a) (m_dat a).[k] k PS accs) ks accs.

(** [a.max_into_multiple_subsets_special(Ps, outs)]: every [outs[si]] keeps
    its sizes and receives the max-marginal of [a] onto positions [Ps[si]]. *)
Definition max_into_multiple_subsets_special (a : t) (Ps : list (list nat)) (outs : list t)
    : list t :=
  let PS := combine Ps (map m_base_sizes outs) in
  let accs0 := map (fun o => repeat None (length (m_dat o))) outs in
  let accs := mm_sweep a PS (seq 0 (length (m_dat a))) accs0 in
  map (fun '(o, acc) => mk (m_base_sizes o) (map unwrap acc)) (combine outs accs).

(** Reference: the max-marginal cell [j] of [a] onto positions [P] (sizes
    [ss]) is the first-found maximum over the fibre of [j]. *)
Definition fibre (a : t) (P ss : list nat) (j : nat) : list nat :=
  filter (fun k => Nat.eqb (sub_ind (m_base_sizes a) ss P k) j) (seq 0 (length (m_dat a))).

Definition max_marginal (a : t) (P ss : list nat) (j : nat) : option Q :=
  fold_left omax_step (map (fun k => (m_dat a).[k]) (fibre a P ss j)) None.

(** *** The running maximum *)

Lemma omax_fold_some l m :
  fold_left omax_step l (Some m) = Some (fold_left (fun m x => if Qgtb x m then x else m) l m).
Proof.
  revert m; induction l as [|x l IH]; intros m; simpl; auto.
  destruct (Qgtb x m); apply IH.
Qed.

Lemma omax_fold_upper l x : In x l -> x <= unwrap (fold_left omax_step l None).
Proof.
  destruct l as [|y l]; simpl; [contradiction|]. rewrite omax_fold_some. simpl.
  intros [->|Hin]; [apply Vec.fold_max_ge|apply Vec.fold_max_upper; auto].
Qed.

Lemma omax_fold_in l m : fold_left omax_step l None = Some m -> In m l.
Proof.
  destruct l as [|y l]; simpl; [discriminate|]. rewrite omax_fold_some.
  intros E; injection E as <-.
  destruct (Vec.fold_max_in l y) as [->|H]; auto.
Qed.

Lemma omax_fold_nonempty l : l <> [] -> exists m, fold_left omax_step l None = Some m.
Proof.
  destruct l as [|y l]; [congruence|]. intros _. simpl. rewrite omax_fold_some. eauto.
Qed.

(** *** The sweep computes the reference, cell by cell *)

Lemma length_mm_update bs v k PS accs :
  length PS = length accs -> length (mm_update bs v k PS accs) = length accs.
Proof. intros H. unfold mm_update. rewrite length_map, length_combine. lia. Qed.

Lemma nth_mm_update bs v k PS accs si :
  length PS = length accs -> (si < length accs)%nat ->
  nth si (mm_update bs v k PS accs) []
  = max_cell (nth si accs []) (sub_ind bs (snd (nth si PS ([], []))) (fst (nth si PS ([], []))) k) v.
Proof.
  intros L H. unfold mm_update.
  rewrite (nth_map_lt _ _ (([], []), [])) by (rewrite length_combine; lia).
  rewrite combine_nth by auto. reflexivity.
Qed.

(** One target at a time: the sweep restricted to target [si]. *)
Lemma nth_mm_sweep a PS ks accs si :
  length PS = length accs -> (si < length accs)%nat ->
  nth si (mm_sweep a PS ks accs) []
  = fold_left (fun acc k => max_cell acc
                 (sub_ind (m_base_sizes a) (snd (nth si PS ([], []))) (fst (nth si PS ([], []))) k)
                 (m_dat a).[k]) ks (nth si accs []).
Proof.
  unfold mm_sweep. revert accs; induction ks as [|k ks IH]; intros accs L H; simpl; auto.
  rewrite IH by (rewrite ?length_mm_update; auto).
  rewrite nth_mm_update; auto.
Qed.

Lemma length_max_cell acc j v : length (max_cell acc j v) = length acc.
Proof. apply length_set_nth. Qed.

Lemma length_fold_max_cell (sub : nat -> nat) (val : nat -> Q) ks acc :
  length (fold_left (fun acc k => max_cell acc (sub k) (val k)) ks acc) = length acc.
Proof.
  revert acc; induction ks as [|k ks IH]; intros acc; simpl; auto.
  rewrite IH. apply length_max_cell.
Qed.

(** The sweep of one target keeps, in cell [j], the running maximum of the
    values of the fibre of [j] in sweep order. *)
Lemma fold_max_cell (sub : nat -> nat) (val : nat -> Q) ks acc j :
  (j < length acc)%nat ->
  nth j (fold_left (fun acc k => max_cell acc (sub k) (val k)) ks acc) None
  = fold_left omax_step (map val (filter (fun k => Nat.eqb (sub k) j) ks)) (nth j acc None).
Proof.
  revert acc; induction ks as [|k ks IH]; intros acc Hj; simpl; auto.
  rewrite IH by (rewrite length_max_cell; auto).
  unfold max_cell. destruct (Nat.eqb (sub k) j) eqn:E; simpl.
  - apply Nat.eqb_eq in E. subst. rewrite nth_set_nth_eq by auto. reflexivity.
  - apply Nat.eqb_neq in E. rewrite nth_set_nth_ne by auto. reflexivity.
Qed.

Lemma length_mm_sweep a PS ks accs :
  length PS = length accs -> length (mm_sweep a PS ks accs) = length accs.
Proof.
  unfold mm_sweep. revert accs; induction ks as [|k ks IH]; intros accs L; simpl; auto.
  rewrite IH; rewrite length_mm_update; auto.
Qed.

Lemma fibre_spec a P ss j k :
  In k (fibre a P ss j) <-> (k < length (m_dat a))%nat /\ sub_ind (m_base_sizes a) ss P k = j.
Proof.
  unfold fibre. rewrite filter_In, in_seq, Nat.eqb_eq. lia.
Qed.

Lemma max_marginal_upper a P ss y :
  wf a -> in_bounds (m_base_sizes a) y ->
  GetVal a y <= unwrap (max_marginal a P ss (flat_ind ss (proj P y))).
Proof.
  intros W H. unfold GetVal. apply omax_fold_upper.
  apply (in_map (fun k => (m_dat a).[k])), fibre_spec. split.
  - apply wf_flat_lt; auto.
  - apply sub_ind_flat; auto.
Qed.

Lemma max_marginal_attained a P ss j m :
  max_marginal a P ss j = Some m ->
  exists k, (k < length (m_dat a))%nat /\ sub_ind (m_base_sizes a) ss P k = j /\ m = (m_dat a).[k].
Proof.
  intros E. apply omax_fold_in, in_map_iff in E as [k [<- Hk]].
  apply fibre_spec in Hk as [Hk Hj]. eauto.
Qed.

Lemma max_marginal_some a P ss y :
  wf a -> in_bounds (m_base_sizes a) y ->
  exists m, max_marginal a P ss (flat_ind ss (proj P y)) = Some m.
Proof.
  intros W H. apply omax_fold_nonempty. intros E.
  assert (Hin : In (flat_ind (m_base_sizes a) y) (fibre a P ss (flat_ind ss (proj P y)))).
  { apply fibre_spec. split; [apply wf_flat_lt; auto|apply sub_ind_flat; auto]. }
  apply (in_map (fun k => (m_dat a).[k])) in Hin. rewrite E in Hin. contradiction.
Qed.

Lemma length_max_into a Ps outs :
  length Ps = length outs -> length (max_into_multiple_subsets_special a Ps outs) = length outs.
Proof.
  intros H. unfold max_into_multiple_subsets_special.
  rewrite length_map, length_combine, length_mm_sweep; rewrite ?length_combine, !length_map; lia.
Qed.

(** *** Properties of [max_into_multiple_subsets_special] *)

Section MaxInto.

Variables (a : t) (Ps : list (list nat)) (outs : list t) (si : nat).
Hypothesis Hlen : length Ps = length outs.
Hypothesis Hsi : (si < length outs)%nat.

Let out := nth si outs empty.
Let P := nth si Ps [].
Let res := nth si (max_into_multiple_subsets_special a Ps outs) empty.

Lemma max_into_shape : m_base_sizes res = m_base_sizes out /\ length (m_dat res) = length (m_dat out).
Proof.
  subst res out. unfold max_into_multiple_subsets_special.
  set (accs0 := map (fun o => repeat None (length (m_dat o))) outs).
  assert (L0 : length accs0 = length outs) by (subst accs0; rewrite length_map; auto).
  assert (LP : length (combine Ps (map m_base_sizes outs)) = length accs0)
    by (rewrite length_combine, length_map; lia).
  rewrite (nth_map_lt _ _ (empty, [])) by (rewrite length_combine, length_mm_sweep; auto; lia).
  rewrite combine_nth by (rewrite length_mm_sweep; auto). simpl.
  split; auto. rewrite length_map.
  rewrite nth_mm_sweep by (auto; lia).
  rewrite (length_fold_max_cell (fun k => sub_ind _ _ _ k) (fun k => (m_dat a).[k])).
  subst accs0. rewrite (nth_map_lt _ _ empty) by auto. apply repeat_length.
Qed.

(** Refinement: cell [j] of target [si] is the reference max-marginal. *)
Lemma max_into_cell j :
  (j < length (m_dat out))%nat ->
  (m_dat res).[j] = unwrap (max_marginal a P (m_base_sizes out) j).
Proof.
  intros Hj. subst res out P. unfold max_into_multiple_subsets_special.
  set (accs0 := map (fun o => repeat None (length (m_dat o))) outs).
  assert (L0 : length accs0 = length outs) by (subst accs0; rewrite length_map; auto).
  assert (LP : length (combine Ps (map m_base_sizes outs)) = length accs0)
    by (rewrite length_combine, length_map; lia).
  rewrite (nth_map_lt _ _ (empty, [])) by (rewrite length_combine, length_mm_sweep; auto; lia).
  rewrite combine_nth by (rewrite length_mm_sweep; auto). simpl.
  rewrite nth_mm_sweep by (auto; lia).
  assert (A0 : nth si accs0 [] = repeat None (length (m_dat (nth si outs empty)))).
  { subst accs0. rewrite (nth_map_lt _ _ empty) by auto. reflexivity. }
  rewrite A0.
  assert (Hj' : (j < length (fold_left (fun acc k => max_cell acc
                 (sub_ind (m_base_sizes a) (snd (nth si (combine Ps (map m_base_sizes outs)) ([], [])))
                    (fst (nth si (combine Ps (map m_base_sizes outs)) ([], []))) k) (m_dat a).[k])
                 (seq 0 (length (m_dat a))) (repeat None (length (m_dat (nth si outs empty))))))%nat).
  { rewrite (length_fold_max_cell (fun k => sub_ind _ _ _ k) (fun k => (m_dat a).[k])).
    rewrite repeat_length; auto. }
  rewrite (nth_map_lt _ _ None) by exact Hj'.
  rewrite fold_max_cell by (rewrite repeat_length; auto).
  rewrite nth_repeat_lt by auto.
  rewrite combine_nth by (rewrite length_map; auto). simpl.
  rewrite (nth_map_lt _ _ empty) by auto. reflexivity.
Qed.

Hypothesis Wa : wf a.
Hypothesis Wout : wf out.
Hypothesis Hsizes : m_base_sizes out = map (fun p => nth p (m_base_sizes a) 0%nat) P.
Hypothesis HP : Forall (fun p => p < length (m_base_sizes a))%nat P.

Lemma max_into_GetVal y :
  in_bounds (m_base_sizes a) y ->
  GetVal res (proj P y) = unwrap (max_marginal a P (m_base_sizes out) (flat_ind (m_base_sizes out) (proj P y))).
Proof.
  intros Hy. unfold GetVal. destruct max_into_shape as [-> _].
  apply max_into_cell. rewrite Wout. apply flat_ind_lt. rewrite Hsizes. apply proj_bounds; auto.
Qed.

(** Every cell of [a] is bounded by the max-marginal at its restriction. *)
Lemma max_into_upper y :
  in_bounds (m_base_sizes a) y -> GetVal a y <= GetVal res (proj P y).
Proof.
  intros Hy. rewrite max_into_GetVal by auto. apply max_marginal_upper; auto.
Qed.

Hypothesis HPnd : NoDup P.
Hypothesis Hpos : Forall (fun s => 0 < s)%nat (m_base_sizes a).

(** Every cell of the max-marginal is the value of a cell of [a] in its
    fibre. *)
Lemma max_into_attained z :
  in_bounds (m_base_sizes out) z ->
  exists y, in_bounds (m_base_sizes a) y /\ proj P y = z /\ GetVal res z = GetVal a y.
Proof.
  intros Hz. rewrite Hsizes in Hz.
  destruct (proj_surj _ _ _ HPnd HP Hpos Hz) as [y0 [Hy0 <-]].
  destruct (max_marginal_some a P (m_base_sizes out) y0 Wa Hy0) as [m Hm].
  pose proof Hm as Hm'. apply max_marginal_attained in Hm' as [k [Hk [Hsub ->]]].
  exists (base_ind (m_base_sizes a) k).
  assert (Hb : in_bounds (m_base_sizes a) (base_ind (m_base_sizes a) k))
    by (apply base_ind_bounds; rewrite <- Wa; auto).
  assert (Hp : proj P (base_ind (m_base_sizes a) k) = proj P y0).
  { apply (flat_ind_inj (m_base_sizes out)); rewrite ?Hsizes; try apply proj_bounds; auto.
    rewrite <- Hsizes. exact Hsub. }
  split; [auto|split; [auto|]].
  rewrite max_into_GetVal, Hm by auto. simpl. rewrite GetVal_base; auto.
Qed.

End MaxInto.

(** *** The table's index bijection and the spec's round trips *)

(** A [2 x 2] table and a table over its second dimension. *)
Definition ex_a : t := mk [2; 2]%nat [1; 3; 2; 0].
Definition ex_b : t := mk [2%nat] [5; 7].

(** [flat_ind] and [base_ind] are inverse bijections between the
    in-bounds multi-indices of a table and the flat positions below its
    size. *)
Theorem flat_base_bijection ss :
  (forall y, in_bounds ss y -> (flat_ind ss y < prodsize ss)%nat /\ base_ind ss (flat_ind ss y) = y) /\
  (forall k, (k < prodsize ss)%nat -> in_bounds ss (base_ind ss k) /\ flat_ind ss (base_ind ss k) = k).
Proof.
  split; intros.
  - split; [apply flat_ind_lt | apply base_flat]; auto.
  - split; [apply base_ind_bounds | apply flat_base]; auto.
Qed.

(** Max-marginalising a table onto all of its own dimensions (the
    identity projection) returns the table unchanged. *)
Theorem max_into_identity a out z :
  wf a -> wf out -> m_base_sizes out = m_base_sizes a -> Forall (fun s => 0 < s)%nat (m_base_sizes a) ->
  in_bounds (m_base_sizes a) z ->
  GetVal (nth 0 (max_into_multiple_subsets_special a [seq 0 (length (m_base_sizes a))] [out]) empty) z
  = GetVal a z.
Proof.
  intros Wa Wo Hs Hp Hz. set (P := seq 0 (length (m_base_sizes a))).
  assert (HP : Forall (fun p => p < length (m_base_sizes a))%nat P)
    by (apply Forall_forall; intros p Hp'; apply in_seq in Hp'; lia).
  assert (Hsz : m_base_sizes out = map (fun p => nth p (m_base_sizes a) 0%nat) P)
    by (change (m_base_sizes out = proj P (m_base_sizes a)); subst P; rewrite proj_seq; auto).
  assert (Hz' : in_bounds (m_base_sizes out) z) by (rewrite Hs; auto).
  destruct (max_into_attained a [P] [out] 0 eq_refl ltac:(simpl; lia) Wa Wo Hsz HP (seq_NoDup _ _) Hp z Hz')
    as (y & Hy & Hyz & E).
  simpl in E. rewrite E. f_equal. rewrite <- Hyz. subst P.
  rewrite <- (in_bounds_length _ _ Hy). symmetry. apply proj_seq.
Qed.

(** Expanding a table [b] over positions [P] into [a] and
    max-marginalising back onto [P] gives [b] plus the max-marginal of [a]:
    the broadcast contribution comes back exactly. *)
Theorem max_into_expand a b out P z :
  wf a -> wf out -> m_base_sizes out = map (fun p => nth p (m_base_sizes a) 0%nat) P ->
  Forall (fun p => p < length (m_base_sizes a))%nat P -> NoDup P ->
  Forall (fun s => 0 < s)%nat (m_base_sizes a) -> in_bounds (m_base_sizes out) z ->
  GetVal (nth 0 (max_into_multiple_subsets_special (ExpandAndAdd b a P) [P] [out]) empty) z
  == GetVal b z + GetVal (nth 0 (max_into_multiple_subsets_special a [P] [out]) empty) z.
Proof.
  intros Wa Wo Hsz HP Hnd Hp Hz.
  assert (Wa' : wf (ExpandAndAdd b a P)) by (apply wf_ExpandAndAdd, Wa).
  destruct (max_into_attained a [P] [out] 0 eq_refl ltac:(simpl; lia) Wa Wo Hsz HP Hnd Hp z Hz)
    as (y0 & Hy0 & Hz0 & E0).
  destruct (max_into_attained (ExpandAndAdd b a P) [P] [out] 0 eq_refl ltac:(simpl; lia) Wa' Wo Hsz HP Hnd Hp
              z Hz) as (y1 & Hy1 & Hz1 & E1).
  pose proof (max_into_upper a [P] [out] 0 eq_refl ltac:(simpl; lia) Wa Wo Hsz HP y1 Hy1) as U1.
  pose proof (max_into_upper (ExpandAndAdd b a P) [P] [out] 0 eq_refl ltac:(simpl; lia) Wa' Wo Hsz HP y0 Hy0)
    as U0.
  rewrite GetVal_ExpandAndAdd in E1, U0 by auto. simpl in *. rewrite Hz1 in E1, U1. rewrite Hz0 in U0.
  rewrite E1 in U0 |- *. rewrite E0 in U1 |- *. lra.
Qed.


Lemma max_into_identity_witness :
  GetVal (nth 0 (max_into_multiple_subsets_special ex_a [seq 0 (length (m_base_sizes ex_a))]
                   [zeros [2; 2]%nat]) empty) [1; 0]%nat
  = GetVal ex_a [1; 0]%nat.
Proof.
  apply max_into_identity; [reflexivity|reflexivity|reflexivity| |].
  - apply forallb_pos_sound. reflexivity.
  - apply in_boundsb_sound. reflexivity.
Defined.

Lemma max_into_expand_witness :
  GetVal (nth 0 (max_into_multiple_subsets_special (ExpandAndAdd ex_b ex_a [1%nat]) [[1%nat]]
                   [zeros [2%nat]]) empty) [0%nat]
  == GetVal ex_b [0%nat] + GetVal (nth 0 (max_into_multiple_subsets_special ex_a [[1%nat]]
                                            [zeros [2%nat]]) empty) [0%nat].
Proof.
  apply max_into_expand; [reflexivity|reflexivity|reflexivity| | | |].
  - apply forallb_lt_sound. reflexivity.
  - apply nodupb_sound. reflexivity.
  - apply forallb_pos_sound. reflexivity.
  - apply in_boundsb_sound. reflexivity.
Defined.

End MulDimArr.
