(* ===== verification/Region.v ===== *)
(** * Region: a cluster of variables and its message update

    [mplpLib::Region] of [src/src/mplp_alg.cpp] (lines 33-196): the region's
    variables, the catalogue positions of the intersection sets it shares,
    its own intersection set, the positions of every shared set's
    variables inside the region, and one outgoing message per shared set.
    [Region_new] is the constructor, [AddIntersectionSet] adds a shared
    set, [UpdateMsgs] is the message update; the aggregated beliefs
    [sum_into_intersects] are passed and returned explicitly.

    The theorems show that construction succeeds exactly when every
    shared set's variables are in the region, that [UpdateMsgs] keeps the
    catalogue well formed, that it preserves the total belief at every
    assignment (a reparameterisation), and that it never increases the
    dual objective (the sum over intersection sets of their maxima). *)

From Stdlib Require Import Arith ZArith QArith Lqa List Lia.
From S2P Require Import Prelude Vec MulDimArr.
Import ListNotations.
Open Scope Q_scope.
Open Scope mplp_scope.

Module Region.

Import MulDimArr.
Abbreviation arr := MulDimArr.t.

Record Region := mkRegion {
  m_region_inds : list nat;
  m_intersect_inds : list nat;
  m_region_intersect : nat;
  m_inds_of_intersects : list (list nat);
  m_msgs_from_region : list arr;
  m_var_sizes : list nat
}.

(** [find(m_region_inds.begin(), m_region_inds.end(), v) - begin()]. *)
Fixpoint find_ind (v : nat) (l : list nat) : option nat :=
  match l with
  | [] => None
  | w :: l' => if Nat.eqb w v then Some 0%nat else option_map S (find_ind v l')
  end.

(** The loop over the variables of one intersection set: the positions of
    its variables in the region, or [inl v] for the first variable [v]
    that is not in the region (the [cerr] message and early [return]). *)
Fixpoint inds_in_region (region_inds curr_intersect : list nat) : nat + list nat :=
  match curr_intersect with
  | [] => inr []
  | v :: vs =>
      match find_ind v region_inds with
      | None => inl v
      | Some p =>
          match inds_in_region region_inds vs with
          | inl e => inl e
          | inr ps => inr (p :: ps)
          end
      end
  end.

Definition nth_arr (l : list arr) (i : nat) : arr := nth i l MulDimArr.empty.

(** Sizes of the variables of a set: [var_sizes[v]] for each [v]. *)
Definition sizes_of (var_sizes vars : list nat) : list nat :=
  map (fun v => nth v var_sizes 0%nat) vars.

(** The loop of the constructor over the shared sets [sis]. *)
Fixpoint ctor_loop (region_inds : list nat) (all_intersects : list (list nat))
    (var_sizes : list nat) (sis : list nat) (inds : list (list nat)) (msgs : list arr)
    : list (list nat) * list arr * option nat :=
  match sis with
  | [] => (inds, msgs, None)
  | s :: sis' =>
      let curr := nth s all_intersects [] in
      match inds_in_region region_inds curr with
      | inl v => (inds, msgs, Some v)
      | inr ps => ctor_loop region_inds all_intersects var_sizes sis'
                   (inds ++ [ps]) (msgs ++ [MulDimArr.zeros (sizes_of var_sizes curr)])
      end
  end.

(** [Region(region_inds, all_intersects, intersect_inds, var_sizes,
    region_intersect)]: the region built and the variable reported on
    [cerr], if any.  After a report the constructor has returned early:
    later sets are skipped and [m_var_sizes] stays empty. *)
Definition Region_new (region_inds : list nat) (all_intersects : list (list nat))
    (intersect_inds var_sizes : list nat) (region_intersect : nat) : Region * option nat :=
  let '(inds, msgs, err) := ctor_loop region_inds all_intersects var_sizes intersect_inds [] [] in
  (mkRegion region_inds intersect_inds region_intersect inds msgs
     (match err with None => sizes_of var_sizes region_inds | Some _ => [] end), err).

(** [AddIntersectionSet(intersect_loc, all_intersects, var_sizes)]. *)
Definition AddIntersectionSet (intersect_loc : nat) (all_intersects : list (list nat))
    (var_sizes : list nat) (R : Region) : Region * option nat :=
  let curr := nth intersect_loc all_intersects [] in
  match inds_in_region (m_region_inds R) curr with
  | inl v => (R, Some v)
  | inr ps =>
      (mkRegion (m_region_inds R) (m_intersect_inds R ++ [intersect_loc]) (m_region_intersect R)
         (m_inds_of_intersects R ++ [ps])
         (m_msgs_from_region R ++ [MulDimArr.zeros (sizes_of var_sizes curr)])
         (m_var_sizes R), None)
  end.

(** [Get_nVars()]: the number of variables of the region. *)
Definition Get_nVars (R : Region) : nat := length (m_var_sizes R).

(** ** [UpdateMsgs(sum_into_intersects)] *)

Section Update.

Variable R : Region.

Let r := m_region_intersect R.
Let S := m_intersect_inds R.
Let Ps := m_inds_of_intersects R.
Let nI := length S.

(** Lines 141-157: [orig] is a copy of the region's own belief, to which
    every previous message, expanded to the region, is added. *)
Definition orig_loop (msgs : list arr) (orig : arr) (sis : list nat) : arr :=
  fold_left (fun orig si => MulDimArr.ExpandAndAdd (nth_arr msgs si) orig (nth si Ps [])) sis orig.

(** Lines 159-176: [lam_minus_region] and the expansion of every shared
    set's belief into the region's belief. *)
Definition lam_loop (msgs : list arr) (st : list arr * list arr) (sis : list nat)
    : list arr * list arr :=
  fold_left (fun '(lam, sums) si =>
      let s := nth si S 0%nat in
      let lam_si := MulDimArr.lift (fun d => Vec.sub d (MulDimArr.m_dat (nth_arr msgs si)))
                                   (nth_arr sums s) in
      let P := nth si Ps [] in
      let sums' :=
        if Nat.eqb (Get_nVars R) (length P)
        then set_nth r (MulDimArr.lift (fun d => Vec.add d (MulDimArr.m_dat (nth_arr sums s)))
                                       (nth_arr sums r)) sums
        else set_nth r (MulDimArr.ExpandAndAdd (nth_arr sums s) (nth_arr sums r) P) sums in
      (lam ++ [lam_si], sums'))
    sis st.

(** Lines 179-193: scale, store, and finish each new message. *)
Definition msg_loop (lam : list arr) (st : list arr * list arr * arr) (sis : list nat)
    : list arr * list arr * arr :=
  fold_left (fun '(msgs, sums, orig) si =>
      let s := nth si S 0%nat in
      let m := MulDimArr.lift (fun d => Vec.scale d (/ inject_Z (Z.of_nat nI))) (nth_arr msgs si) in
      let sums' := set_nth s m sums in
      let m' := MulDimArr.lift (fun d => Vec.sub d (MulDimArr.m_dat (nth_arr lam si))) m in
      (set_nth si m' msgs, sums', MulDimArr.ExpandAndSubtract m' orig (nth si Ps [])))
    sis st.

Definition UpdateMsgs (sums : list arr) : Region * list arr :=
  let msgs0 := m_msgs_from_region R in
  let orig := orig_loop msgs0 (nth_arr sums r) (seq 0 nI) in
  let '(lam, sums2) := lam_loop msgs0 ([], sums) (seq 0 nI) in
  let msgs1 := MulDimArr.max_into_multiple_subsets_special (nth_arr sums2 r) Ps msgs0 in
  let '(msgs3, sums3, orig3) := msg_loop lam (msgs1, sums2, orig) (seq 0 nI) in
  (* memcpy of [orig] into the region's own belief *)
  let sums4 := set_nth r (MulDimArr.lift (fun d => Vec.assign d (MulDimArr.m_dat orig3))
                                         (nth_arr sums3 r)) sums3 in
  (mkRegion (m_region_inds R) S r Ps msgs3 (m_var_sizes R), sums4).

(** *** The loops in closed form *)

Lemma orig_loop_shape msgs o sis :
  m_base_sizes (orig_loop msgs o sis) = m_base_sizes o /\ (wf o -> wf (orig_loop msgs o sis)).
Proof.
  induction sis as [|si sis IH] using rev_ind; [simpl; auto|].
  unfold orig_loop in *. rewrite fold_left_app. simpl. destruct IH as [IH1 IH2].
  split; [exact IH1|]. intros W. apply wf_ExpandAndAdd; auto.
Qed.

Lemma orig_loop_val msgs o sis y :
  wf o -> in_bounds (m_base_sizes o) y ->
  GetVal (orig_loop msgs o sis) y
  == GetVal o y + qsum (map (fun si => GetVal (nth_arr msgs si) (proj (nth si Ps []) y)) sis).
Proof.
  intros W H. induction sis as [|si sis IH] using rev_ind; [simpl; lra|].
  pose proof (orig_loop_shape msgs o sis) as [Sh Wf].
  unfold orig_loop in *. rewrite fold_left_app. simpl.
  rewrite GetVal_ExpandAndAdd by (auto; rewrite Sh; auto).
  rewrite IH, map_app, qsum_app. simpl. lra.
Qed.

(** The hypotheses [lam_loop] needs on the sets it visits. *)
Definition lam_ok (sums : list arr) (si : nat) : Prop :=
  nth si S 0%nat <> r /\
  (Get_nVars R = length (nth si Ps []) ->
     nth si Ps [] = seq 0 (length (m_base_sizes (nth_arr sums r))) /\
     m_base_sizes (nth_arr sums (nth si S 0%nat)) = m_base_sizes (nth_arr sums r) /\
     wf (nth_arr sums (nth si S 0%nat))).


Lemma lam_loop_spec msgs lam0 sums sis :
  (r < length sums)%nat -> wf (nth_arr sums r) -> (forall si, In si sis -> lam_ok sums si) ->
  let '(lam, sums') := lam_loop msgs (lam0, sums) sis in
  lam = lam0 ++ map (fun si => lift (fun d => Vec.sub d (m_dat (nth_arr msgs si)))
                                    (nth_arr sums (nth si S 0%nat))) sis /\
  length sums' = length sums /\
  (forall i, i <> r -> nth_arr sums' i = nth_arr sums i) /\
  m_base_sizes (nth_arr sums' r) = m_base_sizes (nth_arr sums r) /\
  wf (nth_arr sums' r) /\
  (forall y, in_bounds (m_base_sizes (nth_arr sums r)) y ->
     GetVal (nth_arr sums' r) y
     == GetVal (nth_arr sums r) y
        + qsum (map (fun si => GetVal (nth_arr sums (nth si S 0%nat)) (proj (nth si Ps []) y)) sis)).
Proof.
  intros Hr Wr Hok. induction sis as [|si sis IH] using rev_ind.
  { simpl. split; [rewrite app_nil_r; reflexivity|].
    split; [auto|]. split; [auto|]. split; [auto|]. split; [auto|].
    intros y _. simpl. lra. }
  unfold lam_loop in *. rewrite fold_left_app.
  destruct (fold_left _ sis (lam0, sums)) as [lam sums'] eqn:E.
  destruct IH as (IHl & IHlen & IHo & IHs & IHw & IHv); [intros; apply Hok, in_or_app; auto|].
  assert (Hsi : In si (sis ++ [si])) by (apply in_or_app; right; left; auto).
  destruct (Hok si Hsi) as [Hne Hid].
  simpl. rewrite IHo by auto.
  assert (Rr : forall a, nth_arr (set_nth r a sums') r = a)
    by (intros; unfold nth_arr; apply nth_set_nth_eq; lia).
  assert (Ro : forall a i, i <> r -> nth_arr (set_nth r a sums') i = nth_arr sums' i)
    by (intros; unfold nth_arr; apply nth_set_nth_ne; auto).
  split; [rewrite IHl, map_app, app_assoc; reflexivity|].
  destruct (Nat.eqb (Get_nVars R) (length (nth si Ps []))) eqn:Eq.
  - apply Nat.eqb_eq in Eq. destruct (Hid Eq) as (HP & Hsz & Ws).
    split; [rewrite length_set_nth; auto|]. split; [intros i Hi; rewrite Ro; auto|].
    rewrite Rr. split; [simpl; auto|]. split; [apply wf_lift_vzip; auto|].
    intros y Hy. rewrite map_app, qsum_app. simpl.
    pose proof (in_bounds_length _ _ Hy) as Ly.
    unfold Vec.add.
    rewrite GetVal_lift_vzip; [| auto | unfold wf in *; congruence | rewrite IHs; auto].
    rewrite IHv by auto. rewrite HP, <- Ly, proj_seq. unfold GetVal. rewrite IHs, Hsz. lra.
  - split; [rewrite length_set_nth; auto|]. split; [intros i Hi; rewrite Ro; auto|].
    rewrite Rr. split; [simpl; auto|]. split; [apply wf_ExpandAndAdd; auto|].
    intros y Hy. rewrite map_app, qsum_app. simpl.
    rewrite GetVal_ExpandAndAdd by (auto; rewrite IHs; auto).
    rewrite IHv by auto. lra.
Qed.

Definition scaled (msgs1 : list arr) (si : nat) : arr :=
  lift (fun d => Vec.scale d (/ inject_Z (Z.of_nat nI))) (nth_arr msgs1 si).

Definition newm (lam msgs1 : list arr) (si : nat) : arr :=
  lift (fun d => Vec.sub d (m_dat (nth_arr lam si))) (scaled msgs1 si).

Lemma NoDup_snoc_inv {A} (l : list A) a : NoDup (l ++ [a]) -> NoDup l /\ ~ In a l.
Proof.
  intros H. split; [eapply NoDup_app_remove_r; eauto|].
  apply NoDup_remove_2 in H. rewrite app_nil_r in H. auto.
Qed.

Lemma msg_loop_spec lam msgs sums orig sis :
  NoDup sis ->
  (forall si, In si sis -> (si < length msgs)%nat /\ (nth si S 0 < length sums)%nat) ->
  (forall si sj, In si sis -> In sj sis -> nth si S 0%nat = nth sj S 0%nat -> si = sj) ->
  let '(msgs', sums', orig') := msg_loop lam (msgs, sums, orig) sis in
  length msgs' = length msgs /\ length sums' = length sums /\
  (forall si, In si sis -> nth_arr msgs' si = newm lam msgs si) /\
  (forall si, ~ In si sis -> nth_arr msgs' si = nth_arr msgs si) /\
  (forall si, In si sis -> nth_arr sums' (nth si S 0%nat) = scaled msgs si) /\
  (forall i, (forall si, In si sis -> nth si S 0%nat <> i) -> nth_arr sums' i = nth_arr sums i) /\
  m_base_sizes orig' = m_base_sizes orig /\ (wf orig -> wf orig') /\
  (forall y, wf orig -> in_bounds (m_base_sizes orig) y ->
     GetVal orig' y == GetVal orig y
       - qsum (map (fun si => GetVal (newm lam msgs si) (proj (nth si Ps []) y)) sis)).
Proof.
  intros Hnd Hb Hinj. induction sis as [|si sis IH] using rev_ind.
  { simpl. repeat split; auto; try tauto. intros y _ _. lra. }
  apply NoDup_snoc_inv in Hnd as [Hnd Hnin].
  assert (Hsi : In si (sis ++ [si])) by (apply in_or_app; right; left; auto).
  assert (Hsub : forall x, In x sis -> In x (sis ++ [si])) by (intros; apply in_or_app; auto).
  unfold msg_loop in *. rewrite fold_left_app.
  destruct (fold_left _ sis (msgs, sums, orig)) as [[msgs' sums'] orig'] eqn:E. simpl.
  destruct (IH Hnd (fun x Hx => Hb x (Hsub x Hx)) (fun x z Hx Hz => Hinj x z (Hsub x Hx) (Hsub z Hz)))
    as (L1 & L2 & Hm & Hmo & Hs & Hso & Ho & Hw & Hv).
  destruct (Hb si Hsi) as [Hsim HsiS].
  rewrite Hmo by auto. fold (scaled msgs si). fold (newm lam msgs si).
  split; [rewrite length_set_nth; auto|].
  split; [rewrite length_set_nth; auto|].
  split.
  { intros x Hx. apply in_app_or in Hx as [Hx|[<-|[]]]; unfold nth_arr.
    - rewrite nth_set_nth_ne by (intro; subst; contradiction). apply Hm; auto.
    - apply nth_set_nth_eq. lia. }
  split.
  { intros x Hx. unfold nth_arr. rewrite nth_set_nth_ne.
    - apply Hmo. intro; apply Hx; auto.
    - intro; subst; apply Hx; auto. }
  split.
  { intros x Hx. apply in_app_or in Hx as [Hx|[<-|[]]]; unfold nth_arr.
    - rewrite nth_set_nth_ne by (intro E'; apply Hnin; rewrite (Hinj si x) by (auto; apply in_or_app; auto); auto).
      apply Hs; auto.
    - apply nth_set_nth_eq. lia. }
  split.
  { intros i Hi. unfold nth_arr. rewrite nth_set_nth_ne by (apply Hi; auto). apply Hso; auto. }
  split; [simpl; auto|]. split; [intros; apply wf_ExpandAndSubtract; auto|].
  intros y W Hy. rewrite GetVal_ExpandAndSubtract by (auto; rewrite Ho; auto).
  rewrite Hv by auto. rewrite map_app, qsum_app. simpl. lra.
Qed.

End Update.

(** Two regions that differ at most in their messages. *)
Definition same_frame (R R' : Region) : Prop :=
  m_region_inds R' = m_region_inds R /\ m_intersect_inds R' = m_intersect_inds R /\
  m_region_intersect R' = m_region_intersect R /\ m_inds_of_intersects R' = m_inds_of_intersects R /\
  m_var_sizes R' = m_var_sizes R.

(** ** Well-formed catalogues and regions *)

(** The catalogue invariant of [sum_into_intersects]: every aggregated
    belief is a well-formed table over the sizes of its set's variables. *)
Definition cat_wf (var_sizes : list nat) (all_intersects : list (list nat)) (sums : list arr) : Prop :=
  length sums = length all_intersects /\
  forall i, (i < length sums)%nat ->
    m_base_sizes (nth_arr sums i) = sizes_of var_sizes (nth i all_intersects []) /\
    wf (nth_arr sums i) /\ Forall (fun v => v < length var_sizes)%nat (nth i all_intersects []).

(** A region consistent with the catalogue: its own set holds its
    variables, its shared sets are distinct from it and from each other,
    the recorded positions pick each shared set's variables out of the
    region, and each message has the shape of its set. *)
Record region_wf (var_sizes : list nat) (all_intersects : list (list nat)) (sums : list arr)
    (R : Region) : Prop := {
  rw_r : (m_region_intersect R < length sums)%nat;
  rw_vars : nth (m_region_intersect R) all_intersects [] = m_region_inds R;
  rw_nodup : NoDup (m_region_intersect R :: m_intersect_inds R);
  rw_S : Forall (fun s => s < length sums)%nat (m_intersect_inds R);
  rw_len_P : length (m_inds_of_intersects R) = length (m_intersect_inds R);
  rw_len_msgs : length (m_msgs_from_region R) = length (m_intersect_inds R);
  rw_P : forall si, (si < length (m_intersect_inds R))%nat ->
    NoDup (nth si (m_inds_of_intersects R) []) /\
    Forall (fun p => p < length (m_region_inds R))%nat (nth si (m_inds_of_intersects R) []) /\
    nth (nth si (m_intersect_inds R) 0%nat) all_intersects []
      = proj (nth si (m_inds_of_intersects R) []) (m_region_inds R);
  rw_msgs : forall si, (si < length (m_intersect_inds R))%nat ->
    m_base_sizes (nth_arr (m_msgs_from_region R) si)
      = sizes_of var_sizes (nth (nth si (m_intersect_inds R) 0%nat) all_intersects []) /\
    wf (nth_arr (m_msgs_from_region R) si);
  rw_nvars : m_var_sizes R = sizes_of var_sizes (m_region_inds R);
  rw_identity : forall si, (si < length (m_intersect_inds R))%nat ->
    length (nth si (m_inds_of_intersects R) []) = length (m_region_inds R) ->
    nth si (m_inds_of_intersects R) [] = seq 0 (length (m_region_inds R))
}.

Lemma sizes_of_proj var_sizes P V :
  Forall (fun p => p < length V)%nat P ->
  sizes_of var_sizes (proj P V) = map (fun p => nth p (sizes_of var_sizes V) 0%nat) P.
Proof.
  intros H. unfold sizes_of, proj. rewrite map_map. apply map_ext_in. intros p Hp.
  rewrite Forall_forall in H. rewrite (nth_map_lt _ _ 0%nat); auto.
Qed.

Lemma length_sizes_of var_sizes V : length (sizes_of var_sizes V) = length V.
Proof. apply length_map. Qed.

Lemma In_seq_lt n si : In si (seq 0 n) -> (si < n)%nat.
Proof. rewrite in_seq. lia. Qed.

Lemma nodup_S_inj (S : list nat) si sj :
  NoDup S -> (si < length S)%nat -> (sj < length S)%nat -> nth si S 0%nat = nth sj S 0%nat -> si = sj.
Proof. intros H Hi Hj E. eapply NoDup_nth; eauto. Qed.

(** Executable checks of the two invariants. *)
Definition cat_wfb (var_sizes : list nat) (all_intersects : list (list nat)) (sums : list arr) : bool :=
  Nat.eqb (length sums) (length all_intersects) &&
  forallb (fun i => leqb (m_base_sizes (nth_arr sums i)) (sizes_of var_sizes (nth i all_intersects [])) &&
                    wfb (nth_arr sums i) &&
                    forallb (fun v => Nat.ltb v (length var_sizes)) (nth i all_intersects []))
          (seq 0 (length sums)).

Definition region_wfb (var_sizes : list nat) (all_intersects : list (list nat)) (sums : list arr)
    (R : Region) : bool :=
  let S := m_intersect_inds R in
  let Ps := m_inds_of_intersects R in
  let ri := m_region_inds R in
  Nat.ltb (m_region_intersect R) (length sums) &&
  leqb (nth (m_region_intersect R) all_intersects []) ri &&
  nodupb (m_region_intersect R :: S) &&
  forallb (fun s => Nat.ltb s (length sums)) S &&
  Nat.eqb (length Ps) (length S) &&
  Nat.eqb (length (m_msgs_from_region R)) (length S) &&
  forallb (fun si =>
     let P := nth si Ps [] in
     nodupb P && forallb (fun p => Nat.ltb p (length ri)) P &&
     leqb (nth (nth si S 0%nat) all_intersects []) (proj P ri) &&
     leqb (m_base_sizes (nth_arr (m_msgs_from_region R) si))
          (sizes_of var_sizes (nth (nth si S 0%nat) all_intersects [])) &&
     wfb (nth_arr (m_msgs_from_region R) si) &&
     (if Nat.eqb (length P) (length ri) then leqb P (seq 0 (length ri)) else true))
    (seq 0 (length S)) &&
  leqb (m_var_sizes R) (sizes_of var_sizes ri).

Lemma cat_wfb_sound var_sizes all_intersects sums :
  cat_wfb var_sizes all_intersects sums = true -> cat_wf var_sizes all_intersects sums.
Proof.
  unfold cat_wfb. intros H. apply andb_prop in H as [H1 H2]. split; [apply Nat.eqb_eq, H1|].
  intros i Hi. rewrite forallb_forall in H2. specialize (H2 i (proj2 (in_seq _ _ _) (conj (Nat.le_0_l i) Hi))).
  apply andb_prop in H2 as [H2 H4]. apply andb_prop in H2 as [H2 H3].
  split; [apply leqb_true, H2|]. split; [apply wfb_sound, H3|]. apply forallb_lt_sound, H4.
Qed.

Lemma region_wfb_sound var_sizes all_intersects sums R :
  region_wfb var_sizes all_intersects sums R = true -> region_wf var_sizes all_intersects sums R.
Proof.
  unfold region_wfb. intros H.
  repeat match goal with H : (_ && _) = true |- _ => apply andb_prop in H as [? ?] end.
  assert (Hall : forall si, (si < length (m_intersect_inds R))%nat ->
    let P := nth si (m_inds_of_intersects R) [] in
    nodupb P = true /\ forallb (fun p => Nat.ltb p (length (m_region_inds R))) P = true /\
    leqb (nth (nth si (m_intersect_inds R) 0%nat) all_intersects []) (proj P (m_region_inds R)) = true /\
    leqb (m_base_sizes (nth_arr (m_msgs_from_region R) si))
         (sizes_of var_sizes (nth (nth si (m_intersect_inds R) 0%nat) all_intersects [])) = true /\
    wfb (nth_arr (m_msgs_from_region R) si) = true /\
    (if Nat.eqb (length P) (length (m_region_inds R)) then leqb P (seq 0 (length (m_region_inds R))) else true) = true).
  { intros si Hsi. match goal with Hf : forallb _ (seq 0 _) = true |- _ => rewrite forallb_forall in Hf;
      specialize (Hf si (proj2 (in_seq _ _ _) (conj (Nat.le_0_l si) Hsi))) end.
    repeat match goal with H : (_ && _) = true |- _ => apply andb_prop in H as [? ?] end.
    repeat split; assumption. }
  constructor.
  - apply Nat.ltb_lt; assumption.
  - apply leqb_true; assumption.
  - apply nodupb_sound; assumption.
  - apply forallb_lt_sound; assumption.
  - apply Nat.eqb_eq; assumption.
  - apply Nat.eqb_eq; assumption.
  - intros si Hsi. destruct (Hall si Hsi) as (A1 & A2 & A3 & _).
    split; [apply nodupb_sound, A1|]. split; [apply forallb_lt_sound, A2|]. apply leqb_true, A3.
  - intros si Hsi. destruct (Hall si Hsi) as (_ & _ & _ & A4 & A5 & _).
    split; [apply leqb_true, A4|]. apply wfb_sound, A5.
  - apply leqb_true; assumption.
  - intros si Hsi E. destruct (Hall si Hsi) as (_ & _ & _ & _ & _ & A6).
    simpl in A6. rewrite E, Nat.eqb_refl in A6. apply leqb_true, A6.
Qed.

(** ** Construction *)

Lemma find_ind_some v l p : find_ind v l = Some p -> (p < length l)%nat /\ nth p l 0%nat = v.
Proof.
  revert p; induction l as [|w l IH]; intros p H; simpl in *; [discriminate|].
  destruct (Nat.eqb w v) eqn:E.
  - injection H as <-. apply Nat.eqb_eq in E. split; [lia|auto].
  - destruct (find_ind v l) as [q|] eqn:Eq; simpl in H; [|discriminate].
    injection H as <-. destruct (IH q eq_refl). split; [lia|auto].
Qed.

Lemma find_ind_none v l : find_ind v l = None -> ~ In v l.
Proof.
  induction l as [|w l IH]; simpl; intros H; [auto|].
  destruct (Nat.eqb w v) eqn:E; [discriminate|].
  apply Nat.eqb_neq in E. destruct (find_ind v l); simpl in H; [discriminate|].
  intros [->|Hin]; [congruence|]. apply IH; auto.
Qed.

(** The positions found for a set pick its variables out of the region. *)
Lemma inds_in_region_inr ri V ps :
  inds_in_region ri V = inr ps -> proj ps ri = V /\ Forall (fun p => p < length ri)%nat ps.
Proof.
  revert ps; induction V as [|v V IH]; intros ps H; simpl in H.
  - injection H as <-. split; [reflexivity|constructor].
  - destruct (find_ind v ri) as [p|] eqn:Ef; [|discriminate].
    destruct (inds_in_region ri V) as [e|qs] eqn:Er; [discriminate|].
    injection H as <-. destruct (IH qs eq_refl) as [H1 H2]. destruct (find_ind_some _ _ _ Ef).
    split; [unfold proj in *; simpl; f_equal; auto|constructor; auto].
Qed.

(** The variable reported is one of the set's and is not in the region. *)
Lemma inds_in_region_inl ri V v : inds_in_region ri V = inl v -> In v V /\ ~ In v ri.
Proof.
  induction V as [|w V IH]; intros H; simpl in H; [discriminate|].
  destruct (find_ind w ri) as [p|] eqn:Ef.
  - destruct (inds_in_region ri V) eqn:Er; [|discriminate]. injection H as <-.
    destruct (IH eq_refl). split; [right|]; auto.
  - injection H as <-. split; [left; auto|apply find_ind_none; auto].
Qed.

Lemma inds_in_region_total ri V : incl V ri -> exists ps, inds_in_region ri V = inr ps.
Proof.
  induction V as [|v V IH]; intros H; simpl; [eauto|].
  destruct (find_ind v ri) as [p|] eqn:Ef.
  - destruct IH as [ps ->]; [intros x Hx; apply H; right; auto|]. eauto.
  - exfalso. apply (find_ind_none v ri Ef), H. left; auto.
Qed.

(** The positions recorded for a set whose variables are all in the region. *)
Definition pos_of (ri V : list nat) : list nat :=
  match inds_in_region ri V with inr ps => ps | inl _ => [] end.

Lemma ctor_loop_ok ri ai vs sis inds msgs :
  (forall s, In s sis -> incl (nth s ai []) ri) ->
  ctor_loop ri ai vs sis inds msgs
  = (inds ++ map (fun s => pos_of ri (nth s ai [])) sis,
     msgs ++ map (fun s => MulDimArr.zeros (sizes_of vs (nth s ai []))) sis, None).
Proof.
  revert inds msgs; induction sis as [|s sis IH]; intros inds msgs H; simpl.
  - rewrite !app_nil_r. reflexivity.
  - destruct (inds_in_region_total ri (nth s ai []) (H s (or_introl eq_refl))) as [ps Hps].
    rewrite Hps, IH by (intros; apply H; right; auto).
    assert (pos_of ri (nth s ai []) = ps) as -> by (unfold pos_of; rewrite Hps; auto).
    rewrite <- !app_assoc. reflexivity.
Qed.

Lemma ctor_loop_err ri ai vs sis inds msgs :
  (exists s, In s sis /\ ~ incl (nth s ai []) ri) ->
  exists v, snd (ctor_loop ri ai vs sis inds msgs) = Some v /\ ~ In v ri.
Proof.
  revert inds msgs; induction sis as [|s sis IH]; intros inds msgs [s0 [Hin Hn]]; [contradiction|].
  destruct (inds_in_region ri (nth s ai [])) as [v|ps] eqn:E; cbn [ctor_loop snd]; rewrite E.
  - exists v. split; [reflexivity|]. apply (inds_in_region_inl _ _ _ E).
  - apply IH. destruct Hin as [<-|Hin]; [|eauto].
    exfalso. apply Hn. apply inds_in_region_inr in E as [<- HP].
    intros x Hx. unfold proj in Hx. apply in_map_iff in Hx as [p [<- Hp]].
    rewrite Forall_forall in HP. apply nth_In, HP, Hp.
Qed.

(** ** Construction theorems *)

Definition inclb (V ri : list nat) : bool := forallb (fun v => existsb (Nat.eqb v) ri) V.

(** Every shared set's variables lie in the region. *)
Definition sets_in_regionb (ri : list nat) (ai : list (list nat)) (S : list nat) : bool :=
  forallb (fun s => inclb (nth s ai []) ri) S.

Lemma sets_in_regionb_sound ri ai S :
  sets_in_regionb ri ai S = true -> forall s, In s S -> incl (nth s ai []) ri.
Proof.
  unfold sets_in_regionb, inclb. rewrite forallb_forall. intros H s Hs v Hv.
  specialize (H s Hs). rewrite forallb_forall in H. specialize (H v Hv).
  apply existsb_exists in H as [w [Hw E]]. apply Nat.eqb_eq in E. subst. auto.
Qed.

(** Construction succeeds when every shared set's variables are in the
    region: no error is reported, every variable size is recorded, and each
    shared set gets the positions of its variables and a zero message of its
    shape. *)
Lemma Region_new_ok ri ai S vs r :
  (forall s, In s S -> incl (nth s ai []) ri) ->
  let '(R, err) := Region_new ri ai S vs r in
  err = None /\ m_var_sizes R = sizes_of vs ri /\
  length (m_inds_of_intersects R) = length S /\ length (m_msgs_from_region R) = length S /\
  forall si, (si < length S)%nat ->
    proj (nth si (m_inds_of_intersects R) []) ri = nth (nth si S 0%nat) ai [] /\
    Forall (fun p => p < length ri)%nat (nth si (m_inds_of_intersects R) []) /\
    nth_arr (m_msgs_from_region R) si = MulDimArr.zeros (sizes_of vs (nth (nth si S 0%nat) ai [])).
Proof.
  intros H. unfold Region_new. rewrite ctor_loop_ok by auto. simpl.
  rewrite !length_map. repeat split; auto.
  - rewrite (nth_map_lt _ _ 0%nat) by auto. unfold pos_of.
    destruct (inds_in_region_total ri _ (H _ (nth_In S 0%nat H0))) as [ps Hps]. rewrite Hps.
    apply (inds_in_region_inr _ _ _ Hps).
  - rewrite (nth_map_lt _ _ 0%nat) by auto. unfold pos_of.
    destruct (inds_in_region_total ri _ (H _ (nth_In S 0%nat H0))) as [ps Hps]. rewrite Hps.
    apply (inds_in_region_inr _ _ _ Hps).
  - unfold nth_arr. rewrite (nth_map_lt _ _ 0%nat) by auto. reflexivity.
Qed.

(** C20.  When a shared set has a variable outside the region, the
    constructor reports a variable that is not in the region and returns a
    partly built region whose variable sizes were never recorded. *)
Theorem Region_new_error ri ai S vs r :
  (exists s, In s S /\ ~ incl (nth s ai []) ri) ->
  exists v, snd (Region_new ri ai S vs r) = Some v /\ ~ In v ri /\
            m_var_sizes (fst (Region_new ri ai S vs r)) = [].
Proof.
  intros H. destruct (ctor_loop_err ri ai vs S [] [] H) as [v [Hv Hn]].
  exists v. unfold Region_new.
  destruct (ctor_loop ri ai vs S [] []) as [[inds msgs] err]. simpl in *. subst. auto.
Qed.

(** [AddIntersectionSet] appends the set with its positions and a zero
    message when its variables are in the region, and otherwise leaves the
    region unchanged. *)
Lemma AddIntersectionSet_ok loc ai vs R :
  incl (nth loc ai []) (m_region_inds R) ->
  let '(R', err) := AddIntersectionSet loc ai vs R in
  err = None /\ m_intersect_inds R' = m_intersect_inds R ++ [loc] /\
  m_inds_of_intersects R' = m_inds_of_intersects R ++ [pos_of (m_region_inds R) (nth loc ai [])] /\
  proj (pos_of (m_region_inds R) (nth loc ai [])) (m_region_inds R) = nth loc ai [] /\
  m_msgs_from_region R' = m_msgs_from_region R ++ [MulDimArr.zeros (sizes_of vs (nth loc ai []))] /\
  m_region_inds R' = m_region_inds R /\ m_region_intersect R' = m_region_intersect R /\
  m_var_sizes R' = m_var_sizes R.
Proof.
  intros H. destruct (inds_in_region_total _ _ H) as [ps Hps].
  unfold AddIntersectionSet, pos_of. rewrite Hps. simpl.
  repeat split; auto. apply (inds_in_region_inr _ _ _ Hps).
Qed.

Lemma AddIntersectionSet_error loc ai vs R v :
  inds_in_region (m_region_inds R) (nth loc ai []) = inl v ->
  AddIntersectionSet loc ai vs R = (R, Some v) /\ ~ In v (m_region_inds R).
Proof.
  intros H. unfold AddIntersectionSet. rewrite H. split; auto. apply (inds_in_region_inl _ _ _ H).
Qed.

(** ** Beliefs at a full assignment and the dual objective *)

(** The belief of intersection set [i] at the full assignment [x]. *)
Definition val (all_intersects : list (list nat)) (sums : list arr) (x : list nat) (i : nat) : Q :=
  GetVal (nth_arr sums i) (proj (nth i all_intersects []) x).

(** The total belief at [x]: the sum over all intersection sets. *)
Definition total (all_intersects : list (list nat)) (sums : list arr) (x : list nat) : Q :=
  qsum (map (val all_intersects sums x) (seq 0 (length sums))).

(** The dual objective: the sum over all sets of their maximal belief. *)
Definition dual (sums : list arr) : Q :=
  qsum (map (fun i => fst (MulDimArr.Max (nth_arr sums i))) (seq 0 (length sums))).

(** ** The effect of [UpdateMsgs] on a well-formed catalogue *)

Section Post.

Variables (var_sizes : list nat) (all_intersects : list (list nat)) (sums : list arr) (R : Region).
Hypothesis Hcat : cat_wf var_sizes all_intersects sums.
Hypothesis Hwf : region_wf var_sizes all_intersects sums R.

Local Abbreviation r := (m_region_intersect R).
Local Abbreviation S := (m_intersect_inds R).
Local Abbreviation Ps := (m_inds_of_intersects R).
Local Abbreviation nI := (length (m_intersect_inds R)).
Local Abbreviation msgs0 := (m_msgs_from_region R).
Local Abbreviation Rsz := (m_base_sizes (nth_arr sums r)).

Lemma post_Rsz : Rsz = sizes_of var_sizes (m_region_inds R).
Proof. destruct Hcat as [_ H]. rewrite <- (rw_vars _ _ _ _ Hwf). apply H, Hwf. Qed.

Lemma post_wf_r : wf (nth_arr sums r).
Proof. destruct Hcat as [_ H]. apply H, Hwf. Qed.

Lemma post_S_lt si : (si < nI)%nat -> (nth si S 0 < length sums)%nat.
Proof. intros H. pose proof (rw_S _ _ _ _ Hwf) as F. rewrite Forall_forall in F. apply F, nth_In, H. Qed.

Lemma post_S_ne si : (si < nI)%nat -> nth si S 0%nat <> r.
Proof.
  intros H E. pose proof (rw_nodup _ _ _ _ Hwf) as N. inversion N; subst.
  apply H2. rewrite <- E. apply nth_In, H.
Qed.

Lemma post_P_bounds si : (si < nI)%nat -> Forall (fun p => p < length Rsz)%nat (nth si Ps []).
Proof.
  intros H. rewrite post_Rsz, length_sizes_of. apply (rw_P _ _ _ _ Hwf si H).
Qed.

Lemma post_S_sizes si :
  (si < nI)%nat -> m_base_sizes (nth_arr sums (nth si S 0%nat)) = proj (nth si Ps []) Rsz /\
                   wf (nth_arr sums (nth si S 0%nat)).
Proof.
  intros H. destruct Hcat as [_ Hc]. destruct (Hc _ (post_S_lt si H)) as (Hsz & Hw & _).
  destruct (rw_P _ _ _ _ Hwf si H) as (_ & HP & HV).
  split; auto. rewrite Hsz, HV, sizes_of_proj, <- post_Rsz by auto. reflexivity.
Qed.

Lemma post_msg_sizes si :
  (si < nI)%nat -> m_base_sizes (nth_arr msgs0 si) = m_base_sizes (nth_arr sums (nth si S 0%nat)) /\
                   wf (nth_arr msgs0 si).
Proof.
  intros H. destruct (rw_msgs _ _ _ _ Hwf si H) as [Hs Hw]. split; auto.
  rewrite Hs. destruct Hcat as [_ Hc]. symmetry. apply Hc, post_S_lt, H.
Qed.

Lemma post_lam_ok si : (si < nI)%nat -> lam_ok R sums si.
Proof.
  intros H. split; [apply post_S_ne; auto|]. intros E.
  unfold Get_nVars in E. rewrite (rw_nvars _ _ _ _ Hwf), length_sizes_of in E.
  pose proof (rw_identity _ _ _ _ Hwf si H (eq_sym E)) as HP.
  assert (L : length (m_region_inds R) = length Rsz) by (rewrite post_Rsz, length_sizes_of; auto).
  destruct (post_S_sizes si H) as [Hs Hw].
  split; [rewrite HP, L; auto|]. split; auto.
  rewrite Hs, HP, L. apply proj_seq.
Qed.

Lemma post_y_bounds si y :
  (si < nI)%nat -> in_bounds Rsz y ->
  in_bounds (m_base_sizes (nth_arr sums (nth si S 0%nat))) (proj (nth si Ps []) y).
Proof.
  intros H Hy. destruct (post_S_sizes si H) as [-> _]. apply proj_bounds; auto. apply post_P_bounds, H.
Qed.

(** The value of a finished message at a restricted index. *)
Lemma post_newm lam msgs1 si z :
  (si < nI)%nat -> nth_arr lam si = lift (fun d => Vec.sub d (m_dat (nth_arr msgs0 si))) (nth_arr sums (nth si S 0%nat)) ->
  m_base_sizes (nth_arr msgs1 si) = m_base_sizes (nth_arr msgs0 si) ->
  wf (nth_arr msgs1 si) ->
  in_bounds (m_base_sizes (nth_arr sums (nth si S 0%nat))) z ->
  GetVal (newm R lam msgs1 si) z
  == GetVal (scaled R msgs1 si) z - GetVal (nth_arr sums (nth si S 0%nat)) z + GetVal (nth_arr msgs0 si) z.
Proof.
  intros H Hlam Hs1 Hw1 Hz. destruct (post_msg_sizes si H) as [Hs0 Hw0].
  destruct (post_S_sizes si H) as [_ Hws].
  assert (Hz1 : in_bounds (m_base_sizes (nth_arr msgs1 si)) z) by congruence.
  unfold newm. rewrite Hlam. unfold Vec.sub.
  rewrite GetVal_lift_vzip; [| apply wf_lift_map; auto | | simpl; auto].
  - unfold lift at 1; simpl. rewrite Vec.nth_vzip.
    + unfold GetVal. unfold scaled, lift; simpl. rewrite Hs1, Hs0. lra.
    + rewrite Hws. unfold scaled, lift; simpl. rewrite Hs1, Hs0. apply flat_ind_lt; congruence.
    + rewrite Hw0. unfold scaled, lift; simpl. rewrite Hs1. apply flat_ind_lt; congruence.
  - unfold scaled, lift; simpl. rewrite Vec.length_vzip, Vec.length_scale. unfold wf in *.
    rewrite Hws, Hw1, Hs1, Hs0. reflexivity.
Qed.

Lemma post_seq_facts :
  NoDup (seq 0 nI) /\
  (forall si sj, In si (seq 0 nI) -> In sj (seq 0 nI) -> nth si S 0%nat = nth sj S 0%nat -> si = sj).
Proof.
  split; [apply seq_NoDup|]. intros si sj Hi Hj E.
  pose proof (rw_nodup _ _ _ _ Hwf) as N. inversion N; subst.
  apply In_seq_lt in Hi, Hj. eapply nodup_S_inj; eauto.
Qed.

(** [UpdateMsgs] in closed form: [A] is the region's belief after the
    expansion loop; each shared set receives its scaled max-marginal of
    [A]; the region's own set receives [A] minus those messages; nothing
    else changes. *)
Lemma UpdateMsgs_spec :
  let R' := fst (UpdateMsgs R sums) in
  let sums' := snd (UpdateMsgs R sums) in
  exists A lam,
    let msgs1 := max_into_multiple_subsets_special A Ps msgs0 in
    m_base_sizes A = Rsz /\ wf A /\
    (forall y, in_bounds Rsz y ->
       GetVal A y == GetVal (nth_arr sums r) y
         + qsum (map (fun si => GetVal (nth_arr sums (nth si S 0%nat)) (proj (nth si Ps []) y)) (seq 0 nI))) /\
    length sums' = length sums /\
    (forall i, i <> r -> ~ In i S -> nth_arr sums' i = nth_arr sums i) /\
    (forall si, (si < nI)%nat -> nth_arr sums' (nth si S 0%nat) = scaled R msgs1 si) /\
    m_base_sizes (nth_arr sums' r) = Rsz /\ wf (nth_arr sums' r) /\
    (forall y, in_bounds Rsz y ->
       GetVal (nth_arr sums' r) y
       == GetVal A y - qsum (map (fun si => GetVal (scaled R msgs1 si) (proj (nth si Ps []) y)) (seq 0 nI))) /\
    m_region_inds R' = m_region_inds R /\ m_intersect_inds R' = S /\ m_region_intersect R' = r /\
    m_inds_of_intersects R' = Ps /\ m_var_sizes R' = m_var_sizes R /\
    length (m_msgs_from_region R') = nI /\
    (forall si, (si < nI)%nat -> nth_arr (m_msgs_from_region R') si = newm R lam msgs1 si) /\
    (forall si, (si < nI)%nat ->
       nth_arr lam si = lift (fun d => Vec.sub d (m_dat (nth_arr msgs0 si))) (nth_arr sums (nth si S 0%nat))).
Proof.
  intros R' sums'. subst R' sums'. unfold UpdateMsgs.
  pose proof (rw_r _ _ _ _ Hwf) as Hr. pose proof (post_wf_r) as Wr.
  pose proof (lam_loop_spec R msgs0 [] sums (seq 0 nI) Hr Wr
                (fun si H => post_lam_ok si (In_seq_lt _ _ H))) as LS.
  destruct (lam_loop R msgs0 ([], sums) (seq 0 nI)) as [lam sums2] eqn:EL.
  destruct LS as (Hlam & L2 & Ho2 & Hs2 & Hw2 & Hv2).
  set (A := nth_arr sums2 r). set (msgs1 := max_into_multiple_subsets_special A Ps msgs0).
  assert (LPm : length Ps = length msgs0) by (rewrite (rw_len_P _ _ _ _ Hwf), (rw_len_msgs _ _ _ _ Hwf); auto).
  assert (L1 : length msgs1 = nI) by (subst msgs1; rewrite length_max_into; auto; apply Hwf).
  set (orig1 := orig_loop R msgs0 (nth_arr sums r) (seq 0 nI)).
  destruct post_seq_facts as [Hnd Hinj].
  pose proof (msg_loop_spec R lam msgs1 sums2 orig1 (seq 0 nI) Hnd) as MS.
  destruct (msg_loop R lam (msgs1, sums2, orig1) (seq 0 nI)) as [[msgs3 sums3] orig3] eqn:EM.
  destruct MS as (M1 & M2 & Hm3 & _ & Hs3 & Hso3 & Ho3 & Hw3 & Hv3); auto.
  { intros si H. apply In_seq_lt in H. rewrite L1, L2. split; auto. apply post_S_lt; auto. }
  destruct (orig_loop_shape R msgs0 (nth_arr sums r) (seq 0 nI)) as [Os Ow].
  fold orig1 in Os, Ow.
  assert (E3r : nth_arr sums3 r = A).
  { apply Hso3. intros si H. apply In_seq_lt in H. apply post_S_ne; auto. }
  assert (Hlamv : forall si, (si < nI)%nat ->
            nth_arr lam si = lift (fun d => Vec.sub d (m_dat (nth_arr msgs0 si))) (nth_arr sums (nth si S 0%nat))).
  { intros si H. unfold nth_arr. rewrite Hlam. simpl.
    rewrite (nth_map_lt _ _ 0%nat) by (rewrite length_seq; auto). rewrite seq_nth by auto. reflexivity. }
  assert (Hm1 : forall si, (si < nI)%nat ->
            m_base_sizes (nth_arr msgs1 si) = m_base_sizes (nth_arr msgs0 si) /\ wf (nth_arr msgs1 si)).
  { intros si H. destruct (max_into_shape A Ps msgs0 si LPm) as [S1 S2]; [rewrite (rw_len_msgs _ _ _ _ Hwf); auto|].
    destruct (post_msg_sizes si H) as [_ W0]. split; auto. unfold wf in *. unfold nth_arr, msgs1. rewrite S2, S1. auto. }
  exists A, lam. simpl.
  assert (Rr : forall a, nth_arr (set_nth r a sums3) r = a)
    by (intros; unfold nth_arr; apply nth_set_nth_eq; lia).
  split; [subst A; rewrite Hs2; auto|]. split; [auto|].
  split; [intros y Hy; subst A; rewrite Hv2; auto; reflexivity|].
  split; [rewrite length_set_nth; lia|].
  split.
  { intros i Hi HS. unfold nth_arr at 1. rewrite nth_set_nth_ne by auto. fold (nth_arr sums3 i).
    rewrite Hso3, Ho2; auto. intros si Hsi E. apply HS. rewrite <- E. apply nth_In. apply In_seq_lt; auto. }
  split.
  { intros si H. unfold nth_arr at 1.
    rewrite nth_set_nth_ne by (intro E; symmetry in E; revert E; apply post_S_ne; auto).
    apply Hs3. apply in_seq. lia. }
  rewrite Rr, E3r.
  split; [simpl; subst A; rewrite Hs2; auto|].
  split; [apply wf_lift_vzip; auto|].
  split.
  - intros y Hy.
    assert (Hy' : in_bounds (m_base_sizes (nth_arr sums r)) y) by exact Hy.
    unfold Vec.assign. rewrite GetVal_lift_vzip; auto.
    2: { unfold wf in *. subst A. rewrite (Hw3 (Ow Wr)), Ho3, Os, Hw2, Hs2. reflexivity. }
    2: { subst A. rewrite Hs2. auto. }
    cbv beta.
    assert (GA : (m_dat orig3).[flat_ind (m_base_sizes A) y] = GetVal orig3 y)
      by (unfold GetVal; rewrite Ho3, Os; subst A; rewrite Hs2; reflexivity).
    rewrite GA, Hv3 by (auto; rewrite Os; auto).
    subst orig1. rewrite orig_loop_val by auto. subst A. rewrite Hv2 by auto.
    rewrite (qsum_map_ext (fun si => GetVal (newm R lam msgs1 si) (proj (nth si Ps []) y))
               (fun si => GetVal (scaled R msgs1 si) (proj (nth si Ps []) y)
                          - GetVal (nth_arr sums (nth si S 0%nat)) (proj (nth si Ps []) y)
                          + GetVal (nth_arr msgs0 si) (proj (nth si Ps []) y))).
    + rewrite !qsum_map_plus.
      rewrite (qsum_map_ext (fun si => GetVal (scaled R msgs1 si) (proj (nth si Ps []) y)
                                        - GetVal (nth_arr sums (nth si S 0%nat)) (proj (nth si Ps []) y))
                 (fun si => GetVal (scaled R msgs1 si) (proj (nth si Ps []) y)
                          + - GetVal (nth_arr sums (nth si S 0%nat)) (proj (nth si Ps []) y)))
        by (intros; lra).
      rewrite qsum_map_plus, qsum_map_opp. subst msgs1. lra.
    + intros si H. apply In_seq_lt in H.
      destruct (Hm1 si H) as [Hs1 Hw1].
      apply post_newm; auto. apply post_y_bounds; auto.
  - split; auto. split; auto. split; auto. split; auto. split; auto.
    split; [lia|]. split.
    + intros si H. apply Hm3. apply in_seq. lia.
    + exact Hlamv.
Qed.

Lemma post_incl : NoDup (r :: S) /\ incl (r :: S) (seq 0 (length sums)).
Proof.
  split; [apply Hwf|]. intros i [<-|Hi]; apply in_seq; split; try lia.
  - apply Hwf.
  - pose proof (rw_S _ _ _ _ Hwf) as F. rewrite Forall_forall in F. apply F; auto.
Qed.

(** Sums over the shared sets, by position. *)
Lemma qsum_over_S (f : nat -> Q) :
  qsum (map f (r :: S)) = f r + qsum (map (fun si => f (nth si S 0%nat)) (seq 0 nI)).
Proof. simpl. rewrite (map_seq_nth f S 0%nat). reflexivity. Qed.

Lemma post_region_bounds x :
  in_bounds var_sizes x -> in_bounds Rsz (proj (m_region_inds R) x).
Proof.
  intros Hx. rewrite post_Rsz. apply proj_bounds; auto.
  destruct Hcat as [_ Hc]. rewrite <- (rw_vars _ _ _ _ Hwf). apply Hc, Hwf.
Qed.

Lemma post_S_proj x si :
  (si < nI)%nat ->
  proj (nth (nth si S 0%nat) all_intersects []) x = proj (nth si Ps []) (proj (m_region_inds R) x).
Proof.
  intros H. destruct (rw_P _ _ _ _ Hwf si H) as (_ & HP & ->). rewrite proj_proj; auto.
Qed.

(** *** The update keeps the catalogue and the region well formed *)

Lemma post_scaled_shape A si :
  (si < nI)%nat ->
  m_base_sizes (scaled R (max_into_multiple_subsets_special A Ps msgs0) si) = m_base_sizes (nth_arr msgs0 si) /\
  wf (scaled R (max_into_multiple_subsets_special A Ps msgs0) si).
Proof.
  intros H.
  assert (L : length Ps = length msgs0) by (rewrite (rw_len_P _ _ _ _ Hwf), (rw_len_msgs _ _ _ _ Hwf); auto).
  assert (Lt : (si < length msgs0)%nat) by (rewrite (rw_len_msgs _ _ _ _ Hwf); auto).
  destruct (max_into_shape A Ps msgs0 si L Lt) as [S1 S2].
  destruct (post_msg_sizes si H) as [_ W].
  split; [unfold scaled, lift, nth_arr; simpl; exact S1|].
  unfold scaled, Vec.scale. apply wf_lift_map. unfold wf, nth_arr in *. rewrite S1, S2. auto.
Qed.

Lemma post_cat_wf : cat_wf var_sizes all_intersects (snd (UpdateMsgs R sums)).
Proof.
  destruct UpdateMsgs_spec as (A & lam & HAs & _ & _ & Hlen & Hoth & HS & Hrs & Hrw & _).
  destruct Hcat as [Hl Hc]. split; [congruence|]. intros i Hi. rewrite Hlen in Hi.
  destruct (Hc i Hi) as (Hs & Hw & Hf).
  destruct (Nat.eq_dec i r) as [->|Hne].
  { rewrite (rw_vars _ _ _ _ Hwf) in Hf. rewrite Hrs, post_Rsz, (rw_vars _ _ _ _ Hwf). repeat split; auto. }
  destruct (In_dec Nat.eq_dec i S) as [HiS|HiS]; [|rewrite Hoth; repeat split; auto].
  destruct (In_nth _ _ 0%nat HiS) as (si & Hsi & <-).
  rewrite HS by auto. destruct (post_scaled_shape A si Hsi) as [S1 W1].
  rewrite S1. destruct (rw_msgs _ _ _ _ Hwf si Hsi) as [M _]. rewrite M. repeat split; auto.
Qed.

Lemma post_region_wf :
  region_wf var_sizes all_intersects (snd (UpdateMsgs R sums)) (fst (UpdateMsgs R sums)).
Proof.
  destruct UpdateMsgs_spec
    as (A & lam & HAs & _ & _ & Hlen & _ & _ & _ & _ & _ & Hi & HS & Hr & HP & Hv & Hlm & Hm & Hlam).
  constructor; rewrite ?Hr, ?Hi, ?HS, ?HP, ?Hv, ?Hlen, ?Hlm; try apply Hwf; try reflexivity.
  intros si Hsi. rewrite Hm by auto. destruct (post_scaled_shape A si Hsi) as [S1 W1].
  destruct (rw_msgs _ _ _ _ Hwf si Hsi) as [M _].
  split.
  - transitivity (m_base_sizes (scaled R (max_into_multiple_subsets_special A Ps msgs0) si));
      [reflexivity|rewrite S1; auto].
  - unfold newm, Vec.sub. apply wf_lift_vzip, W1.
Qed.

(** *** Facts for the dual objective *)

Hypothesis Hpos_vs : Forall (fun s => 0 < s)%nat var_sizes.

Lemma mono_pos_Rsz : Forall (fun s => 0 < s)%nat Rsz.
Proof.
  rewrite post_Rsz. unfold sizes_of. apply Forall_map.
  destruct Hcat as [_ Hc]. pose proof (proj2 (proj2 (Hc _ (rw_r _ _ _ _ Hwf)))) as F.
  rewrite (rw_vars _ _ _ _ Hwf) in F. eapply Forall_impl; [|exact F].
  intros v Hv. rewrite Forall_forall in Hpos_vs. apply Hpos_vs, nth_In, Hv.
Qed.

Lemma mono_pos_S si : (si < nI)%nat -> Forall (fun s => 0 < s)%nat (m_base_sizes (nth_arr sums (nth si S 0%nat))).
Proof.
  intros H. destruct (post_S_sizes si H) as [-> _]. apply proj_pos; [apply mono_pos_Rsz|apply post_P_bounds, H].
Qed.

Lemma mono_facts A si :
  m_base_sizes A = Rsz -> (si < nI)%nat ->
  length Ps = length msgs0 /\ (si < length msgs0)%nat /\ wf (nth si msgs0 MulDimArr.empty) /\
  m_base_sizes (nth si msgs0 MulDimArr.empty) = map (fun p => nth p (m_base_sizes A) 0%nat) (nth si Ps []) /\
  Forall (fun p => p < length (m_base_sizes A))%nat (nth si Ps []) /\ NoDup (nth si Ps []) /\
  Forall (fun s => 0 < s)%nat (m_base_sizes A).
Proof.
  intros HAs H. rewrite HAs.
  destruct (post_msg_sizes si H) as [Hm Wm]. destruct (post_S_sizes si H) as [Hs _].
  rewrite (rw_len_P _ _ _ _ Hwf), (rw_len_msgs _ _ _ _ Hwf).
  repeat split; auto.
  - change (m_base_sizes (nth_arr msgs0 si) = proj (nth si Ps []) Rsz). congruence.
  - apply post_P_bounds, H.
  - apply (rw_P _ _ _ _ Hwf si H).
  - apply mono_pos_Rsz.
Qed.

Lemma mono_scaled_cell A si z :
  m_base_sizes A = Rsz -> (si < nI)%nat ->
  in_bounds (m_base_sizes (nth_arr sums (nth si S 0%nat))) z ->
  GetVal (scaled R (max_into_multiple_subsets_special A Ps msgs0) si) z
  = GetVal (nth_arr (max_into_multiple_subsets_special A Ps msgs0) si) z * / inject_Z (Z.of_nat nI).
Proof.
  intros HAs H Hz. destruct (mono_facts A si HAs H) as (L & Lt & W & Hsz & _).
  destruct (max_into_shape A Ps msgs0 si L Lt) as [S1 S2].
  destruct (post_msg_sizes si H) as [Hm _].
  unfold scaled, Vec.scale. apply GetVal_lift_map.
  - unfold wf in *. unfold nth_arr. rewrite S1, S2. auto.
  - unfold nth_arr. rewrite S1. fold (nth_arr msgs0 si). rewrite Hm. auto.
Qed.

(** Each shared set's new maximum is at most [1/nI] of the maximum of [A]. *)
Lemma mono_scaled_max A si :
  m_base_sizes A = Rsz -> wf A -> (si < nI)%nat ->
  fst (MulDimArr.Max (scaled R (max_into_multiple_subsets_special A Ps msgs0) si))
  <= fst (MulDimArr.Max A) * / inject_Z (Z.of_nat nI).
Proof.
  intros HAs HAw H. destruct (mono_facts A si HAs H) as (L & Lt & W & Hsz & HP & Hnd & Hp).
  destruct (max_into_shape A Ps msgs0 si L Lt) as [S1 S2].
  destruct (post_msg_sizes si H) as [Hm _].
  assert (Ws : wf (scaled R (max_into_multiple_subsets_special A Ps msgs0) si)).
  { unfold scaled, Vec.scale. apply wf_lift_map. unfold wf in *. unfold nth_arr. rewrite S1, S2. auto. }
  assert (Ssz : m_base_sizes (scaled R (max_into_multiple_subsets_special A Ps msgs0) si)
                = m_base_sizes (nth_arr sums (nth si S 0%nat))).
  { unfold scaled, lift; simpl. unfold nth_arr. rewrite S1. fold (nth_arr msgs0 si). auto. }
  apply Max_le_cells; auto.
  { apply wf_nonempty; auto. rewrite Ssz. apply mono_pos_S, H. }
  intros z Hz. rewrite Ssz in Hz. rewrite mono_scaled_cell by auto.
  apply Qmult_le_compat_r; [|apply inv_nat_nonneg].
  assert (Hz' : in_bounds (m_base_sizes (nth si msgs0 MulDimArr.empty)) z)
    by (fold (nth_arr msgs0 si); rewrite Hm; auto).
  destruct (max_into_attained A Ps msgs0 si L Lt HAw W Hsz HP Hnd Hp z Hz') as (y & Hy & _ & E).
  unfold nth_arr. rewrite E. apply Max_cell_upper; auto.
Qed.

(** The maximum of [A] is at most the sum of the old maxima of the sets it
    combines. *)
Lemma mono_max_A A :
  m_base_sizes A = Rsz -> wf A ->
  (forall y, in_bounds Rsz y ->
     GetVal A y == GetVal (nth_arr sums r) y
       + qsum (map (fun si => GetVal (nth_arr sums (nth si S 0%nat)) (proj (nth si Ps []) y)) (seq 0 nI))) ->
  fst (MulDimArr.Max A)
  <= fst (MulDimArr.Max (nth_arr sums r))
     + qsum (map (fun si => fst (MulDimArr.Max (nth_arr sums (nth si S 0%nat)))) (seq 0 nI)).
Proof.
  intros HAs HAw HAv. apply Max_le_cells; auto.
  { apply wf_nonempty; auto. rewrite HAs. apply mono_pos_Rsz. }
  intros y Hy. rewrite HAs in Hy. rewrite HAv by auto.
  assert (GetVal (nth_arr sums r) y <= fst (MulDimArr.Max (nth_arr sums r)))
    by (apply Max_cell_upper; auto using post_wf_r).
  assert (qsum (map (fun si => GetVal (nth_arr sums (nth si S 0%nat)) (proj (nth si Ps []) y)) (seq 0 nI))
          <= qsum (map (fun si => fst (MulDimArr.Max (nth_arr sums (nth si S 0%nat)))) (seq 0 nI))).
  { apply qsum_map_le. intros si Hsi. apply In_seq_lt in Hsi.
    apply Max_cell_upper; [apply (post_S_sizes si Hsi)|apply post_y_bounds; auto]. }
  lra.
Qed.

(** At every cell the messages sent take out at least [A]'s own value. *)
Lemma mono_r_cell A y :
  m_base_sizes A = Rsz -> wf A -> in_bounds Rsz y ->
  GetVal A y * (inject_Z (Z.of_nat nI) * / inject_Z (Z.of_nat nI))
  <= qsum (map (fun si => GetVal (scaled R (max_into_multiple_subsets_special A Ps msgs0) si)
                           (proj (nth si Ps []) y)) (seq 0 nI)).
Proof.
  intros HAs HAw Hy.
  rewrite <- (length_seq nI 0) at 1.
  rewrite Qmult_assoc, (Qmult_comm (GetVal A y)), <- Qmult_assoc, <- qsum_map_const.
  apply qsum_map_le. intros si Hsi. apply In_seq_lt in Hsi.
  destruct (mono_facts A si HAs Hsi) as (L & Lt & W & Hsz & HP & _).
  rewrite mono_scaled_cell by (auto; apply post_y_bounds; auto).
  apply Qmult_le_compat_r; [|apply inv_nat_nonneg].
  unfold nth_arr. apply max_into_upper; auto. rewrite HAs; auto.
Qed.

End Post.

Lemma UpdateMsgs_inds R sums : m_region_inds (fst (UpdateMsgs R sums)) = m_region_inds R.
Proof.
  unfold UpdateMsgs. destruct (lam_loop _ _ _ _) as [lam sums2].
  destruct (msg_loop _ _ _ _) as [[msgs3 sums3] orig3]. reflexivity.
Qed.

(** [UpdateMsgs] changes a region's messages only. *)
Lemma UpdateMsgs_frame R sums : same_frame R (fst (UpdateMsgs R sums)).
Proof.
  unfold UpdateMsgs. destruct (lam_loop _ _ _ _) as [lam sums2].
  destruct (msg_loop _ _ _ _) as [[msgs3 sums3] orig3]. repeat split.
Qed.

Lemma same_frame_refl R : same_frame R R.
Proof. repeat split. Qed.

Lemma same_frame_trans R1 R2 R3 : same_frame R1 R2 -> same_frame R2 R3 -> same_frame R1 R3.
Proof. unfold same_frame. intuition congruence. Qed.

(** Region consistency depends on the beliefs only through their number. *)
Lemma region_wf_len var_sizes all_intersects sums sums' R :
  length sums' = length sums ->
  region_wf var_sizes all_intersects sums R -> region_wf var_sizes all_intersects sums' R.
Proof. intros L [] ; constructor; rewrite ?L; auto. Qed.

(** Region consistency survives appending sets and beliefs to the catalogue. *)
Lemma region_wf_app var_sizes ai sums ai' sums' R :
  length sums = length ai -> region_wf var_sizes ai sums R ->
  region_wf var_sizes (ai ++ ai') (sums ++ sums') R.
Proof.
  intros L W. pose proof (rw_S _ _ _ _ W) as HS. rewrite Forall_forall in HS.
  assert (Hlt : forall i, (i < length sums)%nat -> nth i (ai ++ ai') [] = nth i ai [])
    by (intros; apply app_nth1; lia).
  assert (HSi : forall si, (si < length (m_intersect_inds R))%nat -> (nth si (m_intersect_inds R) 0 < length sums)%nat)
    by (intros; apply HS, nth_In; auto).
  destruct W as [Hr Hv Hn _ HlP Hlm HP Hm Hnv Hid]. constructor; auto.
  - rewrite length_app; lia.
  - rewrite Hlt; auto.
  - rewrite Forall_forall. intros s Hs. rewrite length_app. specialize (HS s Hs). lia.
  - intros si Hsi. rewrite Hlt by auto. apply HP, Hsi.
  - intros si Hsi. rewrite Hlt by auto. apply Hm, Hsi.
Qed.

Lemma Region_new_fields ri ai S vs r :
  m_region_inds (fst (Region_new ri ai S vs r)) = ri /\ m_intersect_inds (fst (Region_new ri ai S vs r)) = S /\
  m_region_intersect (fst (Region_new ri ai S vs r)) = r.
Proof. unfold Region_new. destruct (ctor_loop _ _ _ _ _ _) as [[inds msgs] err]. repeat split. Qed.

(** Every set's belief at [x] is at most its maximum: the total belief at a
    full assignment is at most the dual objective. *)
Lemma total_le_dual var_sizes all_intersects sums x :
  cat_wf var_sizes all_intersects sums -> in_bounds var_sizes x ->
  total all_intersects sums x <= dual sums.
Proof.
  intros [_ Hc] Hx. unfold total, dual. apply qsum_map_le. intros i Hi. apply In_seq_lt in Hi.
  destruct (Hc i Hi) as (Hs & Hw & Hf). unfold val. apply Max_cell_upper; auto.
  rewrite Hs. apply proj_bounds; auto.
Qed.

(** *** Reparameterisation *)

(** A message update of a region consistent with a well-formed catalogue
    leaves the total belief at every full assignment unchanged: what the
    region takes out of its own set it puts into its shared sets. *)
Lemma UpdateMsgs_total var_sizes all_intersects sums R x :
  cat_wf var_sizes all_intersects sums -> region_wf var_sizes all_intersects sums R ->
  in_bounds var_sizes x ->
  total all_intersects (snd (UpdateMsgs R sums)) x == total all_intersects sums x.
Proof.
  intros Hcat Hwf Hx.
  destruct (UpdateMsgs_spec var_sizes all_intersects sums R Hcat Hwf)
    as (A & lam & _ & _ & HAv & Hlen & Hoth & HS & _ & _ & Hrv & _).
  destruct (post_incl var_sizes all_intersects sums R Hwf) as [Hnd Hinc].
  unfold total. rewrite Hlen.
  rewrite (qsum_change_on (m_region_intersect R :: m_intersect_inds R) _ _ (val all_intersects sums x));
    auto using seq_NoDup.
  2: { intros i Hi HK. unfold val. rewrite Hoth; auto; intro; subst; apply HK; simpl; auto. }
  rewrite !qsum_over_S.
  pose proof (post_region_bounds var_sizes all_intersects sums R Hcat Hwf x Hx) as Hy.
  assert (E1 : val all_intersects (snd (UpdateMsgs R sums)) x (m_region_intersect R)
               == GetVal A (proj (m_region_inds R) x)
                  - qsum (map (fun si => GetVal (scaled R (max_into_multiple_subsets_special A
                                  (m_inds_of_intersects R) (m_msgs_from_region R)) si)
                              (proj (nth si (m_inds_of_intersects R) []) (proj (m_region_inds R) x)))
                          (seq 0 (length (m_intersect_inds R)))))
    by (unfold val; rewrite (rw_vars _ _ _ _ Hwf); apply Hrv; auto).
  assert (E2 : val all_intersects sums x (m_region_intersect R)
               = GetVal (nth_arr sums (m_region_intersect R)) (proj (m_region_inds R) x))
    by (unfold val; rewrite (rw_vars _ _ _ _ Hwf); reflexivity).
  rewrite E1, E2, HAv by auto.
  rewrite (qsum_map_ext (fun si => val all_intersects _ x (nth si (m_intersect_inds R) 0%nat))
             (fun si => GetVal (scaled R (max_into_multiple_subsets_special A (m_inds_of_intersects R)
                                            (m_msgs_from_region R)) si)
                          (proj (nth si (m_inds_of_intersects R) []) (proj (m_region_inds R) x)))).
  2: { intros si Hsi. apply In_seq_lt in Hsi. unfold val. rewrite HS by auto.
       rewrite post_S_proj with (var_sizes := var_sizes) (sums := sums); auto. reflexivity. }
  rewrite (qsum_map_ext (fun si => val all_intersects sums x (nth si (m_intersect_inds R) 0%nat))
             (fun si => GetVal (nth_arr sums (nth si (m_intersect_inds R) 0%nat))
                          (proj (nth si (m_inds_of_intersects R) []) (proj (m_region_inds R) x)))).
  2: { intros si Hsi. apply In_seq_lt in Hsi. unfold val.
       rewrite post_S_proj with (var_sizes := var_sizes) (sums := sums); auto. reflexivity. }
  lra.
Qed.

(** *** The dual objective never increases *)

(** A message update of a region consistent with a well-formed catalogue
    (all domains non-empty) does not increase the dual objective, the sum
    over all intersection sets of their maximal belief. *)
Lemma UpdateMsgs_dual_le var_sizes all_intersects sums R :
  cat_wf var_sizes all_intersects sums -> region_wf var_sizes all_intersects sums R ->
  Forall (fun s => 0 < s)%nat var_sizes ->
  dual (snd (UpdateMsgs R sums)) <= dual sums.
Proof.
  intros Hcat Hwf Hpos.
  destruct (UpdateMsgs_spec var_sizes all_intersects sums R Hcat Hwf)
    as (A & lam & HAs & HAw & HAv & Hlen & Hoth & HS & Hrs & Hrw & Hrv & _).
  destruct (post_incl var_sizes all_intersects sums R Hwf) as [Hnd Hinc].
  unfold dual. rewrite Hlen.
  rewrite (qsum_change_on (m_region_intersect R :: m_intersect_inds R) _ _
             (fun i => fst (MulDimArr.Max (nth_arr sums i)))); auto using seq_NoDup.
  2: { intros i Hi HK. rewrite Hoth; auto; intro; subst; apply HK; simpl; auto. }
  rewrite !qsum_over_S.
  pose proof (mono_max_A var_sizes all_intersects sums R Hcat Hwf Hpos A HAs HAw HAv) as HA.
  assert (Hcell : forall y, in_bounds (m_base_sizes (nth_arr sums (m_region_intersect R))) y ->
            GetVal (nth_arr (snd (UpdateMsgs R sums)) (m_region_intersect R)) y
            <= GetVal A y * (1 - inject_Z (Z.of_nat (length (m_intersect_inds R))) * / inject_Z (Z.of_nat (length (m_intersect_inds R))))).
  { intros y Hy. rewrite Hrv by auto.
    pose proof (mono_r_cell var_sizes all_intersects sums R Hcat Hwf Hpos A y HAs HAw Hy).
    setoid_replace (GetVal A y * (1 - inject_Z (Z.of_nat (length (m_intersect_inds R)))
                                     * / inject_Z (Z.of_nat (length (m_intersect_inds R)))))
      with (GetVal A y - GetVal A y * (inject_Z (Z.of_nat (length (m_intersect_inds R)))
                                     * / inject_Z (Z.of_nat (length (m_intersect_inds R))))) by ring.
    lra. }
  set (nI := length (m_intersect_inds R)) in *.
  set (msgs1 := max_into_multiple_subsets_special A (m_inds_of_intersects R) (m_msgs_from_region R)) in *.
  assert (HSm : qsum (map (fun si => fst (MulDimArr.Max (nth_arr (snd (UpdateMsgs R sums))
                                                          (nth si (m_intersect_inds R) 0%nat)))) (seq 0 nI))
                <= fst (MulDimArr.Max A) * (inject_Z (Z.of_nat nI) * / inject_Z (Z.of_nat nI))).
  { assert (Hc : qsum (map (fun _ => fst (MulDimArr.Max A) * / inject_Z (Z.of_nat nI)) (seq 0 nI))
                 == fst (MulDimArr.Max A) * (inject_Z (Z.of_nat nI) * / inject_Z (Z.of_nat nI)))
      by (rewrite qsum_map_const, length_seq; ring).
    rewrite <- Hc. apply qsum_map_le. intros si Hsi. apply In_seq_lt in Hsi. rewrite HS by auto.
    apply (mono_scaled_max var_sizes all_intersects sums R Hcat Hwf Hpos); auto. }
  assert (Hne : MulDimArr.m_dat (nth_arr (snd (UpdateMsgs R sums)) (m_region_intersect R)) <> []).
  { apply wf_nonempty; auto. rewrite Hrs. apply (mono_pos_Rsz var_sizes all_intersects sums R Hcat Hwf Hpos). }
  destruct nI as [|n] eqn:EnI.
  - (* no shared set: the region's own belief is unchanged *)
    assert (Hr : fst (MulDimArr.Max (nth_arr (snd (UpdateMsgs R sums)) (m_region_intersect R)))
                 <= fst (MulDimArr.Max A)).
    { apply Max_le_cells; auto. intros y Hy. rewrite Hrs in Hy.
      eapply Qle_trans; [apply Hcell; auto|].
      change (inject_Z (Z.of_nat 0)) with 0. rewrite Qmult_0_l.
      assert (GetVal A y <= fst (MulDimArr.Max A)) by (apply Max_cell_upper; auto; rewrite HAs; auto).
      lra. }
    simpl in *. lra.
  - pose proof (inv_nat_mul (S n) ltac:(lia)) as Hone.
    assert (Hr : fst (MulDimArr.Max (nth_arr (snd (UpdateMsgs R sums)) (m_region_intersect R))) <= 0).
    { apply Max_le_cells; auto. intros y Hy. rewrite Hrs in Hy.
      eapply Qle_trans; [apply Hcell; auto|]. rewrite Hone. lra. }
    rewrite Hone in HSm. lra.
Qed.

(** *** The contract of [UpdateMsgs] *)

(** C1.  [UpdateMsgs] on a region consistent with a well-formed catalogue
    (all domains non-empty) is a reparameterisation that keeps the
    catalogue and the region well formed: the beliefs keep their shapes,
    the region keeps its variables and its messages the shapes of their
    sets, the dual objective does not increase, and the total belief at
    every full assignment is unchanged. *)
Theorem UpdateMsgs_correct var_sizes all_intersects sums R :
  cat_wf var_sizes all_intersects sums -> region_wf var_sizes all_intersects sums R ->
  Forall (fun s => 0 < s)%nat var_sizes ->
  let '(R', sums') := UpdateMsgs R sums in
  cat_wf var_sizes all_intersects sums' /\ region_wf var_sizes all_intersects sums' R' /\
  m_region_inds R' = m_region_inds R /\
  dual sums' <= dual sums /\
  forall x, in_bounds var_sizes x -> total all_intersects sums' x == total all_intersects sums x.
Proof.
  intros Hcat Hwf Hpos.
  pose proof (post_cat_wf _ _ _ _ Hcat Hwf) as C. pose proof (post_region_wf _ _ _ _ Hcat Hwf) as W.
  pose proof (UpdateMsgs_inds R sums) as I. pose proof (UpdateMsgs_dual_le _ _ _ _ Hcat Hwf Hpos) as D.
  pose proof (fun x => UpdateMsgs_total _ _ _ _ x Hcat Hwf) as T.
  destruct (UpdateMsgs R sums) as [R' sums']. simpl in *. auto.
Qed.

(** ** A two-variable model with one edge region *)

Definition ex_var_sizes : list nat := [2; 2]%nat.
Definition ex_intersects : list (list nat) := [[0]; [1]; [0; 1]]%nat.
(** Singleton beliefs favouring [x0 = 1] and [x1 = 0]; the edge potential
    [[2,0],[0,2]] rewards agreement. *)
Definition ex_sums : list arr :=
  [MulDimArr.mk [2%nat] [0; 1]; MulDimArr.mk [2%nat] [1; 0]; MulDimArr.mk [2; 2]%nat [2; 0; 0; 2]].
Definition ex_region : Region := fst (Region_new [0; 1]%nat ex_intersects [0; 1]%nat ex_var_sizes 2).

Lemma Region_new_error_witness :
  exists v, snd (Region_new [0]%nat ex_intersects [2]%nat ex_var_sizes 1) = Some v /\ ~ In v [0]%nat /\
            m_var_sizes (fst (Region_new [0]%nat ex_intersects [2]%nat ex_var_sizes 1)) = [].
Proof.
  apply Region_new_error. exists 2%nat. split; [simpl; auto|].
  intros H. specialize (H 1%nat). simpl in H. destruct H as [H|[]]; [right; left; reflexivity|lia].
Defined.

Lemma UpdateMsgs_correct_witness :
  let '(R', sums') := UpdateMsgs ex_region ex_sums in
  cat_wf ex_var_sizes ex_intersects sums' /\ region_wf ex_var_sizes ex_intersects sums' R' /\
  m_region_inds R' = m_region_inds ex_region /\
  dual sums' <= dual ex_sums /\
  forall x, in_bounds ex_var_sizes x -> total ex_intersects sums' x == total ex_intersects ex_sums x.
Proof.
  apply UpdateMsgs_correct.
  - apply cat_wfb_sound. vm_compute. reflexivity.
  - apply region_wfb_sound. vm_compute. reflexivity.
  - apply forallb_pos_sound. vm_compute. reflexivity.
Defined.

End Region.
