(* ===== verification/Solver.v ===== *)
(** * Solver: [mplpLib::MPLPAlg] of [src/src/mplp_alg.cpp]

    The solver owns the catalogue of intersection sets
    ([m_all_intersects]), their aggregated beliefs
    ([m_sum_into_intersects]), the regions and their potentials, the edge
    index [m_intersect_map], the evidence, the decoded assignment and the
    incumbent.  Its state is the record [MPLPAlg]; each member function is
    a function from state to state (and its return value): [Init] (lines
    255-379), [RunMPLP] (385-424), [AddAllEdgeIntersections] (426-464),
    [AddRegion] (469-480), [AddIntersectionSet] (482-510),
    [FindIntersectionSet] (515-543), [IntVal] (545-561), [LocalDecode]
    (563-578), [UpdateResult] (584-598) and [Write] (605-628).

    The [std::map]s are stdpp [gmap]s; [std::map::insert] keeps an
    existing entry, which [map_insert_new] writes out.  The clock is read
    through the state field [now] (elapsed seconds), which [RunMPLP] sets
    from a clock reading per iteration; the result file is the list of
    lines [out_res] that [Write] appends.  [RunMPLP] calls the global
    decoding heuristic of [Decoding.v]; it takes it as the argument [gd],
    and its theorems hold for any [gd] that satisfies the class
    [GlobalDecoder], of which [Decoding.RunGlobalDecoding] is an instance. *)

From Stdlib Require Import Arith ZArith QArith Lqa List Lia.
From Stdlib Require Import Sorting.Mergesort Sorting.Sorted.
From stdpp Require Import base gmap.
From S2P Require Import Prelude Vec MulDimArr Region.
Import ListNotations.
Open Scope Q_scope.
Open Scope mplp_scope.

Module Solver.

Import MulDimArr Region.
Abbreviation arr := MulDimArr.t.

(** The constants of [mplp_alg.h]: [MPLP_huge] (the initial bound of the
    incumbent and of the objective) and [MPLP_MIN_APP_TIME] (the time
    margin under which no result is written). *)
Record consts := mkConsts { MPLP_huge : Q; MPLP_MIN_APP_TIME : Q }.

Record MPLPAlg := mkAlg {
  m_var_sizes : list nat;
  m_all_intersects : list (list nat);
  m_sum_into_intersects : list arr;
  m_single_node_lambdas : list arr;
  m_all_regions : list Region;
  m_region_lambdas : list arr;
  m_intersect_map : gmap (nat * nat) nat;
  evidence : gmap nat nat;
  m_decoded_res : list nat;
  m_best_decoded_res : list nat;
  m_best_val : Q;
  last_obj : Q;
  obj_del : Q;
  total_mplp_iterations : nat;
  previous_run_of_global_decoding : nat;
  CSP_instance : bool;
  m_uaiCompetition : bool;
  time_limit : Z;
  now : Q;
  begin : bool;
  out_res : list (bool * list nat)
}.

(** ** Field updates *)

Definition set_catalogue (st : MPLPAlg) (ai : list (list nat)) (sums : list arr)
    (regions : list Region) (lams : list arr) (imap : gmap (nat * nat) nat) : MPLPAlg :=
  mkAlg (m_var_sizes st) ai sums (m_single_node_lambdas st) regions lams imap (evidence st)
    (m_decoded_res st) (m_best_decoded_res st) (m_best_val st) (last_obj st) (obj_del st)
    (total_mplp_iterations st) (previous_run_of_global_decoding st) (CSP_instance st)
    (m_uaiCompetition st) (time_limit st) (now st) (begin st) (out_res st).

Definition set_sums (st : MPLPAlg) (sums : list arr) : MPLPAlg :=
  set_catalogue st (m_all_intersects st) sums (m_all_regions st) (m_region_lambdas st)
    (m_intersect_map st).

Definition set_regions_sums (st : MPLPAlg) (regions : list Region) (sums : list arr) : MPLPAlg :=
  set_catalogue st (m_all_intersects st) sums regions (m_region_lambdas st) (m_intersect_map st).

Definition set_decoded (st : MPLPAlg) (d : list nat) : MPLPAlg :=
  mkAlg (m_var_sizes st) (m_all_intersects st) (m_sum_into_intersects st)
    (m_single_node_lambdas st) (m_all_regions st) (m_region_lambdas st) (m_intersect_map st)
    (evidence st) d (m_best_decoded_res st) (m_best_val st) (last_obj st) (obj_del st)
    (total_mplp_iterations st) (previous_run_of_global_decoding st) (CSP_instance st)
    (m_uaiCompetition st) (time_limit st) (now st) (begin st) (out_res st).

Definition set_best (st : MPLPAlg) (d : list nat) (v : Q) : MPLPAlg :=
  mkAlg (m_var_sizes st) (m_all_intersects st) (m_sum_into_intersects st)
    (m_single_node_lambdas st) (m_all_regions st) (m_region_lambdas st) (m_intersect_map st)
    (evidence st) (m_decoded_res st) d v (last_obj st) (obj_del st)
    (total_mplp_iterations st) (previous_run_of_global_decoding st) (CSP_instance st)
    (m_uaiCompetition st) (time_limit st) (now st) (begin st) (out_res st).

Definition set_out (st : MPLPAlg) (b : bool) (o : list (bool * list nat)) : MPLPAlg :=
  mkAlg (m_var_sizes st) (m_all_intersects st) (m_sum_into_intersects st)
    (m_single_node_lambdas st) (m_all_regions st) (m_region_lambdas st) (m_intersect_map st)
    (evidence st) (m_decoded_res st) (m_best_decoded_res st) (m_best_val st) (last_obj st)
    (obj_del st) (total_mplp_iterations st) (previous_run_of_global_decoding st)
    (CSP_instance st) (m_uaiCompetition st) (time_limit st) (now st) b o.

(** The loop counters and the objective history of [RunMPLP]. *)
Definition set_run (st : MPLPAlg) (lo od : Q) (iters : nat) (t : Q) : MPLPAlg :=
  mkAlg (m_var_sizes st) (m_all_intersects st) (m_sum_into_intersects st)
    (m_single_node_lambdas st) (m_all_regions st) (m_region_lambdas st) (m_intersect_map st)
    (evidence st) (m_decoded_res st) (m_best_decoded_res st) (m_best_val st) lo od
    iters (previous_run_of_global_decoding st) (CSP_instance st)
    (m_uaiCompetition st) (time_limit st) t (begin st) (out_res st).

(** ** The constructor's initialisers (line 202) *)

Definition MPLPAlg_new (c : consts) (tl : Z) (evid : gmap nat nat) (uai : bool) : MPLPAlg :=
  mkAlg [] [] [] [] [] [] ∅ evid [] [] (- MPLP_huge c) (MPLP_huge c) (MPLP_huge c)
    0%nat 0%nat false uai tl 0 false [].

(** ** Output: [Write] (lines 605-628)

    A line holds the decoded assignment, preceded by [-BEGIN-] from the
    second write on; the flag [begin] records the first write. *)
Definition Write (st : MPLPAlg) : MPLPAlg :=
  set_out st true (out_res st ++ [(begin st, m_decoded_res st)]).

(** ** Scoring: [IntVal] (lines 545-561) *)

Definition empty_region : Region := mkRegion [] [] 0 [] [] [].

Definition nth_region (l : list Region) (ri : nat) : Region := nth ri l empty_region.


(** The states of a region's variables under an assignment ([tmpvec]). *)
Definition restrict (assignment region_inds : list nat) : list nat :=
  map (fun v => nth v assignment 0%nat) region_inds.

Definition IntVal (st : MPLPAlg) (assignment : list nat) : Q :=
  let int_val :=
    fold_left (fun int_val ri =>
        let lam := nth_arr (m_region_lambdas st) ri in
        if Nat.eqb (length (m_dat lam)) 0 then int_val
        else int_val + GetVal lam (restrict assignment (m_region_inds (nth_region (m_all_regions st) ri))))
      (seq 0 (length (m_all_regions st))) 0 in
  fold_left (fun int_val ni =>
      int_val + (m_dat (nth_arr (m_single_node_lambdas st) ni)).[nth ni assignment 0%nat])
    (seq 0 (length (m_var_sizes st))) int_val.

(** ** [UpdateResult] (lines 584-598) *)

Definition UpdateResult (c : consts) (st : MPLPAlg) : MPLPAlg * Q :=
  let int_val := IntVal st (m_decoded_res st) in
  if int_val >.? m_best_val st then
    let st1 := if inject_Z (time_limit st) - now st >.? MPLP_MIN_APP_TIME c then Write st else st in
    (set_best st1 (m_decoded_res st) int_val, int_val)
  else (st, int_val).

(** ** [LocalDecode] (lines 563-578) *)

Definition decode_step (st : MPLPAlg) (acc : Q * list nat) (si : nat) : Q * list nat :=
  let '(obj, dec) := acc in
  let '(m, max_at) := MulDimArr.Max (nth_arr (m_sum_into_intersects st) si) in
  let J := nth si (m_all_intersects st) [] in
  (obj + m,
   match J with
   | [v] => match evidence st !! v with None => set_nth v max_at dec | Some _ => dec end
   | _ => dec
   end).

Definition LocalDecode (c : consts) (st : MPLPAlg) : MPLPAlg * Q :=
  let '(obj, dec) := fold_left (decode_step st) (seq 0 (length (m_sum_into_intersects st)))
                               (0, m_decoded_res st) in
  (fst (UpdateResult c (set_decoded st dec)), obj).

(** ** The catalogue: [AddIntersectionSet] and [FindIntersectionSet] *)

(** [std::map::insert]: an existing entry is kept. *)
Definition map_insert_new {K} `{EqDecision K, Countable K} (k : K) (v : nat) (m : gmap K nat)
    : gmap K nat :=
  match m !! k with Some _ => m | None => <[k := v]> m end.

(** The key of an edge: [sort] of the two indices, then the pair. *)
Definition edge_key (V : list nat) : nat * nat :=
  let t := NatSort.sort V in (nth 0 t 0%nat, nth 1 t 0%nat).

(** [AddIntersectionSet(inds_of_vars)] (lines 482-510): append the set, index
    it if it is an edge, give it a zero belief; return its position. *)
Definition AddIntersectionSet (st : MPLPAlg) (V : list nat) : MPLPAlg * nat :=
  let ai := m_all_intersects st ++ [V] in
  let loc := (length ai - 1)%nat in
  let imap := if Nat.eqb (length V) 2 then map_insert_new (edge_key V) loc (m_intersect_map st)
              else m_intersect_map st in
  (set_catalogue st ai (m_sum_into_intersects st ++ [zeros (sizes_of (m_var_sizes st) V)])
     (m_all_regions st) (m_region_lambdas st) imap, loc).

(** The linear scan of [FindIntersectionSet] for a set that is not an edge. *)
Fixpoint find_sorted (t : list nat) (ai : list (list nat)) (i : nat) : option nat :=
  match ai with
  | [] => None
  | J :: ai' => if leqb (NatSort.sort J) t then Some i else find_sorted t ai' (S i)
  end.

(** [FindIntersectionSet(inds_of_vars)] (lines 515-543); [None] is [-1]. *)
Definition FindIntersectionSet (st : MPLPAlg) (V : list nat) : option nat :=
  let t := NatSort.sort V in
  if Nat.eqb (length t) 2 then m_intersect_map st !! (nth 0 t 0%nat, nth 1 t 0%nat)
  else find_sorted t (m_all_intersects st) 0.

(** [AddRegion(inds_of_vars, intersect_inds)] (lines 469-480). *)
Definition AddRegion (st : MPLPAlg) (V S : list nat) : MPLPAlg * nat :=
  let '(st1, loc) := AddIntersectionSet st V in
  let R := fst (Region_new V (m_all_intersects st1) S (m_var_sizes st1) loc) in
  (set_catalogue st1 (m_all_intersects st1) (m_sum_into_intersects st1)
     (m_all_regions st1 ++ [R]) (m_region_lambdas st1 ++ [MulDimArr.empty])
     (m_intersect_map st1), loc).

(** The body of the inner loop of [AddAllEdgeIntersections] for the pair
    [(vi, vj)] of region [ri]: find or add the edge, then add it to the
    region. *)
Definition add_edge (ri : nat) (st : MPLPAlg) (vij : nat * nat) : MPLPAlg :=
  let R := nth_region (m_all_regions st) ri in
  let ij_edge := [nth (fst vij) (m_region_inds R) 0%nat; nth (snd vij) (m_region_inds R) 0%nat] in
  let '(st1, loc) := match FindIntersectionSet st ij_edge with
                     | Some l => (st, l)
                     | None => AddIntersectionSet st ij_edge
                     end in
  let R1 := nth_region (m_all_regions st1) ri in
  let R' := fst (Region.AddIntersectionSet loc (m_all_intersects st1) (m_var_sizes st1) R1) in
  set_catalogue st1 (m_all_intersects st1) (m_sum_into_intersects st1)
    (set_nth ri R' (m_all_regions st1)) (m_region_lambdas st1) (m_intersect_map st1).

(** The pairs [vi < vj] of [n] positions, in the loops' order. *)
Definition pairs (n : nat) : list (nat * nat) :=
  flat_map (fun vi => map (fun vj => (vi, vj)) (seq (S vi) (n - S vi))) (seq 0 (n - 1)).

(** [AddAllEdgeIntersections()] (lines 426-464). *)
Definition AddAllEdgeIntersections (st : MPLPAlg) : MPLPAlg :=
  fold_left (fun st ri =>
      let n := length (m_region_inds (nth_region (m_all_regions st) ri)) in
      if Nat.leb n 2 then st else fold_left (add_edge ri) (pairs n) st)
    (seq 0 (length (m_all_regions st))) st.

(** ** [Init(var_sizes, all_region_inds, all_lambdas)] (lines 255-379) *)

(** [curr_lambda[i] = all_lambdas[ri][i]] for every cell. *)
Definition lambda_arr (sizes : list nat) (lam : list Q) : arr :=
  mk sizes (map (fun i => lam.[i]) (seq 0 (prodsize sizes))).

(** Lines 257-267: set [m_var_sizes], then push one singleton set per
    variable with zero beliefs and zero potentials. *)
Definition init_singletons (st : MPLPAlg) (vs : list nat) : MPLPAlg :=
  let zs := map (fun s => zeros [s]) vs in
  mkAlg vs (m_all_intersects st ++ map (fun si => [si]) (seq 0 (length vs)))
    (m_sum_into_intersects st ++ zs) (m_single_node_lambdas st ++ zs) (m_all_regions st)
    (m_region_lambdas st) (m_intersect_map st) (evidence st) (m_decoded_res st)
    (m_best_decoded_res st) (m_best_val st) (last_obj st) (obj_del st)
    (total_mplp_iterations st) (previous_run_of_global_decoding st) (CSP_instance st)
    (m_uaiCompetition st) (time_limit st) (now st) (begin st) (out_res st).

(** Lines 271-320: one input region.  A singleton with a potential goes
    into the singleton's belief and potential; any other set becomes an
    intersection set and a region (lines 290-309), and an edge is indexed. *)
Definition init_region (st : MPLPAlg) (inds_lam : list nat * list Q) : MPLPAlg :=
  let '(inds, lam) := inds_lam in
  let vs := m_var_sizes st in
  let rvs := sizes_of vs inds in
  let curr := lambda_arr rvs lam in
  match inds, lam with
  | [v], _ :: _ =>
      let add a := lift (fun d => Vec.add d (m_dat curr)) a in
      mkAlg vs (m_all_intersects st)
        (set_nth v (add (nth_arr (m_sum_into_intersects st) v)) (m_sum_into_intersects st))
        (set_nth v (add (nth_arr (m_single_node_lambdas st) v)) (m_single_node_lambdas st))
        (m_all_regions st) (m_region_lambdas st) (m_intersect_map st) (evidence st)
        (m_decoded_res st) (m_best_decoded_res st) (m_best_val st) (last_obj st) (obj_del st)
        (total_mplp_iterations st) (previous_run_of_global_decoding st) (CSP_instance st)
        (m_uaiCompetition st) (time_limit st) (now st) (begin st) (out_res st)
  | _, _ =>
      let ai := m_all_intersects st ++ [inds] in
      let loc := (length ai - 1)%nat in
      let R := fst (Region_new inds ai inds vs loc) in
      let '(sums, lams) :=
        match lam with
        | [] => (m_sum_into_intersects st, m_region_lambdas st ++ [MulDimArr.empty])
        | _ => (m_sum_into_intersects st ++ [curr], m_region_lambdas st ++ [curr])
        end in
      let imap := if Nat.eqb (length inds) 2
                  then map_insert_new (edge_key inds) loc (m_intersect_map st)
                  else m_intersect_map st in
      set_catalogue st ai sums (m_all_regions st ++ [R]) lams imap
  end.

(** Lines 323-332: the decoded and the best assignment start at zero, with
    the evidence written in. *)
Definition with_evidence (evid : gmap nat nat) (d : list nat) : list nat :=
  foldr (fun kv d => set_nth (fst kv) (snd kv) d) d (map_to_list evid).

Definition init_decoded (st : MPLPAlg) : MPLPAlg :=
  let zs := repeat 0%nat (length (m_var_sizes st)) in
  set_best (set_decoded st (with_evidence (evidence st) (m_decoded_res st ++ zs)))
    (with_evidence (evidence st) (m_best_decoded_res st ++ zs)) (m_best_val st).

(** Lines 334-373: with [m_uaiCompetition], score the all-zero assignment,
    decode, and perturb the singleton beliefs of an instance whose
    objective and singleton beliefs are all zero; [noise si loc] is the
    draw [rand() / RAND_MAX] for cell [loc] of singleton [si]. *)
Definition singletons_zero (st : MPLPAlg) : bool :=
  forallb (fun si => forallb (fun x => Qeq_bool x 0) (m_dat (nth_arr (m_sum_into_intersects st) si)))
    (seq 0 (length (m_var_sizes st))).

Definition perturb_one (noise : nat -> nat -> Q) (si : nat) (a : arr) : arr :=
  mk (m_base_sizes a) (map (fun loc => (m_dat a).[loc] + (1 # 100) * noise si loc)
                           (seq 0 (length (m_dat a)))).

Definition perturb (noise : nat -> nat -> Q) (st : MPLPAlg) : list arr :=
  fold_left (fun sums si => set_nth si (perturb_one noise si (nth_arr sums si)) sums)
    (seq 0 (length (m_var_sizes st))) (m_sum_into_intersects st).

Definition set_csp (st : MPLPAlg) (b : bool) : MPLPAlg :=
  mkAlg (m_var_sizes st) (m_all_intersects st) (m_sum_into_intersects st)
    (m_single_node_lambdas st) (m_all_regions st) (m_region_lambdas st) (m_intersect_map st)
    (evidence st) (m_decoded_res st) (m_best_decoded_res st) (m_best_val st) (last_obj st)
    (obj_del st) (total_mplp_iterations st) (previous_run_of_global_decoding st) b
    (m_uaiCompetition st) (time_limit st) (now st) (begin st) (out_res st).

Definition init_uai (c : consts) (noise : nat -> nat -> Q) (st : MPLPAlg) : MPLPAlg :=
  if m_uaiCompetition st then
    let st1 := fst (UpdateResult c st) in
    let '(st2, obj) := LocalDecode c st1 in
    if Qeq_bool obj 0 then
      if singletons_zero st2 then set_csp (set_sums st2 (perturb noise st2)) true
      else set_csp st2 false
    else st2
  else st.

Definition Init (c : consts) (noise : nat -> nat -> Q) (st : MPLPAlg) (var_sizes : list nat)
    (all_region_inds : list (list nat)) (all_lambdas : list (list Q)) : MPLPAlg :=
  let st1 := fold_left init_region (combine all_region_inds all_lambdas)
                       (init_singletons st var_sizes) in
  init_uai c noise (init_decoded st1).

(** ** [RunMPLP(niter, obj_del_thr, int_gap_thr)] (lines 385-424) *)

(** Lines 389-391: every region updates its messages, in catalogue order;
    [m_all_regions[ri]] is updated in place. *)
Definition sweep_step (st : MPLPAlg) (ri : nat) : MPLPAlg :=
  let '(R', sums') := UpdateMsgs (nth_region (m_all_regions st) ri) (m_sum_into_intersects st) in
  set_regions_sums st (set_nth ri R' (m_all_regions st)) sums'.

Definition sweep (st : MPLPAlg) : MPLPAlg :=
  fold_left sweep_step (seq 0 (length (m_all_regions st))) st.

Section Run.

Variable c : consts.
(** [gd] is [RunGlobalDecoding(false)]; [clk it] is the elapsed time
    [(clock() - start) / CLOCKS_PER_SEC] read in iteration [it]. *)
Variable gd : MPLPAlg -> MPLPAlg.
Variable clk : nat -> Q.
Variables (niter : nat) (obj_del_thr int_gap_thr : Q).

(** One iteration [it]: lines 389-421, with [true] when one of the two [break]s is taken. *)
Definition run_iter (it : nat) (st : MPLPAlg) : MPLPAlg * bool :=
  let st1 := sweep st in
  let st2 := set_run st1 (last_obj st1) (obj_del st1) (S (total_mplp_iterations st1)) (clk it) in
  let '(st3, obj) := LocalDecode c st2 in
  let st4 := set_run st3 obj (last_obj st3 - obj) (total_mplp_iterations st3) (now st3) in
  let st5 := if Nat.eqb (previous_run_of_global_decoding st4) 0 &&
                (clk it >.? inject_Z (Z.div (time_limit st4) 3))
             then gd st4 else st4 in
  let int_gap := obj - m_best_val st5 in
  (st5, (Qgtb obj_del_thr (obj_del st5) && Nat.ltb 16 it) || Qgtb int_gap_thr int_gap).

(** [for (it = it0; it < niter; ++it)]: the loop runs [niter - it0] times at
    most, each [break] stopping it early. *)
Fixpoint run_loop (fuel it : nat) (st : MPLPAlg) : MPLPAlg :=
  match fuel with
  | O => st
  | S f => let '(st', stop) := run_iter it st in if stop then st' else run_loop f (S it) st'
  end.

Definition RunMPLP (st : MPLPAlg) : MPLPAlg := run_loop niter 0 st.

End Run.

(** ** Invariants *)

(** The catalogue is well formed and every region is consistent with it. *)
Definition regions_wf (st : MPLPAlg) : Prop :=
  forall ri, (ri < length (m_all_regions st))%nat ->
    region_wf (m_var_sizes st) (m_all_intersects st) (m_sum_into_intersects st)
              (nth_region (m_all_regions st) ri).

Definition solver_wf (st : MPLPAlg) : Prop :=
  cat_wf (m_var_sizes st) (m_all_intersects st) (m_sum_into_intersects st) /\ regions_wf st /\
  Forall (fun s => 0 < s)%nat (m_var_sizes st).

(** The beliefs are a reparameterisation of the model: at every full
    assignment their total is the assignment's score. *)
Definition rep_ok (st : MPLPAlg) : Prop :=
  forall x, in_bounds (m_var_sizes st) x ->
    total (m_all_intersects st) (m_sum_into_intersects st) x == IntVal st x.

(** The beliefs over-approximate the model: at every full assignment
    their total is at least the assignment's score.  A reparameterisation
    ([rep_ok]) does; so do the beliefs that [Init] perturbs upwards on a
    CSP instance (lines 361-366). *)
Definition rep_le (st : MPLPAlg) : Prop :=
  forall x, in_bounds (m_var_sizes st) x ->
    IntVal st x <= total (m_all_intersects st) (m_sum_into_intersects st) x.

(** Every evidence variable is decoded to its evidence state. *)
Definition ev_ok (st : MPLPAlg) : Prop :=
  forall v k, evidence st !! v = Some k -> (v < length (m_decoded_res st))%nat ->
    nth v (m_decoded_res st) 0%nat = k.

(** Two states with the same model: domains, catalogue, beliefs, regions
    and potentials. *)
Definition model_eq (st st' : MPLPAlg) : Prop :=
  m_var_sizes st' = m_var_sizes st /\ m_all_intersects st' = m_all_intersects st /\
  m_sum_into_intersects st' = m_sum_into_intersects st /\
  m_single_node_lambdas st' = m_single_node_lambdas st /\
  m_all_regions st' = m_all_regions st /\ m_region_lambdas st' = m_region_lambdas st.

(** What [RunMPLP] needs of the global decoding it calls (lines 400-405):
    [RunGlobalDecoding] restores the messages, the beliefs and the
    evidence it changes, never lowers the incumbent, and decodes evidence
    variables to their evidence states. *)
Class GlobalDecoder (gd : MPLPAlg -> MPLPAlg) : Prop := {
  gd_model : forall st, solver_wf st -> model_eq st (gd st);
  gd_evidence : forall st, solver_wf st -> evidence (gd st) = evidence st;
  gd_ev_ok : forall st, solver_wf st -> ev_ok st -> ev_ok (gd st);
  gd_best : forall st, solver_wf st -> m_best_val st <= m_best_val (gd st);
  gd_obj : forall st, solver_wf st -> last_obj (gd st) = last_obj st /\ obj_del (gd st) = obj_del st
}.

(** The edge index points at edges of the catalogue with that sorted pair. *)
Definition map_ok (st : MPLPAlg) : Prop :=
  forall k l, m_intersect_map st !! k = Some l ->
    (l < length (m_all_intersects st))%nat /\ length (nth l (m_all_intersects st) []) = 2%nat /\
    edge_key (nth l (m_all_intersects st) []) = k.

(** The result file: the scores of the written assignments strictly
    increase, and none exceeds the incumbent's score. *)
Definition out_ok (st : MPLPAlg) : Prop :=
  StronglySorted Qlt (map (fun o => IntVal st (snd o)) (out_res st)) /\
  Forall (fun o => IntVal st (snd o) <= m_best_val st) (out_res st).

Definition map_okb (st : MPLPAlg) : bool :=
  forallb (fun kl => Nat.ltb (snd kl) (length (m_all_intersects st)) &&
                     Nat.eqb (length (nth (snd kl) (m_all_intersects st) [])) 2 &&
                     (Nat.eqb (fst (edge_key (nth (snd kl) (m_all_intersects st) []))) (fst (fst kl)) &&
                      Nat.eqb (snd (edge_key (nth (snd kl) (m_all_intersects st) []))) (snd (fst kl))))
          (map_to_list (m_intersect_map st)).

(** ** Decision procedures for the invariants *)

(** Every full assignment of domains [vs]. *)
Fixpoint assignments (vs : list nat) : list (list nat) :=
  match vs with
  | [] => [[]]
  | s :: vs' => flat_map (fun a => map (cons a) (assignments vs')) (seq 0 s)
  end.

Definition solver_wfb (st : MPLPAlg) : bool :=
  cat_wfb (m_var_sizes st) (m_all_intersects st) (m_sum_into_intersects st) &&
  forallb (fun ri => region_wfb (m_var_sizes st) (m_all_intersects st) (m_sum_into_intersects st)
                                (nth_region (m_all_regions st) ri))
          (seq 0 (length (m_all_regions st))) &&
  forallb (fun s => Nat.ltb 0 s) (m_var_sizes st).

Definition rep_leb (st : MPLPAlg) : bool :=
  forallb (fun x => Qle_bool (IntVal st x) (total (m_all_intersects st) (m_sum_into_intersects st) x))
          (assignments (m_var_sizes st)).

Definition ev_okb (st : MPLPAlg) : bool :=
  forallb (fun vk => negb (Nat.ltb (fst vk) (length (m_decoded_res st))) ||
                     Nat.eqb (nth (fst vk) (m_decoded_res st) 0%nat) (snd vk))
          (map_to_list (evidence st)).

Definition run_invb (st : MPLPAlg) : bool := solver_wfb st && rep_leb st && ev_okb st.

(** ** Example models *)

Definition ex_consts : consts := mkConsts 1000000 1.

(** Two binary variables and the edge potential [[2,0],[0,2]], the
    model the witnesses instantiate. *)
Definition edge_model : MPLPAlg :=
  Init ex_consts (fun _ _ => 0) (MPLPAlg_new ex_consts 100 ∅ false) [2; 2]%nat [[0; 1]]%nat
       [[2; 0; 0; 2]].

(** One binary variable with potential [[0,1]] and the evidence [x0 = 0]. *)
Definition evidence_model : MPLPAlg :=
  Init ex_consts (fun _ _ => 0) (MPLPAlg_new ex_consts 100 {[0%nat := 0%nat]} false) [2]%nat [[0]]%nat
       [[0; 1]].

Definition run_ex (st : MPLPAlg) : MPLPAlg :=
  RunMPLP ex_consts (fun st => st) (fun _ => 0) 5 (1 # 1000) (1 # 1000) st.

(** ** Frame lemmas: what each operation leaves alone *)

Lemma set_decoded_same st : set_decoded st (m_decoded_res st) = st.
Proof. destruct st; reflexivity. Qed.

(** [UpdateResult] changes only the incumbent and the output. *)
Lemma UpdateResult_frame c st :
  let st' := fst (UpdateResult c st) in
  m_var_sizes st' = m_var_sizes st /\ m_all_intersects st' = m_all_intersects st /\
  m_sum_into_intersects st' = m_sum_into_intersects st /\
  m_single_node_lambdas st' = m_single_node_lambdas st /\
  m_all_regions st' = m_all_regions st /\ m_region_lambdas st' = m_region_lambdas st /\
  m_intersect_map st' = m_intersect_map st /\ evidence st' = evidence st /\
  m_decoded_res st' = m_decoded_res st /\ time_limit st' = time_limit st /\
  last_obj st' = last_obj st /\ obj_del st' = obj_del st /\
  total_mplp_iterations st' = total_mplp_iterations st /\
  previous_run_of_global_decoding st' = previous_run_of_global_decoding st /\ now st' = now st.
Proof.
  unfold UpdateResult. destruct (_ >.? _); [destruct (_ >.? _)|]; simpl; repeat split.
Qed.

(** The score of an assignment depends only on the potentials. *)
Lemma IntVal_frame st st' a :
  m_var_sizes st' = m_var_sizes st -> m_single_node_lambdas st' = m_single_node_lambdas st ->
  m_all_regions st' = m_all_regions st -> m_region_lambdas st' = m_region_lambdas st ->
  IntVal st' a = IntVal st a.
Proof. unfold IntVal. intros -> -> -> ->. reflexivity. Qed.

Lemma IntVal_UpdateResult c st a : IntVal (fst (UpdateResult c st)) a = IntVal st a.
Proof.
  destruct (UpdateResult_frame c st) as (H1 & _ & _ & H4 & H5 & H6 & _).
  apply IntVal_frame; auto.
Qed.

(** ** [LocalDecode] as a sum and a sequence of writes *)

(** The write of the singleton set [si], if any. *)
Definition dec_write (st : MPLPAlg) (si : nat) : option (nat * nat) :=
  match nth si (m_all_intersects st) [] with
  | [v] => match evidence st !! v with
           | None => Some (v, snd (MulDimArr.Max (nth_arr (m_sum_into_intersects st) si)))
           | Some _ => None
           end
  | _ => None
  end.

Definition apply_write (d : list nat) (w : option (nat * nat)) : list nat :=
  match w with Some (v, x) => set_nth v x d | None => d end.

Definition obj_of (st : MPLPAlg) : Q :=
  fold_left (fun o si => o + fst (MulDimArr.Max (nth_arr (m_sum_into_intersects st) si)))
    (seq 0 (length (m_sum_into_intersects st))) 0.

Lemma decode_fold st l o d :
  fold_left (decode_step st) l (o, d)
  = (fold_left (fun o si => o + fst (MulDimArr.Max (nth_arr (m_sum_into_intersects st) si))) l o,
     fold_left apply_write (map (dec_write st) l) d).
Proof.
  revert o d; induction l as [|si l IH]; intros o d; simpl; auto.
  rewrite <- IH. f_equal. unfold decode_step, dec_write.
  destruct (MulDimArr.Max _) as [m at_]. simpl.
  destruct (nth si (m_all_intersects st) []) as [|v [|]]; auto.
  destruct (evidence st !! v); auto.
Qed.

(** The positions a sequence of writes touches. *)
Definition written (ws : list (option (nat * nat))) : list nat :=
  flat_map (fun w => match w with Some (v, _) => [v] | None => [] end) ws.

Definition agree_out (W : list nat) (d e : list nat) : Prop :=
  length d = length e /\ forall k, ~ In k W -> nth k d 0%nat = nth k e 0%nat.

Lemma agree_out_eq d e : agree_out [] d e -> d = e.
Proof.
  intros [L H]. apply (nth_ext _ _ 0%nat 0%nat L). intros k _. apply H. auto.
Qed.

Lemma nth_set_nth_any v x d k :
  nth k (set_nth v x d) 0%nat = if Nat.eqb k v then (if Nat.ltb v (length d) then x else nth k d 0%nat)
                                else nth k d 0%nat.
Proof.
  destruct (Nat.eqb_spec k v) as [->|Hne].
  - destruct (Nat.ltb_spec v (length d)); [apply nth_set_nth_eq; auto|].
    rewrite set_nth_ge; auto.
  - apply nth_set_nth_ne. auto.
Qed.

(** Writes forget what they overwrite. *)
Lemma writes_agree ws d e :
  agree_out (written ws) d e -> fold_left apply_write ws d = fold_left apply_write ws e.
Proof.
  revert d e; induction ws as [|w ws IH]; intros d e H; simpl in *; [apply agree_out_eq; auto|].
  apply IH. destruct H as [L H]. destruct w as [[v x]|]; simpl in *; [|split; auto].
  split; [rewrite !length_set_nth; auto|]. intros k Hk.
  rewrite !nth_set_nth_any, L. destruct (Nat.eqb_spec k v) as [->|Hne].
  - destruct (Nat.ltb_spec v (length e)); auto. rewrite !nth_overflow by lia. auto.
  - apply H. intros [E|Hin]; [congruence|auto].
Qed.

(** Writes change nothing but the written positions. *)
Lemma writes_out ws d : agree_out (written ws) (fold_left apply_write ws d) d.
Proof.
  revert d; induction ws as [|w ws IH]; intros d; simpl; [split; auto|].
  destruct (IH (apply_write d w)) as [L H]. split.
  - rewrite L. destruct w as [[v x]|]; simpl; auto using length_set_nth.
  - intros k Hk. rewrite H by (intro; apply Hk, in_or_app; auto).
    destruct w as [[v x]|]; simpl in *; auto. apply nth_set_nth_ne. intuition.
Qed.

Lemma writes_idem ws d :
  fold_left apply_write ws (fold_left apply_write ws d) = fold_left apply_write ws d.
Proof. apply writes_agree, writes_out. Qed.

Lemma UpdateResult_val c st : snd (UpdateResult c st) = IntVal st (m_decoded_res st).
Proof. unfold UpdateResult. destruct (_ >.? _); reflexivity. Qed.

(** The incumbent never decreases and scores at least the decoded
    assignment afterwards. *)
Lemma UpdateResult_best c st :
  m_best_val st <= m_best_val (fst (UpdateResult c st)) /\
  IntVal st (m_decoded_res st) <= m_best_val (fst (UpdateResult c st)).
Proof.
  unfold UpdateResult. destruct (_ >.? _) eqn:E.
  - apply Qgtb_true in E. destruct (_ >.? MPLP_MIN_APP_TIME c); cbn [fst m_best_val set_best]; split; lra.
  - apply Qgtb_false in E. cbn [fst]. split; lra.
Qed.

Lemma UpdateResult_noop c st :
  IntVal st (m_decoded_res st) <= m_best_val st -> UpdateResult c st = (st, IntVal st (m_decoded_res st)).
Proof. intros H. unfold UpdateResult. rewrite (proj2 (Qgtb_false _ _) H). reflexivity. Qed.

(** A second [UpdateResult] changes nothing. *)
Lemma UpdateResult_settled c st :
  UpdateResult c (fst (UpdateResult c st)) = (fst (UpdateResult c st), snd (UpdateResult c st)).
Proof.
  destruct (UpdateResult_frame c st) as (_ & _ & _ & _ & _ & _ & _ & _ & Hd & _).
  rewrite UpdateResult_noop; rewrite IntVal_UpdateResult, Hd.
  - rewrite UpdateResult_val. reflexivity.
  - apply UpdateResult_best.
Qed.

Lemma LocalDecode_unfold c st :
  LocalDecode c st
  = (fst (UpdateResult c (set_decoded st (fold_left apply_write
        (map (dec_write st) (seq 0 (length (m_sum_into_intersects st)))) (m_decoded_res st)))),
     obj_of st).
Proof. unfold LocalDecode, obj_of. rewrite decode_fold. reflexivity. Qed.

(** [LocalDecode] reads the beliefs, the catalogue and the evidence only. *)
Lemma dec_write_frame st st' :
  m_all_intersects st' = m_all_intersects st -> m_sum_into_intersects st' = m_sum_into_intersects st ->
  evidence st' = evidence st -> dec_write st' = dec_write st /\ obj_of st' = obj_of st.
Proof. intros H1 H2 H3. unfold dec_write, obj_of. rewrite H1, H2, H3. auto. Qed.

Lemma LocalDecode_frame c st :
  let st' := fst (LocalDecode c st) in
  m_var_sizes st' = m_var_sizes st /\ m_all_intersects st' = m_all_intersects st /\
  m_sum_into_intersects st' = m_sum_into_intersects st /\
  m_single_node_lambdas st' = m_single_node_lambdas st /\
  m_all_regions st' = m_all_regions st /\ m_region_lambdas st' = m_region_lambdas st /\
  m_intersect_map st' = m_intersect_map st /\ evidence st' = evidence st /\
  m_decoded_res st' = fold_left apply_write
     (map (dec_write st) (seq 0 (length (m_sum_into_intersects st)))) (m_decoded_res st) /\
  time_limit st' = time_limit st /\ last_obj st' = last_obj st /\ obj_del st' = obj_del st /\
  total_mplp_iterations st' = total_mplp_iterations st /\
  previous_run_of_global_decoding st' = previous_run_of_global_decoding st /\ now st' = now st.
Proof.
  rewrite LocalDecode_unfold. cbn [fst]. set (s := set_decoded _ _).
  destruct (UpdateResult_frame c s) as (H1 & H2 & H3 & H4 & H5 & H6 & H7 & H8 & H9 & H10 & H11 & H12
                                        & H13 & H14 & H15).
  rewrite H1, H2, H3, H4, H5, H6, H7, H8, H9, H10, H11, H12, H13, H14, H15. subst s. repeat split.
Qed.

(** C7.  Decoding is idempotent: a second [LocalDecode] with no update in
    between yields the same state (decoded assignment, incumbent and
    output included) and the same objective. *)
Theorem LocalDecode_idem c st :
  LocalDecode c (fst (LocalDecode c st)) = LocalDecode c st.
Proof.
  destruct (LocalDecode_frame c st) as (_ & Hai & Hs & _ & _ & _ & _ & Hev & Hd & _).
  destruct (dec_write_frame st (fst (LocalDecode c st)) Hai Hs Hev) as [Hw Ho].
  rewrite (LocalDecode_unfold c (fst (LocalDecode c st))), Hw, Ho, Hd, Hs, writes_idem, <- Hd,
    set_decoded_same.
  rewrite (LocalDecode_unfold c st). cbn [fst]. rewrite UpdateResult_settled. reflexivity.
Qed.

(** ** The region sweep *)

Lemma set_regions_sums_twice st a b c d :
  set_regions_sums (set_regions_sums st a b) c d = set_regions_sums st c d.
Proof. destruct st; reflexivity. Qed.

Lemma IntVal_regions st regs sums a :
  length regs = length (m_all_regions st) ->
  (forall ri, m_region_inds (nth_region regs ri) = m_region_inds (nth_region (m_all_regions st) ri)) ->
  IntVal (set_regions_sums st regs sums) a = IntVal st a.
Proof.
  intros L H. unfold IntVal. cbn [m_all_regions m_region_lambdas m_var_sizes m_single_node_lambdas
    set_regions_sums set_catalogue]. rewrite L. f_equal.
  apply fold_left_ext_in. intros acc ri _. rewrite H. reflexivity.
Qed.

Lemma nth_arr_set v a l i :
  nth_arr (set_nth v a l) i = if Nat.eqb i v then (if Nat.ltb v (length l) then a else nth_arr l i)
                              else nth_arr l i.
Proof.
  unfold nth_arr. destruct (Nat.eqb_spec i v) as [->|Hne].
  - destruct (Nat.ltb_spec v (length l)); [apply nth_set_nth_eq; auto|rewrite set_nth_ge; auto].
  - apply nth_set_nth_ne; auto.
Qed.

Lemma GetVal_single a s k : m_base_sizes a = [s] -> GetVal a [k] = (m_dat a).[k].
Proof. intros H. unfold GetVal. rewrite H. simpl. rewrite Nat.mul_1_r, Nat.add_0_r. reflexivity. Qed.


Lemma nth_region_set ri R regs j :
  (ri < length regs)%nat ->
  nth_region (set_nth ri R regs) j = if Nat.eqb j ri then R else nth_region regs j.
Proof.
  intros H. unfold nth_region. destruct (Nat.eqb_spec j ri) as [->|Hne].
  - apply nth_set_nth_eq; auto.
  - apply nth_set_nth_ne; auto.
Qed.

(** One region's update keeps the solver well formed, keeps the total
    belief at every assignment and the score of every assignment, and does
    not increase the dual objective. *)
Lemma sweep_step_spec st ri :
  solver_wf st -> (ri < length (m_all_regions st))%nat ->
  exists regs sums, sweep_step st ri = set_regions_sums st regs sums /\
    length regs = length (m_all_regions st) /\
    (forall j, same_frame (nth_region (m_all_regions st) j) (nth_region regs j)) /\
    solver_wf (sweep_step st ri) /\
    (forall x, in_bounds (m_var_sizes st) x ->
       total (m_all_intersects st) sums x == total (m_all_intersects st) (m_sum_into_intersects st) x) /\
    dual sums <= dual (m_sum_into_intersects st).
Proof.
  intros (Hcat & Hwf & Hpos) Hri. specialize (Hwf ri Hri) as Hr.
  unfold sweep_step. destruct (UpdateMsgs _ _) as [R' sums'] eqn:E.
  pose proof (post_cat_wf _ _ _ _ Hcat Hr) as C'. pose proof (post_region_wf _ _ _ _ Hcat Hr) as R'wf.
  pose proof (fun x => UpdateMsgs_total _ _ _ _ x Hcat Hr) as T. pose proof (UpdateMsgs_dual_le _ _ _ _ Hcat Hr Hpos) as D.
  pose proof (UpdateMsgs_frame (nth_region (m_all_regions st) ri) (m_sum_into_intersects st)) as I.
  rewrite E in C', R'wf, T, D, I. simpl in *.
  assert (Hl : length sums' = length (m_sum_into_intersects st))
    by (destruct C' as [C1 _], Hcat as [C2 _]; congruence).
  exists (set_nth ri R' (m_all_regions st)), sums'. split; [reflexivity|].
  split; [apply length_set_nth|]. split.
  { intros j. rewrite nth_region_set by auto. destruct (Nat.eqb_spec j ri); subst; auto using same_frame_refl. }
  split; [|split; [intros x Hx; apply T; auto|exact D]].
  split; [exact C'|]. split; [|exact Hpos].
  intros j Hj. cbn [m_all_regions m_sum_into_intersects m_var_sizes m_all_intersects set_regions_sums set_catalogue] in Hj |- *. rewrite length_set_nth in Hj. rewrite nth_region_set by auto.
  destruct (Nat.eqb_spec j ri); [exact R'wf|]. apply region_wf_len with (sums := m_sum_into_intersects st); auto.
Qed.

Lemma sweep_fold_spec l st :
  solver_wf st -> (forall ri, In ri l -> ri < length (m_all_regions st))%nat ->
  exists regs sums, fold_left sweep_step l st = set_regions_sums st regs sums /\
    length regs = length (m_all_regions st) /\
    (forall j, same_frame (nth_region (m_all_regions st) j) (nth_region regs j)) /\
    solver_wf (fold_left sweep_step l st) /\
    (forall x, in_bounds (m_var_sizes st) x ->
       total (m_all_intersects st) sums x == total (m_all_intersects st) (m_sum_into_intersects st) x) /\
    dual sums <= dual (m_sum_into_intersects st).
Proof.
  revert st; induction l as [|ri l IH]; intros st W Hl; cbn [fold_left].
  - exists (m_all_regions st), (m_sum_into_intersects st).
    split; [destruct st; reflexivity|]. split; [reflexivity|]. split; [intros; apply same_frame_refl|]. split; [exact W|]. split; [intros; reflexivity|apply Qle_refl].
  - destruct (sweep_step_spec st ri W (Hl ri (or_introl eq_refl)))
      as (regs1 & sums1 & E1 & L1 & I1 & W1 & T1 & D1).
    destruct (IH (sweep_step st ri) W1) as (regs2 & sums2 & E2 & L2 & I2 & W2 & T2 & D2).
    { intros rj Hrj. rewrite E1. cbn. rewrite L1. apply Hl. right. auto. }
    rewrite E1 in E2, L2, I2, T2, D2 |- *. cbn [m_sum_into_intersects set_regions_sums set_catalogue m_var_sizes m_all_intersects m_all_regions] in L2, I2, T2, D2.
    exists regs2, sums2. rewrite E2, set_regions_sums_twice. split; [reflexivity|].
    split; [congruence|]. split; [intros j; eapply same_frame_trans; [apply I1|apply I2]|].
    split; [rewrite E1, E2, set_regions_sums_twice in W2; exact W2|]. split; [|lra].
    intros x Hx. rewrite T2, T1 by auto. reflexivity.
Qed.

Lemma sweep_spec st :
  solver_wf st ->
  exists regs sums, sweep st = set_regions_sums st regs sums /\
    length regs = length (m_all_regions st) /\
    (forall j, same_frame (nth_region (m_all_regions st) j) (nth_region regs j)) /\
    solver_wf (sweep st) /\
    (forall x, in_bounds (m_var_sizes st) x ->
       total (m_all_intersects st) sums x == total (m_all_intersects st) (m_sum_into_intersects st) x) /\
    dual sums <= dual (m_sum_into_intersects st).
Proof. intros W. apply sweep_fold_spec; auto. intros ri Hri. apply in_seq in Hri. lia. Qed.

(** ** The model is what the invariants read *)

Lemma model_eq_refl st : model_eq st st.
Proof. repeat split. Qed.

Lemma model_eq_trans a b c : model_eq a b -> model_eq b c -> model_eq a c.
Proof. unfold model_eq. intuition congruence. Qed.

Lemma model_eq_solver_wf st st' : model_eq st st' -> solver_wf st -> solver_wf st'.
Proof.
  intros (H1 & H2 & H3 & _ & H5 & _) (C & R & P). unfold solver_wf, regions_wf.
  rewrite H1, H2, H3, H5. auto.
Qed.

Lemma model_eq_IntVal st st' a : model_eq st st' -> IntVal st' a = IntVal st a.
Proof. intros (H1 & _ & _ & H4 & H5 & H6). apply IntVal_frame; auto. Qed.

Lemma model_eq_rep_ok st st' : model_eq st st' -> rep_ok st -> rep_ok st'.
Proof.
  intros M H x Hx. rewrite (model_eq_IntVal _ _ _ M).
  destruct M as (H1 & H2 & H3 & _). rewrite H2, H3. apply H. congruence.
Qed.

Lemma model_eq_rep_le st st' : model_eq st st' -> rep_le st -> rep_le st'.
Proof.
  intros M H x Hx. rewrite (model_eq_IntVal _ _ _ M).
  destruct M as (H1 & H2 & H3 & _). rewrite H2, H3. apply H. congruence.
Qed.

Lemma rep_ok_le st : rep_ok st -> rep_le st.
Proof. intros H x Hx. rewrite (H x Hx). apply Qle_refl. Qed.

Lemma set_run_model st lo od n t : model_eq st (set_run st lo od n t).
Proof. repeat split. Qed.

Lemma UpdateResult_model c st : model_eq st (fst (UpdateResult c st)).
Proof. destruct (UpdateResult_frame c st) as (H1 & H2 & H3 & H4 & H5 & H6 & _). repeat split; auto. Qed.

Lemma UpdateResult_ev_ok c st : ev_ok st -> ev_ok (fst (UpdateResult c st)).
Proof.
  intros H v k. destruct (UpdateResult_frame c st) as (_ & _ & _ & _ & _ & _ & _ & -> & -> & _). apply H.
Qed.

Lemma LocalDecode_model c st : model_eq st (fst (LocalDecode c st)).
Proof. destruct (LocalDecode_frame c st) as (H1 & H2 & H3 & H4 & H5 & H6 & _). repeat split; auto. Qed.

Lemma obj_of_dual st : obj_of st == dual (m_sum_into_intersects st).
Proof. unfold obj_of, dual. rewrite fold_left_plus. lra. Qed.

Lemma LocalDecode_obj c st : snd (LocalDecode c st) == dual (m_sum_into_intersects st).
Proof. rewrite LocalDecode_unfold. apply obj_of_dual. Qed.

(** ** Evidence is never overwritten *)

Lemma written_dec st l v :
  In v (written (map (dec_write st) l)) -> evidence st !! v = None.
Proof.
  induction l as [|si l IH]; simpl; [tauto|]. intros H. apply in_app_or in H as [H|H]; auto.
  unfold dec_write in H. destruct (nth si (m_all_intersects st) []) as [|w [|]]; simpl in H; try tauto.
  destruct (evidence st !! w) eqn:E; simpl in H; [tauto|]. destruct H as [<-|[]]; auto.
Qed.

Lemma LocalDecode_ev_ok c st : ev_ok st -> ev_ok (fst (LocalDecode c st)).
Proof.
  intros H v k Hv Hl. destruct (LocalDecode_frame c st) as (_ & _ & _ & _ & _ & _ & _ & He & Hd & _).
  rewrite He in Hv. rewrite Hd in Hl |- *.
  set (ws := map (dec_write st) (seq 0 (length (m_sum_into_intersects st)))) in *.
  destruct (writes_out ws (m_decoded_res st)) as [L O].
  rewrite O; [apply H; auto; congruence|]. intros Hin. apply written_dec in Hin. congruence.
Qed.

Lemma LocalDecode_best c st : m_best_val st <= m_best_val (fst (LocalDecode c st)).
Proof. rewrite LocalDecode_unfold. apply (UpdateResult_best c (set_decoded st _)). Qed.

Lemma LocalDecode_evidence c st : evidence (fst (LocalDecode c st)) = evidence st.
Proof. apply LocalDecode_frame. Qed.

Lemma model_eq_dual st st' :
  model_eq st st' -> dual (m_sum_into_intersects st') = dual (m_sum_into_intersects st).
Proof. intros (_ & _ & H & _). rewrite H. reflexivity. Qed.

(** ** One iteration of [RunMPLP] *)

(** The invariants [RunMPLP] keeps. *)
Definition run_inv (st : MPLPAlg) : Prop := solver_wf st /\ rep_le st /\ ev_ok st.

Lemma sweep_rep_le st : solver_wf st -> rep_le st -> rep_le (sweep st).
Proof.
  intros W H. destruct (sweep_spec st W) as (regs & sums & E & L & I & _ & T & _).
  rewrite E. intros x Hx. cbn [m_all_intersects m_sum_into_intersects m_var_sizes set_regions_sums
    set_catalogue] in *. rewrite IntVal_regions; [|exact L|intros j; apply (I j)]. rewrite T by exact Hx. apply H, Hx.
Qed.

Lemma run_iter_spec `{GlobalDecoder gd} c clk thr1 thr2 it st :
  run_inv st ->
  let st' := fst (run_iter c gd clk thr1 thr2 it st) in
  run_inv st' /\ dual (m_sum_into_intersects st') <= dual (m_sum_into_intersects st) /\
  m_best_val st <= m_best_val st' /\ last_obj st' == dual (m_sum_into_intersects st') /\
  evidence st' = evidence st.
Proof.
  intros (W & R & Ev). unfold run_iter.
  pose proof (sweep_rep_le st W R) as R1.
  destruct (sweep_spec st W) as (regs & sums & E1 & _ & _ & W1 & _ & D1).
  set (st2 := set_run (sweep st) _ _ _ _).
  assert (M2 : model_eq (sweep st) st2) by apply set_run_model.
  assert (Ev2 : ev_ok st2) by (subst st2; rewrite E1; exact Ev).
  pose proof (LocalDecode_model c st2) as M3. pose proof (LocalDecode_obj c st2) as O3.
  pose proof (LocalDecode_ev_ok c st2 Ev2) as Ev3. pose proof (LocalDecode_best c st2) as B3.
  pose proof (LocalDecode_evidence c st2) as He3.
  destruct (LocalDecode c st2) as [st3 obj]. cbn [fst snd] in M3, O3, Ev3, B3, He3.
  set (st4 := set_run st3 obj _ _ _).
  assert (M4 : model_eq (sweep st) st4)
    by (apply (model_eq_trans _ st2); auto; apply (model_eq_trans _ st3); auto; apply set_run_model).
  assert (W4 : solver_wf st4) by (apply (model_eq_solver_wf _ _ M4 W1)).
  assert (D4 : dual (m_sum_into_intersects st4) <= dual (m_sum_into_intersects st))
    by (rewrite (model_eq_dual _ _ M4), E1; exact D1).
  assert (O4 : last_obj st4 == dual (m_sum_into_intersects st4)).
  { subst st4. cbn [last_obj set_run]. rewrite (model_eq_dual _ _ (set_run_model _ _ _ _ _)).
    apply (model_eq_dual st2 st3) in M3. rewrite M3. exact O3. }
  assert (I4 : run_inv st4).
  { split; [exact W4|]. split; [apply (model_eq_rep_le _ _ M4 R1)|exact Ev3]. }
  assert (B4 : m_best_val st <= m_best_val st4) by (subst st4 st2; rewrite E1 in B3; exact B3).
  assert (He4 : evidence st4 = evidence st) by (subst st4; cbn [evidence set_run]; rewrite He3; subst st2; cbn [evidence set_run]; rewrite E1; reflexivity).
  destruct (_ && _); cbn [fst].
  - destruct I4 as (W4' & R4 & Ev4). pose proof (gd_model st4 W4) as M5.
    destruct (gd_obj st4 W4) as [Ho _]. pose proof (gd_best st4 W4).
    split; [split; [apply (model_eq_solver_wf _ _ M5 W4)|split; [apply (model_eq_rep_le _ _ M5 R4)|
            apply gd_ev_ok; auto]]|].
    rewrite (model_eq_dual _ _ M5), Ho, gd_evidence by auto.
    split; [exact D4|]. split; [lra|]. split; [exact O4|exact He4].
  - split; [exact I4|]. split; [exact D4|]. split; [exact B4|]. split; [exact O4|exact He4].
Qed.

(** ** [RunMPLP] *)

Lemma run_loop_spec `{GlobalDecoder gd} c clk thr1 thr2 fuel it st :
  run_inv st ->
  let st' := run_loop c gd clk thr1 thr2 fuel it st in
  run_inv st' /\ dual (m_sum_into_intersects st') <= dual (m_sum_into_intersects st) /\
  m_best_val st <= m_best_val st' /\ evidence st' = evidence st /\
  ((0 < fuel)%nat -> last_obj st' == dual (m_sum_into_intersects st')).
Proof.
  revert it st; induction fuel as [|f IH]; intros it st I; cbn [run_loop].
  { split; [exact I|]. split; [apply Qle_refl|]. split; [apply Qle_refl|]. split; [reflexivity|lia]. }
  pose proof (run_iter_spec c clk thr1 thr2 it st I) as (I1 & D1 & B1 & O1 & E1).
  destruct (run_iter c gd clk thr1 thr2 it st) as [st1 stop]. cbn [fst] in *.
  destruct stop.
  - split; [exact I1|]. split; [exact D1|]. split; [exact B1|]. split; [exact E1|]. intros _. exact O1.
  - destruct (IH (S it) st1 I1) as (I2 & D2 & B2 & E2 & O2).
    split; [exact I2|]. split; [lra|]. split; [lra|]. split; [congruence|]. intros _.
    destruct f as [|f']; [exact O1|]. apply O2. lia.
Qed.

(** C6.  [RunMPLP] never increases the dual objective: from a consistent
    solver state, the sum over intersection sets of their maximal belief
    after the run is at most the one before, whatever the iteration count,
    thresholds and clock, and for any global decoding that restores what
    it changes. *)
Theorem RunMPLP_dual_le `{GlobalDecoder gd} c clk niter thr1 thr2 st :
  run_inv st ->
  dual (m_sum_into_intersects (RunMPLP c gd clk niter thr1 thr2 st)) <= dual (m_sum_into_intersects st).
Proof. intros I. apply (run_loop_spec c clk thr1 thr2 niter 0 st I). Qed.

(** C2.  The dual objective bounds every score: after [RunMPLP] from a
    consistent state whose beliefs bound every score (as a
    reparameterisation of the model does), the score
    [IntVal] of every full assignment is at most the dual objective, and
    the objective [RunMPLP] last recorded is that dual objective. *)
Theorem RunMPLP_dual_bound `{GlobalDecoder gd} c clk niter thr1 thr2 st :
  run_inv st -> (0 < niter)%nat ->
  let st' := RunMPLP c gd clk niter thr1 thr2 st in
  last_obj st' == dual (m_sum_into_intersects st') /\
  forall x, in_bounds (m_var_sizes st') x -> IntVal st' x <= last_obj st'.
Proof.
  intros I Hn st'. subst st'. unfold RunMPLP.
  destruct (run_loop_spec c clk thr1 thr2 niter 0 st I) as ((W & R & _) & _ & _ & _ & O).
  cbv zeta in W, R, O. specialize (O Hn). split; [exact O|].
  intros x Hx. pose proof (R x Hx).
  pose proof (total_le_dual _ _ _ x (proj1 W) Hx). lra.
Qed.

(** C8.  [RunMPLP] keeps the evidence and decodes every evidence variable
    to its evidence state, and never lowers the incumbent's score. *)
Theorem RunMPLP_evidence_best `{GlobalDecoder gd} c clk niter thr1 thr2 st :
  run_inv st ->
  let st' := RunMPLP c gd clk niter thr1 thr2 st in
  evidence st' = evidence st /\ ev_ok st' /\ m_best_val st <= m_best_val st'.
Proof.
  intros I st'. destruct (run_loop_spec c clk thr1 thr2 niter 0 st I) as ((_ & _ & Ev) & _ & B & E & _).
  auto.
Qed.

(** ** The decision procedures are sound *)

Lemma assignments_complete vs x : in_bounds vs x -> In x (assignments vs).
Proof.
  unfold in_bounds. intros H. induction H as [|a s x' vs' Ha _ IH]; simpl; [auto|].
  apply in_flat_map. exists a. split; [apply in_seq; lia|]. apply in_map, IH.
Qed.

Lemma run_invb_sound st : run_invb st = true -> run_inv st.
Proof.
  unfold run_invb, solver_wfb, rep_leb, ev_okb. intros H.
  apply andb_prop in H as [H E]. apply andb_prop in H as [H R].
  apply andb_prop in H as [H P]. apply andb_prop in H as [C Rs].
  split; [split; [apply cat_wfb_sound, C|split]|split].
  - intros ri Hri. rewrite forallb_forall in Rs. apply region_wfb_sound, Rs, in_seq. lia.
  - apply forallb_pos_sound, P.
  - intros x Hx. rewrite forallb_forall in R. apply Qle_bool_imp_le, R, assignments_complete, Hx.
  - intros v k Hv Hl. rewrite forallb_forall in E.
    assert (Hin : In (v, k) (map_to_list (evidence st))) by (apply list_elem_of_In, elem_of_map_to_list, Hv).
    specialize (E _ Hin). simpl in E. apply Nat.ltb_lt in Hl. rewrite Hl in E. simpl in E.
    apply Nat.eqb_eq, E.
Qed.

(** Not running the global decoding satisfies the interface. *)
#[export] Instance no_global_decoding : GlobalDecoder (fun st => st).
Proof. split; intros; auto using model_eq_refl, Qle_refl. Qed.

(** ** Witnesses *)

Lemma edge_model_inv : run_inv edge_model.
Proof. apply run_invb_sound. vm_compute. reflexivity. Qed.

Lemma RunMPLP_dual_le_witness :
  dual (m_sum_into_intersects (run_ex edge_model)) <= dual (m_sum_into_intersects edge_model).
Proof. apply (RunMPLP_dual_le (gd := fun st => st)). apply run_invb_sound. vm_compute. reflexivity. Defined.

Lemma RunMPLP_dual_bound_witness :
  last_obj (run_ex edge_model) == dual (m_sum_into_intersects (run_ex edge_model)) /\
  forall x, in_bounds (m_var_sizes (run_ex edge_model)) x ->
    IntVal (run_ex edge_model) x <= last_obj (run_ex edge_model).
Proof.
  apply (RunMPLP_dual_bound (gd := fun st => st)); [apply run_invb_sound; vm_compute; reflexivity|lia].
Defined.

Lemma RunMPLP_evidence_best_witness :
  evidence (run_ex evidence_model) = evidence evidence_model /\ ev_ok (run_ex evidence_model) /\
  m_best_val evidence_model <= m_best_val (run_ex evidence_model).
Proof. apply (RunMPLP_evidence_best (gd := fun st => st)). apply run_invb_sound. vm_compute. reflexivity. Defined.

(** C18.  A region without a potential ([all_lambdas[ri]] empty, any
    number of variables) gets an intersection set but no belief table
    (line 310): from a catalogue with one belief per set, [Init]'s step
    leaves one set more than beliefs, the new region's own set lies past
    the last belief, and the solver is no longer well formed. *)
Theorem Init_structural_misaligned (st : MPLPAlg) (inds : list nat) :
  length (m_sum_into_intersects st) = length (m_all_intersects st) ->
  let st' := init_region st (inds, []) in
  length (m_all_intersects st') = S (length (m_sum_into_intersects st')) /\
  m_region_intersect (nth_region (m_all_regions st') (length (m_all_regions st)))
    = length (m_sum_into_intersects st') /\
  ~ solver_wf st'.
Proof.
  intros H st'.
  assert (E : m_all_intersects st' = m_all_intersects st ++ [inds] /\
              m_sum_into_intersects st' = m_sum_into_intersects st /\
              m_all_regions st' = m_all_regions st ++
                [fst (Region_new inds (m_all_intersects st ++ [inds]) inds (m_var_sizes st)
                                 (length (m_all_intersects st ++ [inds]) - 1))])
    by (subst st'; unfold init_region; destruct inds as [|? [|]]; repeat split).
  destruct E as (A & Su & R). rewrite A, Su, R, length_app. simpl length.
  split; [lia|]. split.
  - unfold nth_region. rewrite nth_snoc by reflexivity. rewrite (proj2 (proj2 (Region_new_fields _ _ _ _ _))), ?length_app. simpl. lia.
  - intros [[Hc _] _]. rewrite A, Su, length_app in Hc. simpl in Hc. lia.
Qed.

Lemma Init_structural_misaligned_witness :
  let st := MPLPAlg_new ex_consts 100 ∅ false in
  length (m_sum_into_intersects st) = length (m_all_intersects st) /\
  let st' := init_region st ([0; 1]%nat, []) in
  length (m_all_intersects st') = S (length (m_sum_into_intersects st')) /\
  m_region_intersect (nth_region (m_all_regions st') (length (m_all_regions st)))
    = length (m_sum_into_intersects st') /\
  ~ solver_wf st'.
Proof.
  cbv zeta. split; [reflexivity|].
  apply (Init_structural_misaligned (MPLPAlg_new ex_consts 100 ∅ false) [0; 1]%nat). reflexivity.
Defined.

(** ** The edge index and [FindIntersectionSet] *)

Lemma length_sort V : length (NatSort.sort V) = length V.
Proof. symmetry. apply Permutation_length, NatSort.Permuted_sort. Qed.

Lemma sort_edge V : length V = 2%nat -> NatSort.sort V = [fst (edge_key V); snd (edge_key V)].
Proof.
  intros H. rewrite <- length_sort in H. unfold edge_key.
  destruct (NatSort.sort V) as [|a [|b [|]]]; simpl in *; congruence.
Qed.

Lemma map_insert_new_Some `{Countable K} (k k' : K) v m l :
  map_insert_new k v m !! k' = Some l -> m !! k' = Some l \/ (k' = k /\ l = v).
Proof.
  unfold map_insert_new. destruct (m !! k) eqn:E; [auto|].
  rewrite lookup_insert_Some. intuition.
Qed.

Lemma map_insert_new_is_Some `{Countable K} (k : K) v m : exists l, map_insert_new k v m !! k = Some l.
Proof.
  unfold map_insert_new. destruct (m !! k) eqn:E; [eauto|]. exists v. apply lookup_insert_eq.
Qed.

Lemma find_sorted_spec t ai i l :
  find_sorted t ai i = Some l -> (i <= l < i + length ai)%nat /\ NatSort.sort (nth (l - i) ai []) = t.
Proof.
  revert i; induction ai as [|J ai IH]; intros i H; simpl in H; [discriminate|].
  destruct (leqb (NatSort.sort J) t) eqn:E.
  - injection H as <-. apply leqb_true in E. rewrite Nat.sub_diag. simpl. split; [lia|auto].
  - destruct (IH (S i) H) as [B Hs]. simpl. split; [lia|].
    replace (l - i)%nat with (S (l - S i)) by lia. exact Hs.
Qed.

Lemma find_sorted_last t ai V i :
  NatSort.sort V = t -> exists l, find_sorted t (ai ++ [V]) i = Some l.
Proof.
  intros Hv. revert i; induction ai as [|J ai IH]; intros i; simpl.
  - rewrite Hv. destruct (leqb t t) eqn:E; [eauto|]. exfalso. rewrite <- Bool.not_true_iff_false in E. apply E, leqb_true. auto.
  - destruct (leqb (NatSort.sort J) t); eauto.
Qed.

Lemma map_ok_AddIntersectionSet st V : map_ok st -> map_ok (fst (AddIntersectionSet st V)).
Proof.
  intros H k l Hk. unfold AddIntersectionSet in *. cbn [fst m_intersect_map m_all_intersects set_catalogue] in *.
  rewrite length_app. simpl.
  assert (Old : m_intersect_map st !! k = Some l ->
                (l < length (m_all_intersects st) + 1)%nat /\
                length (nth l (m_all_intersects st ++ [V]) []) = 2%nat /\
                edge_key (nth l (m_all_intersects st ++ [V]) []) = k).
  { intros E. destruct (H k l E) as (L & L2 & Ek). rewrite app_nth1 by auto. split; [lia|auto]. }
  destruct (Nat.eqb_spec (length V) 2) as [H2|H2]; [|auto].
  apply map_insert_new_Some in Hk as [Hk|[-> ->]]; [auto|].
  rewrite length_app, app_nth2 by (simpl; lia). simpl. rewrite Nat.add_sub, Nat.sub_diag. simpl.
  split; [lia|auto].
Qed.

(** [FindIntersectionSet] only returns a set with the same variables. *)
Lemma FindIntersectionSet_sound st V l :
  map_ok st -> FindIntersectionSet st V = Some l ->
  (l < length (m_all_intersects st))%nat /\
  NatSort.sort (nth l (m_all_intersects st) []) = NatSort.sort V.
Proof.
  intros H. unfold FindIntersectionSet. destruct (Nat.eqb_spec (length (NatSort.sort V)) 2) as [E|E].
  - intros Hl. destruct (H _ _ Hl) as (L & L2 & Ek). split; [auto|].
    rewrite sort_edge, Ek by auto. simpl.
    destruct (NatSort.sort V) as [|a [|b [|]]]; simpl in E; try lia. reflexivity.
  - intros Hl. destruct (find_sorted_spec _ _ _ _ Hl) as [B Hs]. rewrite Nat.sub_0_r in Hs. split; [lia|auto].
Qed.

(** C17.  Adding an intersection set and then looking its variables up
    finds a set with those variables (an earlier one if the edge was
    already indexed), and the edge index stays consistent. *)
Theorem AddIntersectionSet_find st V :
  map_ok st ->
  let st' := fst (AddIntersectionSet st V) in
  map_ok st' /\
  exists l, FindIntersectionSet st' V = Some l /\ (l < length (m_all_intersects st'))%nat /\
            NatSort.sort (nth l (m_all_intersects st') []) = NatSort.sort V.
Proof.
  intros H st'. pose proof (map_ok_AddIntersectionSet st V H) as H'. split; [exact H'|].
  enough (exists l, FindIntersectionSet st' V = Some l) as [l Hl]
    by (exists l; split; [auto|apply FindIntersectionSet_sound; auto]).
  subst st'. unfold FindIntersectionSet, AddIntersectionSet. cbn [fst m_intersect_map m_all_intersects set_catalogue].
  rewrite length_sort. destruct (Nat.eqb_spec (length V) 2) as [E|E].
  - rewrite sort_edge by auto. apply map_insert_new_is_Some.
  - apply find_sorted_last. reflexivity.
Qed.

Lemma map_okb_sound st : map_okb st = true -> map_ok st.
Proof.
  unfold map_okb. rewrite forallb_forall. intros H k l Hk.
  assert (Hin : In (k, l) (map_to_list (m_intersect_map st))) by (apply list_elem_of_In, elem_of_map_to_list, Hk).
  specialize (H _ Hin). simpl in H. apply andb_prop in H as [H E]. apply andb_prop in H as [L L2].
  apply andb_prop in E as [E1 E2]. apply Nat.ltb_lt in L. apply Nat.eqb_eq in L2, E1, E2.
  split; [auto|]. split; [auto|]. destruct k as [a b].
  cbn [fst snd] in E1, E2. apply injective_projections; cbn [fst snd]; assumption.
Qed.

Lemma AddIntersectionSet_find_witness :
  let st' := fst (AddIntersectionSet edge_model [1; 0]%nat) in
  map_ok st' /\
  exists l, FindIntersectionSet st' [1; 0]%nat = Some l /\ (l < length (m_all_intersects st'))%nat /\
            NatSort.sort (nth l (m_all_intersects st') []) = NatSort.sort [1; 0]%nat.
Proof. apply AddIntersectionSet_find, map_okb_sound. vm_compute. reflexivity. Defined.

(** ** The result file *)

Lemma StronglySorted_snoc (l : list Q) x :
  StronglySorted Qlt l -> Forall (fun y => y < x) l -> StronglySorted Qlt (l ++ [x]).
Proof.
  induction 1 as [|a l Hs IH Ha]; intros Hf; simpl; [repeat constructor|].
  inversion Hf; subst. constructor; [auto|]. apply Forall_app. split; auto.
Qed.

Lemma out_ok_frame st st' :
  (forall a, IntVal st' a = IntVal st a) -> out_res st' = out_res st -> m_best_val st <= m_best_val st' ->
  out_ok st -> out_ok st'.
Proof.
  intros HI Ho Hb [S F]. unfold out_ok. rewrite Ho.
  rewrite (map_ext _ _ (fun o => HI (snd o))). split; [auto|].
  apply (Forall_impl _ _ _ F). intros o Hle. rewrite HI. lra.
Qed.

Lemma out_ok_push st st' d b :
  (forall a, IntVal st' a = IntVal st a) -> out_res st' = out_res st ++ [(b, d)] ->
  m_best_val st < IntVal st d -> m_best_val st' = IntVal st d -> out_ok st -> out_ok st'.
Proof.
  intros HI Ho Hlt Hb [S F]. unfold out_ok. rewrite Ho, (map_ext _ _ (fun o => HI (snd o))), Hb, map_app.
  simpl. rewrite List.Forall_forall in F. split.
  - apply StronglySorted_snoc; [exact S|]. apply List.Forall_forall. intros q Hq.
    apply in_map_iff in Hq as [o [<- Ho']]. specialize (F o Ho'). lra.
  - apply List.Forall_forall. intros o Ho'. rewrite HI. apply in_app_or in Ho' as [Ho'|[<-|[]]]; simpl.
    + specialize (F o Ho'). lra.
    + lra.
Qed.

(** C16.  [UpdateResult] keeps the result file consistent: a new line is
    written only for an assignment that scores strictly more than every
    line before it, and no line scores more than the incumbent; the
    incumbent never decreases and afterwards scores at least the decoded
    assignment. *)
Theorem UpdateResult_out_ok c st :
  out_ok st ->
  let st' := fst (UpdateResult c st) in
  out_ok st' /\ m_best_val st <= m_best_val st' /\ IntVal st (m_decoded_res st) <= m_best_val st'.
Proof.
  intros H st'. destruct (UpdateResult_best c st) as [B1 B2]. split; [|auto].
  subst st'. unfold UpdateResult in *. destruct (_ >.? m_best_val st) eqn:E; cbn [fst] in *; [|exact H].
  apply Qgtb_true in E.
  destruct (_ >.? MPLP_MIN_APP_TIME c).
  - apply (out_ok_push st _ (m_decoded_res st) (begin st)); auto.
  - apply (out_ok_frame st); auto.
Qed.

Lemma UpdateResult_out_ok_witness :
  let st' := fst (UpdateResult ex_consts edge_model) in
  out_ok st' /\ m_best_val edge_model <= m_best_val st' /\
  IntVal edge_model (m_decoded_res edge_model) <= m_best_val st'.
Proof. apply UpdateResult_out_ok. vm_compute. split; constructor. Defined.

End Solver.
