(* ===== verification/Decoding.v ===== *)
(** * Decoding: [MPLPAlg::RunGlobalDecoding] of [src/src/mplp_alg.cpp]

    The global decoding heuristic (lines 640-757) that [RunMPLP] calls
    once, a third of the way through the time limit.  It saves the
    messages, the beliefs and the evidence; then, while some variable is
    undecoded, it computes every undecoded variable's [gap] (the margin
    between its best and second-best belief), fixes the variables whose
    gap is within a tenth of the largest (as temporary evidence, with the
    other states of their singleton belief clamped to [-MPLP_huge]), and
    runs ten rounds of message passing, decoding and scoring; at the end
    it restores the messages, the beliefs and the evidence, keeping the
    decoded assignment and the incumbent.

    The file models the heuristic, proves that its loop ends with every
    variable decoded, and makes it an instance of the interface
    [GlobalDecoder] through which [Solver.v] states what [RunMPLP] needs
    of it, so that the [RunMPLP] theorems hold of the real decoder; the
    instance goes through [finish_decoder], which gives the interface to
    any decoding that ends by restoring what it saved ([finishes_as_saved])
    and which [Heuristics.v] reuses for [RunGlobalDecoding2]. *)

From Stdlib Require Import Arith ZArith QArith Lqa List Lia.
From stdpp Require Import base gmap.
From S2P Require Import Prelude Vec MulDimArr Region Solver.
Import ListNotations.
Open Scope Q_scope.
Open Scope mplp_scope.

Module Decoding.

Import MulDimArr Region Solver.Solver.
Abbreviation arr := MulDimArr.t.

(** ** Field updates *)

Definition set_evidence (st : MPLPAlg) (ev : gmap nat nat) : MPLPAlg :=
  mkAlg (m_var_sizes st) (m_all_intersects st) (m_sum_into_intersects st)
    (m_single_node_lambdas st) (m_all_regions st) (m_region_lambdas st) (m_intersect_map st)
    ev (m_decoded_res st) (m_best_decoded_res st) (m_best_val st) (last_obj st) (obj_del st)
    (total_mplp_iterations st) (previous_run_of_global_decoding st) (CSP_instance st)
    (m_uaiCompetition st) (time_limit st) (now st) (begin st) (out_res st).

Definition set_prev_run (st : MPLPAlg) (n : nat) : MPLPAlg :=
  mkAlg (m_var_sizes st) (m_all_intersects st) (m_sum_into_intersects st)
    (m_single_node_lambdas st) (m_all_regions st) (m_region_lambdas st) (m_intersect_map st)
    (evidence st) (m_decoded_res st) (m_best_decoded_res st) (m_best_val st) (last_obj st)
    (obj_del st) (total_mplp_iterations st) n (CSP_instance st)
    (m_uaiCompetition st) (time_limit st) (now st) (begin st) (out_res st).

Definition set_msgs (R : Region) (msgs : list arr) : Region :=
  mkRegion (m_region_inds R) (m_intersect_inds R) (m_region_intersect R)
    (m_inds_of_intersects R) msgs (Region.m_var_sizes R).

Section Decode.

Variable c : consts.

(** ** [gap(n, max_at)] (lines 1003-1020)

    The margin between the largest and the second largest belief of the
    singleton [n], and the state of the largest.  [max_at] is an output
    parameter that the scan assigns only on a belief above the running
    maximum: the incoming value is kept otherwise. *)
Definition gap_step (a : arr) (acc : Q * Q * nat) (s : nat) : Q * Q * nat :=
  let '(m1, m2, max_at) := acc in
  let m := (m_dat a).[s] in
  if m >.? m1 then (m, m1, s) else if m >.? m2 then (m1, m, max_at) else (m1, m2, max_at).

Definition gap (st : MPLPAlg) (n max_at : nat) : Q * nat :=
  let size := nth n (m_var_sizes st) 0%nat in
  if Nat.ltb size 2 then (MPLP_huge c, 0%nat)
  else
    let '(m1, m2, at_) := fold_left (gap_step (nth_arr (m_sum_into_intersects st) n)) (seq 0 size)
                                    (- MPLP_huge c, - MPLP_huge c, max_at) in
    (m1 - m2, at_).

(** ** One round of the [while] loop (lines 683-736) *)

(** Lines 685-689: the gap of every undecoded variable, into [gap_vals]
    and [max_at], and the largest gap.  [m] is the one variable that
    carries the argmax from [gap] to [max_at[*s_it]]. *)
Definition gap_loop (st : MPLPAlg) (nd : list nat) (acc : Q * nat * list Q * list nat)
    : Q * nat * list Q * list nat :=
  fold_left (fun acc s =>
      let '(biggest, m, gap_vals, max_at) := acc in
      let '(g, m') := gap st s m in
      (if Qle_bool biggest g then g else biggest, m', set_nth s g gap_vals, set_nth s m' max_at))
    nd acc.

(** Lines 709-715: the other states of a fixed variable's singleton
    belief are clamped to [-MPLP_huge]: [i] runs below [max_at], then from
    [max_at + 1] to the domain size. *)
Definition clamp (size max_at : nat) (a : arr) : arr :=
  let d1 := fold_left (fun d i => set_nth i (- MPLP_huge c) d) (seq 0 max_at) (m_dat a) in
  mk (m_base_sizes a) (fold_left (fun d i => set_nth i (- MPLP_huge c) d)
                                 (seq (S max_at) (size - S max_at)) d1).

(** Lines 704-715: fixing variable [s] to state [m]: temporary evidence,
    the decoded state, and the clamped belief. *)
Definition fix_var (s m : nat) (st : MPLPAlg) : MPLPAlg :=
  let st1 := set_decoded (set_evidence st (<[s := m]> (evidence st))) (set_nth s m (m_decoded_res st)) in
  set_sums st1 (set_nth s (clamp (nth s (m_var_sizes st) 0%nat) m (nth_arr (m_sum_into_intersects st) s))
                         (m_sum_into_intersects st)).

(** Lines 701-720: every undecoded variable whose gap reaches the
    threshold is fixed and leaves [not_decoded]; in exhaustive mode the
    loop stops after the first.  The loop walks the set as it was when the
    loop began: the source erases [*s_it] and then increments [s_it],
    which the C++ standard leaves undefined, and this is the walk the
    code means. *)
Fixpoint fix_loop (exhaustive : bool) (thr : Q) (gap_vals : list Q) (max_at : list nat)
    (l : list nat) (st : MPLPAlg) (nd : list nat) : MPLPAlg * list nat :=
  match l with
  | [] => (st, nd)
  | s :: l' =>
      if Qle_bool thr gap_vals.[s] then
        let st' := fix_var s (nth s max_at 0%nat) st in
        let nd' := remove Nat.eq_dec s nd in
        if exhaustive then (st', nd') else fix_loop exhaustive thr gap_vals max_at l' st' nd'
      else fix_loop exhaustive thr gap_vals max_at l' st nd
  end.

(** Lines 722-731: ten rounds of message passing, each followed by
    [LocalDecode] and [UpdateResult]. *)
Definition inner_iter (st : MPLPAlg) : MPLPAlg :=
  fst (UpdateResult c (fst (LocalDecode c (sweep st)))).

Definition inner_loop (st : MPLPAlg) : MPLPAlg :=
  fold_left (fun st _ => inner_iter st) (seq 0 10) st.

(** The state the [while] loop carries: the solver, [not_decoded], [m],
    [gap_vals] and [max_at]. *)
Record gd_state := mkGd {
  gd_st : MPLPAlg; gd_nd : list nat; gd_m : nat; gd_gap_vals : list Q; gd_max_at : list nat
}.

Definition gd_round (exhaustive : bool) (g : gd_state) : gd_state :=
  let st := gd_st g in
  let '(biggest, m, gap_vals, max_at) :=
    gap_loop st (gd_nd g) (- MPLP_huge c, gd_m g, gd_gap_vals g, gd_max_at g) in
  let thr := if exhaustive then biggest / 1 else biggest / 10 in
  let '(st', nd') := fix_loop exhaustive thr gap_vals max_at (gd_nd g) st (gd_nd g) in
  mkGd (inner_loop st') nd' m gap_vals max_at.

(** [while (!not_decoded.empty())], with fuel; [gd_loop_done] shows that
    the number of undecoded variables is enough. *)
Fixpoint gd_loop (fuel : nat) (exhaustive : bool) (g : gd_state) : gd_state :=
  match fuel with
  | O => g
  | S f => match gd_nd g with
           | [] => g
           | _ => gd_loop f exhaustive (gd_round exhaustive g)
           end
  end.

(** ** Saving and restoring (lines 658-673 and 738-749) *)

(** [push_back] of the [m_n_prodsize] cells of a table. *)
Definition save_arr (a : arr) : list Q :=
  map (fun k => (m_dat a).[k]) (seq 0 (prodsize (m_base_sizes a))).

(** [m_dat[k] = tmp[k]] for the [m_n_prodsize] cells of a table. *)
Definition restore_arr (a : arr) (d : list Q) : arr :=
  mk (m_base_sizes a) (fold_left (fun dat k => set_nth k d.[k] dat)
                                 (seq 0 (prodsize (m_base_sizes a))) (m_dat a)).

Definition save_msgs (st : MPLPAlg) : list (list (list Q)) :=
  map (fun R => map save_arr (m_msgs_from_region R)) (m_all_regions st).

Definition save_sums (st : MPLPAlg) : list (list Q) :=
  map save_arr (m_sum_into_intersects st).

Definition restore_region (R : Region) (saved : list (list Q)) : Region :=
  set_msgs R (map (fun j => restore_arr (nth_arr (m_msgs_from_region R) j) (nth j saved []))
                  (seq 0 (length (m_msgs_from_region R)))).

Definition restore (tmp_msgs : list (list (list Q))) (tmp_sums : list (list Q)) (st : MPLPAlg)
    : MPLPAlg :=
  set_regions_sums st
    (map (fun i => restore_region (nth_region (m_all_regions st) i) (nth i tmp_msgs []))
         (seq 0 (length (m_all_regions st))))
    (map (fun i => restore_arr (nth_arr (m_sum_into_intersects st) i) (nth i tmp_sums []))
         (seq 0 (length (m_sum_into_intersects st)))).

(** ** [RunGlobalDecoding(exhaustive)] (lines 640-757)

    The variables without evidence start undecoded (lines 676-680); the
    arrays [gap_vals] and [max_at] and the variable [m] are allocated
    uninitialised, and start at [0] here.  The fuel is the number of
    variables. *)
Definition not_decoded0 (st : MPLPAlg) : list nat :=
  List.filter (fun i => match evidence st !! i with None => true | Some _ => false end)
         (seq 0 (length (m_var_sizes st))).

(** Lines 738-752: the messages, the beliefs and the evidence are copied
    back, and the iteration count of this run is recorded. *)
Definition gd_finish (tmp_msgs : list (list (list Q))) (tmp_sums : list (list Q))
    (tmp_evid : gmap nat nat) (st : MPLPAlg) : MPLPAlg :=
  let st2 := restore tmp_msgs tmp_sums st in
  set_prev_run (set_evidence st2 tmp_evid) (total_mplp_iterations st2).

Definition RunGlobalDecoding (exhaustive : bool) (st : MPLPAlg) : MPLPAlg :=
  let n := length (m_var_sizes st) in
  let g := gd_loop n exhaustive (mkGd st (not_decoded0 st) 0 (repeat 0 n) (repeat 0%nat n)) in
  gd_finish (save_msgs st) (save_sums st) (evidence st) (gd_st g).

End Decode.


(** ** Example: two variables without regions

    Domains [2] and [3], singleton potentials [[1, 0]] and [[0, 5, 2]]. *)
Definition fields_model : MPLPAlg :=
  Init ex_consts (fun _ _ => 0) (MPLPAlg_new ex_consts 100 ∅ false) [2; 3]%nat [[0]; [1]]%nat
       [[1; 0]; [0; 5; 2]].

(** The same model after its first variable's beliefs have all dropped
    to [-MPLP_huge]. *)
Definition clamped_model : MPLPAlg :=
  set_sums fields_model [mk [2%nat] [-1000000; -1000000]; mk [3%nat] [0; 5; 2]].

(** ** What the decoding keeps

    [gd_inv st0 st]: [st] has the model, the catalogue and the regions'
    frames of [st0], a well-formed catalogue, at least the evidence of
    [st0], the evidence variables of [st0] decoded as in [st0], an
    incumbent no worse, and the objective history of [st0]. *)
Record gd_inv (st0 st : MPLPAlg) : Prop := {
  gi_vs : m_var_sizes st = m_var_sizes st0;
  gi_ai : m_all_intersects st = m_all_intersects st0;
  gi_single : m_single_node_lambdas st = m_single_node_lambdas st0;
  gi_lams : m_region_lambdas st = m_region_lambdas st0;
  gi_len : length (m_all_regions st) = length (m_all_regions st0);
  gi_frame : forall j, same_frame (nth_region (m_all_regions st0) j) (nth_region (m_all_regions st) j);
  gi_wf : solver_wf st;
  gi_ev : forall v k, evidence st0 !! v = Some k -> evidence st !! v = Some k;
  gi_dec_len : length (m_decoded_res st) = length (m_decoded_res st0);
  gi_dec : forall v k, evidence st0 !! v = Some k ->
             nth v (m_decoded_res st) 0%nat = nth v (m_decoded_res st0) 0%nat;
  gi_best : m_best_val st0 <= m_best_val st;
  gi_obj : last_obj st = last_obj st0 /\ obj_del st = obj_del st0
}.

(** ** Saving and restoring give back what was saved *)

Lemma restore_arr_save a b :
  m_base_sizes a = m_base_sizes b -> wf a -> wf b -> restore_arr a (save_arr b) = b.
Proof.
  destruct b as [bs bd]. unfold restore_arr, save_arr, wf. cbn [m_base_sizes m_dat]. intros -> Wa Wb.
  f_equal. apply nth_ext with (d := 0) (d' := 0).
  - rewrite length_fold_set_nth. congruence.
  - intros j Hj. rewrite length_fold_set_nth in Hj. rewrite nth_fold_set_nth_seq.
    destruct (Nat.ltb_spec j (0 + prodsize bs)); [|lia].
    destruct (Nat.ltb_spec j (length (m_dat a))); [|lia]. simpl.
    rewrite (nth_map_lt _ _ 0%nat) by (rewrite length_seq; lia). rewrite seq_nth by lia. reflexivity.
Qed.

Lemma map_nth_seq_id {A} (l : list A) d : map (fun i => nth i l d) (seq 0 (length l)) = l.
Proof. rewrite <- (map_seq_nth (fun x => x)). apply map_id. Qed.

Lemma restore_region_save vs ai sums sums' R0 R :
  region_wf vs ai sums R0 -> region_wf vs ai sums' R -> same_frame R0 R ->
  restore_region R (map save_arr (m_msgs_from_region R0)) = R0.
Proof.
  intros W0 W (F1 & F2 & F3 & F4 & F5). destruct R0 as [ri S r Ps msgs0 rvs]. cbn in *.
  unfold restore_region, set_msgs. rewrite F1, F2, F3, F4, F5. f_equal.
  pose proof (rw_len_msgs _ _ _ _ W) as L. pose proof (rw_len_msgs _ _ _ _ W0) as L0. cbn in L0.
  rewrite F2 in L. rewrite L, <- L0. rewrite <- (map_nth_seq_id msgs0 MulDimArr.empty) at 2.
  apply map_ext_in. intros j Hj. apply In_seq_lt in Hj.
  rewrite (nth_map_lt _ _ MulDimArr.empty) by lia. fold (nth_arr msgs0 j).
  destruct (rw_msgs _ _ _ _ W j ltac:(rewrite F2; lia)) as [B Wj]. destruct (rw_msgs _ _ _ _ W0 j ltac:(cbn; lia)) as [B0 Wj0].
  cbn in B0, Wj0. rewrite F2 in B. unfold nth_arr in *. apply restore_arr_save; [rewrite B, B0; reflexivity|exact Wj|exact Wj0].
Qed.

Lemma restore_save st0 st :
  solver_wf st0 -> solver_wf st ->
  m_var_sizes st = m_var_sizes st0 -> m_all_intersects st = m_all_intersects st0 ->
  length (m_all_regions st) = length (m_all_regions st0) ->
  (forall j, same_frame (nth_region (m_all_regions st0) j) (nth_region (m_all_regions st) j)) ->
  restore (save_msgs st0) (save_sums st0) st
  = set_regions_sums st (m_all_regions st0) (m_sum_into_intersects st0).
Proof.
  intros ((L0 & C0) & R0 & _) ((L & C) & R & _) Hv Ha Hl F. unfold restore. f_equal.
  - rewrite Hl. rewrite <- (map_nth_seq_id (m_all_regions st0) empty_region) at 2.
    apply map_ext_in. intros j Hj. apply In_seq_lt in Hj. unfold save_msgs.
    rewrite (nth_map_lt _ _ empty_region) by lia.
    apply (restore_region_save (m_var_sizes st0) (m_all_intersects st0) (m_sum_into_intersects st0)
             (m_sum_into_intersects st)); [apply R0; lia| |apply F].
    rewrite <- Hv, <- Ha. apply R. lia.
  - assert (Ls : length (m_sum_into_intersects st) = length (m_sum_into_intersects st0)) by congruence.
    rewrite Ls. rewrite <- (map_nth_seq_id (m_sum_into_intersects st0) MulDimArr.empty) at 2.
    apply map_ext_in. intros j Hj. apply In_seq_lt in Hj. unfold save_sums.
    rewrite (nth_map_lt _ _ MulDimArr.empty) by lia. fold (nth_arr (m_sum_into_intersects st0) j).
    destruct (C j ltac:(lia)) as (B & W & _). destruct (C0 j ltac:(lia)) as (B0 & W0 & _).
    apply restore_arr_save; [rewrite B, B0, Hv, Ha; reflexivity|exact W|exact W0].
Qed.


(** ** Every step of the decoding keeps [gd_inv] *)

Section Steps.

Variable c : consts.

Lemma gd_inv_refl st : solver_wf st -> gd_inv st st.
Proof.
  intros W. constructor; auto using same_frame_refl, Qle_refl.
Qed.

Lemma gd_inv_sweep st0 st : gd_inv st0 st -> gd_inv st0 (sweep st).
Proof.
  intros I. destruct (sweep_spec st (gi_wf _ _ I)) as (regs & sums & E & L & F & W & _).
  rewrite E in W |- *. destruct I. constructor; cbn; auto.
  - congruence.
  - intros j. eapply same_frame_trans; [apply gi_frame0|apply F].
Qed.

Lemma gd_inv_UpdateResult st0 st : gd_inv st0 st -> gd_inv st0 (fst (UpdateResult c st)).
Proof.
  intros I. pose proof (UpdateResult_model c st) as M.
  destruct (UpdateResult_frame c st) as (H1 & H2 & H3 & H4 & H5 & H6 & _ & H8 & H9 & _ & H11 & H12 & _).
  pose proof (proj1 (UpdateResult_best c st)) as B.
  destruct I. constructor;
    first [congruence | rewrite H5; exact gi_frame0 | apply (model_eq_solver_wf _ _ M gi_wf0)
          | rewrite H8; exact gi_ev0 | rewrite H9; exact gi_dec0 | lra | rewrite H11, H12; exact gi_obj0].
Qed.

Lemma gd_inv_LocalDecode st0 st : gd_inv st0 st -> gd_inv st0 (fst (LocalDecode c st)).
Proof.
  intros I. pose proof (LocalDecode_model c st) as M. pose proof (LocalDecode_best c st) as B.
  destruct (LocalDecode_frame c st) as (H1 & H2 & H3 & H4 & H5 & H6 & _ & H8 & H9 & _ & H11 & H12 & _).
  set (ws := map (dec_write st) (seq 0 (length (m_sum_into_intersects st)))) in H9.
  destruct (writes_out ws (m_decoded_res st)) as [Lw Ow].
  destruct I. constructor;
    first [congruence | rewrite H5; exact gi_frame0 | apply (model_eq_solver_wf _ _ M gi_wf0)
          | rewrite H8; exact gi_ev0 | rewrite H9, Lw; exact gi_dec_len0 | lra
          | rewrite H11, H12; exact gi_obj0 | idtac].
  intros v k Hv. rewrite H9, Ow; [apply (gi_dec0 v k Hv)|].
  intros Hin. apply written_dec in Hin. rewrite (gi_ev0 v k Hv) in Hin. discriminate.
Qed.

Lemma gd_inv_inner st0 st : gd_inv st0 st -> gd_inv st0 (inner_loop c st).
Proof.
  intros I. unfold inner_loop. generalize (seq 0 10). intros l. revert st I.
  induction l as [|i l IH]; intros st I; simpl; [exact I|]. apply IH.
  unfold inner_iter. apply gd_inv_UpdateResult, gd_inv_LocalDecode, gd_inv_sweep, I.
Qed.

Lemma clamp_shape size m a :
  m_base_sizes (clamp c size m a) = m_base_sizes a /\ length (m_dat (clamp c size m a)) = length (m_dat a).
Proof.
  unfold clamp. cbn [m_base_sizes m_dat]. split; [reflexivity|].
  rewrite (length_fold_set_nth (fun _ => - MPLP_huge c)), (length_fold_set_nth (fun _ => - MPLP_huge c)).
  reflexivity.
Qed.

(** Fixing a variable without evidence in [st0]. *)
Lemma gd_inv_fix_var st0 st s m :
  evidence st0 !! s = None -> gd_inv st0 st -> gd_inv st0 (fix_var c s m st).
Proof.
  intros Hs I. destruct I. destruct gi_wf0 as ((L & C) & R & P).
  unfold fix_var. set (a := clamp c _ m _).
  constructor; cbn [set_sums set_catalogue set_decoded set_evidence m_var_sizes m_all_intersects m_sum_into_intersects m_single_node_lambdas m_all_regions m_region_lambdas evidence m_decoded_res m_best_val last_obj obj_del]; auto.
  - unfold solver_wf, cat_wf, regions_wf; cbn [set_sums set_catalogue set_decoded set_evidence m_var_sizes m_all_intersects m_sum_into_intersects m_single_node_lambdas m_all_regions m_region_lambdas evidence m_decoded_res m_best_val last_obj obj_del]. split; [split; [rewrite length_set_nth; exact L|]|split; [|exact P]].
    + intros i Hi. rewrite length_set_nth in Hi. rewrite nth_arr_set.
      destruct (Nat.eqb_spec i s) as [->|]; [|apply C, Hi].
      destruct (Nat.ltb _ _); [|apply C, Hi]. destruct (C s Hi) as (B & W & F).
      destruct (clamp_shape (nth s (m_var_sizes st) 0%nat) m (nth_arr (m_sum_into_intersects st) s)) as [Ba La].
      fold a in Ba, La. split; [congruence|]. split; [unfold wf in *; congruence|exact F].
    + intros ri Hri. apply region_wf_len with (sums := m_sum_into_intersects st); [apply length_set_nth|].
      apply R, Hri.
  - intros v k Hv. rewrite lookup_insert_ne; [apply gi_ev0, Hv|]. intros ->. congruence.
  - rewrite length_set_nth. exact gi_dec_len0.
  - intros v k Hv. rewrite nth_set_nth_ne; [apply (gi_dec0 v k Hv)|]. intros ->. congruence.
Qed.

End Steps.


(** ** The loop keeps [gd_inv] *)

Section Loop.

Variable c : consts.
Variable st0 : MPLPAlg.

(** The undecoded variables have no evidence in [st0]. *)
Definition nd_ok (nd : list nat) : Prop := forall s, In s nd -> evidence st0 !! s = None.

Lemma nd_ok_incl nd nd' : incl nd' nd -> nd_ok nd -> nd_ok nd'.
Proof. intros I H s Hs. apply H, I, Hs. Qed.

Lemma fix_loop_inv ex thr gv ma l st nd :
  nd_ok l -> gd_inv st0 st ->
  gd_inv st0 (fst (fix_loop c ex thr gv ma l st nd)) /\ incl (snd (fix_loop c ex thr gv ma l st nd)) nd.
Proof.
  revert st nd; induction l as [|s l IH]; intros st nd Hl I; cbn [fix_loop].
  - split; [exact I|apply incl_refl].
  - assert (Hs : evidence st0 !! s = None) by (apply Hl; left; reflexivity).
    assert (Hl' : nd_ok l) by (intros x Hx; apply Hl; right; exact Hx).
    assert (Hr : incl (remove Nat.eq_dec s nd) nd) by (intros x Hx; apply in_remove in Hx; apply Hx).
    destruct (Qle_bool _ _); [destruct ex|].
    + split; [apply gd_inv_fix_var; auto|exact Hr].
    + destruct (IH (fix_var c s (nth s ma 0%nat) st) (remove Nat.eq_dec s nd) Hl') as [I' H'];
        [apply gd_inv_fix_var; auto|].
      split; [exact I'|eapply incl_tran; eauto].
    + apply IH; auto.
Qed.

Lemma gd_round_inv ex g :
  nd_ok (gd_nd g) -> gd_inv st0 (gd_st g) ->
  gd_inv st0 (gd_st (gd_round c ex g)) /\ incl (gd_nd (gd_round c ex g)) (gd_nd g).
Proof.
  intros Hn I. unfold gd_round.
  destruct (gap_loop _ _ _ _) as [[[b m] gv] ma].
  pose proof (fix_loop_inv ex (if ex then b / 1 else b / 10) gv ma (gd_nd g) (gd_st g) (gd_nd g) Hn I) as [I' H'].
  destruct (fix_loop _ _ _ _ _ _ _ _) as [st' nd']. cbn [fst snd gd_st gd_nd] in *.
  split; [apply gd_inv_inner, I'|exact H'].
Qed.

Lemma gd_loop_inv fuel ex g :
  nd_ok (gd_nd g) -> gd_inv st0 (gd_st g) ->
  gd_inv st0 (gd_st (gd_loop c fuel ex g)) /\ nd_ok (gd_nd (gd_loop c fuel ex g)).
Proof.
  revert g; induction fuel as [|f IH]; intros g Hn I; cbn [gd_loop]; [auto|].
  destruct (gd_nd g) eqn:E; [rewrite E; auto|]. rewrite <- E in Hn.
  destruct (gd_round_inv ex g Hn I) as [I' H']. apply IH; [|exact I'].
  apply (nd_ok_incl (gd_nd g)); auto.
Qed.

End Loop.

Lemma not_decoded0_ok st : nd_ok st (not_decoded0 st).
Proof.
  intros s Hs. unfold not_decoded0 in Hs. apply filter_In in Hs as [_ H].
  destruct (evidence st !! s); [discriminate|reflexivity].
Qed.

(** Restoring after a run that kept [gd_inv]. *)
Lemma gd_finish_spec st0 stg ev :
  solver_wf st0 -> gd_inv st0 stg ->
  gd_finish (save_msgs st0) (save_sums st0) ev stg
  = set_prev_run (set_evidence (set_regions_sums stg (m_all_regions st0) (m_sum_into_intersects st0)) ev)
                 (total_mplp_iterations stg).
Proof. intros W I. unfold gd_finish. destruct I. rewrite restore_save; auto. Qed.

(** The decoding ends in a state that has the messages, the beliefs and
    the evidence it started from. *)
Lemma RunGlobalDecoding_spec c ex st :
  solver_wf st ->
  exists stg, gd_inv st stg /\
    RunGlobalDecoding c ex st
    = set_prev_run (set_evidence (set_regions_sums stg (m_all_regions st) (m_sum_into_intersects st))
                                 (evidence st)) (total_mplp_iterations stg).
Proof.
  intros W. unfold RunGlobalDecoding.
  set (g := gd_loop c _ ex _).
  destruct (gd_loop_inv c st (length (m_var_sizes st)) ex
              (mkGd st (not_decoded0 st) 0 (repeat 0 (length (m_var_sizes st))) (repeat 0%nat (length (m_var_sizes st))))
              (not_decoded0_ok st) (gd_inv_refl st W)) as [I _].
  fold g in I. exists (gd_st g). split; [exact I|]. apply gd_finish_spec; auto.
Qed.


Lemma gd_inv_trans a b c : gd_inv a b -> gd_inv b c -> gd_inv a c.
Proof.
  intros I J. destruct I, J. constructor;
    first [congruence | exact gi_wf1 | lra
          | intros j; eapply same_frame_trans; eauto
          | intros v k H; apply gi_ev1, gi_ev0, H
          | intros v k H; rewrite (gi_dec1 v k (gi_ev0 v k H)); apply (gi_dec0 v k H)
          | destruct gi_obj0, gi_obj1; split; congruence].
Qed.

(** A run of [RunGlobalDecoding] as a whole keeps [gd_inv]. *)
Lemma RunGlobalDecoding_inv c ex st : solver_wf st -> gd_inv st (RunGlobalDecoding c ex st).
Proof.
  intros W. destruct (RunGlobalDecoding_spec c ex st W) as (stg & I & ->). pose proof I as J. destruct J.
  constructor; cbn; auto using same_frame_refl.
  unfold solver_wf, regions_wf, cat_wf in *. cbn. rewrite gi_vs0, gi_ai0. exact W.
Qed.

(** ** [RunGlobalDecoding] implements the [GlobalDecoder] interface

    Every global decoding of the source ends the same way: it copies the
    saved messages and beliefs back, restores the evidence and records the
    iteration count.  A decoding that ends so, from a state that [gd_inv]
    relates to the one it started from, meets the interface. *)

Definition finishes_as_saved (gd : MPLPAlg -> MPLPAlg) : Prop :=
  forall st, solver_wf st -> exists stg, gd_inv st stg /\
    gd st = set_prev_run (set_evidence (set_regions_sums stg (m_all_regions st) (m_sum_into_intersects st))
                                       (evidence st)) (total_mplp_iterations stg).

Section Contract.

Variable gd : MPLPAlg -> MPLPAlg.
Hypothesis F : finishes_as_saved gd.
Variable st : MPLPAlg.
Hypothesis W : solver_wf st.

Lemma finish_model : model_eq st (gd st).
Proof. destruct (F st W) as (stg & I & ->). destruct I. repeat split; cbn; auto. Qed.

Lemma finish_evidence : evidence (gd st) = evidence st.
Proof. destruct (F st W) as (stg & I & ->). reflexivity. Qed.

Lemma finish_ev_ok : ev_ok st -> ev_ok (gd st).
Proof.
  intros H v k Hv Hl. destruct (F st W) as (stg & I & E). rewrite E in Hv, Hl |- *.
  cbn in Hv, Hl |- *. destruct I. rewrite (gi_dec0 v k Hv). apply H; [exact Hv|congruence].
Qed.

Lemma finish_best : m_best_val st <= m_best_val (gd st).
Proof. destruct (F st W) as (stg & I & ->). apply (gi_best _ _ I). Qed.

Lemma finish_obj : last_obj (gd st) = last_obj st /\ obj_del (gd st) = obj_del st.
Proof. destruct (F st W) as (stg & I & ->). apply (gi_obj _ _ I). Qed.

End Contract.

Lemma finish_decoder gd : finishes_as_saved gd -> GlobalDecoder gd.
Proof.
  intros F. constructor; intros st W.
  - apply finish_model; assumption.
  - apply finish_evidence; assumption.
  - apply finish_ev_ok; assumption.
  - apply finish_best; assumption.
  - apply finish_obj; assumption.
Qed.

#[export] Instance RunGlobalDecoding_decoder c ex : GlobalDecoder (RunGlobalDecoding c ex).
Proof. apply finish_decoder. intros st W. apply RunGlobalDecoding_spec, W. Qed.


(** ** The [while] loop ends with every variable decoded *)

Section Termination.

Variable c : consts.
Hypothesis Hhuge : 0 <= MPLP_huge c.

Lemma gap_fold_le a l m1 m2 at_ :
  m2 <= m1 -> let '(x, y, _) := fold_left (gap_step a) l (m1, m2, at_) in y <= x.
Proof.
  revert m1 m2 at_; induction l as [|s l IH]; intros m1 m2 at_ H; cbn [fold_left]; [exact H|].
  unfold gap_step at 2. destruct ((m_dat a).[s] >.? m1) eqn:E1; [|destruct ((m_dat a).[s] >.? m2) eqn:E2].
  - apply IH. apply Qgtb_true in E1. lra.
  - apply IH. apply Qgtb_false in E1. exact E1.
  - apply IH. exact H.
Qed.

(** A gap is never negative. *)
Lemma gap_nonneg st n m : 0 <= fst (gap c st n m).
Proof.
  unfold gap. destruct (Nat.ltb _ 2); [exact Hhuge|].
  pose proof (gap_fold_le (nth_arr (m_sum_into_intersects st) n) (seq 0 (nth n (m_var_sizes st) 0%nat))
                (- MPLP_huge c) (- MPLP_huge c) m (Qle_refl _)) as H.
  destruct (fold_left _ _ _) as [[x y] at_]. cbn [fst]. lra.
Qed.

(** The first loop of a round: [gap_vals] holds the gap of every
    undecoded variable, and the largest gap is one of them. *)
Lemma gap_loop_spec st nd b m gv ma :
  List.NoDup nd -> (forall s, In s nd -> s < length gv)%nat ->
  let '(b', _, gv', _) := gap_loop c st nd (b, m, gv, ma) in
  length gv' = length gv /\ (forall s, ~ In s nd -> gv'.[s] = gv.[s]) /\
  (b' = b \/ exists s, In s nd /\ gv'.[s] = b' /\ 0 <= b') /\
  (nd <> [] -> b <= 0 -> exists s, In s nd /\ gv'.[s] = b' /\ 0 <= b').
Proof.
  unfold gap_loop. revert b m gv ma; induction nd as [|s nd IH]; intros b m gv ma Hnd Hlt; cbn [fold_left].
  { split; [reflexivity|]. split; [reflexivity|]. split; [left; reflexivity|]. congruence. }
  inversion Hnd as [|? ? Hs Hnd']; subst.
  pose proof (gap_nonneg st s m) as G. destruct (gap c st s m) as [g m1] eqn:Eg. cbn [fst] in G.
  assert (Hs' : (s < length gv)%nat) by (apply Hlt; left; reflexivity).
  assert (Gs : forall gv'', (forall x, ~ In x nd -> gv''.[x] = (set_nth s g gv).[x]) -> gv''.[s] = g)
    by (intros gv'' H; rewrite H by exact Hs; apply nth_set_nth_eq, Hs').
  specialize (IH (if Qle_bool b g then g else b) m1 (set_nth s g gv) (set_nth s m1 ma) Hnd').
  destruct (fold_left _ nd _) as [[[b' m'] gv'] ma'].
  destruct IH as (L & O & W & _); [intros x Hx; rewrite length_set_nth; apply Hlt; right; exact Hx|].
  rewrite length_set_nth in L. split; [exact L|]. split.
  { intros x Hx. rewrite O by (intros H; apply Hx; right; exact H). apply nth_set_nth_ne.
    intros ->. apply Hx. left. reflexivity. }
  assert (Wit : b' = g -> exists x, In x (s :: nd) /\ gv'.[x] = b' /\ 0 <= b')
    by (intros ->; exists s; split; [left; reflexivity|]; split; [apply Gs, O|exact G]).
  destruct (Qle_bool b g) eqn:Eb; split.
  - destruct W as [->|(x & Hx & Ex & Px)]; [right; apply Wit; reflexivity|right; exists x; auto with datatypes].
  - intros _ _. destruct W as [->|(x & Hx & Ex & Px)]; [apply Wit; reflexivity|exists x; auto with datatypes].
  - destruct W as [->|(x & Hx & Ex & Px)]; [left; reflexivity|right; exists x; auto with datatypes].
  - intros _ Hb. exfalso. assert (Hn : ~ b <= g) by (intros H; apply Qle_bool_iff in H; congruence).
    apply Qnot_le_lt in Hn. lra.
Qed.


Lemma NoDup_remove_nat x l : List.NoDup l -> List.NoDup (remove Nat.eq_dec x l).
Proof.
  induction l as [|y l IH]; intros H; cbn; [constructor|]. inversion H as [|? ? Hy Hl]; subst.
  destruct (Nat.eq_dec x y); [auto|]. constructor; [|auto]. intros Hin. apply in_remove in Hin. tauto.
Qed.

(** The second loop of a round only removes variables from [not_decoded]. *)
Lemma fix_loop_nd ex thr gv ma l st nd :
  let nd' := snd (fix_loop c ex thr gv ma l st nd) in
  incl nd' nd /\ (length nd' <= length nd)%nat /\ (List.NoDup nd -> List.NoDup nd').
Proof.
  revert st nd; induction l as [|s l IH]; intros st nd; cbv zeta in *; cbn [fix_loop fst snd].
  { split; [apply incl_refl|]. split; [lia|auto]. }
  assert (R : incl (remove Nat.eq_dec s nd) nd /\ (length (remove Nat.eq_dec s nd) <= length nd)%nat /\
              (List.NoDup nd -> List.NoDup (remove Nat.eq_dec s nd)))
    by (split; [intros x Hx; apply in_remove in Hx; apply Hx|split; [apply remove_length_le|apply NoDup_remove_nat]]).
  destruct (Qle_bool _ _); [destruct ex|]; [exact R| |apply IH].
  destruct (IH (fix_var c s (nth s ma 0%nat) st) (remove Nat.eq_dec s nd)) as (I1 & L1 & N1).
  destruct R as (I2 & L2 & N2). split; [eapply incl_tran; eauto|]. split; [lia|auto].
Qed.

(** A variable whose gap reaches the threshold is fixed, so the round
    decodes at least one variable. *)
Lemma fix_loop_progress ex thr gv ma l st nd :
  List.NoDup l -> incl l nd -> (exists s, In s l /\ thr <= gv.[s]) ->
  (length (snd (fix_loop c ex thr gv ma l st nd)) < length nd)%nat.
Proof.
  revert st nd; induction l as [|s l IH]; intros st nd Hnd Hin (w & Hw & Tw); [destruct Hw|].
  inversion Hnd as [|? ? Hs Hnd']; subst. cbn [fix_loop].
  assert (Hlt : (length (remove Nat.eq_dec s nd) < length nd)%nat)
    by (apply remove_length_lt, Hin; left; reflexivity).
  destruct (Qle_bool thr gv.[s]) eqn:E; [destruct ex|].
  - exact Hlt.
  - cbn [snd]. destruct (fix_loop_nd false thr gv ma l (fix_var c s (nth s ma 0%nat) st)
                            (remove Nat.eq_dec s nd)) as (_ & L & _). lia.
  - destruct Hw as [<-|Hw]; [apply Qle_bool_iff in Tw; congruence|].
    apply IH; [exact Hnd'| |exists w; auto]. intros x Hx. apply Hin. right. exact Hx.
Qed.

(** The state of the [while] loop on which the loop makes progress:
    [not_decoded] has no duplicates and indexes [gap_vals]. *)
Definition gd_ok (g : gd_state) : Prop :=
  List.NoDup (gd_nd g) /\ (forall s, In s (gd_nd g) -> s < length (gd_gap_vals g))%nat.

Lemma gd_round_progress ex g :
  gd_ok g -> gd_nd g <> [] ->
  gd_ok (gd_round c ex g) /\ (length (gd_nd (gd_round c ex g)) < length (gd_nd g))%nat.
Proof.
  intros (Hnd & Hlt) Hne. unfold gd_round.
  pose proof (gap_loop_spec (gd_st g) (gd_nd g) (- MPLP_huge c) (gd_m g) (gd_gap_vals g) (gd_max_at g) Hnd Hlt)
    as Hg.
  destruct (gap_loop _ _ _ _) as [[[b m] gv] ma]. destruct Hg as (L & _ & _ & W).
  destruct (W Hne ltac:(lra)) as (w & Hw & Ew & Pw).
  set (thr := if ex then b / 1 else b / 10).
  assert (Tw : thr <= gv.[w]) by (rewrite Ew; subst thr; destruct ex; unfold Qdiv; [change (/ 1) with (1 # 1)|change (/ 10) with (1 # 10)]; lra).
  pose proof (fix_loop_progress ex thr gv ma (gd_nd g) (gd_st g) (gd_nd g) Hnd (incl_refl _)
                (ex_intro _ w (conj Hw Tw))) as P.
  pose proof (fix_loop_nd ex thr gv ma (gd_nd g) (gd_st g) (gd_nd g)) as (I & _ & N).
  destruct (fix_loop _ _ _ _ _ _ _ _) as [st' nd']. cbn [snd gd_nd gd_gap_vals] in *.
  split; [|exact P]. split; [apply N, Hnd|]. intros s Hs. cbn [gd_gap_vals]. rewrite L. apply Hlt, I, Hs.
Qed.

(** Fuel [n] is enough for a loop that starts with [n] undecoded variables. *)
Lemma gd_loop_done fuel ex g :
  gd_ok g -> (length (gd_nd g) <= fuel)%nat -> gd_nd (gd_loop c fuel ex g) = [].
Proof.
  revert g; induction fuel as [|f IH]; intros g Ok Hl; cbn [gd_loop].
  - destruct (gd_nd g); [reflexivity|simpl in Hl; lia].
  - destruct (gd_nd g) eqn:E; [exact E|]. rewrite <- E in Hl.
    destruct (gd_round_progress ex g Ok ltac:(congruence)) as [Ok' P].
    apply IH; [exact Ok'|lia].
Qed.

End Termination.


(** C5.  The [while] loop of [RunGlobalDecoding] ends because every
    variable is decoded: started as [RunGlobalDecoding] starts it, from
    any state, and given as many rounds as there are variables, it ends
    with [not_decoded] empty.  Each round fixes at least the variable of
    largest gap, since gaps are never negative. *)
Theorem RunGlobalDecoding_terminates c ex st :
  0 <= MPLP_huge c ->
  let n := length (m_var_sizes st) in
  gd_nd (gd_loop c n ex (mkGd st (not_decoded0 st) 0 (repeat 0 n) (repeat 0%nat n))) = [].
Proof.
  intros H n. apply gd_loop_done; [exact H| |cbn; unfold not_decoded0, n; rewrite <- (length_seq (length (m_var_sizes st)) 0) at 2; apply filter_length_le].
  split; cbn; [apply List.NoDup_filter, List.seq_NoDup|].
  intros s Hs. apply filter_In in Hs as [Hs _]. apply in_seq in Hs. rewrite repeat_length. lia.
Qed.

Lemma RunGlobalDecoding_terminates_witness :
  let n := length (m_var_sizes edge_model) in
  gd_nd (gd_loop ex_consts n false (mkGd edge_model (not_decoded0 edge_model) 0 (repeat 0 n) (repeat 0%nat n)))
  = [].
Proof. apply (RunGlobalDecoding_terminates ex_consts false edge_model). apply Qle_bool_imp_le. reflexivity. Defined.

(** C4.  [RunGlobalDecoding] implements the contract [GlobalDecoder]
    that [RunMPLP]'s theorems assume: from a well-formed state it restores
    the model, the catalogue, the messages and the beliefs, restores the
    evidence, keeps every evidence variable decoded to its evidence state,
    never lowers the incumbent and leaves the objective history alone. *)
Theorem RunGlobalDecoding_contract c ex st :
  solver_wf st ->
  let st' := RunGlobalDecoding c ex st in
  model_eq st st' /\ evidence st' = evidence st /\ (ev_ok st -> ev_ok st') /\
  m_best_val st <= m_best_val st' /\ last_obj st' = last_obj st /\ obj_del st' = obj_del st.
Proof.
  intros W st'. split; [apply gd_model, W|]. split; [apply gd_evidence, W|].
  split; [apply gd_ev_ok, W|]. split; [apply gd_best, W|]. apply gd_obj, W.
Qed.

Lemma RunGlobalDecoding_contract_witness :
  let st' := RunGlobalDecoding ex_consts false edge_model in
  model_eq edge_model st' /\ evidence st' = evidence edge_model /\ (ev_ok edge_model -> ev_ok st') /\
  m_best_val edge_model <= m_best_val st' /\ last_obj st' = last_obj edge_model /\
  obj_del st' = obj_del edge_model.
Proof. apply RunGlobalDecoding_contract. apply edge_model_inv. Defined.

(** The gap loop over states whose beliefs are at most [-MPLP_huge]
    leaves [m1], [m2] and [max_at] as they started. *)
Lemma gap_loop_stale (c : consts) (a : arr) (l : list nat) (max_at : nat) :
  (forall s, In s l -> (m_dat a).[s] <= - MPLP_huge c) ->
  fold_left (gap_step a) l (- MPLP_huge c, - MPLP_huge c, max_at) = (- MPLP_huge c, - MPLP_huge c, max_at).
Proof.
  induction l as [|s l IH]; intros H; [reflexivity|]. simpl.
  assert (Hs : (m_dat a).[s] <= - MPLP_huge c) by (apply H; left; reflexivity).
  apply Qgtb_false in Hs as Hs'. rewrite Hs'. apply IH. intros t Ht. apply H. right. exact Ht.
Qed.

(** C19.  [gap] assigns [max_at] only on a belief above [-MPLP_huge]: for
    a variable of at least two states whose beliefs are all at most
    [-MPLP_huge], it returns a gap of [0] and passes on whatever state
    the caller's [max_at] held, which need not be a state of the
    variable; [RunGlobalDecoding] then records it as the decoded state. *)
Theorem gap_stale_max_at (c : consts) (st : MPLPAlg) (n max_at : nat) :
  (2 <= nth n (m_var_sizes st) 0)%nat ->
  (forall s, (s < nth n (m_var_sizes st) 0)%nat ->
     (m_dat (nth_arr (m_sum_into_intersects st) n)).[s] <= - MPLP_huge c) ->
  snd (gap c st n max_at) = max_at /\ fst (gap c st n max_at) == 0.
Proof.
  intros Hn Hb. unfold gap. destruct (Nat.ltb_spec (nth n (m_var_sizes st) 0%nat) 2%nat) as [Hlt|_]; [lia|].
  rewrite gap_loop_stale by (intros s Hs; apply in_seq in Hs; apply Hb; lia).
  split; [reflexivity|]. simpl. ring.
Qed.

Lemma gap_stale_max_at_witness :
  ((2 <= nth 0 (m_var_sizes clamped_model) 0)%nat /\
   (forall s, (s < nth 0 (m_var_sizes clamped_model) 0)%nat ->
      (m_dat (nth_arr (m_sum_into_intersects clamped_model) 0)).[s] <= - MPLP_huge ex_consts)) /\
  snd (gap ex_consts clamped_model 0 7) = 7%nat /\ fst (gap ex_consts clamped_model 0 7) == 0.
Proof.
  assert (H1 : (2 <= nth 0 (m_var_sizes clamped_model) 0)%nat) by (vm_compute; lia).
  assert (H2 : forall s, (s < nth 0 (m_var_sizes clamped_model) 0)%nat ->
      (m_dat (nth_arr (m_sum_into_intersects clamped_model) 0)).[s] <= - MPLP_huge ex_consts).
  { intros s Hs. vm_compute in Hs. destruct s as [|[|s]]; [vm_compute; discriminate ..|lia]. }
  split; [split; assumption|]. exact (gap_stale_max_at ex_consts clamped_model 0 7 H1 H2).
Defined.

End Decoding.
