(* ===== verification/Heuristics.v ===== *)
(** * Heuristics: [RunGlobalDecoding2], [RunGlobalDecoding3] and [RunDecimation]

    The decoding heuristics of [src/src/mplp_alg.cpp] that [RunMPLP] does
    not call, which a driver outside [src/] calls between runs:
    - [RunGlobalDecoding2] (lines 762-884) fixes one variable per round,
      the one of smallest gap (ties broken by [rand() % 2]), and stops
      once the smallest gap exceeds [MPLP_GAP_THR] or after 1000
      message-passing iterations, both only outside exhaustive mode;
    - [RunGlobalDecoding3] (lines 888-947) runs eleven trials, each
      perturbing the singleton beliefs, running both global decodings
      (the last trial in exhaustive mode) and restoring the beliefs;
    - [RunDecimation] (lines 950-1002) fixes, permanently, every
      undecoded variable of largest gap.
    They reuse [gap], the clamping [fix_var], the message-passing rounds
    [inner_loop] and the save/restore of [Decoding.v].  The theorems:
    what [RunGlobalDecoding3] restores, when [RunGlobalDecoding2] is a
    [GlobalDecoder] outside exhaustive mode, its round and iteration bounds
    outside exhaustive mode and its divergence in exhaustive mode, and the
    soundness of [RunDecimation]'s permanent fixing. *)

From Stdlib Require Import Arith ZArith QArith Lqa List Lia.
From stdpp Require Import base gmap.
From S2P Require Import Prelude Vec MulDimArr Region Solver Decoding.
Import ListNotations.
Open Scope Q_scope.
Open Scope mplp_scope.

Module Heuristics.

Import MulDimArr Region Solver.Solver Decoding.Decoding.
Abbreviation arr := MulDimArr.t.

(** Line 27: [#define MPLP_GAP_THR .001]. *)
Definition MPLP_GAP_THR : Q := 1 # 1000.

Section Heur.

Variable c : consts.

(** ** [RunGlobalDecoding2(exhaustive)] (lines 762-884) *)

(** [coin it s] is the draw [rand() % 2] made when variable [s] ties the
    smallest gap, after [it] message-passing iterations. *)
Variable coin : nat -> nat -> bool.

(** The loop's variables: the solver, [not_decoded], [m], [gap_vals],
    [max_at] and [num_mplp_iters_global_decoding]. *)
Record gd2_state := mkGd2 {
  g2_st : MPLPAlg; g2_nd : list nat; g2_m : nat; g2_gap_vals : list Q; g2_max_at : list nat;
  g2_iters : nat
}.

(** Lines 806-820: the smallest gap and its variable [index_smallest],
    which starts at [0]. *)
Definition gap2_loop (iters : nat) (st : MPLPAlg) (nd : list nat)
    (acc : Q * nat * nat * list Q * list nat) : Q * nat * nat * list Q * list nat :=
  fold_left (fun acc s =>
      let '(smallest, idx, m, gap_vals, max_at) := acc in
      let '(g, m') := gap c st s m in
      let '(smallest', idx') :=
        if smallest >.? g then (g, s)
        else if Qeq_bool g smallest then (smallest, if coin iters s then s else idx)
        else (smallest, idx) in
      (smallest', idx', m', set_nth s g gap_vals, set_nth s m' max_at))
    nd acc.

(** Lines 805-862: one round, with [true] when the loop [break]s: on a
    smallest gap above [MPLP_GAP_THR] (line 822), or after 1000
    message-passing iterations (line 857), both outside exhaustive mode.
    [std::set::erase] of a variable not in the set does nothing. *)
Definition gd2_round (exhaustive : bool) (g : gd2_state) : gd2_state * bool :=
  let st := g2_st g in
  let '(smallest, idx, m, gap_vals, max_at) :=
    gap2_loop (g2_iters g) st (g2_nd g) (MPLP_huge c, 0%nat, g2_m g, g2_gap_vals g, g2_max_at g) in
  if negb exhaustive && (smallest >.? MPLP_GAP_THR) then
    (mkGd2 st (g2_nd g) m gap_vals max_at (g2_iters g), true)
  else
    let st' := inner_loop c (fix_var c idx (nth idx max_at 0%nat) st) in
    let iters := (g2_iters g + 10)%nat in
    (mkGd2 st' (remove Nat.eq_dec idx (g2_nd g)) m gap_vals max_at iters,
     negb exhaustive && Nat.leb 1000 iters).

(** [while (!not_decoded.empty())], with fuel; the flag tells whether the
    loop ended by itself ([true]) or ran out of fuel. *)
Fixpoint gd2_loop (fuel : nat) (exhaustive : bool) (g : gd2_state) : gd2_state * bool :=
  match fuel with
  | O => (g, false)
  | S f =>
      match g2_nd g with
      | [] => (g, true)
      | _ => let '(g', stop) := gd2_round exhaustive g in
             if stop then (g', true) else gd2_loop f exhaustive g'
      end
  end.

(** [fuel] bounds the rounds: outside exhaustive mode the loop ends
    within 100 of them ([gd2_loop_exits]); in exhaustive mode it may not
    end at all ([gd2_exhaustive_diverges]). *)
Definition RunGlobalDecoding2 (fuel : nat) (exhaustive : bool) (st : MPLPAlg) : MPLPAlg :=
  let n := length (m_var_sizes st) in
  let g := fst (gd2_loop fuel exhaustive (mkGd2 st (not_decoded0 st) 0 (repeat 0 n) (repeat 0%nat n) 0)) in
  gd_finish (save_msgs st) (save_sums st) (evidence st) (g2_st g).

(** ** [RunGlobalDecoding3()] (lines 888-947) *)

(** [noise trial si loc] is the draw [rand() / RAND_MAX] of trial
    [trial] for cell [loc] of singleton [si]. *)
Variable noise : nat -> nat -> nat -> Q.

(** Lines 916-924: every singleton belief is raised by
    [10 * .01 * rand() / RAND_MAX]. *)
Definition perturb3_one (trial si : nat) (a : arr) : arr :=
  mk (m_base_sizes a) (map (fun loc => (m_dat a).[loc] + 10 * (1 # 100) * noise trial si loc)
                           (seq 0 (length (m_dat a)))).

Definition perturb3 (trial : nat) (st : MPLPAlg) : list arr :=
  fold_left (fun sums si => set_nth si (perturb3_one trial si (nth_arr sums si)) sums)
    (seq 0 (length (m_var_sizes st))) (m_sum_into_intersects st).

(** Lines 914-946: a trial; the messages and beliefs are restored to
    those saved before the first trial (lines 895-911). *)
Definition trial3 (fuel : nat) (tmp_msgs : list (list (list Q))) (tmp_sums : list (list Q))
    (st : MPLPAlg) (trial : nat) : MPLPAlg :=
  let st1 := set_sums st (perturb3 trial st) in
  let exhaustive := Nat.eqb trial 10 in
  let st2 := RunGlobalDecoding c exhaustive st1 in
  let st3 := RunGlobalDecoding2 fuel exhaustive st2 in
  restore tmp_msgs tmp_sums st3.

Definition RunGlobalDecoding3 (fuel : nat) (st : MPLPAlg) : MPLPAlg :=
  fold_left (trial3 fuel (save_msgs st) (save_sums st)) (seq 0 11) st.

(** ** [RunDecimation()] (lines 950-1002) *)

(** Lines 978-997: every undecoded variable whose gap reaches the largest
    is fixed for good: evidence, decoded state and clamped belief. *)
Fixpoint decim_loop (thr : Q) (gap_vals : list Q) (max_at : list nat) (l : list nat)
    (acc : MPLPAlg * bool) : MPLPAlg * bool :=
  match l with
  | [] => acc
  | s :: l' =>
      if Qle_bool thr gap_vals.[s]
      then decim_loop thr gap_vals max_at l' (fix_var c s (nth s max_at 0%nat) (fst acc), true)
      else decim_loop thr gap_vals max_at l' acc
  end.

(** Returns the state and [fixed_node]. *)
Definition RunDecimation (st : MPLPAlg) : MPLPAlg * bool :=
  let n := length (m_var_sizes st) in
  let nd := not_decoded0 st in
  let '(biggest, _, gap_vals, max_at) :=
    gap_loop c st nd (- MPLP_huge c, 0%nat, repeat 0 n, repeat 0%nat n) in
  decim_loop (biggest / 1) gap_vals max_at nd (st, false).

End Heur.


(** ** Example: variable [0] has evidence, variable [1] one live state

    Two binary variables, the evidence [x0 = 1], and the singleton
    potential [[5, -MPLP_huge]] on variable [1]: the gap of variable [1]
    is [5 + MPLP_huge], above the initial smallest gap [MPLP_huge]. *)
Definition stuck_model : MPLPAlg :=
  Init ex_consts (fun _ _ => 0) (MPLPAlg_new ex_consts 100 (<[0%nat := 1%nat]> ∅) false) [2; 2]%nat
       [[0]; [1]]%nat [[0; 0]; [5; -1000000]].

(** The state [RunGlobalDecoding2] starts its loop from. *)
Definition gd2_start (st : MPLPAlg) : gd2_state :=
  let n := length (m_var_sizes st) in mkGd2 st (not_decoded0 st) 0 (repeat 0 n) (repeat 0%nat n) 0.

(** The loop state [g] after [n] message-passing iterations. *)
Definition with_iters (g : gd2_state) (n : nat) : gd2_state :=
  mkGd2 (g2_st g) (g2_nd g) (g2_m g) (g2_gap_vals g) (g2_max_at g) n.

Lemma with_iters_nd g n : g2_nd (with_iters g n) = g2_nd g.
Proof. reflexivity. Qed.

Lemma RunGlobalDecoding2_unfold c coin fuel ex st :
  RunGlobalDecoding2 c coin fuel ex st
  = gd_finish (save_msgs st) (save_sums st) (evidence st) (g2_st (fst (gd2_loop c coin fuel ex (gd2_start st)))).
Proof. reflexivity. Qed.

(** ** What the heuristics keep *)

(** An assignment that agrees with the evidence. *)
Definition agrees (x : list nat) (ev : gmap nat nat) : Prop :=
  forall v k, ev !! v = Some k -> nth v x 0%nat = k.

(** What [RunDecimation] keeps, relative to the state [st0] it started
    from: the model and the catalogue, a well-formed catalogue, evidence
    decoded as given and at least the evidence of [st0], and beliefs that
    bound the score of every assignment that agrees with the evidence. *)
Record dec_ok (st0 st : MPLPAlg) : Prop := {
  dk_vs : m_var_sizes st = m_var_sizes st0;
  dk_ai : m_all_intersects st = m_all_intersects st0;
  dk_single : m_single_node_lambdas st = m_single_node_lambdas st0;
  dk_regions : m_all_regions st = m_all_regions st0;
  dk_lams : m_region_lambdas st = m_region_lambdas st0;
  dk_wf : solver_wf st;
  dk_ev_ok : ev_ok st;
  dk_ev : forall v k, evidence st0 !! v = Some k -> evidence st !! v = Some k;
  dk_bound : forall x, in_bounds (m_var_sizes st) x -> agrees x (evidence st) ->
               IntVal st x <= total (m_all_intersects st) (m_sum_into_intersects st) x
}.

(** Two tables of the same shape. *)
Definition same_shape (a b : arr) : Prop :=
  m_base_sizes b = m_base_sizes a /\ length (m_dat b) = length (m_dat a).

Section Keep.

Variable c : consts.
Variable coin : nat -> nat -> bool.
Variable noise : nat -> nat -> nat -> Q.

(** [gd_inv] relative to a state without evidence says nothing of the
    decoded assignment: what every run keeps, whatever it fixes. *)
Lemma gd_inv_clear_ev st0 st : evidence st0 = ∅ -> gd_inv st0 st -> gd_inv st0 (set_evidence st ∅).
Proof.
  intros E I. destruct I. constructor; cbn; auto.
  intros v k H. rewrite E, lookup_empty in H. discriminate.
Qed.

Lemma gd_inv_clear_refl st : solver_wf st -> gd_inv (set_evidence st ∅) st.
Proof.
  intros W. pose proof (gd_inv_refl (set_evidence st ∅) W) as J. destruct J. constructor; auto.
  intros v k H. discriminate.
Qed.

Lemma gd2_round_inv st0 ex g :
  evidence st0 = ∅ -> gd_inv st0 (g2_st g) -> gd_inv st0 (g2_st (fst (gd2_round c coin ex g))).
Proof.
  intros E I. unfold gd2_round. destruct (gap2_loop _ _ _ _ _ _) as [[[[sm idx] m] gv] ma].
  destruct (negb ex && _); cbn [fst g2_st]; [exact I|].
  apply gd_inv_inner, gd_inv_fix_var; [rewrite E; apply lookup_empty|exact I].
Qed.

Lemma gd2_loop_inv st0 fuel ex g :
  evidence st0 = ∅ -> gd_inv st0 (g2_st g) -> gd_inv st0 (g2_st (fst (gd2_loop c coin fuel ex g))).
Proof.
  intros E. revert g; induction fuel as [|f IH]; intros g I; cbn [gd2_loop]; [exact I|].
  destruct (g2_nd g); [exact I|].
  pose proof (gd2_round_inv st0 ex g E I) as I'.
  destruct (gd2_round c coin ex g) as [g' stop]. cbn [fst] in I'.
  destruct stop; [exact I'|apply IH, I'].
Qed.

(** [RunGlobalDecoding2] restores the messages, the beliefs and the
    evidence, and keeps the model. *)
Lemma RunGlobalDecoding2_spec fuel ex st :
  solver_wf st ->
  exists stg, gd_inv (set_evidence st ∅) stg /\
    RunGlobalDecoding2 c coin fuel ex st
    = set_prev_run (set_evidence (set_regions_sums stg (m_all_regions st) (m_sum_into_intersects st))
                                 (evidence st)) (total_mplp_iterations stg).
Proof.
  intros W. unfold RunGlobalDecoding2. set (g := fst (gd2_loop c coin fuel ex _)).
  pose proof (gd_inv_clear_refl st W) as I0.
  pose proof (gd2_loop_inv (set_evidence st ∅) fuel ex
                (mkGd2 st (not_decoded0 st) 0 (repeat 0 (length (m_var_sizes st)))
                   (repeat 0%nat (length (m_var_sizes st))) 0) eq_refl I0) as I.
  fold g in I. exists (g2_st g). split; [exact I|].
  exact (gd_finish_spec (set_evidence st ∅) (g2_st g) (evidence st) W I).
Qed.

Lemma RunGlobalDecoding2_inv fuel ex st :
  solver_wf st ->
  gd_inv (set_evidence st ∅) (RunGlobalDecoding2 c coin fuel ex st) /\
  evidence (RunGlobalDecoding2 c coin fuel ex st) = evidence st.
Proof.
  intros W. destruct (RunGlobalDecoding2_spec fuel ex st W) as (stg & I & ->). split; [|reflexivity].
  pose proof I as J. destruct J. constructor; cbn in *; auto using same_frame_refl.
  - unfold solver_wf, regions_wf, cat_wf in *. cbn. rewrite gi_vs0, gi_ai0. exact W.
  - intros v k H. discriminate.
Qed.


Lemma same_shape_trans a b d : same_shape a b -> same_shape b d -> same_shape a d.
Proof. intros [B1 L1] [B2 L2]. split; congruence. Qed.

(** A loop that rewrites singleton beliefs keeping their shapes. *)
Lemma shape_fold (f : nat -> arr -> arr) l sums :
  (forall si a, same_shape a (f si a)) ->
  length (fold_left (fun sums si => set_nth si (f si (nth_arr sums si)) sums) l sums) = length sums /\
  forall i, same_shape (nth_arr sums i)
              (nth_arr (fold_left (fun sums si => set_nth si (f si (nth_arr sums si)) sums) l sums) i).
Proof.
  intros Hf. revert sums; induction l as [|a l IH]; intros sums; cbn [fold_left].
  - split; [reflexivity|]. intros; split; reflexivity.
  - destruct (IH (set_nth a (f a (nth_arr sums a)) sums)) as [L H].
    rewrite length_set_nth in L. split; [exact L|]. intros i. eapply same_shape_trans; [|apply H].
    rewrite nth_arr_set. destruct (Nat.eqb_spec i a) as [->|]; [|split; reflexivity].
    destruct (Nat.ltb _ _); [apply Hf|split; reflexivity].
Qed.

(** Beliefs of unchanged shapes keep the catalogue well formed. *)
Lemma gd_inv_reshape st0 st sums :
  length sums = length (m_sum_into_intersects st) ->
  (forall i, same_shape (nth_arr (m_sum_into_intersects st) i) (nth_arr sums i)) ->
  gd_inv st0 st -> gd_inv st0 (set_sums st sums).
Proof.
  intros L S I. destruct I. destruct gi_wf0 as ((Lc & C) & R & P). constructor; cbn; auto.
  unfold solver_wf, cat_wf, regions_wf; cbn [set_sums set_catalogue m_sum_into_intersects m_all_intersects m_var_sizes m_all_regions].
  split; [split; [congruence|]|split; [|exact P]].
  - intros i Hi. destruct (C i ltac:(lia)) as (B & W & F). destruct (S i) as [B' L'].
    split; [congruence|]. split; [unfold wf in *; congruence|exact F].
  - intros ri Hri. apply region_wf_len with (sums := m_sum_into_intersects st); [exact L|apply R, Hri].
Qed.

Lemma gd_inv_perturb3 st0 st t : gd_inv st0 st -> gd_inv st0 (set_sums st (perturb3 noise t st)).
Proof.
  intros I. destruct (shape_fold (perturb3_one noise t) (seq 0 (length (m_var_sizes st)))
                        (m_sum_into_intersects st)) as [L S].
  { intros si a. unfold perturb3_one. split; cbn; [reflexivity|rewrite length_map, length_seq; reflexivity]. }
  apply gd_inv_reshape; auto.
Qed.

(** One trial of [RunGlobalDecoding3] ends with the saved messages and
    beliefs, the evidence it started with, and the model. *)
Lemma trial3_inv fuel st0 st t :
  solver_wf st0 -> gd_inv (set_evidence st0 ∅) st -> evidence st = evidence st0 ->
  let st' := trial3 c coin noise fuel (save_msgs st0) (save_sums st0) st t in
  gd_inv (set_evidence st0 ∅) st' /\ evidence st' = evidence st0 /\
  m_all_regions st' = m_all_regions st0 /\ m_sum_into_intersects st' = m_sum_into_intersects st0.
Proof.
  intros W0 I E st'. subst st'. unfold trial3.
  set (st1 := set_sums st (perturb3 noise t st)).
  pose proof (gd_inv_perturb3 _ st t I) as I1. fold st1 in I1.
  set (st2 := RunGlobalDecoding c (Nat.eqb t 10) st1).
  pose proof (gd_inv_trans _ _ _ I1 (RunGlobalDecoding_inv c (Nat.eqb t 10) st1 (gi_wf _ _ I1))) as I2.
  fold st2 in I2.
  assert (E2 : evidence st2 = evidence st0) by (subst st2; rewrite (gd_evidence (gd := RunGlobalDecoding c _)) by apply (gi_wf _ _ I1); exact E).
  destruct (RunGlobalDecoding2_inv fuel (Nat.eqb t 10) st2 (gi_wf _ _ I2)) as [I3 E3].
  pose proof (gd_inv_trans _ _ _ (gd_inv_clear_ev (set_evidence st0 ∅) st2 eq_refl I2) I3) as I3'.
  set (st3 := RunGlobalDecoding2 c coin fuel (Nat.eqb t 10) st2) in *.
  pose proof I3' as J. destruct J.
  replace (restore (save_msgs st0) (save_sums st0) st3)
    with (set_regions_sums st3 (m_all_regions st0) (m_sum_into_intersects st0))
    by (symmetry; exact (restore_save (set_evidence st0 ∅) st3 W0 gi_wf0 gi_vs0 gi_ai0 gi_len0 gi_frame0)).
  split; [|split; [cbn; congruence|split; reflexivity]].
  constructor; cbn; auto using same_frame_refl.
  unfold solver_wf, regions_wf, cat_wf in *. cbn in *. rewrite gi_vs0, gi_ai0. exact W0.
Qed.


Lemma trials3_inv fuel st l st1 :
  solver_wf st -> gd_inv (set_evidence st ∅) st1 -> evidence st1 = evidence st ->
  m_all_regions st1 = m_all_regions st -> m_sum_into_intersects st1 = m_sum_into_intersects st ->
  let r := fold_left (trial3 c coin noise fuel (save_msgs st) (save_sums st)) l st1 in
  gd_inv (set_evidence st ∅) r /\ evidence r = evidence st /\
  m_all_regions r = m_all_regions st /\ m_sum_into_intersects r = m_sum_into_intersects st.
Proof.
  intros W. revert st1; induction l as [|t l IH]; intros st1 I E Rg Sm; cbn [fold_left]; [auto|].
  destruct (trial3_inv fuel st st1 t W I E) as (I' & E' & R' & S'). apply IH; auto.
Qed.

End Keep.


(** ** Termination of [RunGlobalDecoding2] outside exhaustive mode *)

Section Exit.

Variable c : consts.
Variable coin : nat -> nat -> bool.

(** Each round that does not [break] adds ten iterations; the loop
    [break]s once there are 1000. *)
Lemma gd2_loop_exits fuel g :
  (1 <= fuel)%nat -> (1000 <= 10 * fuel + g2_iters g)%nat -> snd (gd2_loop c coin fuel false g) = true.
Proof.
  revert g; induction fuel as [|f IH]; intros g H1 H2; [lia|]. cbn [gd2_loop].
  destruct (g2_nd g); [reflexivity|].
  unfold gd2_round. destruct (gap2_loop _ _ _ _ _ _) as [[[[sm idx] m] gv] ma].
  cbn [negb andb]. destruct (sm >.? MPLP_GAP_THR); [reflexivity|].
  destruct (Nat.leb_spec 1000 (g2_iters g + 10)); [reflexivity|].
  apply IH; cbn [g2_iters]; lia.
Qed.

(** One round of the loop that does not [break]. *)
Lemma gd2_loop_step ex f g g' :
  g2_nd g <> [] -> gd2_round c coin ex g = (g', false) -> gd2_loop c coin (S f) ex g = gd2_loop c coin f ex g'.
Proof. intros Hnd E. cbn [gd2_loop]. destruct (g2_nd g); [contradiction|]. rewrite E. reflexivity. Qed.

(** Once the loop has ended by itself, more fuel changes nothing. *)
Lemma gd2_loop_more_fuel ex f f' g :
  snd (gd2_loop c coin f ex g) = true -> (f <= f')%nat -> gd2_loop c coin f' ex g = gd2_loop c coin f ex g.
Proof.
  revert f' g; induction f as [|f IH]; intros f' g H Hle; [discriminate|].
  destruct f' as [|f']; [lia|]. cbn [gd2_loop] in H |- *.
  destruct (g2_nd g); [reflexivity|].
  destruct (gd2_round c coin ex g) as [g' stop]. destruct stop; [reflexivity|].
  apply IH; [exact H|lia].
Qed.

End Exit.


(** ** Outside exhaustive mode [RunGlobalDecoding2] meets the interface *)

Section Contract2.

Variable c : consts.
Variable coin : nat -> nat -> bool.

(** [index_smallest] is still its initial value with [smallest_gap]
    untouched, or one of the scanned variables. *)
Lemma gap2_loop_idx it st l sm0 idx0 m0 gv0 ma0 :
  let '(sm, idx, _, _, _) := gap2_loop c coin it st l (sm0, idx0, m0, gv0, ma0) in
  (sm = sm0 /\ idx = idx0) \/ In idx l.
Proof.
  unfold gap2_loop. revert sm0 idx0 m0 gv0 ma0.
  induction l as [|s l IH]; intros sm0 idx0 m0 gv0 ma0; cbn [fold_left]; [left; split; reflexivity|].
  destruct (gap c st s m0) as [g m'].
  destruct (sm0 >.? g); [|destruct (Qeq_bool g sm0); [destruct (coin it s)|]]; cbn beta iota;
    match goal with |- context [fold_left ?f l (?a, ?b, ?m, ?gv, ?ma)] =>
      specialize (IH a b m gv ma); destruct (fold_left f l (a, b, m, gv, ma)) as [[[[sm idx] ?] ?] ?] end;
    destruct IH as [[-> ->]|H]; first [left; split; reflexivity | right; left; reflexivity | right; right; exact H].
Qed.

(** A round outside exhaustive mode fixes an undecoded variable or
    [break]s: a smallest gap still at [MPLP_huge] is above the threshold. *)
Lemma gd2_round_keeps st0 g :
  MPLP_GAP_THR < MPLP_huge c -> nd_ok st0 (g2_nd g) -> gd_inv st0 (g2_st g) ->
  nd_ok st0 (g2_nd (fst (gd2_round c coin false g))) /\ gd_inv st0 (g2_st (fst (gd2_round c coin false g))).
Proof.
  intros Hh Hn I. unfold gd2_round.
  pose proof (gap2_loop_idx (g2_iters g) (g2_st g) (g2_nd g) (MPLP_huge c) 0%nat (g2_m g) (g2_gap_vals g)
                (g2_max_at g)) as Hi.
  destruct (gap2_loop _ _ _ _ _ _) as [[[[sm idx] m] gv] ma]. cbn [negb andb].
  destruct (sm >.? MPLP_GAP_THR) eqn:Ht; cbn [fst g2_st g2_nd]; [split; assumption|].
  destruct Hi as [[-> ->]|Hi]; [apply Qgtb_false in Ht; lra|]. split.
  - apply (nd_ok_incl st0 (g2_nd g)); [intros x Hx; apply in_remove in Hx; apply Hx|exact Hn].
  - apply gd_inv_inner, gd_inv_fix_var; [apply Hn, Hi|exact I].
Qed.

Lemma gd2_loop_keeps st0 fuel g :
  MPLP_GAP_THR < MPLP_huge c -> nd_ok st0 (g2_nd g) -> gd_inv st0 (g2_st g) ->
  gd_inv st0 (g2_st (fst (gd2_loop c coin fuel false g))).
Proof.
  intros Hh. revert g; induction fuel as [|f IH]; intros g Hn I; cbn [gd2_loop]; [exact I|].
  pose proof (gd2_round_keeps st0 g Hh Hn I) as [Hn' I'].
  destruct (g2_nd g); [exact I|].
  destruct (gd2_round c coin false g) as [g' stop]. cbn [fst] in Hn', I'.
  destruct stop; [exact I'|apply IH; assumption].
Qed.

Lemma RunGlobalDecoding2_finishes fuel :
  MPLP_GAP_THR < MPLP_huge c -> finishes_as_saved (RunGlobalDecoding2 c coin fuel false).
Proof.
  intros Hh st W. unfold RunGlobalDecoding2. set (g := fst (gd2_loop c coin fuel false _)).
  pose proof (gd2_loop_keeps st fuel (gd2_start st) Hh (not_decoded0_ok st) (gd_inv_refl st W)) as I.
  exists (g2_st g). split; [exact I|]. exact (gd_finish_spec st (g2_st g) (evidence st) W I).
Qed.

End Contract2.


(** ** [RunDecimation] *)

Section Decim.

Variable c : consts.

Lemma decim_loop_flag thr gv ma l st b :
  snd (decim_loop c thr gv ma l (st, b)) = b || existsb (fun s => Qle_bool thr gv.[s]) l.
Proof.
  revert st b; induction l as [|s l IH]; intros st b; cbn [decim_loop existsb]; [rewrite orb_false_r; reflexivity|].
  destruct (Qle_bool thr gv.[s]); rewrite IH; [rewrite !orb_true_l, orb_true_r; reflexivity|reflexivity].
Qed.

(** Clamping keeps the cell of the fixed state. *)
Lemma clamp_keep size m a : (m_dat (clamp c size m a)).[m] = (m_dat a).[m].
Proof.
  unfold clamp. cbn [m_dat].
  rewrite (nth_fold_set_nth_seq (fun _ => - MPLP_huge c)). destruct (Nat.leb_spec (S m) m); [lia|]. cbn [andb].
  rewrite (nth_fold_set_nth_seq (fun _ => - MPLP_huge c)). destruct (Nat.ltb_spec m (0 + m)); [lia|].
  destruct (Nat.leb 0 m); reflexivity.
Qed.

Lemma dec_ok_refl st : solver_wf st -> ev_ok st -> rep_le st -> dec_ok st st.
Proof. intros W E R. constructor; auto. Qed.

(** Fixing variable [s], a singleton set of the catalogue without
    evidence, to state [m] keeps [dec_ok]. *)
Lemma dec_ok_fix_var st0 st s m :
  (s < length (m_var_sizes st))%nat -> nth s (m_all_intersects st) [] = [s] -> evidence st !! s = None ->
  dec_ok st0 st -> dec_ok st0 (fix_var c s m st).
Proof.
  intros Hs Hai He D. destruct D.
  pose proof (gi_wf _ _ (gd_inv_fix_var c (set_evidence st ∅) st s m eq_refl (gd_inv_clear_refl st dk_wf0))) as W'.
  destruct dk_wf0 as ((L & C) & R & P).
  constructor; cbn [fix_var set_sums set_catalogue set_decoded set_evidence m_var_sizes m_all_intersects
                    m_single_node_lambdas m_all_regions m_region_lambdas evidence m_decoded_res m_sum_into_intersects];
    auto.
  - intros v k Hv Hl.
    unfold fix_var, set_sums, set_catalogue, set_decoded, set_evidence in *. cbn [m_decoded_res evidence] in Hv, Hl |- *.
    rewrite length_set_nth in Hl. destruct (Nat.eq_dec v s) as [->|Hne].
    + rewrite lookup_insert_eq in Hv. injection Hv as <-. apply nth_set_nth_eq, Hl.
    + rewrite lookup_insert_ne in Hv by congruence. rewrite nth_set_nth_ne by congruence. apply dk_ev_ok0; auto.
  - intros v k Hv. rewrite lookup_insert_ne; [apply dk_ev0, Hv|]. intros E. subst. rewrite (dk_ev0 _ k Hv) in He. discriminate.
  - intros x Hx Ag. assert (Xs : nth s x 0%nat = m) by (apply Ag, lookup_insert_eq).
    rewrite (IntVal_frame st) by reflexivity. eapply Qle_trans; [apply dk_bound0; [exact Hx|]|].
    { intros v k Hv. apply Ag. rewrite lookup_insert_ne; [exact Hv|]. intros ->. congruence. }
    unfold total. rewrite length_set_nth. apply Qle_lteq. right. apply qsum_map_ext. intros i Hi.
    apply In_seq_lt in Hi. unfold val. rewrite nth_arr_set.
    destruct (Nat.eqb_spec i s) as [->|]; [|reflexivity]. rewrite (proj2 (Nat.ltb_lt _ _) Hi).
    destruct (C s Hi) as (B & _ & _). rewrite Hai in B |- *. cbn in B.
    change (proj [s] x) with [nth s x 0%nat]. rewrite Xs.
    rewrite (GetVal_single _ (nth s (m_var_sizes st) 0%nat) m B).
    rewrite (GetVal_single (clamp c _ m _) (nth s (m_var_sizes st) 0%nat))
      by (rewrite (proj1 (clamp_shape c _ _ _)); exact B).
    rewrite clamp_keep. reflexivity.
Qed.

Lemma not_decoded0_spec st :
  List.NoDup (not_decoded0 st) /\
  forall s, In s (not_decoded0 st) -> (s < length (m_var_sizes st))%nat /\ evidence st !! s = None.
Proof.
  split; [apply List.NoDup_filter, List.seq_NoDup|].
  intros s Hs. apply filter_In in Hs as [Hs H]. apply in_seq in Hs. split; [lia|].
  destruct (evidence st !! s); [discriminate|reflexivity].
Qed.

Lemma decim_loop_ok st0 thr gv ma l st b :
  List.NoDup l ->
  (forall s, In s l -> (s < length (m_var_sizes st))%nat /\ nth s (m_all_intersects st) [] = [s] /\
                       evidence st !! s = None) ->
  dec_ok st0 st -> dec_ok st0 (fst (decim_loop c thr gv ma l (st, b))).
Proof.
  revert st b; induction l as [|s l IH]; intros st b Hnd Hl D; cbn [decim_loop]; [exact D|].
  inversion Hnd as [|? ? Hs Hnd']; subst.
  destruct (Hl s (or_introl eq_refl)) as (H1 & H2 & H3).
  destruct (Qle_bool thr gv.[s]); cbn [fst]; apply IH; auto.
  - intros s' Hs'. destruct (Hl s' (or_intror Hs')) as (K1 & K2 & K3). cbn. split; [exact K1|].
    split; [exact K2|]. rewrite lookup_insert_ne; [exact K3|]. intros ->. contradiction.
  - apply dec_ok_fix_var; auto.
  - intros s' Hs'. apply Hl. right. exact Hs'.
Qed.

End Decim.


(** ** [RunGlobalDecoding2] in exhaustive mode may never end *)

Section Stuck.

Variable coin : nat -> nat -> bool.

(** The state after the first round on [stuck_model]. *)
Let g1 := fst (gd2_round ex_consts coin true (gd2_start stuck_model)).

Lemma stuck_first : gd2_round ex_consts coin true (gd2_start stuck_model) = (with_iters g1 10, false).
Proof. subst g1. vm_compute. reflexivity. Qed.

(** From the first round on, a round changes nothing but the iteration
    count: no gap is below [MPLP_huge], so [index_smallest] stays [0],
    which is not undecoded, and [erase(0)] removes nothing. *)
Lemma stuck_round n : gd2_round ex_consts coin true (with_iters g1 n) = (with_iters g1 (n + 10), false).
Proof. subst g1. vm_compute. reflexivity. Qed.

Lemma stuck_nd : g2_nd g1 = [1%nat].
Proof. subst g1. vm_compute. reflexivity. Qed.

Lemma stuck_loop fuel n :
  gd2_loop ex_consts coin fuel true (with_iters g1 n) = (with_iters g1 (n + 10 * fuel), false).
Proof.
  revert n; induction fuel as [|f IH]; intros n; [cbn [gd2_loop]; f_equal; f_equal; lia|].
  rewrite (gd2_loop_step _ _ _ _ _ (with_iters g1 (n + 10))); [|rewrite with_iters_nd, stuck_nd; discriminate|apply stuck_round].
  rewrite IH. f_equal. f_equal. lia.
Qed.

Lemma stuck_run f : gd2_loop ex_consts coin (S f) true (gd2_start stuck_model) = (with_iters g1 (10 + 10 * f), false).
Proof.
  rewrite (gd2_loop_step _ _ _ _ _ (with_iters g1 10)); [|vm_compute; discriminate|apply stuck_first].
  apply stuck_loop.
Qed.

End Stuck.

(** ** Properties *)

(** C10.  [RunGlobalDecoding2] in exhaustive mode, as [RunGlobalDecoding3]
    calls it in its last trial, does not terminate when no undecoded
    variable has a gap below [MPLP_huge]: on [stuck_model], whatever the
    tie-breaking draws, its [while] loop has not ended after any number of
    rounds, and variable [1] stays undecoded. *)
Theorem gd2_exhaustive_diverges coin fuel :
  snd (gd2_loop ex_consts coin fuel true (gd2_start stuck_model)) = false /\
  g2_nd (fst (gd2_loop ex_consts coin fuel true (gd2_start stuck_model))) = [1%nat].
Proof.
  destruct fuel as [|f]; [vm_compute; split; reflexivity|].
  rewrite stuck_run. cbn [fst snd]. split; [reflexivity|]. rewrite with_iters_nd. apply stuck_nd.
Qed.

(** C11.  Outside exhaustive mode [RunGlobalDecoding2] is a global
    decoding in the sense of the [GlobalDecoder] interface, for any
    tie-breaking draws and round budget, as long as [MPLP_huge] is above
    [MPLP_GAP_THR]: it restores the model, the messages, the beliefs and
    the evidence, keeps evidence variables decoded to their evidence
    state, never lowers the incumbent and leaves the objective history
    alone.  A round either [break]s or fixes a variable that has no
    evidence: while [smallest_gap] is still [MPLP_huge] the threshold
    test [break]s. *)
Theorem RunGlobalDecoding2_decoder c coin fuel :
  MPLP_GAP_THR < MPLP_huge c -> GlobalDecoder (RunGlobalDecoding2 c coin fuel false).
Proof. intros H. apply finish_decoder, RunGlobalDecoding2_finishes, H. Qed.

Lemma RunGlobalDecoding2_decoder_witness :
  MPLP_GAP_THR < MPLP_huge ex_consts /\ GlobalDecoder (RunGlobalDecoding2 ex_consts (fun _ _ => false) 100 false).
Proof. split; [vm_compute; reflexivity|]. apply RunGlobalDecoding2_decoder. vm_compute. reflexivity. Defined.

(** C13.  Outside exhaustive mode the loop of [RunGlobalDecoding2] ends by
    itself within 100 rounds (it [break]s after 1000 message-passing
    iterations at the latest), so any fuel of at least 100 rounds gives the
    same result. *)
Theorem RunGlobalDecoding2_fuel c coin fuel st :
  (100 <= fuel)%nat -> RunGlobalDecoding2 c coin fuel false st = RunGlobalDecoding2 c coin 100 false st.
Proof.
  intros H. unfold RunGlobalDecoding2. rewrite (gd2_loop_more_fuel c coin false 100 fuel); [reflexivity| |exact H].
  apply gd2_loop_exits; cbn; lia.
Qed.

Lemma RunGlobalDecoding2_fuel_witness :
  (100 <= 150)%nat /\
  RunGlobalDecoding2 ex_consts (fun _ _ => false) 150 false fields_model
  = RunGlobalDecoding2 ex_consts (fun _ _ => false) 100 false fields_model.
Proof. split; [lia|]. apply RunGlobalDecoding2_fuel. lia. Defined.

(** C12.  [RunGlobalDecoding3] gives back the model: from a well-formed
    state, after its eleven perturbed trials the messages, the beliefs,
    the catalogue, the potentials and the evidence are those it started
    from, and the incumbent is no worse; for any tie-breaking draws, noise
    and round budget of the exhaustive trial. *)
Theorem RunGlobalDecoding3_restores c coin noise fuel st :
  solver_wf st ->
  let st' := RunGlobalDecoding3 c coin noise fuel st in
  model_eq st st' /\ evidence st' = evidence st /\ m_best_val st <= m_best_val st'.
Proof.
  intros W st'. subst st'. unfold RunGlobalDecoding3.
  destruct (trials3_inv c coin noise fuel st (seq 0 11) st W (gd_inv_clear_refl st W) eq_refl eq_refl eq_refl)
    as ([] & E & R & S).
  split; [repeat split; auto|]. split; [exact E|exact gi_best0].
Qed.

Lemma RunGlobalDecoding3_restores_witness :
  let st' := RunGlobalDecoding3 ex_consts (fun _ _ => false) (fun _ _ _ => 0) 0 edge_model in
  model_eq edge_model st' /\ evidence st' = evidence edge_model /\ m_best_val edge_model <= m_best_val st'.
Proof. apply RunGlobalDecoding3_restores. apply edge_model_inv. Defined.

(** C15.  [RunDecimation] reports a fixed node exactly when some variable
    has no evidence: the variable of largest gap always reaches the
    threshold, since gaps are never negative. *)
Theorem RunDecimation_fixes c st :
  0 <= MPLP_huge c -> snd (RunDecimation c st) = true <-> not_decoded0 st <> [].
Proof.
  intros Hh. destruct (not_decoded0_spec st) as [Hnd Hin]. unfold RunDecimation.
  pose proof (gap_loop_spec c Hh st (not_decoded0 st) (- MPLP_huge c) 0 (repeat 0 (length (m_var_sizes st)))
                (repeat 0%nat (length (m_var_sizes st))) Hnd) as G.
  destruct (gap_loop _ _ _ _) as [[[b m] gv] ma]. destruct G as (_ & _ & _ & W).
  { intros s Hs. rewrite repeat_length. apply Hin, Hs. }
  rewrite decim_loop_flag. cbn [orb]. split.
  - intros H E. rewrite E in H. discriminate.
  - intros Hne. destruct (W Hne ltac:(lra)) as (w & Hw & Ew & Pw). apply existsb_exists.
    exists w. split; [exact Hw|]. apply Qle_bool_iff. rewrite Ew. unfold Qdiv. change (/ 1) with (1 # 1). lra.
Qed.

Lemma RunDecimation_fixes_witness : snd (RunDecimation ex_consts edge_model) = true <-> not_decoded0 edge_model <> [].
Proof. apply RunDecimation_fixes. apply Qle_bool_imp_le. reflexivity. Defined.

(** C14.  Outside exhaustive mode [RunGlobalDecoding2] runs at most 1000
    message-passing iterations, whatever the round budget: the counter
    starts at [0], grows by ten per round, and the loop [break]s as soon
    as it reaches 1000. *)
Theorem gd2_iters_bound c coin fuel st :
  (g2_iters (fst (gd2_loop c coin fuel false (gd2_start st))) <= 1000)%nat.
Proof.
  assert (H : forall g, (g2_iters g mod 10 = 0 -> g2_iters g < 1000 ->
                         g2_iters (fst (gd2_loop c coin fuel false g)) <= 1000)%nat).
  { induction fuel as [|f IH]; intros g Hm Hl; cbn [gd2_loop]; [cbn; lia|].
    assert (H990 : (g2_iters g <= 990)%nat).
    { pose proof (Nat.div_mod_eq (g2_iters g) 10) as E. rewrite Hm in E. lia. }
    destruct (g2_nd g); [cbn; lia|].
    unfold gd2_round. destruct (gap2_loop _ _ _ _ _ _) as [[[[sm idx] m] gv] ma].
    cbn [negb andb]. destruct (sm >.? MPLP_GAP_THR); [cbn; lia|].
    destruct (Nat.leb_spec 1000 (g2_iters g + 10)); [cbn; lia|].
    apply IH; cbn [g2_iters]; [|lia]. rewrite <- Nat.Div0.add_mod_idemp_l, Hm. reflexivity. }
  apply H; [reflexivity|cbn; lia].
Qed.

(** C9.  [RunDecimation] keeps the dual bound for every assignment that
    agrees with the evidence it fixes: from a well-formed state whose
    singleton sets come first and whose beliefs bound every score, the
    catalogue stays well formed, every evidence variable (old or new) is
    decoded to its evidence state, the old evidence is kept, and the dual
    objective bounds the score of every full assignment that agrees with
    the new evidence. *)
Theorem RunDecimation_sound c st :
  solver_wf st -> ev_ok st -> rep_le st ->
  (forall v, (v < length (m_var_sizes st))%nat -> nth v (m_all_intersects st) [] = [v]) ->
  let st' := fst (RunDecimation c st) in
  solver_wf st' /\ ev_ok st' /\ (forall v k, evidence st !! v = Some k -> evidence st' !! v = Some k) /\
  forall x, in_bounds (m_var_sizes st') x -> agrees x (evidence st') ->
    IntVal st' x <= dual (m_sum_into_intersects st').
Proof.
  intros W E R L st'. subst st'. destruct (not_decoded0_spec st) as [Hnd Hin]. unfold RunDecimation.
  destruct (gap_loop _ _ _ _) as [[[b m] gv] ma].
  pose proof (decim_loop_ok c st (b / 1) gv ma (not_decoded0 st) st false Hnd) as D.
  destruct D as [? ? ? ? ? Wd Ed Kd Bd]; [|apply dec_ok_refl; auto|].
  { intros s Hs. destruct (Hin s Hs) as [H1 H2]. auto. }
  split; [exact Wd|]. split; [exact Ed|]. split; [exact Kd|].
  intros x Hx Ag. eapply Qle_trans; [apply Bd; auto|]. eapply total_le_dual; [apply Wd|exact Hx].
Qed.

Lemma RunDecimation_sound_witness :
  let st' := fst (RunDecimation ex_consts edge_model) in
  solver_wf st' /\ ev_ok st' /\ (forall v k, evidence edge_model !! v = Some k -> evidence st' !! v = Some k) /\
  forall x, in_bounds (m_var_sizes st') x -> agrees x (evidence st') ->
    IntVal st' x <= dual (m_sum_into_intersects st').
Proof.
  destruct edge_model_inv as (W & R & E). apply RunDecimation_sound; auto.
  intros v Hv. vm_compute in Hv. destruct v as [|[|v]]; [reflexivity|reflexivity|lia].
Defined.

End Heuristics.
