(* ===== verification/SolverInit.v ===== *)
(** * SolverInit: [MPLPAlg::Init] establishes the solver invariants

    [Init] (lines 255-379 of [src/src/mplp_alg.cpp]) builds the
    catalogue: one singleton set per variable, then for every input region
    either a singleton potential folded into the singleton's belief or a
    new intersection set with its region; it then writes the evidence into
    the decoded assignments and, in UAI mode, decodes and perturbs CSP
    instances.  This file proves that every step keeps [init_inv], and
    that [Init] ends in a state satisfying [run_inv], the precondition of
    the [RunMPLP] theorems of [Solver.v]. *)

From Stdlib Require Import Arith ZArith QArith Lqa List Lia.
From stdpp Require Import base gmap.
From S2P Require Import Prelude Vec MulDimArr Region Solver Decoding.
Import ListNotations.
Open Scope Q_scope.
Open Scope mplp_scope.

Module SolverInit.

Import MulDimArr Region Solver.Solver Decoding.Decoding.
Abbreviation arr := MulDimArr.t.

(** What [Init] keeps while it builds the catalogue: the solver
    invariants, the singleton sets first, and the singleton potentials of
    the variables' shapes. *)
Definition init_inv (st : MPLPAlg) : Prop :=
  solver_wf st /\ rep_ok st /\
  length (m_single_node_lambdas st) = length (m_var_sizes st) /\
  (length (m_var_sizes st) <= length (m_all_intersects st))%nat /\
  (forall v, (v < length (m_var_sizes st))%nat ->
     nth v (m_all_intersects st) [] = [v] /\
     m_base_sizes (nth_arr (m_single_node_lambdas st) v) = [nth v (m_var_sizes st) 0%nat] /\
     wf (nth_arr (m_single_node_lambdas st) v)) /\
  length (m_region_lambdas st) = length (m_all_regions st).

(** The two parts of [IntVal]: the regions' potentials and the singleton
    potentials at the assignment. *)
Definition region_term (st : MPLPAlg) (x : list nat) (ri : nat) : Q :=
  let lam := nth_arr (m_region_lambdas st) ri in
  if Nat.eqb (length (m_dat lam)) 0 then 0
  else GetVal lam (restrict x (m_region_inds (nth_region (m_all_regions st) ri))).

Definition single_term (st : MPLPAlg) (x : list nat) (ni : nat) : Q :=
  (m_dat (nth_arr (m_single_node_lambdas st) ni)).[nth ni x 0%nat].

(** ** [Init] establishes the invariants *)

(** What the catalogue-building steps of [Init] leave alone. *)
Definition init_frame (st st' : MPLPAlg) : Prop :=
  m_var_sizes st' = m_var_sizes st /\ evidence st' = evidence st /\
  m_decoded_res st' = m_decoded_res st /\ m_best_decoded_res st' = m_best_decoded_res st /\
  CSP_instance st' = CSP_instance st /\ m_uaiCompetition st' = m_uaiCompetition st.

(** The regions [Init] accepts: each names distinct variables of the
    model and comes with a potential. *)
Definition input_ok (n : nat) (p : list nat * list Q) : Prop :=
  Forall (fun v => v < n)%nat (fst p) /\ List.NoDup (fst p) /\ snd p <> [].

(** [b] dominates [a] cell by cell, with the same shape. *)
Definition arr_le (a b : arr) : Prop :=
  m_base_sizes b = m_base_sizes a /\ length (m_dat b) = length (m_dat a) /\
  forall k, (m_dat a).[k] <= (m_dat b).[k].

Lemma IntVal_split st x :
  IntVal st x == qsum (map (region_term st x) (seq 0 (length (m_all_regions st))))
               + qsum (map (single_term st x) (seq 0 (length (m_var_sizes st)))).
Proof.
  unfold IntVal. rewrite fold_left_plus.
  rewrite (fold_left_plus_if (fun ri => Nat.eqb (length (m_dat (nth_arr (m_region_lambdas st) ri))) 0)
             (fun ri => GetVal (nth_arr (m_region_lambdas st) ri)
                          (restrict x (m_region_inds (nth_region (m_all_regions st) ri))))).
  unfold region_term, single_term. lra.
Qed.

Lemma init_singletons_inv c tl evid uai vs :
  Forall (fun s => 0 < s)%nat vs -> init_inv (init_singletons (MPLPAlg_new c tl evid uai) vs).
Proof.
  intros Hpos. unfold init_inv, solver_wf, cat_wf, regions_wf, rep_ok, init_singletons, MPLPAlg_new.
  cbn [m_var_sizes m_all_intersects m_sum_into_intersects m_single_node_lambdas m_all_regions
       m_region_lambdas app].
  assert (Hz : forall i, (i < length vs)%nat ->
                 nth_arr (map (fun s => zeros [s]) vs) i = zeros [nth i vs 0%nat])
    by (intros; unfold nth_arr; rewrite (nth_map_lt _ _ 0%nat) by auto; reflexivity).
  assert (Hai : forall i, (i < length vs)%nat -> nth i (map (fun si => [si]) (seq 0 (length vs))) [] = [i])
    by (intros; rewrite (nth_map_lt _ _ 0%nat) by (rewrite length_seq; auto); rewrite seq_nth; auto).
  split; [split; [split|split]|split].
  - rewrite !length_map, length_seq. reflexivity.
  - intros i Hi. rewrite length_map in Hi. rewrite Hz, Hai by auto.
    split; [reflexivity|]. split; [apply wf_zeros|]. repeat constructor. auto.
  - intros ri Hri. simpl in Hri. lia.
  - exact Hpos.
  - intros x Hx. rewrite IntVal_split. unfold total. cbn [m_all_regions m_var_sizes].
    rewrite !qsum_map_zero; [simpl; lra| | |].
    + intros i Hi. apply In_seq_lt in Hi. unfold single_term. cbn [m_single_node_lambdas]. rewrite Hz by auto.
      unfold zeros; simpl. destruct (Nat.lt_ge_cases (nth i x 0%nat) (nth i vs 0%nat * 1)).
      * rewrite nth_repeat. reflexivity.
      * rewrite nth_overflow by (rewrite repeat_length; auto). reflexivity.
    + intros i Hi. simpl in Hi. contradiction.
    + intros i Hi. apply In_seq_lt in Hi. rewrite length_map in Hi. unfold val.
      rewrite Hz by auto. rewrite GetVal_zeros. reflexivity.
  - rewrite length_map. split; [reflexivity|]. split; [rewrite length_map, length_seq; lia|].
    split; [|reflexivity]. intros v Hv. rewrite Hz, Hai by auto. split; [reflexivity|].
    split; [reflexivity|apply wf_zeros].
Qed.

Lemma lambda_arr_wf sizes lam : wf (lambda_arr sizes lam).
Proof. unfold wf, lambda_arr; simpl. rewrite length_map, length_seq. reflexivity. Qed.

(** Adding a potential [cur] of the same shape to a one-variable table adds
    its value at every state. *)
Lemma add_single_cell a cur s k :
  m_base_sizes a = [s] -> wf a -> length (m_dat cur) = s -> (k < s)%nat ->
  (m_dat (lift (fun d => Vec.add d (m_dat cur)) a)).[k] = (m_dat a).[k] + (m_dat cur).[k].
Proof.
  intros Hs W Hc Hk. unfold wf in W. rewrite Hs in W. simpl in W.
  unfold lift, Vec.add; simpl. apply Vec.nth_vzip; lia.
Qed.

(** The singleton branch of [init_region]. *)
Lemma init_region_single st v l0 ls :
  init_inv st -> (v < length (m_var_sizes st))%nat -> init_inv (init_region st ([v], l0 :: ls)).
Proof.
  intros (((Hl & Hc) & Hr & Hp) & Hrep & Hsl & Hn & Hv & Hlr) Hvn.
  destruct (Hv v Hvn) as (Hav & Hss & Hsw).
  assert (Hvs : (v < length (m_sum_into_intersects st))%nat) by lia.
  destruct (Hc v Hvs) as (Hs & Hw & _). rewrite Hav in Hs. simpl in Hs.
  set (s := nth v (m_var_sizes st) 0%nat) in *.
  set (cur := lambda_arr (sizes_of (m_var_sizes st) [v]) (l0 :: ls)).
  assert (Lc : length (m_dat cur) = s)
    by (subst cur; unfold lambda_arr; simpl; rewrite length_map, length_seq; simpl; lia).
  unfold init_region. cbv beta iota zeta. fold cur.
  unfold init_inv, solver_wf, cat_wf, regions_wf, rep_ok.
  cbn [m_var_sizes m_all_intersects m_sum_into_intersects m_single_node_lambdas m_all_regions m_region_lambdas].
  rewrite !length_set_nth. split; [split; [split|split]|split].
  - exact Hl.
  - intros i Hi. rewrite nth_arr_set. destruct (Nat.eqb_spec i v) as [->|Hne]; [|apply Hc; auto].
    rewrite (proj2 (Nat.ltb_lt _ _) Hvs). destruct (Hc v Hvs) as (Hs' & _ & Hf).
    split; [exact Hs'|]. split; [apply wf_lift_vzip, Hw|exact Hf].
  - intros ri Hri. apply region_wf_len with (sums := m_sum_into_intersects st); [apply length_set_nth|].
    apply Hr, Hri.
  - exact Hp.
  - intros x Hx. pose proof (in_bounds_nth _ _ v Hx Hvn) as Hxv. fold s in Hxv.
    pose proof (Hrep x Hx) as R0. rewrite IntVal_split in R0 |- *. unfold total in R0 |- *.
    unfold region_term, single_term in *.
    cbn [m_all_regions m_region_lambdas m_var_sizes m_single_node_lambdas] in *.
    set (sums' := set_nth v _ (m_sum_into_intersects st)).
    set (sl' := set_nth v _ (m_single_node_lambdas st)).
    replace (length sums') with (length (m_sum_into_intersects st)) by (symmetry; apply length_set_nth).
    rewrite (qsum_seq_update (val (m_all_intersects st) (m_sum_into_intersects st) x)
               (val (m_all_intersects st) sums' x) _ v (m_dat cur).[nth v x 0%nat]); auto.
    2: { intros i Hi. unfold val, sums'. rewrite nth_arr_set. apply Nat.eqb_neq in Hi. rewrite Hi. reflexivity. }
    2: { unfold val, sums'. rewrite nth_arr_set, Nat.eqb_refl, (proj2 (Nat.ltb_lt _ _) Hvs), Hav.
         change (proj [v] x) with [nth v x 0%nat].
         rewrite (GetVal_single _ s) by exact Hs. rewrite (GetVal_single _ s) by exact Hs.
         rewrite (add_single_cell _ _ s) by (auto; lia). reflexivity. }
    rewrite (qsum_seq_update (fun ni => (m_dat (nth_arr (m_single_node_lambdas st) ni)).[nth ni x 0%nat])
               (fun ni => (m_dat (nth_arr sl' ni)).[nth ni x 0%nat]) _ v (m_dat cur).[nth v x 0%nat]); auto.
    2: { intros i Hi. unfold sl'. rewrite nth_arr_set. apply Nat.eqb_neq in Hi. rewrite Hi. reflexivity. }
    2: { unfold sl'. rewrite nth_arr_set, Nat.eqb_refl, (proj2 (Nat.ltb_lt v (length (m_single_node_lambdas st))) ltac:(lia)).
         rewrite (add_single_cell _ _ s) by (auto; lia). reflexivity. }
    lra.
  - split; [exact Hsl|]. split; [exact Hn|]. split; [|exact Hlr].
    intros w Hw'. destruct (Hv w Hw') as (Ha & Hs1 & Hw1). split; [exact Ha|].
    rewrite nth_arr_set. destruct (Nat.eqb_spec w v) as [->|]; [|auto].
    rewrite (proj2 (Nat.ltb_lt v (length (m_single_node_lambdas st))) ltac:(lia)). split; [exact Hs1|apply wf_lift_vzip, Hw1].
Qed.

(** [init_region] on a set that is not a single variable, with a potential. *)
Lemma init_region_else st inds lam :
  (forall v, inds <> [v]) -> lam <> [] ->
  let cur := lambda_arr (sizes_of (m_var_sizes st) inds) lam in
  let ai := m_all_intersects st ++ [inds] in
  init_region st (inds, lam)
  = set_catalogue st ai (m_sum_into_intersects st ++ [cur])
      (m_all_regions st ++ [fst (Region_new inds ai inds (m_var_sizes st) (length ai - 1))])
      (m_region_lambdas st ++ [cur])
      (if Nat.eqb (length inds) 2
       then map_insert_new (edge_key inds) (length ai - 1) (m_intersect_map st)
       else m_intersect_map st).
Proof.
  intros H Hl. destruct lam as [|l0 ls]; [congruence|].
  destruct inds as [|a [|b rest]]; [reflexivity|exfalso; eapply H; reflexivity|reflexivity].
Qed.

Lemma sizes_of_pos vs inds :
  Forall (fun s => 0 < s)%nat vs -> Forall (fun v => v < length vs)%nat inds ->
  Forall (fun s => 0 < s)%nat (sizes_of vs inds).
Proof.
  intros P I. unfold sizes_of. apply Forall_map. rewrite List.Forall_forall in *. intros v Hv.
  apply P, nth_In, I, Hv.
Qed.

(** The region [Init] builds for a new set is consistent with the catalogue
    that holds its set and its potential. *)
Lemma init_new_region_wf vs ai sums inds cur :
  length sums = length ai -> (length vs <= length ai)%nat ->
  (forall v, (v < length vs)%nat -> nth v ai [] = [v]) ->
  Forall (fun v => v < length vs)%nat inds -> List.NoDup inds -> (forall v, inds <> [v]) ->
  region_wf vs (ai ++ [inds]) (sums ++ [cur])
    (fst (Region_new inds (ai ++ [inds]) inds vs (length (ai ++ [inds]) - 1))).
Proof.
  intros L Ln Hs Hi Hnd Hns. rewrite List.Forall_forall in Hi.
  assert (Hsing : forall s, In s inds -> nth s (ai ++ [inds]) [] = [s])
    by (intros s Hs'; rewrite app_nth1 by (specialize (Hi s Hs'); lia); apply Hs, Hi, Hs').
  assert (Hincl : forall s, In s inds -> incl (nth s (ai ++ [inds]) []) inds)
    by (intros s Hs' w Hw; rewrite Hsing in Hw by auto; destruct Hw as [<-|[]]; auto).
  pose proof (Region_new_ok _ _ _ vs (length (ai ++ [inds]) - 1) Hincl) as Hok.
  pose proof (Region_new_fields inds (ai ++ [inds]) inds vs (length (ai ++ [inds]) - 1)) as (F1 & F2 & F3).
  destruct (Region_new _ _ _ _ _) as [R err]. cbn [fst] in *.
  destruct Hok as (_ & Hv & HlP & Hlm & HP).
  rewrite length_app in *. simpl in *. replace (length ai + 1 - 1)%nat with (length ai) in * by lia.
  assert (HPs : forall si, (si < length inds)%nat -> length (nth si (m_inds_of_intersects R) []) = 1%nat).
  { intros si Hsi. destruct (HP si Hsi) as (E & _). apply (f_equal (@length nat)) in E.
    unfold proj in E. rewrite length_map in E. rewrite E, Hsing; [reflexivity|apply nth_In, Hsi]. }
  constructor; rewrite ?F1, ?F2, ?F3.
  - rewrite length_app. simpl. lia.
  - rewrite app_nth2 by lia. rewrite Nat.sub_diag. reflexivity.
  - constructor; [|exact Hnd]. intros Hin. specialize (Hi _ Hin). lia.
  - apply List.Forall_forall. intros s Hs'. rewrite length_app. specialize (Hi s Hs'). simpl. lia.
  - rewrite HlP. reflexivity.
  - rewrite Hlm. reflexivity.
  - intros si Hsi. destruct (HP si Hsi) as (E & Fp & Z). split; [|split; [exact Fp|symmetry; exact E]].
    destruct (nth si (m_inds_of_intersects R) []) as [|p [|q ps]] eqn:EP;
      pose proof (HPs si Hsi) as H1; rewrite EP in H1; simpl in H1; try lia.
    constructor; [intros []|constructor].
  - intros si Hsi. destruct (HP si Hsi) as (_ & _ & Z). rewrite Z. split; [reflexivity|apply wf_zeros].
  - exact Hv.
  - intros si Hsi Hl. rewrite HPs in Hl by auto. destruct inds as [|a [|b rest]]; simpl in Hl; try lia.
    exfalso. eapply Hns. reflexivity.
Qed.

(** The region branch of [init_region], with a potential. *)
Lemma init_region_new st inds lam :
  init_inv st -> Forall (fun v => v < length (m_var_sizes st))%nat inds -> List.NoDup inds ->
  (forall v, inds <> [v]) -> lam <> [] -> init_inv (init_region st (inds, lam)).
Proof.
  intros (((Hl & Hc) & Hr & Hp) & Hrep & Hsl & Hn & Hv & Hlr) Hi Hnd Hns Hlam.
  rewrite init_region_else by auto. cbv zeta.
  set (cur := lambda_arr (sizes_of (m_var_sizes st) inds) lam).
  set (ai := m_all_intersects st). set (sums := m_sum_into_intersects st).
  set (regs := m_all_regions st). set (lams := m_region_lambdas st).
  change (length sums = length ai) in Hl. change (length lams = length regs) in Hlr.
  change (length (m_var_sizes st) <= length ai)%nat in Hn.
  assert (Hcs : m_base_sizes cur = sizes_of (m_var_sizes st) inds) by reflexivity.
  assert (Hcw : wf cur) by apply lambda_arr_wf.
  assert (Hcpos : (0 < length (m_dat cur))%nat)
    by (rewrite Hcw; apply prodsize_pos; rewrite Hcs; apply sizes_of_pos; auto).
  assert (Hai : forall i, (i < length ai)%nat -> nth i (ai ++ [inds]) [] = nth i ai [])
    by (intros; apply app_nth1; auto).
  assert (Hsu : forall i, (i < length sums)%nat -> nth_arr (sums ++ [cur]) i = nth_arr sums i)
    by (intros; unfold nth_arr; apply app_nth1; auto).
  assert (Hsl' : nth_arr (sums ++ [cur]) (length sums) = cur)
    by (unfold nth_arr; rewrite app_nth2, Nat.sub_diag by lia; reflexivity).
  assert (Hal : nth (length sums) (ai ++ [inds]) [] = inds)
    by (rewrite Hl, app_nth2, Nat.sub_diag by lia; reflexivity).
  unfold init_inv, solver_wf, cat_wf, regions_wf, rep_ok.
  cbn [set_catalogue m_var_sizes m_all_intersects m_sum_into_intersects m_single_node_lambdas
       m_all_regions m_region_lambdas]. fold ai sums regs lams.
  rewrite !length_app. simpl length.
  split; [split; [split|split]|split].
  - rewrite Hl. reflexivity.
  - intros i Hi'. destruct (Nat.eq_dec i (length sums)) as [->|Hne].
    + rewrite Hsl', Hal. split; [exact Hcs|]. split; [exact Hcw|exact Hi].
    + rewrite Hsu, Hai by lia. apply Hc. change (i < length sums)%nat. lia.
  - intros ri Hri. unfold nth_region. destruct (Nat.eq_dec ri (length regs)) as [->|Hne].
    + rewrite app_nth2, Nat.sub_diag by lia. simpl.
      replace (length ai + 1 - 1)%nat with (length (ai ++ [inds]) - 1)%nat by (rewrite length_app; simpl; lia).
      apply init_new_region_wf; auto. intros v Hv'. apply Hv, Hv'.
    + rewrite app_nth1 by lia. apply region_wf_app; [exact Hl|]. apply (Hr ri). change (ri < length regs)%nat. lia.
  - exact Hp.
  - intros x Hx. pose proof (Hrep x Hx) as R0. rewrite IntVal_split in R0 |- *.
    unfold total in R0 |- *.
    cbn [set_catalogue m_var_sizes m_all_regions m_sum_into_intersects] in *.
    fold ai sums regs lams in R0 |- *.
    change (single_term (set_catalogue st _ _ _ _ _) x) with (single_term st x).
    rewrite !length_app. simpl length. rewrite !Nat.add_1_r, !qsum_seq_snoc.
    rewrite (qsum_map_ext (val (ai ++ [inds]) (sums ++ [cur]) x) (val ai sums x)).
    2: { intros i Hi'. apply In_seq_lt in Hi'. unfold val. rewrite Hsu, Hai by lia. reflexivity. }
    rewrite (qsum_map_ext (region_term (set_catalogue st _ _ _ _ _) x) (region_term st x)).
    2: { intros ri Hri. apply In_seq_lt in Hri. unfold region_term, nth_arr, nth_region.
         cbn [set_catalogue m_region_lambdas m_all_regions]. fold regs lams.
         rewrite !nth_app_lt by lia. reflexivity. }
    unfold val at 2, region_term at 2. rewrite Hsl', Hal.
    cbn [set_catalogue m_region_lambdas m_all_regions]. fold regs lams.
    unfold nth_arr, nth_region. rewrite !nth_snoc by auto.
    rewrite (proj2 (Nat.eqb_neq (length (m_dat cur)) 0) ltac:(lia)).
    rewrite (proj1 (Region_new_fields _ _ _ _ _)). unfold restrict. fold (proj inds x).
    unfold nth_arr in Hsl'. lra.
  - split; [exact Hsl|]. split; [lia|]. split.
    + intros v Hv'. destruct (Hv v Hv') as (A & B & C). rewrite Hai by lia. auto.
    + rewrite Hlr. reflexivity.
Qed.


Lemma init_frame_trans a b c : init_frame a b -> init_frame b c -> init_frame a c.
Proof. unfold init_frame. intros (? & ? & ? & ? & ? & ?) (? & ? & ? & ? & ? & ?). repeat split; congruence. Qed.

Lemma init_region_frame st p : init_frame st (init_region st p).
Proof.
  destruct p as [inds lam]. unfold init_region, init_frame.
  destruct inds as [|a [|b r]], lam; repeat split.
Qed.

Lemma singleton_cases (l : list nat) : (exists v, l = [v]) \/ (forall v, l <> [v]).
Proof.
  destruct l as [|a [|b r]]; [right; discriminate|left; exists a; reflexivity|].
  right. intros v H. inversion H.
Qed.

(** One input region keeps the invariant of [Init]. *)
Lemma init_region_inv st p : init_inv st -> input_ok (length (m_var_sizes st)) p -> init_inv (init_region st p).
Proof.
  destruct p as [inds lam]. intros I (Hi & Hnd & Hl). cbn [fst snd] in *.
  destruct (singleton_cases inds) as [[v ->]|Hns].
  - destruct lam as [|l0 ls]; [congruence|]. apply init_region_single; [exact I|]. inversion Hi; auto.
  - apply init_region_new; auto.
Qed.

(** The loop over the input regions (lines 271-324). *)
Lemma init_fold_inv l st :
  init_inv st -> Forall (input_ok (length (m_var_sizes st))) l ->
  init_inv (fold_left init_region l st) /\ init_frame st (fold_left init_region l st).
Proof.
  revert st; induction l as [|p l IH]; intros st I F; cbn [fold_left].
  - split; [exact I|repeat split].
  - inversion F as [|? ? Hp F']; subst.
    pose proof (init_region_frame st p) as Fr. pose proof (init_region_inv st p I Hp) as I1.
    destruct (IH (init_region st p) I1) as [I2 Fr2]; [rewrite (proj1 Fr); exact F'|].
    split; [exact I2|]. eapply init_frame_trans; eauto.
Qed.

(** ** The evidence written into the decoded assignments (lines 326-336) *)

Lemma with_evidence_length ev d : length (with_evidence ev d) = length d.
Proof.
  unfold with_evidence. induction (map_to_list ev) as [|kv l IH]; simpl; [reflexivity|].
  rewrite length_set_nth. exact IH.
Qed.

Lemma foldr_set_nth_in (l : list (nat * nat)) d v k :
  List.NoDup (map fst l) -> In (v, k) l -> (v < length d)%nat ->
  nth v (foldr (fun kv d => set_nth (fst kv) (snd kv) d) d l) 0%nat = k.
Proof.
  induction l as [|[a b] l IH]; intros Hnd Hin Hv; [destruct Hin|]. simpl.
  inversion Hnd as [|? ? Hna Hnd']; subst.
  destruct Hin as [E|Hin].
  - inversion E; subst. apply nth_set_nth_eq.
    clear -Hv. induction l as [|[] l IH]; simpl; rewrite ?length_set_nth; auto.
  - assert (a <> v) by (intros <-; apply Hna, (in_map fst _ (a, k)), Hin).
    rewrite nth_set_nth_ne by auto. apply IH; auto.
Qed.

Lemma with_evidence_nth ev d v k :
  ev !! v = Some k -> (v < length d)%nat -> nth v (with_evidence ev d) 0%nat = k.
Proof.
  intros Hk Hv. pose proof (NoDup_fst_map_to_list ev) as Hnd. apply NoDup_ListNoDup in Hnd.
  apply foldr_set_nth_in; [exact Hnd| |exact Hv].
  apply list_elem_of_In, elem_of_map_to_list, Hk.
Qed.

Lemma init_decoded_model st : model_eq st (init_decoded st).
Proof. repeat split. Qed.

(** The decoded assignment and the incumbent start with the evidence. *)
Lemma init_decoded_inv st :
  solver_wf st -> rep_ok st ->
  solver_wf (init_decoded st) /\ rep_ok (init_decoded st) /\ ev_ok (init_decoded st).
Proof.
  intros W R. pose proof (init_decoded_model st) as M.
  split; [apply (model_eq_solver_wf _ _ M W)|]. split; [apply (model_eq_rep_ok _ _ M R)|].
  intros v k Hk Hv. unfold init_decoded, set_best, set_decoded in *. cbn [m_decoded_res evidence] in *.
  rewrite with_evidence_length in Hv. apply with_evidence_nth; auto.
Qed.


(** ** The UAI branch (lines 338-373) *)

Lemma UpdateResult_csp c st : CSP_instance (fst (UpdateResult c st)) = CSP_instance st.
Proof. unfold UpdateResult. destruct (_ >.? _); [destruct (_ >.? _)|]; reflexivity. Qed.

Lemma LocalDecode_csp c st : CSP_instance (fst (LocalDecode c st)) = CSP_instance st.
Proof.
  unfold LocalDecode. destruct (fold_left _ _ _) as [o d]. cbn [fst]. rewrite UpdateResult_csp. reflexivity.
Qed.

Lemma arr_le_refl a : arr_le a a.
Proof. split; [reflexivity|]. split; [reflexivity|]. intros; apply Qle_refl. Qed.

Lemma arr_le_trans a b c : arr_le a b -> arr_le b c -> arr_le a c.
Proof.
  intros (B1 & L1 & H1) (B2 & L2 & H2). split; [congruence|]. split; [congruence|].
  intros k. eapply Qle_trans; eauto.
Qed.

Lemma arr_le_GetVal a b x : arr_le a b -> GetVal a x <= GetVal b x.
Proof. intros (B & _ & H). unfold GetVal. rewrite B. apply H. Qed.

Lemma arr_le_wf a b : arr_le a b -> wf a -> wf b.
Proof. unfold wf. intros (B & L & _). congruence. Qed.

(** The noise only ever raises a cell. *)
Lemma perturb_one_le noise si a :
  (forall loc, 0 <= noise si loc) -> arr_le a (perturb_one noise si a).
Proof.
  intros Hn. unfold perturb_one. split; [reflexivity|]. cbn [m_dat].
  rewrite length_map, length_seq. split; [reflexivity|]. intros k.
  destruct (Nat.lt_ge_cases k (length (m_dat a))) as [Hk|Hk].
  - rewrite (nth_map_lt _ _ 0%nat) by (rewrite length_seq; exact Hk). rewrite seq_nth by exact Hk.
    specialize (Hn k). simpl. lra.
  - rewrite !nth_overflow by (rewrite ?length_map, ?length_seq; exact Hk). apply Qle_refl.
Qed.

Lemma perturb_fold_le noise l sums :
  (forall si loc, 0 <= noise si loc) ->
  length (fold_left (fun sums si => set_nth si (perturb_one noise si (nth_arr sums si)) sums) l sums)
    = length sums /\
  forall i, arr_le (nth_arr sums i)
    (nth_arr (fold_left (fun sums si => set_nth si (perturb_one noise si (nth_arr sums si)) sums) l sums) i).
Proof.
  intros Hn. revert sums; induction l as [|a l IH]; intros sums; cbn [fold_left].
  - split; [reflexivity|]. intros; apply arr_le_refl.
  - destruct (IH (set_nth a (perturb_one noise a (nth_arr sums a)) sums)) as [L H].
    rewrite length_set_nth in L. split; [exact L|]. intros i. eapply arr_le_trans; [|apply H].
    rewrite nth_arr_set. destruct (Nat.eqb_spec i a) as [->|]; [|apply arr_le_refl].
    destruct (Nat.ltb _ _); [apply perturb_one_le; auto|apply arr_le_refl].
Qed.

(** Perturbing the singleton beliefs keeps the catalogue well formed and
    keeps the beliefs above the model. *)
Lemma perturb_run_inv noise st b :
  (forall si loc, 0 <= noise si loc) -> run_inv st -> run_inv (set_csp (set_sums st (perturb noise st)) b).
Proof.
  intros Hn (((L & C) & Rg & P) & Rp & Ev). destruct (perturb_fold_le noise (seq 0 (length (m_var_sizes st)))
    (m_sum_into_intersects st) Hn) as [Lp Hp]. fold (perturb noise st) in Lp, Hp.
  unfold run_inv, solver_wf, cat_wf, regions_wf, rep_le, ev_ok, set_csp, set_sums, set_catalogue.
  cbn [m_var_sizes m_all_intersects m_sum_into_intersects m_all_regions evidence m_decoded_res].
  rewrite Lp. split; [split; [split|split]|split].
  - exact L.
  - intros i Hi. destruct (C i Hi) as (B & W & F). destruct (Hp i) as (B' & _).
    split; [congruence|]. split; [apply (arr_le_wf _ _ (Hp i) W)|exact F].
  - intros ri Hri. apply region_wf_len with (sums := m_sum_into_intersects st); [exact Lp|apply Rg, Hri].
  - exact P.
  - intros x Hx. rewrite (IntVal_frame st _ x) by reflexivity. eapply Qle_trans; [apply Rp, Hx|].
    unfold total. rewrite Lp. apply qsum_map_le. intros i _. apply arr_le_GetVal, Hp.
  - exact Ev.
Qed.

(** [Init]'s UAI step keeps the solver invariants; unless it flags a CSP
    instance, the beliefs stay a reparameterisation. *)
Lemma init_uai_inv c noise st :
  (forall si loc, 0 <= noise si loc) -> solver_wf st -> rep_ok st -> ev_ok st -> CSP_instance st = false ->
  run_inv (init_uai c noise st) /\ (CSP_instance (init_uai c noise st) = false -> rep_ok (init_uai c noise st)).
Proof.
  intros Hn W R Ev Cs. unfold init_uai. destruct (m_uaiCompetition st).
  2: { split; [split; [exact W|split; [apply rep_ok_le, R|exact Ev]]|auto]. }
  pose proof (model_eq_trans _ _ _ (UpdateResult_model c st) (LocalDecode_model c (fst (UpdateResult c st)))) as M.
  pose proof (LocalDecode_ev_ok c _ (UpdateResult_ev_ok c st Ev)) as Ev2.
  pose proof (LocalDecode_csp c (fst (UpdateResult c st))) as C2. rewrite UpdateResult_csp, Cs in C2.
  destruct (LocalDecode c (fst (UpdateResult c st))) as [st2 obj]. cbn [fst] in M, Ev2, C2.
  pose proof (model_eq_solver_wf _ _ M W) as W2. pose proof (model_eq_rep_ok _ _ M R) as R2.
  assert (I2 : run_inv st2) by (split; [exact W2|split; [apply rep_ok_le, R2|exact Ev2]]).
  assert (Mc : forall b, model_eq st2 (set_csp st2 b)) by (intros; repeat split).
  destruct (Qeq_bool obj 0); [destruct (singletons_zero st2)|].
  - split; [apply perturb_run_inv; auto|discriminate].
  - split; [split; [apply (model_eq_solver_wf _ _ (Mc false) W2)|split; [apply rep_ok_le|exact Ev2]]|];
      intros; apply (model_eq_rep_ok _ _ (Mc false) R2).
  - auto.
Qed.


Lemma init_uai_evidence c noise st : evidence (init_uai c noise st) = evidence st.
Proof.
  unfold init_uai. destruct (m_uaiCompetition st); [|reflexivity].
  pose proof (LocalDecode_evidence c (fst (UpdateResult c st))) as E.
  destruct (UpdateResult_frame c st) as (_ & _ & _ & _ & _ & _ & _ & E1 & _).
  destruct (LocalDecode c (fst (UpdateResult c st))) as [st2 obj]. cbn [fst] in E.
  destruct (Qeq_bool obj 0); [destruct (singletons_zero st2)|]; cbn; congruence.
Qed.

(** ** [Init] *)

(** [Init] from the constructor's state ends in a state satisfying the
    precondition of the [RunMPLP] theorems; unless it flagged and
    perturbed a CSP instance, the beliefs reparameterise the model. *)
Lemma Init_inv c noise tl evid uai vs regs lams :
  Forall (fun s => 0 < s)%nat vs -> Forall (input_ok (length vs)) (combine regs lams) ->
  (forall si loc, 0 <= noise si loc) ->
  let st := Init c noise (MPLPAlg_new c tl evid uai) vs regs lams in
  run_inv st /\ (CSP_instance st = false -> rep_ok st) /\ evidence st = evidence (MPLPAlg_new c tl evid uai).
Proof.
  intros Hpos Hin Hn st. subst st. unfold Init.
  pose proof (init_singletons_inv c tl evid uai vs Hpos) as I0.
  destruct (init_fold_inv (combine regs lams) _ I0 Hin) as ((W1 & R1 & _) & F1).
  destruct (init_decoded_inv _ W1 R1) as (W2 & R2 & E2).
  destruct F1 as (_ & Fe & _ & _ & Fc & _).
  destruct (init_uai_inv c noise _ Hn W2 R2 E2) as [I3 R3]; [exact Fc|].
  split; [exact I3|]. split; [exact R3|].
  rewrite init_uai_evidence. exact Fe.
Qed.


(** C3.  End to end: for any model whose variables have non-empty domains
    and whose input regions name distinct variables and come with a
    potential, and for any non-negative CSP noise, after [Init] and at
    least one iteration of [RunMPLP] the objective [RunMPLP] last recorded
    bounds the score of every full assignment, the evidence is the one
    given to the constructor and every evidence variable is decoded to its
    evidence state. *)
Theorem Init_RunMPLP_bound `{GlobalDecoder gd} c noise tl evid uai vs regs lams clk niter thr1 thr2 :
  Forall (fun s => 0 < s)%nat vs -> Forall (input_ok (length vs)) (combine regs lams) ->
  (forall si loc, 0 <= noise si loc) -> (0 < niter)%nat ->
  let st := RunMPLP c gd clk niter thr1 thr2 (Init c noise (MPLPAlg_new c tl evid uai) vs regs lams) in
  (forall x, in_bounds (m_var_sizes st) x -> IntVal st x <= last_obj st) /\ ev_ok st /\ evidence st = evid.
Proof.
  intros Hpos Hin Hn Hit st. subst st. unfold RunMPLP.
  destruct (Init_inv c noise tl evid uai vs regs lams Hpos Hin Hn) as (I & _ & E).
  destruct (run_loop_spec c clk thr1 thr2 niter 0 _ I) as ((W & R & Ev) & _ & _ & E' & O).
  cbv zeta in *. specialize (O Hit).
  split; [|split; [exact Ev|rewrite E', E; reflexivity]].
  intros x Hx. pose proof (R x Hx). pose proof (total_le_dual _ _ _ x (proj1 W) Hx). lra.
Qed.

Lemma Init_RunMPLP_bound_witness :
  let st := RunMPLP ex_consts (RunGlobalDecoding ex_consts false) (fun _ => 0) 5 (1 # 1000) (1 # 1000)
              (Init ex_consts (fun _ _ => 0) (MPLPAlg_new ex_consts 100 ∅ false) [2; 2]%nat
                 [[0; 1]%nat] [[1; 0; 0; 1]]) in
  (forall x, in_bounds (m_var_sizes st) x -> IntVal st x <= last_obj st) /\ ev_ok st /\ evidence st = ∅.
Proof.
  apply (Init_RunMPLP_bound (gd := RunGlobalDecoding ex_consts false)).
  - repeat constructor.
  - simpl. repeat constructor; simpl; try lia; try discriminate.
  - intros; apply Qle_refl.
  - lia.
Defined.


End SolverInit.
