(* ===== verification/ResultFile.v ===== *)
(** * ResultFile: the constructor of [MPLPAlg] and the MPE result file

    The constructor [MPLPAlg::MPLPAlg] (lines 202-222 of
    [src/src/mplp_alg.cpp]) names the result file after the model file
    ([basename] followed by [.MPE]), truncates it and writes the header
    line [MPE], then picks the reader from the last six characters of the
    model file's name: [Init2] for [UAI.LG], [Init] otherwise (lines
    225-254).  Every [Write] (lines 605-628) then appends one solution:
    [-BEGIN-] from the second one on, a line [1], and a line with the
    number of variables followed by the decoded states.

    The file is modelled as its text, a [String.string], with the decimal
    printing of [<<] on an index ([show_nat], Stdlib's [DecimalString]);
    [std::endl] is a newline.  The readers [read_model_file] and
    [read_model_file2] are not in [src/]: they are a [ModelLoader], the
    interface the specification gives them (domain sizes, evidence,
    regions and potentials).  [std::out_of_range], thrown by [substr] on a
    model file name shorter than six characters, is the value
    [out_of_range]; an [assert] that fails is [None].  The parser
    [parse_file] is the reading a consumer of the file makes of it: the
    round trip shows that the file determines the solutions written. *)

From Stdlib Require Import QArith List Lia Arith String Ascii Decimal DecimalString DecimalNat.
From stdpp Require Import base gmap.
From S2P Require Import Prelude Text Vec MulDimArr Region Solver Decoding.
Import ListNotations.
Open Scope mplp_scope.

Module ResultFile.

Import Text.Text Solver.Solver Decoding.Decoding.

Local Open Scope string_scope.

(** ** [Write] (lines 605-628) *)

(** The assignment line of the stringstream [s] (lines 615-622): [n], a
    space, the first [n-1] states each followed by a space, and the last
    state; [m_decoded_res[vi]] past the end reads [0]. *)
Definition asg_line (n : nat) (dec : list nat) : string :=
  show_nat n ++ sp ++
  String.concat "" (map (fun vi => show_nat (nth vi dec 0%nat) ++ sp) (seq 0 (n - 1))) ++
  show_nat (nth (n - 1) dec 0%nat).

(** The stringstream [s] and the [std::endl] after it, for [n] variables
    and the flag [begin]: [-BEGIN-] when [begin] is set, the line [1],
    then the assignment. *)
Definition write_line (n : nat) (b : bool) (dec : list nat) : string :=
  (if b then "-BEGIN-" ++ nl else "") ++ "1" ++ nl ++ asg_line n dec ++ nl.

(** What [Write] appends to the file, or [None] when
    [assert(m_var_sizes.size() > 0)] fails. *)
Definition Write_text (st : MPLPAlg) : option string :=
  let n := length (m_var_sizes st) in
  if Nat.eqb n 0 then None else Some (write_line n (begin st) (m_decoded_res st)).

(** The header the constructor writes (lines 206-208). *)
Definition header : string := "MPE" ++ nl.

(** The file after the writes recorded in [out], for [n] variables. *)
Definition file_text (n : nat) (out : list (bool * list nat)) : string :=
  header ++ String.concat "" (map (fun o => write_line n (fst o) (snd o)) out).

(** ** Reading the file back *)

(** A solution line: [n] and then exactly [n] states, [n > 0]. *)
Definition parse_assignment (l : string) : option (list nat) :=
  match split_on " " l with
  | w :: ws =>
      match read_nat w, read_nats ws with
      | Some n, Some ds => if Nat.eqb (length ds) n && negb (Nat.eqb n 0) then Some ds else None
      | _, _ => None
      end
  | [] => None
  end%list.

(** Where the reader is: before the header, before the first solution,
    after a solution, after [-BEGIN-], after the line [1], at the end. *)
Inductive pstate := PHeader | PFirst | PNext | PBegin | POne | PEnd.

Definition pstep (acc : option (pstate * list (list nat))) (l : string) : option (pstate * list (list nat)) :=
  match acc with
  | None => None
  | Some (p, sols) =>
      match p with
      | PHeader => if String.eqb l "MPE" then Some (PFirst, sols) else None
      | PFirst => if String.eqb l "1" then Some (POne, sols)
                  else if String.eqb l "" then Some (PEnd, sols) else None
      | PNext => if String.eqb l "-BEGIN-" then Some (PBegin, sols)
                 else if String.eqb l "" then Some (PEnd, sols) else None
      | PBegin => if String.eqb l "1" then Some (POne, sols) else None
      | POne => match parse_assignment l with
                | Some d => Some (PNext, (sols ++ [d])%list)
                | None => None
                end
      | PEnd => None
      end
  end.

(** The solutions of a result file: the text ends with a newline, so the
    last piece is empty. *)
Definition parse_file (s : string) : option (list (list nat)) :=
  match fold_left pstep (split_on nl_char s) (Some (PHeader, [])) with
  | Some (PEnd, sols) => Some sols
  | _ => None
  end.

(** ** The constructor (lines 202-222) and [Init(fn)], [Init2] (225-254) *)

(** The file readers, outside [src/]: a model file and an evidence file
    give the domain sizes, the evidence, the regions and their
    potentials. *)
Record ModelLoader := {
  load : string -> string -> list nat * gmap nat nat * list (list nat) * list (list Q)
}.

(** [Init(fn, evid_fn)]: [read_model_file] fills [evidence] in place,
    then [Init(var_sizes, all_factors, all_lambdas)]. *)
Definition Init_file (c : consts) (noise : nat -> nat -> Q) (rd : ModelLoader) (st : MPLPAlg)
    (fn evid_fn : string) : MPLPAlg :=
  let '(var_sizes, ev, all_factors, all_lambdas) := load rd fn evid_fn in
  Init c noise (set_evidence st ev) var_sizes all_factors all_lambdas.

(** [Init2(fn, evid_fn)]: the same with [read_model_file2]. *)
Definition Init2_file (c : consts) (noise : nat -> nat -> Q) (rd2 : ModelLoader) (st : MPLPAlg)
    (fn evid_fn : string) : MPLPAlg :=
  let '(var_sizes, ev, all_factors, all_lambdas) := load rd2 fn evid_fn in
  Init c noise (set_evidence st ev) var_sizes all_factors all_lambdas.

(** [model_file.find_last_of('/')]. *)
Fixpoint find_last_of (c : ascii) (s : string) : option nat :=
  match s with
  | EmptyString => None
  | String a s' =>
      match find_last_of c s' with
      | Some k => Some (S k)
      | None => if Ascii.eqb a c then Some 0%nat else None
      end
  end.

(** [substr(pos)]: from [pos] to the end. *)
Definition substr_from (s : string) (pos : nat) : string := substring pos (String.length s - pos) s.

(** [_res_fname]: the model file's name after its last ['/'], then [.MPE]. *)
Definition res_fname (model_file : string) : string :=
  substr_from model_file (match find_last_of "/" model_file with None => 0 | Some k => S k end) ++ ".MPE".

Inductive ctor_exn := out_of_range.

(** What the constructor leaves: the result file's name and text, and the
    solver or the exception [substr] throws. *)
Record ctor_out := mkCtor {
  out_fname : string;
  out_text : string;
  out_result : MPLPAlg + ctor_exn
}.

(** [tmp = model_file.substr(model_file.length()-6, 6)]: [length()-6]
    wraps below six characters, and [substr] past the end throws. *)
Definition MPLPAlg_ctor (c : consts) (noise : nat -> nat -> Q) (rd rd2 : ModelLoader) (tl : Z)
    (model_file evid_file : string) (uai : bool) : ctor_out :=
  let st := MPLPAlg_new c tl ∅ uai in
  let len := String.length model_file in
  mkCtor (res_fname model_file) header
    (if Nat.ltb len 6 then inr out_of_range
     else if String.eqb (substring (len - 6) 6 model_file) "UAI.LG"
          then inl (Init2_file c noise rd2 st model_file evid_file)
          else inl (Init_file c noise rd st model_file evid_file)).

(** ** The lines of the file *)

(** The lines one [Write] produces. *)
Definition wlines (n : nat) (b : bool) (dec : list nat) : list string :=
  ((if b then ["-BEGIN-"] else []) ++ ["1"; asg_line n dec])%list.

#[local] Arguments asg_line : simpl never.

Lemma asg_line_unsep (n : nat) (dec : list nat) :
  asg_line n dec =
  unsep " " (map show_nat (n :: map (fun vi => nth vi dec 0%nat) (seq 0 (n - 1)))) ++
  show_nat (nth (n - 1) dec 0%nat).
Proof.
  unfold asg_line, sp. cbn [map]. rewrite unsep_cons, str_app_assoc. unfold unsep. now rewrite !map_map.
Qed.

(** The loop over the first [n-1] states and the last state read [dec]. *)
Lemma seq_nth_split (n : nat) (dec : list nat) :
  (0 < n)%nat -> length dec = n ->
  (map (fun vi => nth vi dec 0%nat) (seq 0 (n - 1)) ++ [nth (n - 1) dec 0%nat])%list = dec.
Proof.
  intros Hn Hl. destruct n as [|m]; [lia|]. rewrite Nat.sub_succ, Nat.sub_0_r.
  change [nth m dec 0%nat] with (map (fun vi => nth vi dec 0%nat) [m]).
  rewrite <- map_app, <- seq_S, <- Hl.
  transitivity (map id dec); [symmetry; exact (map_seq_nth id dec 0%nat) | apply map_id].
Qed.

Lemma asg_line_no_nl (n : nat) (dec : list nat) : has_char nl_char (asg_line n dec) = false.
Proof.
  rewrite asg_line_unsep, has_char_app, has_char_unsep by (reflexivity || (apply forallb_show; auto)).
  apply show_nat_digits.
Qed.

Lemma parse_asg (n : nat) (dec : list nat) :
  (0 < n)%nat -> length dec = n -> parse_assignment (asg_line n dec) = Some dec.
Proof.
  intros Hn Hl. unfold parse_assignment.
  rewrite asg_line_unsep, split_on_unsep, split_on_none by (apply show_nat_digits || (apply forallb_show; auto)).
  simpl map. rewrite <- app_comm_cons, read_show.
  replace [show_nat (nth (n - 1) dec 0%nat)] with (map show_nat [nth (n - 1) dec 0%nat]) by reflexivity.
  rewrite <- map_app.
  rewrite seq_nth_split, read_nats_show by assumption.
  rewrite Hl, Nat.eqb_refl. destruct n; [lia|reflexivity].
Qed.

Lemma write_line_unsep (n : nat) (b : bool) (dec : list nat) :
  write_line n b dec = unsep nl_char (wlines n b dec).
Proof. destruct b; reflexivity. Qed.

Lemma file_text_unsep (n : nat) (out : list (bool * list nat)) :
  file_text n out = unsep nl_char ("MPE" :: flat_map (fun o => wlines n (fst o) (snd o)) out).
Proof.
  unfold file_text. rewrite (map_ext _ _ (fun o => write_line_unsep n (fst o) (snd o))).
  now rewrite concat_unsep, unsep_cons.
Qed.

Lemma wlines_no_nl (n : nat) (out : list (bool * list nat)) :
  forallb (fun w => negb (has_char nl_char w)) (flat_map (fun o => wlines n (fst o) (snd o)) out) = true.
Proof.
  induction out as [|[b d] out IH]; [reflexivity|]. cbn [flat_map fst snd].
  rewrite forallb_app, IH. unfold wlines. rewrite forallb_app. cbn [forallb].
  rewrite asg_line_no_nl. now destruct b.
Qed.

Lemma split_file_text (n : nat) (out : list (bool * list nat)) :
  split_on nl_char (file_text n out) =
  (("MPE" :: flat_map (fun o => wlines n (fst o) (snd o)) out) ++ [""])%list.
Proof.
  rewrite file_text_unsep, <- (str_app_nil_r (unsep _ _)), split_on_unsep; [reflexivity|].
  cbn [forallb]. now rewrite wlines_no_nl.
Qed.

(** The begin flags [Write] records: unset on the first write only. *)
Definition flags_ok (out : list (bool * list nat)) : bool :=
  match out with
  | [] => true
  | o :: rest => negb (fst o) && forallb fst rest
  end%list.

Lemma parse_after_first (n : nat) (rest : list (bool * list nat)) (sols : list (list nat)) :
  (0 < n)%nat -> forallb fst rest = true -> Forall (fun o => length (snd o) = n) rest ->
  fold_left pstep (flat_map (fun o => wlines n (fst o) (snd o)) rest ++ [""])%list (Some (PNext, sols))
  = Some (PEnd, sols ++ map snd rest)%list.
Proof.
  intros Hn. revert sols. induction rest as [|[b d] rest IH]; intros sols Hb Hl.
  - simpl. now rewrite app_nil_r.
  - simpl in Hb. apply andb_prop in Hb as [-> Hb]. apply Forall_cons_iff in Hl as [Hd Hl]; simpl in Hd.
    simpl. rewrite parse_asg, IH, <- app_assoc by assumption. reflexivity.
Qed.

(** ** The file a run leaves *)

(** The result file of a solver: the header, then a solution for every
    [Write] recorded in [out_res]. *)
Definition res_file (st : MPLPAlg) : string := file_text (length (m_var_sizes st)) (out_res st).

(** [begin] is set exactly when a solution has been written, and only
    the first solution was written with [begin] unset. *)
Definition begin_ok (st : MPLPAlg) : bool :=
  flags_ok (out_res st) && match out_res st with [] => negb (begin st) | _ => begin st end%list.

Lemma file_text_snoc (n : nat) (out : list (bool * list nat)) (o : bool * list nat) :
  file_text n (out ++ [o])%list = file_text n out ++ write_line n (fst o) (snd o).
Proof.
  unfold file_text. rewrite map_app, concat_nil_app. autorewrite with text. reflexivity.
Qed.

Lemma flags_ok_snoc (out : list (bool * list nat)) (b : bool) (d : list nat) :
  flags_ok out = true -> b = negb (match out with [] => true | _ => false end)%list ->
  flags_ok (out ++ [(b, d)])%list = true.
Proof.
  destruct out as [|o rest]; simpl; intros H ->; [reflexivity|].
  apply andb_prop in H as [H1 H2]. now rewrite H1, forallb_app, H2.
Qed.

(** ** The constructor *)

Lemma find_last_of_app (c : ascii) (a s : string) :
  find_last_of c (a ++ s) =
  match find_last_of c s with Some k => Some (String.length a + k)%nat | None => find_last_of c a end.
Proof.
  induction a as [|x a IH]; str_simpl; simpl.
  - now destruct (find_last_of c s).
  - rewrite IH. now destruct (find_last_of c s).
Qed.

Lemma find_last_of_none (c : ascii) (s : string) : has_char c s = false -> find_last_of c s = None.
Proof.
  induction s as [|x s IH]; simpl; [reflexivity|].
  intros [-> H]%orb_false_elim. now rewrite IH.
Qed.

Lemma substring_app_r (a s : string) (k m : nat) :
  substring (String.length a + k) m (a ++ s) = substring k m s.
Proof. induction a; str_simpl; simpl; auto. Qed.

Lemma substring_full (s : string) : substring 0 (String.length s) s = s.
Proof. induction s; simpl; congruence. Qed.

(** ** Theorems *)

(** C33. Round trip of the result file: for [n > 0] variables, writes
    whose [begin] flags follow [Write]'s protocol (unset on the first
    only) and assignments of [n] states each, reading back the text the
    constructor and the [Write]s leave gives exactly the assignments
    written, in order. *)
Theorem parse_file_text (n : nat) (out : list (bool * list nat)) :
  (0 < n)%nat -> flags_ok out = true -> Forall (fun o => length (snd o) = n) out ->
  parse_file (file_text n out) = Some (map snd out).
Proof.
  intros Hn Hf Hl. unfold parse_file. rewrite split_file_text.
  destruct out as [|[b d] rest]; [reflexivity|].
  simpl in Hf. apply andb_prop in Hf as [Hb Hf]. destruct b; [discriminate|].
  apply Forall_cons_iff in Hl as [Hd Hl]. simpl.
  rewrite parse_asg, parse_after_first by assumption. reflexivity.
Qed.

Lemma parse_file_text_witness :
  let out := [(false, [0; 1]); (true, [1; 12])]%nat in
  ((0 < 2)%nat /\ flags_ok out = true /\ Forall (fun o => length (snd o) = 2%nat) out) /\
  parse_file (file_text 2 out) = Some [[0; 1]; [1; 12]]%nat.
Proof.
  cbv zeta. split; [split; [lia | split; [reflexivity | repeat constructor]]|].
  apply (parse_file_text 2); [lia | reflexivity | repeat constructor].
Defined.

(** C34. [Write] keeps the file's begin protocol and appends exactly its
    text: from a state where [begin] is set iff a solution was written,
    and only the first solution was written with [begin] unset, a [Write]
    whose [assert(m_var_sizes.size() > 0)] holds leaves such a state, and
    the result file grows by the text [Write] prints, no more. *)
Theorem Write_appends (st : MPLPAlg) (l : string) :
  begin_ok st = true -> Write_text st = Some l ->
  begin_ok (Write st) = true /\ res_file (Write st) = res_file st ++ l.
Proof.
  unfold begin_ok, Write_text, res_file, Write. simpl. intros H Hw.
  destruct (Nat.eqb (length (m_var_sizes st)) 0); [discriminate|]. injection Hw as <-.
  apply andb_prop in H as [Hf Hb]. split.
  - rewrite flags_ok_snoc; [|exact Hf|]; destruct (out_res st) as [|o os]; simpl.
    + now apply negb_true_iff in Hb.
    + destruct os; reflexivity.
    + now apply negb_true_iff in Hb.
    + exact Hb.
  - apply file_text_snoc.
Qed.

Lemma Write_appends_witness :
  let st := Init ex_consts (fun _ _ => 0) (MPLPAlg_new ex_consts 10 ∅ false) [2; 2]%nat [] [] in
  (begin_ok st = true /\ Write_text st = Some (write_line 2 false (m_decoded_res st))) /\
  begin_ok (Write st) = true /\ res_file (Write st) = res_file st ++ write_line 2 false (m_decoded_res st).
Proof.
  cbv zeta. split; [split; vm_compute; reflexivity|].
  apply Write_appends; vm_compute; reflexivity.
Defined.

(** C35. The constructor on a model file [dir/b]: the result file is
    named [b.MPE] and holds the header [MPE] before anything else runs;
    a name shorter than six characters makes
    [model_file.substr(model_file.length()-6, 6)] throw
    [std::out_of_range] after the header is written, and a name ending
    in [UAI.LG] is read by [Init2]. *)
Theorem MPLPAlg_ctor_spec (c : consts) (noise : nat -> nat -> Q) (rd rd2 : ModelLoader) (tl : Z)
    (dir b evf : string) (uai : bool) :
  has_char "/" b = false ->
  let mf := dir ++ String "/" b in
  let o := MPLPAlg_ctor c noise rd rd2 tl mf evf uai in
  out_fname o = b ++ ".MPE" /\ out_text o = header /\
  ((String.length mf < 6)%nat -> out_result o = inr out_of_range) /\
  (forall pre, mf = pre ++ "UAI.LG" ->
     out_result o = inl (Init2_file c noise rd2 (MPLPAlg_new c tl ∅ uai) mf evf)).
Proof.
  intros Hb mf o. subst o. unfold MPLPAlg_ctor. cbn [out_fname out_text out_result].
  split; [|split; [reflexivity|split]].
  - unfold res_fname, substr_from, mf. rewrite find_last_of_app. simpl find_last_of.
    rewrite find_last_of_none by exact Hb.
    rewrite str_length_app, <- Nat.add_succ_r, substring_app_r. simpl String.length.
    replace (String.length dir + S (String.length b) - (String.length dir + 1))%nat
      with (String.length b) by lia.
    change (substring 1 ?m (String _ b)) with (substring 0 m b). now rewrite substring_full.
  - intros Hl. apply Nat.ltb_lt in Hl. now rewrite Hl.
  - intros pre Hpre. rewrite Hpre, str_length_app. simpl String.length.
    replace (String.length pre + 6 - 6)%nat with (String.length pre + 0)%nat by lia.
    rewrite substring_app_r.
    replace (String.length pre + 6 <? 6)%nat with false by (symmetry; apply Nat.ltb_ge; lia).
    reflexivity.
Qed.

(** No model at all: the readers of the witness below. *)
Definition ex_loader : ModelLoader := {| load := fun _ _ => ([], ∅, [], []) |}.

Lemma MPLPAlg_ctor_spec_witness :
  let o := MPLPAlg_ctor ex_consts (fun _ _ => 0) ex_loader ex_loader 10 ("" ++ String "/" "m.lg") "" false in
  has_char "/" "m.lg" = false /\
  out_fname o = "m.lg" ++ ".MPE" /\ out_text o = header /\ out_result o = inr out_of_range.
Proof.
  cbv zeta. split; [reflexivity|].
  destruct (MPLPAlg_ctor_spec ex_consts (fun _ _ => 0) ex_loader ex_loader 10 "" "m.lg" "" false)
    as (Hn & Ht & Hs & _); [reflexivity|].
  split; [exact Hn|split; [exact Ht|apply Hs; vm_compute; lia]].
Defined.

End ResultFile.
